(** * Sequence sets of temporal values

    A shallow embedding of [src/TemporalS.c] (MobilityDB): the sequence-set
    constructor, the binary search by timestamp, synchronisation, the
    restriction operators, the wire format and the comparison operators,
    together with the properties the specification states about them.

    Conventions.
    - C [int] values are integers in [Z]; the arithmetic of the binary
      search wraps at 32 bits ([int_wrap]).
    - [TimestampTz] is the host's 64-bit microsecond count, a [Z].
    - A function that reports through [ereport(ERROR, ...)] returns a
      [result]; dereferencing a NULL or out-of-range pointer, which
      includes handing NULL to [pfree], is the separate outcome [Fault].
    - Memory has no bound.  [palloc] and [pfree] appear where the
      behaviour depends on them: a request of negative size, a buffer
      that is written by index, a release of NULL, a use after release.
      The index support functions, which hand out pointers to what they
      allocate, thread a heap.
    - Functions the source calls but which live in other files of the
      repository are either section variables with the contract the
      theorems need, or definitions marked as modelled from the
      specification. *)

From Stdlib Require Import Strings.String Strings.Byte ZArith List Bool Lia.
From Stdlib Require Floats.PrimFloat Floats.SpecFloat Floats.FloatOps.
From Stdlib Require Numbers.Cyclic.Int63.Uint63.
Import ListNotations.
Local Open Scope Z_scope.

(** ** Host scalars *)

Definition TimestampTz := Z.
Definition Oid := Z.
Definition Datum := Z.

(** 32-bit two's complement wrap-around of a C [int]. *)
Definition int_wrap (z : Z) : Z := (z + 2 ^ 31) mod 2 ^ 32 - 2 ^ 31.
Definition int_add (a b : Z) : Z := int_wrap (a + b).
Definition int_sub (a b : Z) : Z := int_wrap (a - b).
(** C division truncates towards zero. *)
Definition int_div (a b : Z) : Z := int_wrap (Z.quot a b).

(** The host comparison of two timestamps: -1, 0 or 1. *)
Definition timestamp_cmp_internal (a b : TimestampTz) : Z :=
  match a ?= b with
  | Lt => -1
  | Eq => 0
  | Gt => 1
  end.

(** ** Outcomes *)

(** The [ereport] calls of the file, by error code and message. *)
Inductive error : Type :=
| RestrictViolation (msg : string)
| InternalError (msg : string)
| ProtocolViolation (msg : string).

Inductive result (A : Type) : Type :=
| Ok (a : A)
| Err (e : error)
| Fault.

Arguments Ok {A} a.
Arguments Err {A} e.
Arguments Fault {A}.

Definition bind {A B : Type} (r : result A) (f : A -> result B) : result B :=
  match r with
  | Ok a => f a
  | Err e => Err e
  | Fault => Fault
  end.

Notation "x <- r ;; k" := (bind r (fun x => k))
  (at level 61, r at next level, right associativity).

Definition msg_no_sequence : string :=
  "A temporal sequence set must have at least one temporal sequence"%string.
Definition msg_invalid_sequence : string :=
  "Invalid sequence for temporal sequence set"%string.
Definition msg_srid : string :=
  "All geometries composing a temporal point must be of the same srid"%string.
Definition msg_dimensionality : string :=
  "All geometries composing a temporal point must be of the same dimensionality"%string.

(** The specification's error kind [InvalidSequenceSet]: overlapping or
    invalidly adjacent input sequences, or no sequence at all. *)
Definition InvalidSequenceSet (e : error) : Prop :=
  e = RestrictViolation msg_no_sequence \/
  e = RestrictViolation msg_invalid_sequence.

(** ** Data model *)

Record Period : Type := mkPeriod {
  lower : TimestampTz;
  upper : TimestampTz;
  lower_inc : bool;
  upper_inc : bool
}.

Record TemporalInst : Type := mkInst {
  inst_value : Datum;
  inst_t : TimestampTz;
  inst_valuetypid : Oid
}.

(** The bits of the [flags] field the file reads and writes. *)
Record Flags : Type := mkFlags {
  continuous : bool;
  tempcontinuous : bool;
  hasz : bool
}.

Record TemporalSeq : Type := mkSeq {
  seq_count : Z;
  seq_valuetypid : Oid;
  seq_flags : Flags;
  period : Period;
  instants : list TemporalInst
}.

(** The cached bounding box: value range on [x], time range on [y]. *)
Record BOX : Type := mkBox {
  low_x : Z;
  low_y : Z;
  high_x : Z;
  high_y : Z
}.

(** A sequence set.  The offset table of the packed buffer is the list
    structure of [sequences]; [bbox] is [None] for value types without a
    precomputed box ([temporal_bbox_size] is 0). *)
Record TemporalS : Type := mkTS {
  count : Z;
  valuetypid : Oid;
  flags : Flags;
  sequences : list TemporalSeq;
  bbox : option BOX
}.

(** [array[index]] for a C array held as a list: nothing outside it. *)
Definition array_get {A : Type} (l : list A) (index : Z) : option A :=
  if index <? 0 then None else nth_error l (Z.to_nat index).

Definition temporals_seq_n (ts : TemporalS) (index : Z) : option TemporalSeq :=
  array_get (sequences ts) index.

Definition temporalseq_inst_n (seq : TemporalSeq) (index : Z) : option TemporalInst :=
  array_get (instants seq) index.

(** ** Period primitives *)

(** Modelled from the spec: [contains_period_timestamp_internal] is in
    the period file, not under src/; section 4.3 says a period contains [t]
    inclusive of its own bound flags. *)
Definition contains_period_timestamp_internal (p : Period) (t : TimestampTz) : bool :=
  ((lower p <? t) || ((lower p =? t) && lower_inc p)) &&
  ((t <? upper p) || ((t =? upper p) && upper_inc p)).

(** Modelled from the spec: [overlaps_period_period_internal] is in the
    period file; section 4.1: [[a,b)] and [[b,c]] do not overlap, [[a,b]]
    and [[b,c]] do. *)
Definition overlaps_period_period_internal (p1 p2 : Period) : bool :=
  ((lower p1 <? upper p2) || ((lower p1 =? upper p2) && lower_inc p1 && upper_inc p2)) &&
  ((lower p2 <? upper p1) || ((lower p2 =? upper p1) && lower_inc p2 && upper_inc p1)).

(** Modelled from the spec: [contains_period_period_internal p1 p2], the
    period file's test that [p1] contains [p2], bound flags included. *)
Definition contains_period_period_internal (p1 p2 : Period) : bool :=
  ((lower p1 <? lower p2) || ((lower p1 =? lower p2) && (lower_inc p1 || negb (lower_inc p2)))) &&
  ((upper p2 <? upper p1) || ((upper p2 =? upper p1) && (upper_inc p1 || negb (upper_inc p2)))).

(** Modelled from the spec: [period_eq_internal] and [period_lt_internal]
    are in the period file; section 4.1 gives the total order: by lower
    bound, then lower inclusivity, then upper bound, then upper
    inclusivity. *)
Definition period_eq_internal (p1 p2 : Period) : bool :=
  (lower p1 =? lower p2) && (upper p1 =? upper p2) &&
  Bool.eqb (lower_inc p1) (lower_inc p2) && Bool.eqb (upper_inc p1) (upper_inc p2).

Definition bool_cmp (a b : bool) : Z :=
  match a, b with
  | false, true => -1
  | true, false => 1
  | _, _ => 0
  end.

Definition period_cmp_internal (p1 p2 : Period) : Z :=
  let c1 := timestamp_cmp_internal (lower p1) (lower p2) in
  if negb (c1 =? 0) then c1 else
  let c2 := bool_cmp (lower_inc p2) (lower_inc p1) in
  if negb (c2 =? 0) then c2 else
  let c3 := timestamp_cmp_internal (upper p1) (upper p2) in
  if negb (c3 =? 0) then c3 else
  bool_cmp (upper_inc p1) (upper_inc p2).

Definition period_lt_internal (p1 p2 : Period) : bool :=
  period_cmp_internal p1 p2 <? 0.

(** Modelled from the spec: [period_set] of the period file fills a
    period from its four components. *)
Definition period_set (l u : TimestampTz) (li ui : bool) : Period :=
  mkPeriod l u li ui.

(** ** Validity of a sequence set (specification, section 3) *)

(** Interval invariant: [lower <= upper], and a degenerate interval has
    both bounds inclusive. *)
Definition period_valid (p : Period) : bool :=
  (lower p <? upper p) || ((lower p =? upper p) && lower_inc p && upper_inc p).

(** The test of the constructor's loop (lines 113-115) on the pair
    [sequences[i-1]], [sequences[i]]: true when the pair is rejected. *)
Definition seq_pair_invalid (a b : TemporalSeq) : bool :=
  (timestamp_cmp_internal (upper (period a)) (lower (period b)) >? 0) ||
  ((timestamp_cmp_internal (upper (period a)) (lower (period b)) =? 0) &&
   upper_inc (period a) && lower_inc (period b)).

Fixpoint seqarr_ordered (l : list TemporalSeq) : bool :=
  match l with
  | a :: (b :: _) as rest => negb (seq_pair_invalid a b) && seqarr_ordered rest
  | _ => true
  end.

Definition valid_temporals (ts : TemporalS) : Prop :=
  count ts = Z.of_nat (length (sequences ts)) /\
  1 <= count ts /\
  forallb (fun s => period_valid (period s)) (sequences ts) = true /\
  seqarr_ordered (sequences ts) = true.

(** ** Binary search (lines 201-226) *)

(** The [while (first <= last)] loop.  [middle] and [seq] are the
    variables of the same name; [seq] is NULL ([None]) until the first
    iteration.  The result is [None] when the C code would dereference an
    invalid pointer, or when [fuel] runs out. *)
Fixpoint find_timestamp_loop (fuel : nat) (ts : TemporalS) (t : TimestampTz)
    (first last middle : Z) (seq : option TemporalSeq) : option (bool * Z) :=
  if first <=? last then
    match fuel with
    | O => None
    | S fuel' =>
        let middle := int_div (int_add first last) 2 in
        match temporals_seq_n ts middle with
        | None => None
        | Some seq =>
            if contains_period_timestamp_internal (period seq) t then
              Some (true, middle)
            else if timestamp_cmp_internal t (lower (period seq)) <=? 0 then
              find_timestamp_loop fuel' ts t first (int_sub middle 1) middle (Some seq)
            else
              find_timestamp_loop fuel' ts t (int_add middle 1) last middle (Some seq)
        end
    end
  else
    match seq with
    | None => None
    | Some seq =>
        let middle :=
          if timestamp_cmp_internal t (upper (period seq)) >=? 0
          then int_add middle 1 else middle in
        Some (false, middle)
    end.

(** [temporals_find_timestamp ts t] is [Some (found, pos)]: the returned
    boolean and the value stored in [*pos]. *)
Definition temporals_find_timestamp (ts : TemporalS) (t : TimestampTz)
  : option (bool * Z) :=
  find_timestamp_loop (S (Z.to_nat (count ts))) ts t 0 (int_sub (count ts) 1) 0 None.

(** The specification's example: closed periods over [lo, hi]. *)
Definition closed_seq (lo hi : Z) : TemporalSeq :=
  mkSeq 2 23 (mkFlags false false false) (mkPeriod lo hi true true)
        [mkInst 1 lo 23; mkInst 1 hi 23].

Definition example_ts : TemporalS :=
  mkTS 3 23 (mkFlags false false false)
       [closed_seq 0 10; closed_seq 20 30; closed_seq 40 50] None.


(** ** Counted loops and arrays *)

(** [for (i = from; i < to; i++) body], threading a state and stopping at
    the first error.  A counter that stays below an [int] count cannot
    overflow, so it is incremented in [Z]. *)
Fixpoint for_loop {S : Type} (n : nat) (i : Z) (body : Z -> S -> result S) (s : S)
  : result S :=
  match n with
  | O => Ok s
  | S n' => s' <- body i s ;; for_loop n' (i + 1) body s'
  end.

Definition for_range {S : Type} (from to : Z) (body : Z -> S -> result S) (s : S)
  : result S :=
  for_loop (Z.to_nat (to - from)) from body s.

(** [for (j = 0; j < n; j++) a[j] = f (a[j])] on an array held as a list;
    [None] when the array has fewer than [n] elements. *)
Fixpoint array_map_n {A : Type} (f : A -> A) (n : nat) (l : list A) : option (list A) :=
  match n, l with
  | O, _ => Some l
  | S n', x :: r => option_map (cons (f x)) (array_map_n f n' r)
  | S _, [] => None
  end.

(** The first [n] cells of an array, as the callee sees them through the
    pair (pointer, count); [Fault] when the array is shorter. *)
Definition array_prefix {A : Type} (l : list A) (n : Z) : result (list A) :=
  if Z.of_nat (length l) <? n then Fault else Ok (firstn (Z.to_nat n) l).

(** ** Constructor (lines 90-185) *)

Section Constructor.

(** Whether the file is compiled with [WITH_POSTGIS]. *)
Variable with_postgis : bool.
(** [type_oid(T_GEOMETRY)] and [type_oid(T_GEOGRAPHY)]. *)
Variable geometry_oid geography_oid : Oid.
(** [tpoint_srid_internal], from the temporal point file. *)
Variable tpoint_srid_internal : TemporalSeq -> Z.
(** [temporalseqarr_normalize (sequences, count, &newcount)], from the
    sequence file: the new array, whose length is [newcount]. *)
Variable temporalseqarr_normalize : list TemporalSeq -> list TemporalSeq.
(** [temporal_bbox_size] and [temporals_make_bbox], from the bounding box
    file. *)
Variable temporal_bbox_size : Oid -> Z.
Variable temporals_make_bbox : list TemporalSeq -> BOX.

Definition is_geo (valuetypid : Oid) : bool :=
  with_postgis && ((valuetypid =? geometry_oid) || (valuetypid =? geography_oid)).

(** One iteration of the validity loop (lines 111-132); the state is
    [tempcontinuous]. *)
Definition from_seqarr_check (sequences : list TemporalSeq) (isgeo : bool)
    (srid : Z) (hasz0 : bool) (i : Z) (tempcont : bool) : result bool :=
  match array_get sequences (i - 1), array_get sequences i with
  | Some prev, Some cur =>
      if seq_pair_invalid prev cur then
        Err (RestrictViolation msg_invalid_sequence)
      else
        let tempcont' := tempcont &&
          ((timestamp_cmp_internal (upper (period prev)) (lower (period cur)) =? 0) &&
           (upper_inc (period prev) || lower_inc (period cur))) in
        if isgeo then
          if negb (tpoint_srid_internal cur =? srid) then
            Err (RestrictViolation msg_srid)
          else if negb (Bool.eqb (hasz (seq_flags cur)) hasz0) then
            Err (RestrictViolation msg_dimensionality)
          else Ok tempcont'
        else Ok tempcont'
  | _, _ => Fault
  end.

Definition temporals_from_temporalseqarr (sequences : list TemporalSeq)
    (count : Z) (normalize : bool) : result TemporalS :=
  match array_get sequences 0 with
  | None => Fault
  | Some seq0 =>
      let valuetypid := seq_valuetypid seq0 in
      if count <? 1 then Err (RestrictViolation msg_no_sequence) else
      let isgeo := is_geo valuetypid in
      let hasz0 := hasz (seq_flags seq0) in
      let srid := tpoint_srid_internal seq0 in
      tempcont <- for_range 1 count
                    (from_seqarr_check sequences isgeo srid hasz0) true ;;
      input <- array_prefix sequences count ;;
      let newsequences :=
        if normalize && (1 <? count)
        then temporalseqarr_normalize input else input in
      let newcount := Z.of_nat (length newsequences) in
      match array_get newsequences 0 with
      | None => Fault
      | Some new0 =>
          Ok (mkTS newcount valuetypid
                (mkFlags (continuous (seq_flags new0)) tempcont
                         (if isgeo then hasz0 else false))
                newsequences
                (if negb (temporal_bbox_size valuetypid =? 0)
                 then Some (temporals_make_bbox newsequences) else None))
      end
  end.

End Constructor.

(** ** Specification predicates on periods *)

(** [p] lies to the left of [q]: the pair passes the constructor's test. *)
Definition period_left (p q : Period) : Prop :=
  upper p < lower q \/
  (upper p = lower q /\ (upper_inc p = false \/ lower_inc q = false)).

(** Every instant of [p] is before [t]. *)
Definition period_before (p : Period) (t : TimestampTz) : Prop :=
  upper p < t \/ (upper p = t /\ upper_inc p = false).

(** Every instant of [p] is after [t]. *)
Definition period_after (p : Period) (t : TimestampTz) : Prop :=
  t < lower p \/ (t = lower p /\ lower_inc p = false).

(** What the search promises for an answer [(found, pos)]. *)
Definition find_timestamp_post (ts : TemporalS) (t : TimestampTz)
    (found : bool) (pos : Z) : Prop :=
  if found then
    exists seq, temporals_seq_n ts pos = Some seq /\
                contains_period_timestamp_internal (period seq) t = true
  else
    0 <= pos <= count ts /\
    forall j seq, temporals_seq_n ts j = Some seq ->
      (j < pos -> period_before (period seq) t) /\
      (pos <= j -> period_after (period seq) t).

(** ** Specification predicates on the constructor's input *)

(** Sequence [a] ends after sequence [b] starts. *)
Definition pair_overlaps (a b : TemporalSeq) : Prop :=
  lower (period b) < upper (period a).

(** [a] and [b] meet at one timestamp that both include. *)
Definition pair_abuts_inclusive (a b : TemporalSeq) : Prop :=
  upper (period a) = lower (period b) /\
  upper_inc (period a) = true /\ lower_inc (period b) = true.

(** Some consecutive pair [sequences[i-1]], [sequences[i]] with
    [1 <= i < count] satisfies [P]. *)
Definition some_pair (P : TemporalSeq -> TemporalSeq -> Prop)
    (sequences : list TemporalSeq) (count : Z) : Prop :=
  exists i a b, 1 <= i < count /\
    array_get sequences (i - 1) = Some a /\ array_get sequences i = Some b /\
    P a b.

(** Some sequence after the first differs from the first in SRID or in
    having a Z dimension. *)
Definition some_geo_mismatch (srid_of : TemporalSeq -> Z)
    (sequences : list TemporalSeq) (count : Z) : Prop :=
  exists i seq0 b, 1 <= i < count /\
    array_get sequences 0 = Some seq0 /\ array_get sequences i = Some b /\
    (srid_of b <> srid_of seq0 \/ hasz (seq_flags b) <> hasz (seq_flags seq0)).

(** The error, if any, that iteration [i] of the validity loop raises;
    it does not depend on the loop's state. *)
Definition from_seqarr_error (srid_of : TemporalSeq -> Z)
    (sequences : list TemporalSeq) (isgeo : bool) (srid : Z) (hasz0 : bool)
    (i : Z) : option error :=
  match array_get sequences (i - 1), array_get sequences i with
  | Some prev, Some cur =>
      if seq_pair_invalid prev cur then Some (RestrictViolation msg_invalid_sequence)
      else if isgeo && negb (srid_of cur =? srid) then Some (RestrictViolation msg_srid)
      else if isgeo && negb (Bool.eqb (hasz (seq_flags cur)) hasz0)
           then Some (RestrictViolation msg_dimensionality)
      else None
  | _, _ => None
  end.

(** ** Example values *)

(** For the examples a geometry datum is its SRID, so the SRID of a
    sequence is the value of its first instant. *)
Definition example_srid (s : TemporalSeq) : Z :=
  match instants s with
  | i :: _ => inst_value i
  | [] => 0
  end.

Definition geo_seq (srid lo hi : Z) : TemporalSeq :=
  mkSeq 2 100 (mkFlags true false false) (mkPeriod lo hi true true)
        [mkInst srid lo 100; mkInst srid hi 100].

(** Normalisation that merges nothing, and a box maker that only records
    the time range: the simplest collaborators, used by the examples. *)
Definition normalize_none (l : list TemporalSeq) : list TemporalSeq := l.

Definition time_box (l : list TemporalSeq) : BOX :=
  mkBox 0
        (fold_right (fun s acc => Z.min (lower (period s)) acc)
                    (match l with s :: _ => lower (period s) | [] => 0 end) l)
        0
        (fold_right (fun s acc => Z.max (upper (period s)) acc)
                    (match l with s :: _ => upper (period s) | [] => 0 end) l).

(** ** Intersection with a timestamp (lines 1894-1901) *)

Definition temporals_intersects_timestamp (ts : TemporalS) (t : TimestampTz)
  : option bool :=
  match temporals_find_timestamp ts t with
  | None => None
  | Some (found, n) => if found then Some false else Some true
  end.

(** ** Continuity in value (lines 1087-1102) *)

(** [temporalinst_value], from the instant file: the value of an instant. *)
Definition temporalinst_value (inst : TemporalInst) : Datum := inst_value inst.

Section ContinuousValue.

(** [datum_ne value1 value2 valuetypid], from the datum utilities. *)
Variable datum_ne : Datum -> Datum -> Oid -> bool.

(** The [for] loop from [i]; [seq1] is the variable of that name. *)
Fixpoint continuous_value_loop (n : nat) (ts : TemporalS) (valuetypid : Oid)
    (i : Z) (seq1 : TemporalSeq) : option bool :=
  match n with
  | O => Some true
  | S n' =>
      match temporals_seq_n ts i with
      | None => None
      | Some seq2 =>
          match temporalseq_inst_n seq1 (seq_count seq1 - 1),
                temporalseq_inst_n seq1 0 with
          | Some last1, Some first1 =>
              let value1 := temporalinst_value last1 in
              let value2 := temporalinst_value first1 in
              if datum_ne value1 value2 valuetypid then Some false
              else continuous_value_loop n' ts valuetypid (i + 1) seq2
          | _, _ => None
          end
      end
  end.

Definition temporals_continuous_value_internal (ts : TemporalS) : option bool :=
  match temporals_seq_n ts 0 with
  | None => None
  | Some seq1 =>
      continuous_value_loop (Z.to_nat (count ts - 1)) ts (seq_valuetypid seq1) 1 seq1
  end.

End ContinuousValue.

(** A sequence stores [seq_count] instants, at least one. *)
Definition seq_wf (s : TemporalSeq) : Prop :=
  seq_count s = Z.of_nat (length (instants s)) /\ 1 <= seq_count s.

(** ** Copy and shift (lines 256-263, 1067-1083) *)

(** [memcpy] of the whole value. *)
Definition temporals_copy (ts : TemporalS) : TemporalS := ts.

(** The host's interval: microseconds, days, months. *)
Record Interval : Type := mkInterval {
  time : Z;
  day : Z;
  month : Z
}.

Section Shift.

(** The host's [timestamptz_pl_interval]. *)
Variable timestamptz_pl_interval : TimestampTz -> Interval -> TimestampTz.

(** The assignment to [inst->t]. *)
Definition shift_inst (interval : Interval) (inst : TemporalInst) : TemporalInst :=
  mkInst (inst_value inst) (timestamptz_pl_interval (inst_t inst) interval)
         (inst_valuetypid inst).

(** The inner loop over the instants of [seq]; every other field of the
    sequence, its [period] among them, is left as copied. *)
Definition shift_seq (interval : Interval) (seq : TemporalSeq) : option TemporalSeq :=
  match array_map_n (shift_inst interval) (Z.to_nat (seq_count seq)) (instants seq) with
  | None => None
  | Some insts =>
      Some (mkSeq (seq_count seq) (seq_valuetypid seq) (seq_flags seq) (period seq) insts)
  end.

(** The outer loop over the first [n] sequences of the copy. *)
Fixpoint shift_seqs (interval : Interval) (n : nat) (l : list TemporalSeq)
  : option (list TemporalSeq) :=
  match n, l with
  | O, _ => Some l
  | S n', seq :: r =>
      match shift_seq interval seq, shift_seqs interval n' r with
      | Some seq', Some r' => Some (seq' :: r')
      | _, _ => None
      end
  | S _, [] => None
  end.

Definition temporals_shift (ts : TemporalS) (interval : Interval) : option TemporalS :=
  let result := temporals_copy ts in
  match shift_seqs interval (Z.to_nat (count ts)) (sequences result) with
  | None => None
  | Some seqs =>
      Some (mkTS (count result) (valuetypid result) (flags result) seqs (bbox result))
  end.

End Shift.

(** The data-model invariant of a sequence: the period bounds are the
    timestamps of the first and last instants. *)
Definition seq_period_matches (s : TemporalSeq) : Prop :=
  exists first last,
    temporalseq_inst_n s 0 = Some first /\
    temporalseq_inst_n s (seq_count s - 1) = Some last /\
    lower (period s) = inst_t first /\ upper (period s) = inst_t last.

(** The time range of the cached box spans the instants of the set: from
    the first instant of the first sequence to the last instant of the
    last sequence. *)
Definition bbox_time_matches (ts : TemporalS) : Prop :=
  forall b, bbox ts = Some b ->
    exists s0 sn first last,
      temporals_seq_n ts 0 = Some s0 /\
      temporals_seq_n ts (count ts - 1) = Some sn /\
      temporalseq_inst_n s0 0 = Some first /\
      temporalseq_inst_n sn (seq_count sn - 1) = Some last /\
      low_y b = inst_t first /\ high_y b = inst_t last.

(** An integer sequence set with one sequence, [1@0, 2@10] on [0, 10],
    and a shift by five microseconds. *)
Definition shift_example : TemporalS :=
  mkTS 1 23 (mkFlags false true false)
       [mkSeq 2 23 (mkFlags false false false) (mkPeriod 0 10 true true)
              [mkInst 1 0 23; mkInst 2 10 23]]
       (Some (mkBox 1 0 2 10)).

(** The host's [timestamptz_pl_interval] on an interval of microseconds
    only (no days, no months). *)
Definition pl_microseconds (t : TimestampTz) (d : Interval) : TimestampTz :=
  t + time d.

(** The last and the first instant of [s] have values that [datum_ne]
    does not tell apart. *)
Definition self_continuous (datum_ne : Datum -> Datum -> Oid -> bool)
    (valuetypid : Oid) (s : TemporalSeq) : Prop :=
  exists last first,
    temporalseq_inst_n s (seq_count s - 1) = Some last /\
    temporalseq_inst_n s 0 = Some first /\
    datum_ne (temporalinst_value last) (temporalinst_value first) valuetypid = false.

(** [datum_ne] on integers passed by value. *)
Definition datum_ne_int (a b : Datum) (valuetypid : Oid) : bool := negb (a =? b).

Definition int_seq (v1 t1 v2 t2 : Z) : TemporalSeq :=
  mkSeq 2 23 (mkFlags false false false) (mkPeriod t1 t2 true true)
        [mkInst v1 t1 23; mkInst v2 t2 23].

(** Two integer sequences: the first is constant, the second starts at
    another value. *)
Definition jump_example : TemporalS :=
  mkTS 2 23 (mkFlags false false false)
       [int_seq 1 0 1 10; int_seq 5 20 7 30] (Some (mkBox 1 0 7 30)).

(** Two integer sequences: the first ends at the value the second starts
    with. *)
Definition joined_example : TemporalS :=
  mkTS 2 23 (mkFlags false false false)
       [int_seq 1 0 2 10; int_seq 2 20 2 30] (Some (mkBox 1 0 2 30)).

(** ** Bounding period (lines 810-817) *)

Definition temporals_timespan (ts : TemporalS) : option Period :=
  match temporals_seq_n ts 0, temporals_seq_n ts (count ts - 1) with
  | Some start, Some end_ =>
      Some (period_set (lower (period start)) (upper (period end_))
                       (lower_inc (period start)) (upper_inc (period end_)))
  | _, _ => None
  end.

(** ** Synchronisation of two sequence sets (lines 416-467) *)

Section Synchronize.

Variable with_postgis : bool.
Variable geometry_oid geography_oid : Oid.
Variable tpoint_srid_internal : TemporalSeq -> Z.
Variable temporalseqarr_normalize : list TemporalSeq -> list TemporalSeq.
Variable temporal_bbox_size : Oid -> Z.
Variable temporals_make_bbox : list TemporalSeq -> BOX.

(** [synchronize_temporalseq_temporalseq seq1 seq2 &sync1 &sync2 crossings],
    from the sequence file: [None] for [false]. *)
Variable synchronize_temporalseq_temporalseq :
  TemporalSeq -> TemporalSeq -> bool -> option (TemporalSeq * TemporalSeq).

(** The merge walk; [sequences1] and [sequences2] hold the [k] pairs
    collected so far. *)
Fixpoint synchronize_walk (fuel : nat) (ts1 ts2 : TemporalS) (crossings : bool)
    (i j : Z) (sequences1 sequences2 : list TemporalSeq)
  : option (list TemporalSeq * list TemporalSeq) :=
  if (i <? count ts1) && (j <? count ts2) then
    match fuel with
    | O => None
    | S fuel' =>
        match temporals_seq_n ts1 i, temporals_seq_n ts2 j with
        | Some seq1, Some seq2 =>
            let '(sequences1', sequences2') :=
              match synchronize_temporalseq_temporalseq seq1 seq2 crossings with
              | Some (syncseq1, syncseq2) =>
                  (sequences1 ++ [syncseq1], sequences2 ++ [syncseq2])
              | None => (sequences1, sequences2)
              end in
            if period_eq_internal (period seq1) (period seq2) then
              synchronize_walk fuel' ts1 ts2 crossings (i + 1) (j + 1)
                               sequences1' sequences2'
            else if period_lt_internal (period seq1) (period seq2) then
              synchronize_walk fuel' ts1 ts2 crossings (i + 1) j
                               sequences1' sequences2'
            else
              synchronize_walk fuel' ts1 ts2 crossings i (j + 1)
                               sequences1' sequences2'
        | _, _ => None
        end
    end
  else Some (sequences1, sequences2).

(** [Ok None] is the return value [false]; [Ok (Some (sync1, sync2))] is
    [true] with the two outputs. *)
Definition synchronize_temporals_temporals (ts1 ts2 : TemporalS) (crossings : bool)
  : result (option (TemporalS * TemporalS)) :=
  match temporals_timespan ts1, temporals_timespan ts2 with
  | Some p1, Some p2 =>
      if negb (overlaps_period_period_internal p1 p2) then Ok None else
      match synchronize_walk (Z.to_nat (count ts1 + count ts2)) ts1 ts2 crossings
                             0 0 [] [] with
      | None => Fault
      | Some (sequences1, sequences2) =>
          let k := Z.of_nat (length sequences1) in
          if k =? 0 then Ok None else
          sync1 <- temporals_from_temporalseqarr with_postgis geometry_oid
                     geography_oid tpoint_srid_internal temporalseqarr_normalize
                     temporal_bbox_size temporals_make_bbox sequences1 k false ;;
          sync2 <- temporals_from_temporalseqarr with_postgis geometry_oid
                     geography_oid tpoint_srid_internal temporalseqarr_normalize
                     temporal_bbox_size temporals_make_bbox sequences2 k false ;;
          Ok (Some (sync1, sync2))
      end
  | _, _ => Fault
  end.

End Synchronize.

(** Modelled from the spec: [intersection_period_period_internal] of the
    period file (section 4.1, [intersect]): absent when the periods are
    disjoint, else the larger lower bound and the smaller upper bound, a
    shared bound being inclusive when both are. *)
Definition intersection_period_period_internal (p1 p2 : Period) : option Period :=
  if negb (overlaps_period_period_internal p1 p2) then None else
  let lo := Z.max (lower p1) (lower p2) in
  let hi := Z.min (upper p1) (upper p2) in
  let lo_inc :=
    if lower p1 =? lower p2 then lower_inc p1 && lower_inc p2
    else if lower p2 <? lower p1 then lower_inc p1 else lower_inc p2 in
  let hi_inc :=
    if upper p1 =? upper p2 then upper_inc p1 && upper_inc p2
    else if upper p1 <? upper p2 then upper_inc p1 else upper_inc p2 in
  Some (period_set lo hi lo_inc hi_inc).

(** The simplest sequence-level synchronisation, for the examples: each
    output is its input cut to the common period, with an instant at each
    end. *)
Definition sync_example (seq1 seq2 : TemporalSeq) (crossings : bool)
  : option (TemporalSeq * TemporalSeq) :=
  match intersection_period_period_internal (period seq1) (period seq2) with
  | None => None
  | Some p =>
      let cut (s : TemporalSeq) :=
        mkSeq 2 (seq_valuetypid s) (seq_flags s) p
              [mkInst 1 (lower p) (seq_valuetypid s);
               mkInst 1 (upper p) (seq_valuetypid s)] in
      Some (cut seq1, cut seq2)
  end.

Definition sync_left : TemporalS :=
  mkTS 2 23 (mkFlags false false false)
       [closed_seq 0 10; closed_seq 20 30] None.

Definition sync_right : TemporalS :=
  mkTS 1 23 (mkFlags false false false) [closed_seq 5 25] None.

(** ** Wire format (lines 507-534) *)

Definition byte_of_Z (z : Z) : byte :=
  match Byte.of_N (Z.to_N (z mod 256)) with
  | Some b => b
  | None => x00
  end.

Definition Z_of_byte (b : byte) : Z := Z.of_N (Byte.to_N b).

(** The host's limit on the size of one [palloc] request, and the message
    of the error it raises above it. *)
Definition MaxAllocSize : Z := 1073741823.

Definition msg_alloc : string := "invalid memory alloc request size"%string.

(** The host's [pq_sendint (buf, i, 4)]: the 32-bit value in network
    byte order, appended to the buffer. *)
Definition pq_sendint (buf : list byte) (i : Z) : list byte :=
  let u := i mod 2 ^ 32 in
  buf ++ [byte_of_Z (u / 2 ^ 24); byte_of_Z (u / 2 ^ 16);
          byte_of_Z (u / 2 ^ 8); byte_of_Z u].

(** The host's [pq_getmsgint (buf, 4)]: the unsigned value of the next
    four bytes and the rest of the message. *)
Definition pq_getmsgint (msg : list byte) : result (Z * list byte) :=
  match msg with
  | b3 :: b2 :: b1 :: b0 :: rest =>
      Ok (Z_of_byte b3 * 2 ^ 24 + Z_of_byte b2 * 2 ^ 16 +
          Z_of_byte b1 * 2 ^ 8 + Z_of_byte b0, rest)
  | _ => Err (ProtocolViolation "insufficient data left in message"%string)
  end.

Section Wire.

Variable with_postgis : bool.
Variable geometry_oid geography_oid : Oid.
Variable tpoint_srid_internal : TemporalSeq -> Z.
Variable temporalseqarr_normalize : list TemporalSeq -> list TemporalSeq.
Variable temporal_bbox_size : Oid -> Z.
Variable temporals_make_bbox : list TemporalSeq -> BOX.

(** [temporalseq_write] and [temporalseq_read], from the sequence file:
    the bytes the first appends to the buffer, and the sequence the second
    takes from the front of the message, with the rest of the message. *)
Variable temporalseq_write : TemporalSeq -> list byte.
Variable temporalseq_read : list byte -> Oid -> result (TemporalSeq * list byte).

Definition temporals_write (ts : TemporalS) (buf : list byte) : result (list byte) :=
  for_range 0 (count ts)
    (fun i buf =>
       match temporals_seq_n ts i with
       | Some seq => Ok (buf ++ temporalseq_write seq)
       | None => Fault
       end)
    (pq_sendint buf (count ts)).

(** The result and the unread rest of the message.  The array of [count]
    pointers is requested from [palloc] with a size computed in [size_t],
    where a negative [count] is a request above [MaxAllocSize]: [palloc]
    raises its error before anything is read.  The array itself is the
    list the loop builds; the size of a request with a positive [count] is
    not bounded here, no more than the memory of the constructor. *)
Definition temporals_read (buf : list byte) (valuetypid : Oid)
  : result (TemporalS * list byte) :=
  r <- pq_getmsgint buf ;;
  let count := int_wrap (fst r) in
  if count <? 0 then Err (InternalError msg_alloc) else
  st <- for_range 0 count
          (fun i st =>
             sr <- temporalseq_read (snd st) valuetypid ;;
             Ok (fst st ++ [fst sr], snd sr))
          ([], snd r) ;;
  result <- temporals_from_temporalseqarr with_postgis geometry_oid geography_oid
              tpoint_srid_internal temporalseqarr_normalize temporal_bbox_size
              temporals_make_bbox (fst st) count false ;;
  Ok (result, snd st).

End Wire.

(** Modelled from the spec: the sequence encoding of section 6, which is
    in the sequence file: the instant count, the two bound flags, then
    each instant as a fixed-width (timestamp, value) pair.  This one is for
    four-byte values and rebuilds the period from the first and last
    instants; it sets no flag on the sequence it reads. *)
Definition sendint64 (z : Z) : list byte :=
  pq_sendint (pq_sendint [] (z / 2 ^ 32)) z.

Definition getmsgint64 (msg : list byte) : result (Z * list byte) :=
  hi <- pq_getmsgint msg ;;
  lo <- pq_getmsgint (snd hi) ;;
  Ok (fst hi * 2 ^ 32 + fst lo, snd lo).

Definition temporalinst_write_model (inst : TemporalInst) : list byte :=
  sendint64 (inst_t inst) ++ pq_sendint [] (inst_value inst).

Definition temporalinst_read_model (msg : list byte) (valuetypid : Oid)
  : result (TemporalInst * list byte) :=
  t <- getmsgint64 msg ;;
  v <- pq_getmsgint (snd t) ;;
  Ok (mkInst (fst v) (fst t) valuetypid, snd v).

Fixpoint temporalinsts_read_model (n : nat) (msg : list byte) (valuetypid : Oid)
  : result (list TemporalInst * list byte) :=
  match n with
  | O => Ok ([], msg)
  | S n' =>
      i <- temporalinst_read_model msg valuetypid ;;
      r <- temporalinsts_read_model n' (snd i) valuetypid ;;
      Ok (fst i :: fst r, snd r)
  end.

Definition temporalseq_write_model (seq : TemporalSeq) : list byte :=
  pq_sendint [] (seq_count seq) ++
  [byte_of_Z (Z.b2z (lower_inc (period seq)));
   byte_of_Z (Z.b2z (upper_inc (period seq)))] ++
  concat (map temporalinst_write_model (instants seq)).

Definition temporalseq_read_model (msg : list byte) (valuetypid : Oid)
  : result (TemporalSeq * list byte) :=
  c <- pq_getmsgint msg ;;
  match snd c with
  | li :: ui :: rest =>
      r <- temporalinsts_read_model (Z.to_nat (int_wrap (fst c))) rest valuetypid ;;
      match fst r with
      | [] => Err (RestrictViolation "A temporal sequence must have at least one instant"%string)
      | first :: _ =>
          Ok (mkSeq (int_wrap (fst c)) valuetypid (mkFlags false false false)
                (mkPeriod (inst_t first) (inst_t (last (fst r) first))
                          (negb (Z_of_byte li =? 0)) (negb (Z_of_byte ui =? 0)))
                (fst r),
              snd r)
      end
  | _ => Err (ProtocolViolation "insufficient data left in message"%string)
  end.

(** ** Restriction to the minimum or maximum value (lines 700-756, 1502-1582) *)

Fixpoint list_set {A : Type} (l : list A) (n : nat) (x : A) : list A :=
  match l, n with
  | [], _ => []
  | _ :: r, O => x :: r
  | y :: r, S n' => y :: list_set r n' x
  end.

(** [array[index] = x]; callers stay inside the array. *)
Definition array_set {A : Type} (l : list A) (index : Z) (x : A) : list A :=
  if index <? 0 then l else list_set l (Z.to_nat index) x.

(** [memcpy] of the whole sequence. *)
Definition temporalseq_copy (seq : TemporalSeq) : TemporalSeq := seq.

(** [seq->period.lower_inc = li; seq->period.upper_inc = ui]. *)
Definition seq_set_inc (seq : TemporalSeq) (li ui : bool) : TemporalSeq :=
  mkSeq (seq_count seq) (seq_valuetypid seq) (seq_flags seq)
        (mkPeriod (lower (period seq)) (upper (period seq)) li ui)
        (instants seq).

Definition INT4OID : Oid := 23.
Definition FLOAT8OID : Oid := 701.

(** The body of the inner loop of [temporals_at_minmax] (lines 1527-1536):
    store fragment [j] of the current sequence at [allseqs[k++]], then
    repair the bound shared with the fragment stored before it. *)
Definition minmax_push (allseqs : list TemporalSeq) (j : Z) (frag : TemporalSeq)
  : list TemporalSeq :=
  let allseqs := allseqs ++ [frag] in
  let k := Z.of_nat (length allseqs) in
  if (1 <? k) && (j =? 0) then
    match array_get allseqs (k - 2), array_get allseqs (k - 1) with
    | Some prev, Some cur =>
        if (timestamp_cmp_internal (upper (period prev)) (lower (period cur)) =? 0)
           && upper_inc (period prev) && lower_inc (period cur)
        then array_set allseqs (k - 2)
               (seq_set_inc prev (lower_inc (period prev)) false)
        else allseqs
    | _, _ => allseqs
    end
  else allseqs.

(** The inner loop over the fragments of one sequence, from index [j]. *)
Fixpoint minmax_inner (allseqs : list TemporalSeq) (j : Z) (frags : list TemporalSeq)
  : list TemporalSeq :=
  match frags with
  | [] => allseqs
  | frag :: rest => minmax_inner (minmax_push allseqs j frag) (j + 1) rest
  end.

(** The outer loop over [sequences[0 .. count-1]]. *)
Definition minmax_collect (sequences : list (list TemporalSeq)) : list TemporalSeq :=
  fold_left (fun allseqs frags => minmax_inner allseqs 0 frags) sequences [].

Section MinMax.

Variable with_postgis : bool.
Variable geometry_oid geography_oid : Oid.
Variable tpoint_srid_internal : TemporalSeq -> Z.
Variable temporalseqarr_normalize : list TemporalSeq -> list TemporalSeq.
Variable temporal_bbox_size : Oid -> Z.
Variable temporals_make_bbox : list TemporalSeq -> BOX.

(** From the sequence file: [temporalseq_at_value2 (seq, value,
    valuetypid, &count)] returns the array of the [count] fragments of
    [seq] at [value]; [temporalseq_at_min] and [temporalseq_at_max]
    return a sequence set; [temporalseq_min_value] and
    [temporalseq_max_value] a value.  From the datum utilities:
    [datum_lt], [datum_gt]. *)
Variable temporalseq_at_value2 : TemporalSeq -> Datum -> Oid -> list TemporalSeq.
Variable temporalseq_at_min temporalseq_at_max : TemporalSeq -> result TemporalS.
Variable temporalseq_min_value temporalseq_max_value : TemporalSeq -> Datum.
Variable datum_lt datum_gt : Datum -> Datum -> Oid -> bool.

(** The first loop of [temporals_at_minmax] for one sequence: the
    fragments of a copy with both bounds made inclusive. *)
Definition minmax_fragments (value : Datum) (seq : TemporalSeq) : list TemporalSeq :=
  let seq1 := seq_set_inc (temporalseq_copy seq) true true in
  temporalseq_at_value2 seq1 value (seq_valuetypid seq1).

Definition temporals_at_minmax (ts : TemporalS) (value : Datum) : result TemporalS :=
  seqs <- array_prefix (sequences ts) (count ts) ;;
  let allseqs := minmax_collect (map (minmax_fragments value) seqs) in
  let totalseqs := Z.of_nat (length allseqs) in
  temporals_from_temporalseqarr with_postgis geometry_oid geography_oid
    tpoint_srid_internal temporalseqarr_normalize temporal_bbox_size
    temporals_make_bbox allseqs totalseqs true.

(** The loop of the general case of [temporals_min_value] and
    [temporals_max_value], over sequences 1 to [count - 1]. *)
Definition extreme_value (seq_value : TemporalSeq -> Datum)
    (better : Datum -> Datum -> Oid -> bool) (ts : TemporalS) : result Datum :=
  match temporals_seq_n ts 0 with
  | None => Fault
  | Some seq0 =>
      for_range 1 (count ts)
        (fun i result =>
           match temporals_seq_n ts i with
           | None => Fault
           | Some seq =>
               let value := seq_value seq in
               Ok (if better value result (valuetypid ts) then value else result)
           end)
        (seq_value seq0)
  end.

Definition temporals_min_value (ts : TemporalS) : result Datum :=
  if (valuetypid ts =? INT4OID) || (valuetypid ts =? FLOAT8OID) then
    match bbox ts with
    | Some box => Ok (low_x box)
    | None => Fault
    end
  else extreme_value temporalseq_min_value datum_lt ts.

Definition temporals_max_value (ts : TemporalS) : result Datum :=
  if (valuetypid ts =? INT4OID) || (valuetypid ts =? FLOAT8OID) then
    match bbox ts with
    | Some box => Ok (high_x box)
    | None => Fault
    end
  else extreme_value temporalseq_max_value datum_gt ts.

Definition temporals_at_min (ts : TemporalS) : result TemporalS :=
  if count ts =? 1 then
    match temporals_seq_n ts 0 with
    | Some seq => temporalseq_at_min seq
    | None => Fault
    end
  else
    minvalue <- temporals_min_value ts ;;
    temporals_at_minmax ts minvalue.

Definition temporals_at_max (ts : TemporalS) : result TemporalS :=
  if count ts =? 1 then
    match temporals_seq_n ts 0 with
    | Some seq => temporalseq_at_max seq
    | None => Fault
    end
  else
    maxvalue <- temporals_max_value ts ;;
    temporals_at_minmax ts maxvalue.

End MinMax.

(** [B] is not after the first sequence, and each sequence ends no later
    than the next one starts. *)
Fixpoint chain (B : Z) (seqs : list TemporalSeq) : Prop :=
  match seqs with
  | [] => True
  | s :: rest =>
      B <= lower (period s) /\ lower (period s) <= upper (period s) /\
      chain (upper (period s)) rest
  end.

(** The fragments of a sequence are in order among themselves and lie
    within the (closed) bounds of the sequence. *)
Definition fragments_within (seq : TemporalSeq) (frags : list TemporalSeq) : Prop :=
  seqarr_ordered frags = true /\
  Forall (fun f => lower (period seq) <= lower (period f) /\
                   upper (period f) <= upper (period seq)) frags.

(** The sequence stored before a first fragment [cur], after the repair
    of line 1535. *)
Definition minmax_repair (prev cur : TemporalSeq) : TemporalSeq :=
  if (timestamp_cmp_internal (upper (period prev)) (lower (period cur)) =? 0)
     && upper_inc (period prev) && lower_inc (period cur)
  then seq_set_inc prev (lower_inc (period prev)) false
  else prev.

(** The sequence-set invariant on an array of sequences: no consecutive
    pair overlaps in time, and no consecutive pair abuts at a timestamp
    that both include. *)
Definition sequence_set_invariant (l : list TemporalSeq) : Prop :=
  ~ some_pair pair_overlaps l (Z.of_nat (length l)) /\
  ~ some_pair pair_abuts_inclusive l (Z.of_nat (length l)).

(** For the examples: the restriction to a value of a sequence that holds
    one value throughout is the sequence itself, or nothing. *)
Definition at_value2_constant (seq : TemporalSeq) (value : Datum) (valuetypid : Oid)
  : list TemporalSeq :=
  if forallb (fun i => inst_value i =? value) (instants seq) then [seq] else [].

Definition seq_as_set (seq : TemporalSeq) : result TemporalS :=
  Ok (mkTS 1 (seq_valuetypid seq) (mkFlags false true false) [seq] None).

(** Two constant integer sequences on [0, 10) and [10, 20]. *)
Definition minmax_example : TemporalS :=
  mkTS 2 23 (mkFlags false true false)
       [mkSeq 2 23 (mkFlags false false false) (mkPeriod 0 10 true false)
              [mkInst 1 0 23; mkInst 1 10 23];
        mkSeq 2 23 (mkFlags false false false) (mkPeriod 10 20 true true)
              [mkInst 1 10 23; mkInst 1 20 23]]
       (Some (mkBox 1 0 1 20)).

(** ** Restriction to a period and to its complement (lines 758-770, 1750-1865) *)

(** A set of periods: its count and its periods, in time order. *)
Record PeriodSet : Type := mkPeriodSet {
  ps_count : Z;
  ps_periods : list Period
}.

Section AtPeriod.

Variable with_postgis : bool.
Variable geometry_oid geography_oid : Oid.
Variable tpoint_srid_internal : TemporalSeq -> Z.
Variable temporalseqarr_normalize : list TemporalSeq -> list TemporalSeq.
Variable temporal_bbox_size : Oid -> Z.
Variable temporals_make_bbox : list TemporalSeq -> BOX.

(** From the sequence file: the restrictions of one sequence.  [None] is
    the NULL pointer; [temporalseq_at_periodset1 (seq, ps, &count)] returns
    the array of its [count] fragments. *)
Variable temporalseq_at_period : TemporalSeq -> Period -> option TemporalSeq.
Variable temporalseq_minus_period : TemporalSeq -> Period -> option TemporalS.
Variable temporalseq_at_periodset : TemporalSeq -> PeriodSet -> option TemporalS.
Variable temporalseq_at_periodset1 : TemporalSeq -> PeriodSet -> list TemporalSeq.
(** From the period set file. *)
Variable periodset_from_periodarr_internal : list Period -> Z -> bool -> PeriodSet.
Variable minus_periodset_period_internal : PeriodSet -> Period -> option PeriodSet.

Definition temporals_get_time (ts : TemporalS) : result PeriodSet :=
  seqs <- array_prefix (sequences ts) (count ts) ;;
  Ok (periodset_from_periodarr_internal (map period seqs) (count ts) false).

(** The loop of the general case of [temporals_at_period], over the
    sequences from index [n] on: what is appended to [sequences], up to
    the [break]. *)
Fixpoint at_period_loop (p : Period) (seqs : list TemporalSeq)
  : result (list TemporalSeq) :=
  match seqs with
  | [] => Ok []
  | seq :: rest =>
      kept <- (if contains_period_period_internal p (period seq) then Ok [seq]
               else if overlaps_period_period_internal p (period seq) then
                 match temporalseq_at_period seq p with
                 | Some newseq => Ok [newseq]
                 | None => Fault
                 end
               else Ok []) ;;
      if (timestamp_cmp_internal (upper p) (upper (period seq)) <? 0) ||
         ((timestamp_cmp_internal (upper p) (upper (period seq)) =? 0) &&
          upper_inc (period seq))
      then Ok kept
      else more <- at_period_loop p rest ;; Ok (kept ++ more)
  end.

(** [Ok None] is the NULL result.  In the singleton case the result of
    [temporalseq_at_period] goes to the constructor as it is, which reads
    through it at once. *)
Definition temporals_at_period (ts : TemporalS) (p : Period)
  : result (option TemporalS) :=
  if count ts =? 1 then
    match temporals_seq_n ts 0 with
    | None => Fault
    | Some seq0 =>
        match temporalseq_at_period seq0 p with
        | None => Fault
        | Some seq =>
            r <- temporals_from_temporalseqarr with_postgis geometry_oid
                   geography_oid tpoint_srid_internal temporalseqarr_normalize
                   temporal_bbox_size temporals_make_bbox [seq] 1 false ;;
            Ok (Some r)
        end
    end
  else
    match temporals_find_timestamp ts (lower p) with
    | None => Fault
    | Some (_, n) =>
        seqs <- array_prefix (sequences ts) (count ts) ;;
        sequences <- at_period_loop p (skipn (Z.to_nat n) seqs) ;;
        let k := Z.of_nat (length sequences) in
        if k =? 0 then Ok None else
        r <- temporals_from_temporalseqarr with_postgis geometry_oid
               geography_oid tpoint_srid_internal temporalseqarr_normalize
               temporal_bbox_size temporals_make_bbox sequences k false ;;
        Ok (Some r)
    end.

Definition temporals_at_periodset (ts : TemporalS) (ps : PeriodSet)
  : result (option TemporalS) :=
  if count ts =? 1 then
    match temporals_seq_n ts 0 with
    | None => Fault
    | Some seq0 => Ok (temporalseq_at_periodset seq0 ps)
    end
  else
    seqs <- array_prefix (sequences ts) (count ts) ;;
    let allseqs := concat (map (fun seq => temporalseq_at_periodset1 seq ps) seqs) in
    let totalseqs := Z.of_nat (length allseqs) in
    if totalseqs =? 0 then Ok None else
    r <- temporals_from_temporalseqarr with_postgis geometry_oid
           geography_oid tpoint_srid_internal temporalseqarr_normalize
           temporal_bbox_size temporals_make_bbox allseqs totalseqs true ;;
    Ok (Some r).

(** In the general case [ps] and [resultps] are released before the
    return, [resultps] also when it is NULL: [pfree] reads the header in
    front of the chunk it is given, so a NULL [resultps] is a fault. *)
Definition temporals_minus_period (ts : TemporalS) (p : Period)
  : result (option TemporalS) :=
  if count ts =? 1 then
    match temporals_seq_n ts 0 with
    | None => Fault
    | Some seq0 => Ok (temporalseq_minus_period seq0 p)
    end
  else
    ps <- temporals_get_time ts ;;
    match minus_periodset_period_internal ps p with
    | None => Fault
    | Some resultps => temporals_at_periodset ts resultps
    end.

End AtPeriod.

(** ** Time extents *)

Definition in_period (p : Period) (t : TimestampTz) : Prop :=
  contains_period_timestamp_internal p t = true.

Definition seqs_extent (l : list TemporalSeq) (t : TimestampTz) : Prop :=
  exists s, In s l /\ in_period (period s) t.

(** The time extent of a result, NULL being empty. *)
Definition temporals_extent (r : option TemporalS) (t : TimestampTz) : Prop :=
  match r with
  | Some ts => seqs_extent (sequences ts) t
  | None => False
  end.

Definition periodset_extent (ps : PeriodSet) (t : TimestampTz) : Prop :=
  exists p, In p (ps_periods ps) /\ in_period p t.

(** The pairwise test of the constructor, on bare periods. *)
Fixpoint periodarr_ordered (l : list Period) : bool :=
  match l with
  | p :: (q :: _) as rest =>
      negb ((upper p >? lower q) ||
            ((upper p =? lower q) && upper_inc p && lower_inc q))
      && periodarr_ordered rest
  | _ => true
  end.

Definition periodset_valid (ps : PeriodSet) : Prop :=
  forallb period_valid (ps_periods ps) = true /\
  periodarr_ordered (ps_periods ps) = true.

(** [b] has the SRID and the Z flag of [a]. *)
Definition same_geo (srid_of : TemporalSeq -> Z) (a b : TemporalSeq) : Prop :=
  srid_of b = srid_of a /\ hasz (seq_flags b) = hasz (seq_flags a).

(** All the sequences of an array have one SRID and one Z flag. *)
Definition uniform_geo (srid_of : TemporalSeq -> Z) (l : list TemporalSeq) : Prop :=
  forall a b, In a l -> In b l -> same_geo srid_of a b.

(** ** Models of the sequence and period-set collaborators

    Modelled from the spec: the restrictions of one sequence and the
    subtraction on period sets are in the sequence and period-set files,
    not under src/.  Section 4.5 defines them through the time extent they
    keep, and that is all these models compute: the period of a restricted
    sequence is cut, its instants are kept as they are. *)

Definition seq_with_period (seq : TemporalSeq) (q : Period) : TemporalSeq :=
  mkSeq (seq_count seq) (seq_valuetypid seq) (seq_flags seq) q (instants seq).

Definition temporalseq_at_period_model (seq : TemporalSeq) (p : Period)
  : option TemporalSeq :=
  option_map (seq_with_period seq)
             (intersection_period_period_internal (period seq) p).

(** The part of [q] before [p] and the part of [q] after [p]. *)
Definition minus_period_period_model (q p : Period) : list Period :=
  if negb (overlaps_period_period_internal q p) then [q] else
  (if (lower q <? lower p) ||
      ((lower q =? lower p) && lower_inc q && negb (lower_inc p))
   then [mkPeriod (lower q) (lower p) (lower_inc q) (negb (lower_inc p))]
   else []) ++
  (if (upper p <? upper q) ||
      ((upper p =? upper q) && upper_inc q && negb (upper_inc p))
   then [mkPeriod (upper p) (upper q) (negb (upper_inc p)) (upper_inc q)]
   else []).

Definition seqs_as_set (seq : TemporalSeq) (l : list TemporalSeq) : option TemporalS :=
  match l with
  | [] => None
  | _ => Some (mkTS (Z.of_nat (length l)) (seq_valuetypid seq)
                    (mkFlags false false false) l None)
  end.

Definition temporalseq_minus_period_model (seq : TemporalSeq) (p : Period)
  : option TemporalS :=
  seqs_as_set seq (map (seq_with_period seq)
                       (minus_period_period_model (period seq) p)).

Definition temporalseq_at_periodset1_model (seq : TemporalSeq) (ps : PeriodSet)
  : list TemporalSeq :=
  flat_map (fun q => match temporalseq_at_period_model seq q with
                     | Some s => [s]
                     | None => []
                     end)
           (ps_periods ps).

Definition temporalseq_at_periodset_model (seq : TemporalSeq) (ps : PeriodSet)
  : option TemporalS :=
  seqs_as_set seq (temporalseq_at_periodset1_model seq ps).

(** Without normalisation the period set holds the first [n] periods. *)
Definition periodset_from_periodarr_model (periods : list Period) (n : Z)
    (normalize : bool) : PeriodSet :=
  mkPeriodSet n (firstn (Z.to_nat n) periods).

Definition minus_periodset_period_model (ps : PeriodSet) (p : Period)
  : option PeriodSet :=
  match flat_map (fun q => minus_period_period_model q p) (ps_periods ps) with
  | [] => None
  | l => Some (mkPeriodSet (Z.of_nat (length l)) l)
  end.

(** A period as a sequence without instants, to speak of arrays of
    periods with the words for arrays of sequences. *)
Definition seq_of_period (q : Period) : TemporalSeq :=
  mkSeq 0 0 (mkFlags false false false) q [].

Definition single_example : TemporalS :=
  mkTS 1 23 (mkFlags false true false) [closed_seq 0 10] None.

(** ** Comparison operators (lines 2119-2166) *)

(** The host's [memcmp] on two memory regions of which the list holds
    the bytes up to the end of the object: 0 or the difference at the first
    pair of bytes that differ; [None] when it would have to read past the
    end of an object. *)
Fixpoint memcmp (s1 s2 : list byte) (n : nat) {struct n} : option Z :=
  match n with
  | O => Some 0
  | S n' =>
      match s1, s2 with
      | b1 :: r1, b2 :: r2 =>
          if Byte.eqb b1 b2 then memcmp r1 r2 n'
          else Some (Z_of_byte b1 - Z_of_byte b2)
      | _, _ => None
      end
  end.

Section Packed.

(** The layout of the packed value, declared in the types header and the
    host's macros: the size of the fixed part, the padding to a multiple
    of a double, the size of a bounding box, the length word in the first
    four bytes, and the fields and offset table read from the value. *)
Variable sizeof_TemporalS : Z.
Variable double_pad : Z -> Z.
Variable temporal_bbox_size : Oid -> Z.
Variable VARSIZE_4B : list byte -> Z.
Variable ts_count : list byte -> Z.
Variable ts_valuetypid : list byte -> Oid.
Variable ts_offset : list byte -> Z -> Z.

Definition sizeof_size_t : Z := 8.

Definition VARSIZE (ts : list byte) : Z := VARSIZE_4B (firstn 4 ts).

(** Lines 49-54 and 67-72, as offsets from the start of the value. *)
Definition temporals_data_ptr (ts : list byte) : Z :=
  double_pad (sizeof_TemporalS + sizeof_size_t * (ts_count ts + 1)).

Definition temporals_bbox_ptr (ts : list byte) : Z :=
  temporals_data_ptr ts + ts_offset ts (ts_count ts).

(** [temporals_eq] on the bytes of its two arguments. *)
Definition temporals_eq (ts1 ts2 : list byte) : option bool :=
  if negb (ts_count ts1 =? ts_count ts2) then Some false else
  let bboxsize := double_pad (temporal_bbox_size (ts_valuetypid ts1)) in
  let box1 := skipn (Z.to_nat (temporals_bbox_ptr ts1)) ts1 in
  let box2 := skipn (Z.to_nat (temporals_bbox_ptr ts2)) ts2 in
  match memcmp box1 box2 (Z.to_nat bboxsize) with
  | None => None
  | Some c =>
      if negb (c =? 0) then Some false else
      let sz1 := VARSIZE ts1 - double_pad (temporal_bbox_size (ts_valuetypid ts1)) in
      match memcmp ts1 ts2 (Z.to_nat sz1) with
      | None => None
      | Some c' => if c' =? 0 then Some true else Some false
      end
  end.

(** The bytes of the bounding box of [ts], of the size of a box of the
    value type [valuetypid], and the bytes before a box of that size at
    the end of [ts1]. *)
Definition bbox_bytes (valuetypid : Oid) (ts : list byte) : list byte :=
  firstn (Z.to_nat (double_pad (temporal_bbox_size valuetypid)))
         (skipn (Z.to_nat (temporals_bbox_ptr ts)) ts).

Definition packed_bytes (ts1 ts : list byte) : list byte :=
  firstn (Z.to_nat (VARSIZE ts1 - double_pad (temporal_bbox_size (ts_valuetypid ts1))))
         ts.

(** A packed value: [VARSIZE] bytes, ending with the padded bounding box,
    which starts after the length word. *)
Definition image_wf (ts : list byte) : Prop :=
  Z.of_nat (length ts) = VARSIZE ts /\
  4 <= temporals_bbox_ptr ts /\
  0 <= double_pad (temporal_bbox_size (ts_valuetypid ts)) /\
  temporals_bbox_ptr ts + double_pad (temporal_bbox_size (ts_valuetypid ts))
  = VARSIZE ts.

End Packed.

Section Compare.

(** [temporalseq_cmp], from the sequence file. *)
Variable temporalseq_cmp : TemporalSeq -> TemporalSeq -> Z.

(** The loop of [temporals_cmp]: the first non-zero comparison, or 0. *)
Fixpoint temporals_cmp_loop (n : nat) (ts1 ts2 : TemporalS) (i : Z) : option Z :=
  match n with
  | O => Some 0
  | S n' =>
      match temporals_seq_n ts1 i, temporals_seq_n ts2 i with
      | Some seq1, Some seq2 =>
          let result := temporalseq_cmp seq1 seq2 in
          if negb (result =? 0) then Some result
          else temporals_cmp_loop n' ts1 ts2 (i + 1)
      | _, _ => None
      end
  end.

Definition temporals_cmp (ts1 ts2 : TemporalS) : option Z :=
  let mincount := Z.min (count ts1) (count ts2) in
  match temporals_cmp_loop (Z.to_nat mincount) ts1 ts2 0 with
  | None => None
  | Some result =>
      if negb (result =? 0) then Some result
      else if count ts1 <? count ts2 then Some (-1)
      else if count ts2 <? count ts1 then Some 1
      else Some 0
  end.

End Compare.

(** ** A layout for the examples

    Modelled from the spec: the types header is not under src/.  Section 9
    and the comment at the head of the file give the packed buffer: the
    fixed part, the offset table, the padded sequences, the padded bounding
    box.  Here the fixed part is four 4-byte words (length, count, value
    type, flags), offsets are 8 bytes, padding is to a multiple of 8, and a
    bounding box is four 8-byte numbers. *)

Definition double_pad_model (z : Z) : Z := (z + 7) / 8 * 8.

Definition get_int32 (m : list byte) (off : Z) : Z :=
  match pq_getmsgint (skipn (Z.to_nat off) m) with
  | Ok r => fst r
  | _ => 0
  end.

Definition VARSIZE_4B_model (h : list byte) : Z := get_int32 h 0.
Definition ts_count_model (m : list byte) : Z := get_int32 m 4.
Definition ts_valuetypid_model (m : list byte) : Oid := get_int32 m 8.
Definition ts_offset_model (m : list byte) (i : Z) : Z := get_int32 m (16 + 8 * i + 4).

Definition pad_bytes (l : list byte) : list byte :=
  l ++ repeat x00 (Z.to_nat (double_pad_model (Z.of_nat (length l)))
                   - length l).

(** The offsets of lines 161-166: the running position of each sequence,
    then the position of the bounding box. *)
Fixpoint offsets_model (pos : Z) (images : list (list byte)) : list Z :=
  match images with
  | [] => [pos]
  | img :: rest => pos :: offsets_model (pos + Z.of_nat (length img)) rest
  end.

Definition flags_word (f : Flags) : Z :=
  Z.b2z (continuous f) + 2 * Z.b2z (tempcontinuous f) + 4 * Z.b2z (hasz f).

Definition bbox_image (b : option BOX) : list byte :=
  match b with
  | Some box => sendint64 (low_x box) ++ sendint64 (low_y box) ++
                sendint64 (high_x box) ++ sendint64 (high_y box)
  | None => repeat x00 32
  end.

Definition pack_model (ts : TemporalS) : list byte :=
  let images := map (fun s => pad_bytes (temporalseq_write_model s)) (sequences ts) in
  let body := concat (map sendint64 (offsets_model 0 images)) ++
              concat images ++ bbox_image (bbox ts) in
  pq_sendint [] (16 + Z.of_nat (length body)) ++ pq_sendint [] (count ts) ++
  pq_sendint [] (valuetypid ts) ++ pq_sendint [] (flags_word (flags ts)) ++ body.

(** Modelled from the spec: section 4.7 orders sequences by interval,
    then instant by instant on time and value. *)
Fixpoint instants_cmp_model (l1 l2 : list TemporalInst) : Z :=
  match l1, l2 with
  | [], [] => 0
  | [], _ :: _ => -1
  | _ :: _, [] => 1
  | a :: r1, b :: r2 =>
      let c := timestamp_cmp_internal (inst_t a) (inst_t b) in
      if negb (c =? 0) then c else
      let v := timestamp_cmp_internal (inst_value a) (inst_value b) in
      if negb (v =? 0) then v else instants_cmp_model r1 r2
  end.

Definition temporalseq_cmp_model (s1 s2 : TemporalSeq) : Z :=
  let c := period_cmp_internal (period s1) (period s2) in
  if negb (c =? 0) then c else instants_cmp_model (instants s1) (instants s2).

(** Two integer sets as the constructor builds them with [time_box]; they
    differ in the last value. *)
Definition packed_example : TemporalS :=
  mkTS 2 23 (mkFlags false false false)
       [int_seq 1 0 1 10; int_seq 5 20 7 30] (Some (mkBox 0 0 0 30)).

Definition packed_example' : TemporalS :=
  mkTS 2 23 (mkFlags false false false)
       [int_seq 1 0 1 10; int_seq 5 20 8 30] (Some (mkBox 0 0 0 30)).

(** ** Binary search in an array of sequences (lines 228-254) *)

(** The loop of [temporalseqarr_find_timestamp], as [find_timestamp_loop]
    but on [sequences[middle]]. *)
Fixpoint seqarr_find_timestamp_loop (fuel : nat) (sequences : list TemporalSeq)
    (t : TimestampTz) (first last middle : Z) (seq : option TemporalSeq)
  : option (bool * Z) :=
  if first <=? last then
    match fuel with
    | O => None
    | S fuel' =>
        let middle := int_div (int_add first last) 2 in
        match array_get sequences middle with
        | None => None
        | Some seq =>
            if contains_period_timestamp_internal (period seq) t then
              Some (true, middle)
            else if timestamp_cmp_internal t (lower (period seq)) <=? 0 then
              seqarr_find_timestamp_loop fuel' sequences t first (int_sub middle 1)
                                         middle (Some seq)
            else
              seqarr_find_timestamp_loop fuel' sequences t (int_add middle 1) last
                                         middle (Some seq)
        end
    end
  else
    match seq with
    | None => None
    | Some seq =>
        let middle :=
          if timestamp_cmp_internal t (upper (period seq)) >=? 0
          then int_add middle 1 else middle in
        Some (false, middle)
    end.

Definition temporalseqarr_find_timestamp (sequences : list TemporalSeq)
    (from count : Z) (t : TimestampTz) : option (bool * Z) :=
  seqarr_find_timestamp_loop (S (Z.to_nat (count - from))) sequences t
                             from (int_sub count 1) 0 None.

(** What the array search promises on [sequences[from .. count-1]]. *)
Definition seqarr_find_post (sequences : list TemporalSeq) (from count : Z)
    (t : TimestampTz) (found : bool) (pos : Z) : Prop :=
  if found then
    from <= pos < count /\
    exists seq, array_get sequences pos = Some seq /\
                contains_period_timestamp_internal (period seq) t = true
  else
    from <= pos <= count /\
    forall j seq, array_get sequences j = Some seq ->
      (from <= j < pos -> period_before (period seq) t) /\
      (pos <= j < count -> period_after (period seq) t).

(** ** Start and end of the time span (lines 916-930) *)

Definition temporals_start_timestamp (ts : TemporalS) : option TimestampTz :=
  match temporals_seq_n ts 0 with
  | Some seq => Some (lower (period seq))
  | None => None
  end.

Definition temporals_end_timestamp (ts : TemporalS) : option TimestampTz :=
  match temporals_seq_n ts (count ts - 1) with
  | Some seq => Some (upper (period seq))
  | None => None
  end.

(** ** Intersection with a period (lines 1916-1934) *)

(** The loop over the sequences from index [n1] on: [true] at the first
    overlap, [false] at the [break] or at the end. *)
Fixpoint intersects_period_loop (p : Period) (seqs : list TemporalSeq) : bool :=
  match seqs with
  | [] => false
  | seq :: rest =>
      if overlaps_period_period_internal (period seq) p then true
      else if timestamp_cmp_internal (upper p) (upper (period seq)) <? 0 then false
      else intersects_period_loop p rest
  end.

Definition temporals_intersects_period (ts : TemporalS) (p : Period) : option bool :=
  match temporals_find_timestamp ts (lower p) with
  | None => None
  | Some (true, _) => Some true
  | Some (false, n1) =>
      match temporals_find_timestamp ts (upper p) with
      | None => None
      | Some (true, _) => Some true
      | Some (false, _) =>
          if n1 <? 0 then None else
          match array_prefix (sequences ts) (count ts) with
          | Ok seqs => Some (intersects_period_loop p (skipn (Z.to_nat n1) seqs))
          | _ => None
          end
      end
  end.

(** [temporals_intersects_temporalseq] (lines 1967-1971). *)
Definition temporals_intersects_temporalseq (ts : TemporalS) (seq : TemporalSeq)
  : option bool :=
  temporals_intersects_period ts (period seq).

(** ** Intersection of two sequence sets in time (lines 1975-2044) *)

(** The walk of [temporals_intersects_temporals]: it advances the set
    whose current sequence ends first, both when they end together. *)
Fixpoint intersects_walk (fuel : nat) (ts1 ts2 : TemporalS) (i j : Z) : option bool :=
  if (i <? count ts1) && (j <? count ts2) then
    match fuel with
    | O => None
    | S fuel' =>
        match temporals_seq_n ts1 i, temporals_seq_n ts2 j with
        | Some seq1, Some seq2 =>
            if overlaps_period_period_internal (period seq1) (period seq2) then
              Some true
            else if timestamp_cmp_internal (upper (period seq1)) (upper (period seq2)) =? 0
            then intersects_walk fuel' ts1 ts2 (i + 1) (j + 1)
            else if timestamp_cmp_internal (upper (period seq1)) (upper (period seq2)) <? 0
            then intersects_walk fuel' ts1 ts2 (i + 1) j
            else intersects_walk fuel' ts1 ts2 i (j + 1)
        | _, _ => None
        end
    end
  else Some false.

Definition temporals_intersects_temporals (ts1 ts2 : TemporalS) : option bool :=
  match temporals_timespan ts1, temporals_timespan ts2 with
  | Some p1, Some p2 =>
      if negb (overlaps_period_period_internal p1 p2) then Some false
      else intersects_walk (Z.to_nat (count ts1 + count ts2)) ts1 ts2 0 0
  | _, _ => None
  end.

(** The walk of [temporals_intersection_temporals]; [periods] holds the
    [k] intersections collected so far. *)
Fixpoint intersection_walk (fuel : nat) (ts1 ts2 : TemporalS) (i j : Z)
    (periods : list Period) : option (list Period) :=
  if (i <? count ts1) && (j <? count ts2) then
    match fuel with
    | O => None
    | S fuel' =>
        match temporals_seq_n ts1 i, temporals_seq_n ts2 j with
        | Some seq1, Some seq2 =>
            let periods' :=
              match intersection_period_period_internal (period seq1) (period seq2) with
              | Some inter => periods ++ [inter]
              | None => periods
              end in
            if timestamp_cmp_internal (upper (period seq1)) (upper (period seq2)) =? 0
            then intersection_walk fuel' ts1 ts2 (i + 1) (j + 1) periods'
            else if timestamp_cmp_internal (upper (period seq1)) (upper (period seq2)) <? 0
            then intersection_walk fuel' ts1 ts2 (i + 1) j periods'
            else intersection_walk fuel' ts1 ts2 i (j + 1) periods'
        | _, _ => None
        end
    end
  else Some periods.

Section IntersectionTime.

(** [periodset_from_periodarr_internal], from the period set file. *)
Variable periodset_from_periodarr_internal : list Period -> Z -> bool -> PeriodSet.

(** [Some None] is the NULL result. *)
Definition temporals_intersection_temporals (ts1 ts2 : TemporalS)
  : option (option PeriodSet) :=
  match temporals_timespan ts1, temporals_timespan ts2 with
  | Some p1, Some p2 =>
      if negb (overlaps_period_period_internal p1 p2) then Some None else
      match intersection_walk (Z.to_nat (count ts1 + count ts2)) ts1 ts2 0 0 [] with
      | None => None
      | Some periods =>
          let k := Z.of_nat (length periods) in
          if k =? 0 then Some None
          else Some (Some (periodset_from_periodarr_internal periods k false))
      end
  | _, _ => None
  end.

End IntersectionTime.

(** A sequence is not instantaneous. *)
Definition seq_lasts (s : TemporalSeq) : Prop := lower (period s) < upper (period s).

(** For the examples: an integer sequence on [lo, hi] with the given
    bound flags, and one on a single instant. *)
Definition flagged_seq (lo hi : Z) (li ui : bool) : TemporalSeq :=
  mkSeq 2 23 (mkFlags false false false) (mkPeriod lo hi li ui)
        [mkInst 1 lo 23; mkInst 1 hi 23].

Definition instant_seq (t : Z) : TemporalSeq :=
  mkSeq 1 23 (mkFlags false false false) (mkPeriod t t true true) [mkInst 1 t 23].

Definition set_of (l : list TemporalSeq) : TemporalS :=
  mkTS (Z.of_nat (length l)) 23 (mkFlags false false false) l None.

(** The first sequence ends at 10 inclusive and the next starts at 30:
    the period (10, 20] touches the first one without overlapping it. *)
Definition touching_example : TemporalS :=
  set_of [closed_seq 0 10; closed_seq 30 40].

(** A set that turns from exclusive to inclusive at 10, and a set with
    the single instant 10. *)
Definition walk_left_example : TemporalS :=
  set_of [flagged_seq 0 10 true false; closed_seq 10 20].

Definition walk_right_example : TemporalS := set_of [instant_seq 10].
(** ** Instants and timestamps by position (lines 839-999) *)

(** [temporals_num_instants]: the sum of the [count] fields, in [int]. *)
Definition temporals_num_instants (ts : TemporalS) : result Z :=
  for_range 0 (count ts)
    (fun i result =>
       match temporals_seq_n ts i with
       | Some seq => Ok (int_add result (seq_count seq))
       | None => Fault
       end)
    0.

(** The [while] loop of [temporals_instant_n]; [cnt] is the variable
    [count].  [Ok None] is the NULL result. *)
Fixpoint instant_n_loop (fuel : nat) (ts : TemporalS) (n i cnt prevcount : Z)
  : result (option TemporalInst) :=
  if (i <? count ts) && (prevcount <? n) then
    match fuel with
    | O => Fault
    | S fuel' =>
        match temporals_seq_n ts i with
        | None => Fault
        | Some seq =>
            let cnt := int_add cnt (seq_count seq) in
            if (prevcount <=? n) && (n <=? cnt) then
              match temporalseq_inst_n seq (int_sub (int_sub n prevcount) 1) with
              | Some inst => Ok (Some inst)
              | None => Fault
              end
            else instant_n_loop fuel' ts n (i + 1) cnt cnt
        end
    end
  else Ok None.

Definition temporals_instant_n (ts : TemporalS) (n : Z) : result (option TemporalInst) :=
  if n <? 1 then Ok None
  else instant_n_loop (Z.to_nat (count ts)) ts n 0 0 0.

(** [temporals_num_timestamps]: [lasttime] is [None] while [first] holds. *)
Definition temporals_num_timestamps (ts : TemporalS) : result Z :=
  st <- for_range 0 (count ts)
          (fun i st =>
             match temporals_seq_n ts i with
             | None => Fault
             | Some seq =>
                 let result := int_add (fst st) (seq_count seq) in
                 result <- match snd st with
                           | None => Ok result
                           | Some lasttime =>
                               match temporalseq_inst_n seq 0 with
                               | Some inst =>
                                   Ok (if lasttime =? inst_t inst
                                       then int_sub result 1 else result)
                               | None => Fault
                               end
                           end ;;
                 match temporalseq_inst_n seq (int_sub (seq_count seq) 1) with
                 | Some inst => Ok (result, Some (inst_t inst))
                 | None => Fault
                 end
             end)
          (0, None) ;;
  Ok (fst st).

(** The [while] loop of [temporals_timestamp_n], on the 0-based [n];
    [prev] is [None] while [first] holds. *)
Fixpoint timestamp_n_loop (fuel : nat) (ts : TemporalS) (n i cnt prevcount : Z)
    (prev : option TimestampTz) : result (option TimestampTz) :=
  if i <? count ts then
    match fuel with
    | O => Fault
    | S fuel' =>
        match temporals_seq_n ts i with
        | None => Fault
        | Some seq =>
            let cnt := int_add cnt (seq_count seq) in
            same <- match prev with
                    | None => Ok false
                    | Some prev =>
                        match temporalseq_inst_n seq 0 with
                        | Some inst => Ok (prev =? inst_t inst)
                        | None => Fault
                        end
                    end ;;
            let prevcount := if same then int_sub prevcount 1 else prevcount in
            let cnt := if same then int_sub cnt 1 else cnt in
            if (prevcount <=? n) && (n <? cnt) then
              match temporalseq_inst_n seq (int_sub n prevcount) with
              | Some inst => Ok (Some (inst_t inst))
              | None => Fault
              end
            else
              match temporalseq_inst_n seq (int_sub (seq_count seq) 1) with
              | Some inst =>
                  timestamp_n_loop fuel' ts n (i + 1) cnt cnt (Some (inst_t inst))
              | None => Fault
              end
        end
    end
  else Ok None.

(** [Ok None] is the return value [false]; [Ok (Some t)] is [true] with
    [*result = t]. *)
Definition temporals_timestamp_n (ts : TemporalS) (n : Z) : result (option TimestampTz) :=
  if n <? 1 then Ok None
  else if n =? 1 then
    match temporals_seq_n ts 0 with
    | None => Fault
    | Some seq =>
        match temporalseq_inst_n seq 0 with
        | Some inst => Ok (Some (inst_t inst))
        | None => Fault
        end
    end
  else timestamp_n_loop (Z.to_nat (count ts)) ts (int_sub n 1) 0 0 0 None.

(** The instants of a set, sequence after sequence, and their
    timestamps. *)
Definition all_instants (ts : TemporalS) : list TemporalInst :=
  concat (map instants (sequences ts)).

Definition seq_times (s : TemporalSeq) : list TimestampTz := map inst_t (instants s).

Definition all_times (ts : TemporalS) : list TimestampTz :=
  concat (map seq_times (sequences ts)).

(** A list of timestamps in strictly increasing order. *)
Fixpoint increasing (l : list TimestampTz) : Prop :=
  match l with
  | [] => True
  | a :: r => Forall (fun b => a < b) r /\ increasing r
  end.

(** The timestamps of a sequence that are new after [prev], the last
    timestamp of the sequence before: all of them, but for the first one
    when it is [prev]. *)
Definition fresh_times (prev : option TimestampTz) (times : list TimestampTz)
  : list TimestampTz :=
  match prev, times with
  | Some p, t :: r => if p =? t then r else t :: r
  | _, _ => times
  end.

(** The timestamps of the sequences of [l] in order, each once. *)
Fixpoint distinct_times (prev : option TimestampTz) (l : list TemporalSeq)
  : list TimestampTz :=
  match l with
  | [] => []
  | s :: rest =>
      fresh_times prev (seq_times s) ++
      distinct_times (Some (last (seq_times s) 0)) rest
  end.

(** No timestamp of a later sequence is before the last timestamp of an
    earlier one. *)
Fixpoint times_chain (l : list TemporalSeq) : Prop :=
  match l with
  | [] => True
  | s :: rest =>
      Forall (fun t => last (seq_times s) 0 <= t) (concat (map seq_times rest)) /\
      times_chain rest
  end.

(** ** Continuity in time (lines 1104-1118) *)

Fixpoint continuous_time_loop (n : nat) (ts : TemporalS) (i : Z) (seq1 : TemporalSeq)
  : option bool :=
  match n with
  | O => Some true
  | S n' =>
      match temporals_seq_n ts i with
      | None => None
      | Some seq2 =>
          if negb (timestamp_cmp_internal (upper (period seq1)) (lower (period seq2)) =? 0)
          then Some false
          else continuous_time_loop n' ts (i + 1) seq2
      end
  end.

Definition temporals_continuous_time_internal (ts : TemporalS) : option bool :=
  match temporals_seq_n ts 0 with
  | None => None
  | Some seq1 => continuous_time_loop (Z.to_nat (count ts - 1)) ts 1 seq1
  end.

(** Consecutive sequences [a], [b] meet at one timestamp that one of
    them includes: the test of lines 118-120. *)
Definition pair_meets (a b : TemporalSeq) : Prop :=
  upper (period a) = lower (period b) /\
  (upper_inc (period a) = true \/ lower_inc (period b) = true).

(** Every consecutive pair of the first [count] cells satisfies [P]. *)
Definition every_pair (P : TemporalSeq -> TemporalSeq -> Prop)
    (sequences : list TemporalSeq) (count : Z) : Prop :=
  forall i a b, 1 <= i < count ->
    array_get sequences (i - 1) = Some a -> array_get sequences i = Some b -> P a b.

(** ** Hash (lines 2184-2195) *)

(** Arithmetic on [uint32]. *)
Definition uint32_wrap (z : Z) : Z := z mod 2 ^ 32.

Section Hash.

(** [temporalseq_hash], from the sequence file. *)
Variable temporalseq_hash : TemporalSeq -> Z.

Definition temporals_hash (ts : TemporalS) : result Z :=
  for_range 0 (count ts)
    (fun i result =>
       match temporals_seq_n ts i with
       | Some seq =>
           let seq_hash := uint32_wrap (temporalseq_hash seq) in
           Ok (uint32_wrap (uint32_wrap (uint32_wrap (Z.shiftl result 5) - result)
                            + seq_hash))
       | None => Fault
       end)
    1.

End Hash.

(** Two sequences that end and start at 10, neither including it. *)
Definition hole_example : TemporalS :=
  set_of [flagged_seq 0 10 true false; flagged_seq 10 20 false true].

(** ** The comparator on arrays of sequences *)

Section CompareArrays.

Variable temporalseq_cmp : TemporalSeq -> TemporalSeq -> Z.

(** The order that [temporals_cmp] realises on the arrays of sequences:
    the first comparison that is not 0 decides; an array that is a proper
    prefix of the other comes first. *)
Fixpoint seqs_cmp (l1 l2 : list TemporalSeq) : Z :=
  match l1, l2 with
  | [], [] => 0
  | [], _ :: _ => -1
  | _ :: _, [] => 1
  | a :: r1, b :: r2 =>
      if negb (temporalseq_cmp a b =? 0) then temporalseq_cmp a b
      else seqs_cmp r1 r2
  end.

(** [temporalseq_cmp] is the three-way comparison of a total preorder. *)
Definition cmp_preorder : Prop :=
  (forall s, temporalseq_cmp s s = 0) /\
  (forall s1 s2, Z.sgn (temporalseq_cmp s2 s1) = - Z.sgn (temporalseq_cmp s1 s2)) /\
  (forall s1 s2 s3, temporalseq_cmp s1 s2 <= 0 -> temporalseq_cmp s2 s3 <= 0 ->
                    temporalseq_cmp s1 s3 <= 0).

End CompareArrays.

(** [memcpy] of the whole instant. *)
Definition temporalinst_copy (inst : TemporalInst) : TemporalInst := inst.

(** ** Restriction to a timestamp (lines 1593-1661) *)

Section AtTimestamp.

(** From the sequence file: the instant of [seq] at [t], NULL ([None])
    when [t] is not in the sequence; the value at [t], with [false]
    ([None]) in the same case. *)
Variable temporalseq_at_timestamp : TemporalSeq -> TimestampTz -> option TemporalInst.
Variable temporalseq_value_at_timestamp : TemporalSeq -> TimestampTz -> option Datum.

(** [Some None] is the NULL result; [None] a read outside the set. *)
Definition temporals_at_timestamp (ts : TemporalS) (t : TimestampTz)
  : option (option TemporalInst) :=
  if count ts =? 1 then
    match temporals_seq_n ts 0 with
    | Some seq => Some (temporalseq_at_timestamp seq t)
    | None => None
    end
  else
    match temporals_find_timestamp ts t with
    | None => None
    | Some (false, _) => Some None
    | Some (true, n) =>
        match temporals_seq_n ts n with
        | Some seq => Some (temporalseq_at_timestamp seq t)
        | None => None
        end
    end.

(** [Some None] is the return value [false]. *)
Definition temporals_value_at_timestamp (ts : TemporalS) (t : TimestampTz)
  : option (option Datum) :=
  if count ts =? 1 then
    match temporals_seq_n ts 0 with
    | Some seq => Some (temporalseq_value_at_timestamp seq t)
    | None => None
    end
  else
    match temporals_find_timestamp ts t with
    | None => None
    | Some (false, _) => Some None
    | Some (true, n) =>
        match temporals_seq_n ts n with
        | Some seq => Some (temporalseq_value_at_timestamp seq t)
        | None => None
        end
    end.

(** [synchronize_temporals_temporalinst] (lines 272-283) and the same
    with the arguments in the other order (lines 285-290); [Some None] is
    the return value [false], [Some (Some (sync1, sync2))] is [true] with
    the two outputs. *)
Definition synchronize_temporals_temporalinst (ts : TemporalS) (inst : TemporalInst)
  : option (option (TemporalInst * TemporalInst)) :=
  match temporals_at_timestamp ts (inst_t inst) with
  | None => None
  | Some None => Some None
  | Some (Some inst1) => Some (Some (inst1, temporalinst_copy inst1))
  end.

Definition synchronize_temporalinst_temporals (inst : TemporalInst) (ts : TemporalS)
  : option (option (TemporalInst * TemporalInst)) :=
  option_map (option_map (fun sync => (snd sync, fst sync)))
             (synchronize_temporals_temporalinst ts inst).

End AtTimestamp.

(** For the examples: the restriction of a sequence to a timestamp of its
    period is an instant with the value of the first instant. *)
Definition at_timestamp_example (seq : TemporalSeq) (t : TimestampTz)
  : option TemporalInst :=
  if contains_period_timestamp_internal (period seq) t then
    match instants seq with
    | i :: _ => Some (mkInst (inst_value i) t (inst_valuetypid i))
    | [] => Some (mkInst 0 t (seq_valuetypid seq))
    end
  else None.

Definition value_at_timestamp_example (seq : TemporalSeq) (t : TimestampTz)
  : option Datum :=
  option_map inst_value (at_timestamp_example seq t).

(** ** Instant sets and timestamp sets *)

(** The fields of an instant set and of a timestamp set that the file
    reads: the count and the elements, reached with [temporali_inst_n] and
    [timestampset_time_n]. *)
Record TemporalI : Type := mkTI {
  ti_count : Z;
  ti_instants : list TemporalInst
}.

Definition temporali_inst_n (ti : TemporalI) (index : Z) : option TemporalInst :=
  array_get (ti_instants ti) index.

Record TimestampSet : Type := mkTSS {
  tss_count : Z;
  tss_times : list TimestampTz
}.

Definition timestampset_time_n (ts : TimestampSet) (index : Z) : option TimestampTz :=
  array_get (tss_times ts) index.

(** ** Transformation to a sequence set (lines 566-595) *)

Section AsTemporals.

Variable with_postgis : bool.
Variable geometry_oid geography_oid : Oid.
Variable tpoint_srid_internal : TemporalSeq -> Z.
Variable temporalseqarr_normalize : list TemporalSeq -> list TemporalSeq.
Variable temporal_bbox_size : Oid -> Z.
Variable temporals_make_bbox : list TemporalSeq -> BOX.

(** [temporalseq_from_temporalinstarr (instants, count, lower_inc,
    upper_inc, normalize)], from the sequence file. *)
Variable temporalseq_from_temporalinstarr :
  list TemporalInst -> Z -> bool -> bool -> bool -> TemporalSeq.

Definition temporalseq_as_temporals (seq : TemporalSeq) : result TemporalS :=
  temporals_from_temporalseqarr with_postgis geometry_oid geography_oid
    tpoint_srid_internal temporalseqarr_normalize temporal_bbox_size
    temporals_make_bbox [seq] 1 false.

Definition temporalinst_as_temporals (inst : TemporalInst) : result TemporalS :=
  let seq := temporalseq_from_temporalinstarr [inst] 1 true true false in
  temporals_from_temporalseqarr with_postgis geometry_oid geography_oid
    tpoint_srid_internal temporalseqarr_normalize temporal_bbox_size
    temporals_make_bbox [seq] 1 false.

Definition temporali_as_temporals (ti : TemporalI) : result TemporalS :=
  sequences <- for_range 0 (ti_count ti)
                 (fun i sequences =>
                    match temporali_inst_n ti i with
                    | Some inst =>
                        Ok (sequences ++
                            [temporalseq_from_temporalinstarr [inst] 1 true true false])
                    | None => Fault
                    end)
                 [] ;;
  temporals_from_temporalseqarr with_postgis geometry_oid geography_oid
    tpoint_srid_internal temporalseqarr_normalize temporal_bbox_size
    temporals_make_bbox sequences (ti_count ti) false.

End AsTemporals.

(** For the examples: the sequence of one instant. *)
Definition instant_seq_of (insts : list TemporalInst) (n : Z) (li ui norm : bool)
  : TemporalSeq :=
  match insts with
  | i :: _ => mkSeq 1 (inst_valuetypid i) (mkFlags false false false)
                    (mkPeriod (inst_t i) (inst_t i) li ui) [i]
  | [] => mkSeq 0 0 (mkFlags false false false) (mkPeriod 0 0 li ui) []
  end.

(** ** Restriction to a timestamp set (lines 1663-1703) *)

(** The [while] loop of [temporals_at_timestampset]; [instants] holds the
    [count] pointers stored so far, NULL being [None]. *)
Fixpoint at_timestampset_loop
    (temporalseq_at_timestamp : TemporalSeq -> TimestampTz -> option TemporalInst)
    (fuel : nat) (ts1 : TemporalS) (ts2 : TimestampSet) (i j : Z)
    (instants : list (option TemporalInst))
  : option (list (option TemporalInst)) :=
  if (i <? tss_count ts2) && (j <? count ts1) then
    match fuel with
    | O => None
    | S fuel' =>
        match temporals_seq_n ts1 j, timestampset_time_n ts2 i with
        | Some seq, Some t =>
            let found := contains_period_timestamp_internal (period seq) t in
            let instants :=
              if found then instants ++ [temporalseq_at_timestamp seq t]
              else instants in
            let i := if found then i + 1 else i in
            let i := if timestamp_cmp_internal t (lower (period seq)) <=? 0
                     then i + 1 else i in
            let j := if timestamp_cmp_internal t (upper (period seq)) >=? 0
                     then j + 1 else j in
            at_timestampset_loop temporalseq_at_timestamp fuel' ts1 ts2 i j instants
        | _, _ => None
        end
    end
  else Some instants.

Section AtTimestampSet.

Variable temporalseq_at_timestamp : TemporalSeq -> TimestampTz -> option TemporalInst.
(** From the sequence file and the instant set file. *)
Variable temporalseq_at_timestampset : TemporalSeq -> TimestampSet -> option TemporalI.
Variable temporali_from_temporalinstarr : list TemporalInst -> Z -> TemporalI.

(** The array of the pointers that are not NULL, when none is. *)
Fixpoint all_some {A : Type} (l : list (option A)) : option (list A) :=
  match l with
  | [] => Some []
  | Some x :: r => option_map (cons x) (all_some r)
  | None :: _ => None
  end.

(** [Some None] is the NULL result; [None] a read through an invalid
    pointer. *)
Definition temporals_at_timestampset (ts1 : TemporalS) (ts2 : TimestampSet)
  : option (option TemporalI) :=
  if count ts1 =? 1 then
    match temporals_seq_n ts1 0 with
    | Some seq => Some (temporalseq_at_timestampset seq ts2)
    | None => None
    end
  else
    match at_timestampset_loop temporalseq_at_timestamp
            (Z.to_nat (tss_count ts2 + count ts1)) ts1 ts2 0 0 [] with
    | None => None
    | Some instants =>
        let count := Z.of_nat (length instants) in
        if count =? 0 then Some None
        else match all_some instants with
             | Some insts => Some (Some (temporali_from_temporalinstarr insts count))
             | None => None
             end
    end.

(** A stored pointer is the restriction of a sequence of [ts1] to a
    timestamp of [ts2] that the period of the sequence contains. *)
Definition restricted_instant (ts1 : TemporalS) (ts2 : TimestampSet)
    (p : option TemporalInst) : Prop :=
  exists seq t, In seq (sequences ts1) /\ In t (tss_times ts2) /\
    contains_period_timestamp_internal (period seq) t = true /\
    p = temporalseq_at_timestamp seq t.

End AtTimestampSet.

(** ** Output (lines 473-503) *)

(** A C string, as the characters before its terminator. *)
Definition cstring : Type := list Ascii.ascii.

Definition strlen (s : cstring) : Z := Z.of_nat (length s).

(** A palloc'ed character buffer: a cell holds a character once it has
    been written. *)
Definition buffer : Type := list (option Ascii.ascii).

(** [palloc (size)] for a [size_t] size: the host refuses a request above
    [MaxAllocSize]; a negative [int] is such a request as [size_t]. *)
Definition palloc (size : Z) : result buffer :=
  if (size <? 0) || (MaxAllocSize <? size) then Err (InternalError msg_alloc)
  else Ok (repeat None (Z.to_nat size)).

(** [buf[index] = c]: a fault outside the buffer. *)
Definition buf_set (buf : buffer) (index : Z) (c : Ascii.ascii) : result buffer :=
  if (index <? 0) || (Z.of_nat (length buf) <=? index) then Fault
  else Ok (array_set buf index (Some c)).

(** [strcpy (buf + pos, s)]: the characters of [s], then the terminator. *)
Fixpoint strcpy (buf : buffer) (pos : Z) (s : cstring) : result buffer :=
  match s with
  | [] => buf_set buf pos Ascii.zero
  | c :: r => buf' <- buf_set buf pos c ;; strcpy buf' (pos + 1) r
  end.

(** The C string that starts the buffer: nothing when a cell that was
    never written comes before a terminator. *)
Fixpoint buf_string (buf : buffer) : option cstring :=
  match buf with
  | Some c :: r =>
      if Ascii.eqb c Ascii.zero then Some [] else option_map (cons c) (buf_string r)
  | _ => None
  end.

Definition char_lbrace : Ascii.ascii := Ascii.ascii_of_nat 123.
Definition char_rbrace : Ascii.ascii := Ascii.ascii_of_nat 125.
Definition char_comma : Ascii.ascii := Ascii.ascii_of_nat 44.
Definition char_space : Ascii.ascii := Ascii.ascii_of_nat 32.

Section ToString.

(** [value_out] is the output function of the base type;
    [temporalseq_to_string] is in the sequence file. *)
Variable value_out : Oid -> Datum -> cstring.
Variable temporalseq_to_string : TemporalSeq -> (Oid -> Datum -> cstring) -> cstring.

(** The result is the buffer [result].  [strings] has room for
    [(int) (sizeof (char * ) * ts->count) / sizeof (char * )] pointers. *)
Definition temporals_to_string (ts : TemporalS) : result buffer :=
  let size := int_wrap (8 * count ts) in
  _ <- palloc size ;;
  p <- for_range 0 (count ts)
         (fun i p =>
            match temporals_seq_n ts i with
            | Some seq =>
                if 8 * i <? size then
                  let s := temporalseq_to_string seq value_out in
                  Ok (fst p ++ [s], snd p + (strlen s + 2))
                else Fault
            | None => Fault
            end)
         ([], 0) ;;
  let strings : list cstring := fst p in
  let outlen : Z := snd p in
  result <- palloc (outlen + 3) ;;
  result <- buf_set result outlen Ascii.zero ;;
  result <- buf_set result 0 char_lbrace ;;
  q <- for_range 0 (count ts)
         (fun i q =>
            match array_get strings i with
            | Some s =>
                result <- strcpy (fst q) (snd q) s ;;
                let pos := snd q + strlen s in
                result <- buf_set result pos char_comma ;;
                result <- buf_set result (pos + 1) char_space ;;
                Ok (result, pos + 2)
            | None => Fault
            end)
         (result, 1) ;;
  let pos : Z := snd q in
  result <- buf_set (fst q) (pos - 2) char_rbrace ;;
  buf_set result (pos - 1) Ascii.zero.

End ToString.

(** The strings separated by a comma and a space. *)
Fixpoint join_strings (l : list cstring) : cstring :=
  match l with
  | [] => []
  | [s] => s
  | s :: r => s ++ [char_comma; char_space] ++ join_strings r
  end.

(** The characters that the second loop writes for the strings [l], and
    their number. *)
Definition separated (l : list cstring) : cstring :=
  concat (map (fun s => s ++ [char_comma; char_space]) l).

Fixpoint separated_length (l : list cstring) : Z :=
  match l with
  | [] => 0
  | s :: r => strlen s + 2 + separated_length r
  end.

(** For the examples: a sequence is written as the value of its first
    instant. *)
Definition seq_string_example (seq : TemporalSeq) (value_out : Oid -> Datum -> cstring)
  : cstring :=
  match instants seq with
  | i :: _ => value_out (inst_valuetypid i) (inst_value i)
  | [] => []
  end.

Definition value_out_example (valuetypid : Oid) (d : Datum) : cstring :=
  [Ascii.ascii_of_nat (48 + Z.to_nat (d mod 10))].

(** ** Restriction to the complement of a timestamp (lines 1612-1643) *)

(** [sequences[k++] = temporals_seq_n (src, i)] for an array [sequences]
    of [room] pointers that holds [k] of them: a fault outside it. *)
Definition store_seq_n (room : Z) (src : TemporalS) (i : Z)
    (sequences : list TemporalSeq) : result (list TemporalSeq) :=
  match temporals_seq_n src i with
  | Some seq =>
      if Z.of_nat (length sequences) <? room then Ok (sequences ++ [seq]) else Fault
  | None => Fault
  end.

Section MinusTimestamp.

Variable with_postgis : bool.
Variable geometry_oid geography_oid : Oid.
Variable tpoint_srid_internal : TemporalSeq -> Z.
Variable temporalseqarr_normalize : list TemporalSeq -> list TemporalSeq.
Variable temporal_bbox_size : Oid -> Z.
Variable temporals_make_bbox : list TemporalSeq -> BOX.

(** From the sequence file: the sequence without [t], as a sequence set;
    NULL ([None]) when nothing is left. *)
Variable temporalseq_minus_timestamp : TemporalSeq -> TimestampTz -> option TemporalS.

(** [Ok None] is the NULL result. *)
Definition temporals_minus_timestamp (ts : TemporalS) (t : TimestampTz)
  : result (option TemporalS) :=
  if count ts =? 1 then
    match temporals_seq_n ts 0 with
    | Some seq => Ok (temporalseq_minus_timestamp seq t)
    | None => Fault
    end
  else
    match temporals_find_timestamp ts t with
    | None => Fault
    | Some (false, _) => Ok (Some (temporals_copy ts))
    | Some (true, n) =>
        let room := count ts + 1 in
        sequences <- for_range 0 n (store_seq_n room ts) [] ;;
        match temporals_seq_n ts n with
        | None => Fault
        | Some seq =>
            let minus := temporalseq_minus_timestamp seq t in
            sequences <- match minus with
                         | Some m => for_range 0 (count m) (store_seq_n room m) sequences
                         | None => Ok sequences
                         end ;;
            sequences <- for_range (n + 1) (count ts) (store_seq_n room ts) sequences ;;
            result <- temporals_from_temporalseqarr with_postgis geometry_oid
                        geography_oid tpoint_srid_internal temporalseqarr_normalize
                        temporal_bbox_size temporals_make_bbox
                        sequences (Z.of_nat (length sequences)) false ;;
            Ok (Some result)
        end
    end.

(** What [temporalseq_minus_timestamp] returns for [seq] and [t]: at most
    two valid fragments of [seq], in order, over the instants of [seq]
    other than [t]; NULL when there is none. *)
Definition minus_timestamp_spec (seq : TemporalSeq) (t : TimestampTz) : Prop :=
  match temporalseq_minus_timestamp seq t with
  | Some m =>
      count m = Z.of_nat (length (sequences m)) /\ 1 <= count m <= 2 /\
      seqarr_ordered (sequences m) = true /\
      Forall (fun f => period_valid (period f) = true /\
                       contains_period_period_internal (period seq) (period f) = true /\
                       same_geo tpoint_srid_internal seq f) (sequences m) /\
      (forall u, seqs_extent (sequences m) u <-> in_period (period seq) u /\ u <> t)
  | None => forall u, in_period (period seq) u -> u = t
  end.

End MinusTimestamp.

(** The sequences of an array are pairwise in order. *)
Fixpoint left_sorted (l : list TemporalSeq) : Prop :=
  match l with
  | [] => True
  | a :: r => Forall (fun b => period_left (period a) (period b)) r /\ left_sorted r
  end.

(** For the examples: a sequence without one timestamp is the sequence
    without the period of that timestamp alone. *)
Definition temporalseq_minus_timestamp_model (seq : TemporalSeq) (t : TimestampTz)
  : option TemporalS :=
  temporalseq_minus_period_model seq (mkPeriod t t true true).

(** ** Intersection with timestamps (lines 1903-1912, 1948-1965) *)

(** The loop [for (i = 0; i < count; i++) if (temporals_intersects_timestamp
    (ts, time_n (i))) return true; return false;] from index [i];
    [Some b] is the value returned. *)
Fixpoint intersects_times_loop (n : nat) (ts : TemporalS)
    (time_n : Z -> option TimestampTz) (i : Z) : option bool :=
  match n with
  | O => Some false
  | S n' =>
      match time_n i with
      | None => None
      | Some t =>
          match temporals_intersects_timestamp ts t with
          | None => None
          | Some true => Some true
          | Some false => intersects_times_loop n' ts time_n (i + 1)
          end
      end
  end.

Definition temporals_intersects_timestampset (ts : TemporalS) (ts1 : TimestampSet)
  : option bool :=
  intersects_times_loop (Z.to_nat (tss_count ts1)) ts (timestampset_time_n ts1) 0.

Definition temporals_intersects_temporalinst (ts : TemporalS) (inst : TemporalInst)
  : option bool :=
  temporals_intersects_timestamp ts (inst_t inst).

Definition temporals_intersects_temporali (ts : TemporalS) (ti : TemporalI)
  : option bool :=
  intersects_times_loop (Z.to_nat (ti_count ti)) ts
    (fun i => option_map inst_t (temporali_inst_n ti i)) 0.

(** ** Synchronisation with a sequence (lines 350-411) *)

Section SynchronizeSeq.

Variable with_postgis : bool.
Variable geometry_oid geography_oid : Oid.
Variable tpoint_srid_internal : TemporalSeq -> Z.
Variable temporalseqarr_normalize : list TemporalSeq -> list TemporalSeq.
Variable temporal_bbox_size : Oid -> Z.
Variable temporals_make_bbox : list TemporalSeq -> BOX.
Variable synchronize_temporalseq_temporalseq :
  TemporalSeq -> TemporalSeq -> bool -> option (TemporalSeq * TemporalSeq).

(** The loop over the sequences from index [n] on, up to the [break]:
    what is stored in [sequences1] and in [sequences2]. *)
Fixpoint synchronize_seq_loop (seq : TemporalSeq) (crossings : bool)
    (seqs : list TemporalSeq) : list TemporalSeq * list TemporalSeq :=
  match seqs with
  | [] => ([], [])
  | seq1 :: rest =>
      let kept :=
        match synchronize_temporalseq_temporalseq seq seq1 crossings with
        | Some (syncseq1, syncseq2) => ([syncseq1], [syncseq2])
        | None => ([], [])
        end in
      if (timestamp_cmp_internal (upper (period seq)) (upper (period seq1)) <? 0) ||
         ((timestamp_cmp_internal (upper (period seq)) (upper (period seq1)) =? 0) &&
          (Bool.eqb (upper_inc (period seq)) (lower_inc (period seq)) ||
           (negb (upper_inc (period seq)) && lower_inc (period seq))))
      then kept
      else
        let more := synchronize_seq_loop seq crossings rest in
        (fst kept ++ fst more, snd kept ++ snd more)
  end.

(** [Ok None] is the return value [false]; [Ok (Some (sync1, sync2))] is
    [true] with the two outputs.  The arrays have room for the sequences
    from [n] on. *)
Definition synchronize_temporals_temporalseq (ts : TemporalS) (seq : TemporalSeq)
    (crossings : bool) : result (option (TemporalS * TemporalS)) :=
  match temporals_timespan ts with
  | None => Fault
  | Some p =>
      if negb (overlaps_period_period_internal (period seq) p) then Ok None else
      match temporals_find_timestamp ts (lower (period seq)) with
      | None => Fault
      | Some (_, n) =>
          if n <? 0 then Fault else
          seqs <- array_prefix (sequences ts) (count ts) ;;
          let collected := synchronize_seq_loop seq crossings (skipn (Z.to_nat n) seqs) in
          let sequences1 := fst collected in
          let sequences2 := snd collected in
          let k := Z.of_nat (length sequences1) in
          if k =? 0 then Ok None else
          sync1 <- temporals_from_temporalseqarr with_postgis geometry_oid
                     geography_oid tpoint_srid_internal temporalseqarr_normalize
                     temporal_bbox_size temporals_make_bbox sequences1 k false ;;
          sync2 <- temporals_from_temporalseqarr with_postgis geometry_oid
                     geography_oid tpoint_srid_internal temporalseqarr_normalize
                     temporal_bbox_size temporals_make_bbox sequences2 k false ;;
          Ok (Some (sync1, sync2))
      end
  end.

(** [synchronize_temporals_temporalseq (ts, seq, sync2, sync1, crossings)]:
    the outputs in the order of the arguments. *)
Definition synchronize_temporalseq_temporals (seq : TemporalSeq) (ts : TemporalS)
    (crossings : bool) : result (option (TemporalS * TemporalS)) :=
  r <- synchronize_temporals_temporalseq ts seq crossings ;;
  Ok (option_map (fun sync => (snd sync, fst sync)) r).

End SynchronizeSeq.

(** For the examples: a float sequence on [lo, hi]. *)
Definition float_seq (lo hi : Z) : TemporalSeq :=
  mkSeq 2 701 (mkFlags true false false) (mkPeriod lo hi true true)
        [mkInst 1 lo 701; mkInst 1 hi 701].

(** ** Synchronisation with an instant set (lines 292-349) *)

Section SynchronizeInstants.

Variable temporalseq_at_timestamp : TemporalSeq -> TimestampTz -> option TemporalInst.
(** From the instant set file. *)
Variable temporali_timespan : TemporalI -> Period.
Variable temporali_from_temporalinstarr : list TemporalInst -> Z -> TemporalI.

(** The merge walk; [instants1] and [instants2] hold the [k] pointers
    stored so far, NULL being [None]. *)
Fixpoint synchronize_instants_walk (fuel : nat) (ts : TemporalS) (ti : TemporalI)
    (i j : Z) (instants1 : list (option TemporalInst)) (instants2 : list TemporalInst)
  : option (list (option TemporalInst) * list TemporalInst) :=
  if (i <? count ts) && (j <? ti_count ti) then
    match fuel with
    | O => None
    | S fuel' =>
        match temporals_seq_n ts i, temporali_inst_n ti j with
        | Some seq, Some inst =>
            let found :=
              contains_period_timestamp_internal (period seq) (inst_t inst) in
            let instants1 :=
              if found then instants1 ++ [temporalseq_at_timestamp seq (inst_t inst)]
              else instants1 in
            let instants2 := if found then instants2 ++ [inst] else instants2 in
            if timestamp_cmp_internal (upper (period seq)) (inst_t inst) =? 0 then
              synchronize_instants_walk fuel' ts ti (i + 1) (j + 1) instants1 instants2
            else if timestamp_cmp_internal (upper (period seq)) (inst_t inst) <? 0 then
              synchronize_instants_walk fuel' ts ti (i + 1) j instants1 instants2
            else
              synchronize_instants_walk fuel' ts ti i (j + 1) instants1 instants2
        | _, _ => None
        end
    end
  else Some (instants1, instants2).

(** A pair of pointers stored by the walk: the restriction of a sequence
    of [ts] to the timestamp of an instant of [ti], which the period of
    the sequence contains, and that instant. *)
Definition synchronized_pair (ts : TemporalS) (ti : TemporalI)
    (p : option TemporalInst) (inst : TemporalInst) : Prop :=
  exists seq, In seq (sequences ts) /\ In inst (ti_instants ti) /\
    contains_period_timestamp_internal (period seq) (inst_t inst) = true /\
    p = temporalseq_at_timestamp seq (inst_t inst).

(** [Ok None] is the return value [false]. *)
Definition synchronize_temporals_temporali (ts : TemporalS) (ti : TemporalI)
  : result (option (TemporalI * TemporalI)) :=
  match temporals_timespan ts with
  | None => Fault
  | Some p1 =>
      let p2 := temporali_timespan ti in
      if negb (overlaps_period_period_internal p1 p2) then Ok None else
      match synchronize_instants_walk (Z.to_nat (count ts + ti_count ti)) ts ti
              0 0 [] [] with
      | None => Fault
      | Some (instants1, instants2) =>
          let k := Z.of_nat (length instants2) in
          if k =? 0 then Ok None else
          match all_some instants1 with
          | Some insts1 =>
              Ok (Some (temporali_from_temporalinstarr insts1 k,
                        temporali_from_temporalinstarr instants2 k))
          | None => Fault
          end
      end
  end.

(** [synchronize_temporals_temporali (ts, ti, sync2, sync1)]. *)
Definition synchronize_temporali_temporals (ti : TemporalI) (ts : TemporalS)
  : result (option (TemporalI * TemporalI)) :=
  r <- synchronize_temporals_temporali ts ti ;;
  Ok (option_map (fun sync => (snd sync, fst sync)) r).

End SynchronizeInstants.

(** ** Restriction to a value and to its complement (lines 1124-1212) *)

Section AtValue.

Variable with_postgis : bool.
Variable geometry_oid geography_oid : Oid.
Variable tpoint_srid_internal : TemporalSeq -> Z.
Variable temporalseqarr_normalize : list TemporalSeq -> list TemporalSeq.
Variable temporal_bbox_size : Oid -> Z.
Variable temporals_make_bbox : list TemporalSeq -> BOX.

(** From the sequence file: the restriction of one sequence as a sequence
    set, NULL ([None]) when empty, and as the array of its fragments. *)
Variable temporalseq_at_value temporalseq_minus_value :
  TemporalSeq -> Datum -> Oid -> option TemporalS.
Variable temporalseq_at_value2 temporalseq_minus_value2 :
  TemporalSeq -> Datum -> Oid -> list TemporalSeq.

(** The general case of the restrictions that gather the fragments of
    every sequence: [fragments seq] is the array that the sequence-level
    function returns for [seq], whose length it stores in [countseqs[i]].
    [Ok None] is the NULL result. *)
Definition restrict_collect (fragments : TemporalSeq -> list TemporalSeq)
    (ts : TemporalS) : result (option TemporalS) :=
  seqs <- array_prefix (sequences ts) (count ts) ;;
  let allseqs := concat (map fragments seqs) in
  let totalseqs := Z.of_nat (length allseqs) in
  if totalseqs =? 0 then Ok None else
  r <- temporals_from_temporalseqarr with_postgis geometry_oid
         geography_oid tpoint_srid_internal temporalseqarr_normalize
         temporal_bbox_size temporals_make_bbox allseqs totalseqs true ;;
  Ok (Some r).

Definition temporals_at_value (ts : TemporalS) (value : Datum) (valuetypid : Oid)
  : result (option TemporalS) :=
  if count ts =? 1 then
    match temporals_seq_n ts 0 with
    | None => Fault
    | Some seq0 => Ok (temporalseq_at_value seq0 value valuetypid)
    end
  else restrict_collect (fun seq => temporalseq_at_value2 seq value valuetypid) ts.

Definition temporals_minus_value (ts : TemporalS) (value : Datum) (valuetypid : Oid)
  : result (option TemporalS) :=
  if count ts =? 1 then
    match temporals_seq_n ts 0 with
    | None => Fault
    | Some seq0 => Ok (temporalseq_minus_value seq0 value valuetypid)
    end
  else restrict_collect (fun seq => temporalseq_minus_value2 seq value valuetypid) ts.

(** The fragments that a sequence-level restriction returns for [seq]
    are in order, within the period of [seq], and keep its SRID and Z
    flag. *)
Definition fragments_of (seq : TemporalSeq) (frags : list TemporalSeq) : Prop :=
  seqarr_ordered frags = true /\
  Forall (fun f => contains_period_period_internal (period seq) (period f) = true /\
                   same_geo tpoint_srid_internal seq f) frags.

End AtValue.

(** For the examples: the restriction of a sequence that holds one value
    throughout to the complement of a value. *)
Definition minus_value2_constant (seq : TemporalSeq) (value : Datum) (valuetypid : Oid)
  : list TemporalSeq :=
  if forallb (fun i => inst_value i =? value) (instants seq) then [] else [seq].

(** Two constant integer sequences with the values 1 and 2. *)
Definition two_values_example : TemporalS :=
  mkTS 2 23 (mkFlags false false false)
       [mkSeq 2 23 (mkFlags false false false) (mkPeriod 0 10 true true)
              [mkInst 1 0 23; mkInst 1 10 23];
        mkSeq 2 23 (mkFlags false false false) (mkPeriod 20 30 true true)
              [mkInst 2 20 23; mkInst 2 30 23]]
       (Some (mkBox 1 0 2 30)).

(** ** Restriction to the complement of a period set (lines 1867-1886) *)

Section MinusPeriodSet.

Variable with_postgis : bool.
Variable geometry_oid geography_oid : Oid.
Variable tpoint_srid_internal : TemporalSeq -> Z.
Variable temporalseqarr_normalize : list TemporalSeq -> list TemporalSeq.
Variable temporal_bbox_size : Oid -> Z.
Variable temporals_make_bbox : list TemporalSeq -> BOX.
Variable temporalseq_at_periodset : TemporalSeq -> PeriodSet -> option TemporalS.
Variable temporalseq_at_periodset1 : TemporalSeq -> PeriodSet -> list TemporalSeq.
Variable periodset_from_periodarr_internal : list Period -> Z -> bool -> PeriodSet.
(** From the sequence file and the period set file; NULL is [None]. *)
Variable temporalseq_minus_periodset : TemporalSeq -> PeriodSet -> option TemporalS.
Variable minus_periodset_periodset_internal : PeriodSet -> PeriodSet -> option PeriodSet.

(** [Ok None] is the NULL result.  In the general case [ps1] and [ps2]
    are released before the return, [ps2] also when it is NULL: that
    [pfree] is a fault. *)
Definition temporals_minus_periodset (ts : TemporalS) (ps : PeriodSet)
  : result (option TemporalS) :=
  if count ts =? 1 then
    match temporals_seq_n ts 0 with
    | None => Fault
    | Some seq0 => Ok (temporalseq_minus_periodset seq0 ps)
    end
  else
    ps1 <- temporals_get_time periodset_from_periodarr_internal ts ;;
    match minus_periodset_periodset_internal ps1 ps with
    | None => Fault
    | Some ps2 =>
        temporals_at_periodset with_postgis geometry_oid geography_oid
          tpoint_srid_internal temporalseqarr_normalize temporal_bbox_size
          temporals_make_bbox temporalseq_at_periodset temporalseq_at_periodset1
          ts ps2
    end.

End MinusPeriodSet.

(** For the examples: the periods of a set taken away one after the
    other. *)
Definition minus_periodset_periodset_model (ps1 ps : PeriodSet) : option PeriodSet :=
  fold_left (fun acc p => match acc with
                          | Some r => minus_periodset_period_model r p
                          | None => None
                          end)
            (ps_periods ps) (Some ps1).

Definition temporalseq_minus_periodset_model (seq : TemporalSeq) (ps : PeriodSet)
  : option TemporalS :=
  match minus_periodset_periodset_model
          (mkPeriodSet 1 [period seq]) ps with
  | Some r => seqs_as_set seq (map (seq_with_period seq) (ps_periods r))
  | None => None
  end.

(** ** Intersection with a period set (lines 1936-1947) *)

(** [periodset_per_n], from the period set file. *)
Definition periodset_per_n (ps : PeriodSet) (index : Z) : option Period :=
  array_get (ps_periods ps) index.

(** The loop from index [i]; [Some b] is the value returned. *)
Fixpoint intersects_periodset_loop (n : nat) (ts : TemporalS) (ps : PeriodSet)
    (i : Z) : option bool :=
  match n with
  | O => Some false
  | S n' =>
      match periodset_per_n ps i with
      | None => None
      | Some p =>
          match temporals_intersects_period ts p with
          | None => None
          | Some true => Some true
          | Some false => intersects_periodset_loop n' ts ps (i + 1)
          end
      end
  end.

Definition temporals_intersects_periodset (ts : TemporalS) (ps : PeriodSet)
  : option bool :=
  intersects_periodset_loop (Z.to_nat (ps_count ps)) ts ps 0.

(** * GiST support functions (IndexGistTnumber.c) *)

(** ** Index keys

    The host's [Point] and [BOX], as the index keys hold them: two corners
    in double precision, [x] for the value and [y] for the time. *)
Module Geo.

Record Point : Type := mkPoint {
  x : PrimFloat.float;
  y : PrimFloat.float
}.

Record BOX : Type := mkBOX {
  high : Point;
  low : Point
}.

End Geo.

(** The value of a finite double with its fraction dropped, which is what
    C converts it to when the target is an integer type; no value for an
    infinity or a NaN. *)
Definition double_trunc (d : PrimFloat.float) : option Z :=
  match FloatOps.Prim2SF d with
  | SpecFloat.S754_zero _ => Some 0
  | SpecFloat.S754_finite s m e =>
      let a := if 0 <=? e then Z.pos m * 2 ^ e else Z.pos m / 2 ^ (- e) in
      Some (if s then - a else a)
  | SpecFloat.S754_infinity _ => None
  | SpecFloat.S754_nan => None
  end.

Definition int_range (z : Z) : bool := (- 2 ^ 31 <=? z) && (z <? 2 ^ 31).
Definition int64_range (z : Z) : bool := (- 2 ^ 63 <=? z) && (z <? 2 ^ 63).

(** C defines the conversion of a double to an integer type where the
    truncated value is a value of the type, and leaves it undefined
    elsewhere: [conv] is such a conversion to the type with the values
    [range]. *)
Definition conversion_defined (range : Z -> bool) (conv : PrimFloat.float -> Z)
  : Prop :=
  forall d z, double_trunc d = Some z -> range z = true -> conv d = z.

(** For the examples: the conversion of x86-64, which gives the least
    value of the type where C leaves the result undefined. *)
Definition cvttsd2si (range : Z -> bool) (least : Z) (d : PrimFloat.float) : Z :=
  match double_trunc d with
  | Some z => if range z then z else least
  | None => least
  end.

(** For the examples: the double of an integer of at most 53 bits. *)
Definition double_of_Z (z : Z) : PrimFloat.float :=
  if z <? 0 then PrimFloat.opp (PrimFloat.of_uint63 (Uint63.of_Z (- z)))
  else PrimFloat.of_uint63 (Uint63.of_Z z).

(** ** Memory

    The compress and fetch methods allocate their results and hand out
    pointers to them, so their model threads the heap: a chunk is live
    with its content, or freed.  An address is the index of its chunk. *)

(** The fields of the host's [GISTENTRY]; [key] is a pointer. *)
Record GISTENTRY : Type := mkEntry {
  key : Z;
  rel : Z;
  page : Z;
  offset : Z;
  leafkey : bool
}.

Section Gist.

(** A temporal value of any duration, and [temporal_bbox], from the
    bounding box file. *)
Variable Temporal : Type.
Variable temporal_bbox : Temporal -> Geo.BOX.

(** What the platform makes of the cast [(int)] of a double, and of a
    double passed for a [TimestampTz], a 64-bit integer. *)
Variable double_to_int : PrimFloat.float -> Z.
Variable double_to_timestamp : PrimFloat.float -> TimestampTz.

(** The host's macros [Int32GetDatum] and [Float8GetDatum]. *)
Variable Int32GetDatum : Z -> Datum.
Variable Float8GetDatum : PrimFloat.float -> Datum.

Inductive object : Type :=
| ORaw
| OEntry (e : GISTENTRY)
| OBox (b : Geo.BOX)
| OInst (i : TemporalInst)
| OTemporal (t : Temporal).

Definition heap : Type := list (option object).

(** [palloc]: a new chunk, at a new address. *)
Definition heap_alloc (h : heap) (o : object) : heap * Z :=
  (h ++ [Some o], Z.of_nat (length h)).

(** A read through a pointer: nothing from a freed chunk or from outside
    the heap. *)
Definition heap_load (h : heap) (p : Z) : option object :=
  match array_get h p with
  | Some (Some o) => Some o
  | _ => None
  end.

Definition heap_store (h : heap) (p : Z) (o : object) : result heap :=
  match heap_load h p with
  | Some _ => Ok (array_set h p (Some o))
  | None => Fault
  end.

(** [pfree]. *)
Definition heap_free (h : heap) (p : Z) : result heap :=
  match heap_load h p with
  | Some _ => Ok (array_set h p None)
  | None => Fault
  end.

(** [temporalinst_make (value, t, valuetypid)], from the instant file: a
    palloc'ed instant. *)
Definition temporalinst_make (h : heap) (value : Datum) (t : TimestampTz)
    (valuetypid : Oid) : heap * Z :=
  heap_alloc h (OInst (mkInst value t valuetypid)).

(** The host's macro [gistentryinit (e, k, r, pg, o, l)]. *)
Definition gistentryinit (h : heap) (e : Z) (k r pg o : Z) (l : bool) : result heap :=
  heap_store h e (OEntry (mkEntry k r pg o l)).

(** The entry that the compress and fetch methods build next to the key
    they allocate. *)
Definition new_entry (h : heap) (entry : GISTENTRY) : GISTENTRY :=
  mkEntry (Z.of_nat (length h) + 1) (rel entry) (page entry) (offset entry) false.

(** ** Compress method (lines 245-260) *)

(** The result is the heap and the pointer returned. *)
Definition gist_tnumber_compress (h : heap) (entry_ptr : Z) : result (heap * Z) :=
  match heap_load h entry_ptr with
  | Some (OEntry entry) =>
      if leafkey entry then
        let (h, retval) := heap_alloc h ORaw in
        match heap_load h (key entry) with
        | Some (OTemporal temp) =>
            let (h, box) := heap_alloc h ORaw in
            h <- heap_store h box (OBox (temporal_bbox temp)) ;;
            h <- gistentryinit h retval box (rel entry) (page entry) (offset entry)
                   false ;;
            Ok (h, retval)
        | _ => Fault
        end
      else Ok (h, entry_ptr)
  | _ => Fault
  end.

(** ** Fetch methods (lines 268-308) *)

Definition gist_tintinst_fetch (h : heap) (entry_ptr : Z) : result (heap * Z) :=
  match heap_load h entry_ptr with
  | Some (OEntry entry) =>
      match heap_load h (key entry) with
      | Some (OBox in_) =>
          let (h, retval) := heap_alloc h ORaw in
          let (h, inst) :=
            temporalinst_make h
              (Int32GetDatum (double_to_int (Geo.x (Geo.high in_))))
              (double_to_timestamp (Geo.y (Geo.high in_))) INT4OID in
          h <- gistentryinit h retval inst (rel entry) (page entry) (offset entry)
                 false ;;
          Ok (h, retval)
      | _ => Fault
      end
  | _ => Fault
  end.

Definition gist_tfloatinst_fetch (h : heap) (entry_ptr : Z) : result (heap * Z) :=
  match heap_load h entry_ptr with
  | Some (OEntry entry) =>
      match heap_load h (key entry) with
      | Some (OBox in_) =>
          let (h, retval) := heap_alloc h ORaw in
          let (h, inst) :=
            temporalinst_make h (Float8GetDatum (Geo.x (Geo.high in_)))
              (double_to_timestamp (Geo.y (Geo.high in_))) FLOAT8OID in
          h <- gistentryinit h retval inst (rel entry) (page entry) (offset entry)
                 false ;;
          h <- heap_free h inst ;;
          Ok (h, retval)
      | _ => Fault
      end
  | _ => Fault
  end.

End Gist.

(** For the examples: the box of an instant, both corners at its value
    and timestamp. *)
Definition instant_box (inst : TemporalInst) : Geo.BOX :=
  let corner := Geo.mkPoint (double_of_Z (inst_value inst))
                            (double_of_Z (inst_t inst)) in
  Geo.mkBOX corner corner.

(** For the examples: a box with the upper corner (5.75, 10). *)
Definition fetch_box_example : Geo.BOX :=
  Geo.mkBOX (Geo.mkPoint (PrimFloat.div (double_of_Z 23) (double_of_Z 4))
                         (double_of_Z 10))
            (Geo.mkPoint (double_of_Z 1) (double_of_Z 0)).

(** * Properties *)

(** ** Integers and arrays *)

Lemma int_wrap_small (z : Z) : - 2 ^ 31 <= z < 2 ^ 31 -> int_wrap z = z.
Proof.
  intros H. unfold int_wrap.
  rewrite Z.mod_small by lia. lia.
Qed.

Lemma array_get_bounds {A : Type} (l : list A) (i : Z) (x : A) :
  array_get l i = Some x -> 0 <= i < Z.of_nat (length l).
Proof.
  unfold array_get. destruct (i <? 0) eqn:Hi; [discriminate|].
  intros H. apply Z.ltb_ge in Hi.
  assert (Hlt : (Z.to_nat i < length l)%nat).
  { apply nth_error_Some. congruence. }
  lia.
Qed.

Lemma array_get_defined {A : Type} (l : list A) (i : Z) :
  0 <= i < Z.of_nat (length l) -> exists x, array_get l i = Some x.
Proof.
  intros H. unfold array_get.
  destruct (i <? 0) eqn:Hi; [apply Z.ltb_lt in Hi; lia|].
  destruct (nth_error l (Z.to_nat i)) eqn:E; [eauto|].
  apply nth_error_None in E. lia.
Qed.

Lemma array_get_cons {A : Type} (a : A) (l : list A) (i : Z) :
  0 < i -> array_get (a :: l) i = array_get l (i - 1).
Proof.
  intros H. unfold array_get.
  destruct (i <? 0) eqn:E1; [apply Z.ltb_lt in E1; lia|].
  destruct (i - 1 <? 0) eqn:E2; [apply Z.ltb_lt in E2; lia|].
  replace (Z.to_nat i) with (S (Z.to_nat (i - 1))) by lia.
  reflexivity.
Qed.

Lemma array_get_In {A : Type} (l : list A) (i : Z) (x : A) :
  array_get l i = Some x -> In x l.
Proof.
  unfold array_get. destruct (i <? 0); [discriminate|].
  apply nth_error_In.
Qed.

Lemma timestamp_cmp_le (a b : Z) : (timestamp_cmp_internal a b <=? 0) = (a <=? b).
Proof.
  unfold timestamp_cmp_internal.
  destruct (Z.compare_spec a b); destruct (a <=? b) eqn:E; try reflexivity;
    try (apply Z.leb_le in E; lia); try (apply Z.leb_gt in E; lia).
Qed.

Lemma timestamp_cmp_ge (a b : Z) : (timestamp_cmp_internal a b >=? 0) = (b <=? a).
Proof.
  unfold timestamp_cmp_internal. rewrite Z.geb_leb.
  destruct (Z.compare_spec a b); destruct (b <=? a) eqn:E; try reflexivity;
    try (apply Z.leb_le in E; lia); try (apply Z.leb_gt in E; lia).
Qed.

Lemma timestamp_cmp_gt (a b : Z) : (timestamp_cmp_internal a b >? 0) = (b <? a).
Proof.
  unfold timestamp_cmp_internal. rewrite Z.gtb_ltb.
  destruct (Z.compare_spec a b); destruct (b <? a) eqn:E; try reflexivity;
    try (apply Z.ltb_lt in E; lia); try (apply Z.ltb_ge in E; lia).
Qed.

Lemma timestamp_cmp_lt (a b : Z) : (timestamp_cmp_internal a b <? 0) = (a <? b).
Proof.
  unfold timestamp_cmp_internal.
  destruct (Z.compare_spec a b); destruct (a <? b) eqn:E; try reflexivity;
    try (apply Z.ltb_lt in E; lia); try (apply Z.ltb_ge in E; lia).
Qed.

Lemma timestamp_cmp_eq (a b : Z) : (timestamp_cmp_internal a b =? 0) = (a =? b).
Proof.
  unfold timestamp_cmp_internal.
  destruct (Z.compare_spec a b); destruct (a =? b) eqn:E; try reflexivity;
    try (apply Z.eqb_eq in E; lia); try (apply Z.eqb_neq in E; lia).
Qed.

(** ** Order of the periods of a valid sequence array *)

(** Turns boolean tests on integers in the context and goal into
    propositions that [lia] reads. *)
Ltac boolZ :=
  repeat match goal with
  | H : _ && _ = true |- _ => apply andb_true_iff in H; destruct H
  | H : _ || _ = false |- _ => apply orb_false_iff in H; destruct H
  | H : negb _ = true |- _ => apply negb_true_iff in H
  | H : negb _ = false |- _ => apply negb_false_iff in H
  | H : (_ <? _) = true |- _ => apply Z.ltb_lt in H
  | H : (_ <? _) = false |- _ => apply Z.ltb_ge in H
  | H : (_ <=? _) = true |- _ => apply Z.leb_le in H
  | H : (_ <=? _) = false |- _ => apply Z.leb_gt in H
  | H : (_ =? _) = true |- _ => apply Z.eqb_eq in H
  | H : (_ =? _) = false |- _ => apply Z.eqb_neq in H
  end.

Lemma period_valid_le (p : Period) : period_valid p = true -> lower p <= upper p.
Proof.
  unfold period_valid. intros H.
  apply orb_true_iff in H. destruct H; boolZ; lia.
Qed.

Lemma period_valid_degenerate (p : Period) :
  period_valid p = true -> lower p = upper p ->
  lower_inc p = true /\ upper_inc p = true.
Proof.
  unfold period_valid. intros H E.
  apply orb_true_iff in H. destruct H; boolZ; [lia | auto].
Qed.

Lemma seq_pair_invalid_false (a b : TemporalSeq) :
  seq_pair_invalid a b = false <-> period_left (period a) (period b).
Proof.
  unfold seq_pair_invalid, period_left.
  rewrite timestamp_cmp_gt, timestamp_cmp_eq.
  split.
  - intros H. boolZ.
    destruct (Z.eq_dec (upper (period a)) (lower (period b))) as [E|E]; [right|left; lia].
    split; [exact E|].
    apply Z.eqb_eq in E. rewrite E in H0. simpl in H0.
    destruct (upper_inc (period a)); simpl in H0; auto.
  - intros [H|[H [H'|H']]].
    + replace (lower (period b) <? upper (period a)) with false
        by (symmetry; apply Z.ltb_ge; lia).
      replace (upper (period a) =? lower (period b)) with false
        by (symmetry; apply Z.eqb_neq; lia).
      reflexivity.
    + rewrite H, H', Z.ltb_irrefl, andb_false_r. reflexivity.
    + rewrite H, H', Z.ltb_irrefl, andb_false_r. reflexivity.
Qed.

Lemma period_left_trans (p q r : Period) :
  period_valid q = true ->
  period_left p q -> period_left q r -> period_left p r.
Proof.
  intros Hq Hpq Hqr.
  pose proof (period_valid_le q Hq) as Hle.
  unfold period_left in *.
  destruct (Z.eq_dec (upper p) (lower r)) as [E|E]; [right|left; lia].
  split; [exact E|].
  assert (Hd : lower q = upper q) by lia.
  destruct (period_valid_degenerate q Hq Hd) as [Hl Hu].
  destruct Hpq as [?|[_ [?|?]]]; [lia|auto|congruence].
Qed.

Lemma period_left_before (p q : Period) (t : TimestampTz) :
  period_valid q = true ->
  period_left p q -> period_before q t -> period_before p t.
Proof.
  intros Hq Hpq Hqt.
  pose proof (period_valid_le q Hq) as Hle.
  unfold period_left, period_before in *.
  destruct (Z.eq_dec (upper p) t) as [E|E]; [right|left; lia].
  split; [exact E|].
  assert (Hd : lower q = upper q) by lia.
  destruct (period_valid_degenerate q Hq Hd) as [Hl Hu].
  destruct Hqt as [?|[_ ?]]; [lia|congruence].
Qed.

Lemma period_left_after (p q : Period) (t : TimestampTz) :
  period_valid p = true ->
  period_left p q -> period_after p t -> period_after q t.
Proof.
  intros Hp Hpq Hpt.
  pose proof (period_valid_le p Hp) as Hle.
  unfold period_left, period_after in *.
  destruct (Z.eq_dec t (lower q)) as [E|E]; [right|left; lia].
  split; [exact E|].
  assert (Hd : lower p = upper p) by lia.
  destruct (period_valid_degenerate p Hp Hd) as [Hl Hu].
  destruct Hpt as [?|[_ ?]]; [lia|congruence].
Qed.

Lemma period_before_lt (p : Period) (t u : TimestampTz) :
  period_before p t -> contains_period_timestamp_internal p u = true -> u < t.
Proof.
  unfold period_before, contains_period_timestamp_internal.
  intros Hb Hc. boolZ.
  apply orb_true_iff in H0. destruct H0; boolZ.
  - lia.
  - destruct Hb as [?|[? Hf]]; [lia|congruence].
Qed.

Lemma period_after_gt (p : Period) (t u : TimestampTz) :
  period_after p t -> contains_period_timestamp_internal p u = true -> t < u.
Proof.
  unfold period_after, contains_period_timestamp_internal.
  intros Hb Hc. boolZ.
  apply orb_true_iff in H. destruct H; boolZ.
  - lia.
  - destruct Hb as [?|[? Hf]]; [lia|congruence].
Qed.

Lemma not_contains_after (p : Period) (t : TimestampTz) :
  period_valid p = true ->
  contains_period_timestamp_internal p t = false ->
  t <= lower p -> period_after p t.
Proof.
  intros Hv Hc Hle. unfold period_after.
  destruct (Z.eq_dec t (lower p)) as [E|E]; [right|left; lia].
  split; [exact E|].
  destruct (lower_inc p) eqn:Hl; [exfalso|reflexivity].
  unfold contains_period_timestamp_internal in Hc.
  rewrite Hl, <- E, Z.eqb_refl, orb_true_r in Hc. simpl in Hc.
  boolZ.
  pose proof (period_valid_le p Hv).
  destruct (Z.eq_dec t (upper p)) as [E'|E']; [|lia].
  destruct (period_valid_degenerate p Hv) as [_ Hu]; [lia|].
  rewrite Hu, andb_true_r in H0. boolZ. lia.
Qed.

Lemma not_contains_before (p : Period) (t : TimestampTz) :
  period_valid p = true ->
  contains_period_timestamp_internal p t = false ->
  lower p < t -> period_before p t.
Proof.
  intros Hv Hc Hlt. unfold period_before.
  unfold contains_period_timestamp_internal in Hc.
  replace (lower p <? t) with true in Hc by (symmetry; apply Z.ltb_lt; lia).
  simpl in Hc. boolZ.
  destruct (Z.eq_dec (upper p) t) as [E|E]; [right|left; lia].
  split; [exact E|].
  rewrite <- E, Z.eqb_refl in H0. exact H0.
Qed.

Lemma seqarr_ordered_tail (a : TemporalSeq) (l : list TemporalSeq) :
  seqarr_ordered (a :: l) = true -> seqarr_ordered l = true.
Proof.
  destruct l as [|b l]; [reflexivity|].
  change (seqarr_ordered (a :: b :: l))
    with (negb (seq_pair_invalid a b) && seqarr_ordered (b :: l)).
  intros H. apply andb_true_iff in H. apply H.
Qed.

Lemma seqarr_ordered_head (a : TemporalSeq) (l : list TemporalSeq) :
  forallb (fun s => period_valid (period s)) l = true ->
  seqarr_ordered (a :: l) = true ->
  Forall (fun b => period_left (period a) (period b)) l.
Proof.
  revert a. induction l as [|b l IH]; intros a Hv Ho; [constructor|].
  change (seqarr_ordered (a :: b :: l))
    with (negb (seq_pair_invalid a b) && seqarr_ordered (b :: l)) in Ho.
  apply andb_true_iff in Ho. destruct Ho as [Hab Ho].
  apply negb_true_iff, seq_pair_invalid_false in Hab.
  cbn [forallb] in Hv. apply andb_true_iff in Hv. destruct Hv as [Hb Hv].
  constructor; [exact Hab|].
  specialize (IH b Hv Ho).
  eapply Forall_impl; [|exact IH].
  intros c Hbc. eapply period_left_trans; eauto.
Qed.

Lemma seqarr_ordered_pairs (l : list TemporalSeq) :
  forallb (fun s => period_valid (period s)) l = true ->
  seqarr_ordered l = true ->
  forall i j a b,
    array_get l i = Some a -> array_get l j = Some b -> i < j ->
    period_left (period a) (period b).
Proof.
  induction l as [|x l IH]; intros Hv Ho i j a b Hi Hj Hij.
  - apply array_get_bounds in Hi. simpl in Hi. lia.
  - pose proof (array_get_bounds _ _ _ Hi) as Bi.
    cbn [forallb] in Hv. apply andb_true_iff in Hv. destruct Hv as [Hx Hv].
    rewrite array_get_cons in Hj by lia.
    destruct (Z.eq_dec i 0) as [E|E].
    + subst i. cbn in Hi. inversion Hi; subst x.
      pose proof (seqarr_ordered_head a l Hv Ho) as HF.
      rewrite Forall_forall in HF. apply HF.
      eapply array_get_In; eauto.
    + rewrite array_get_cons in Hi by lia.
      eapply (IH Hv (seqarr_ordered_tail _ _ Ho) (i - 1) (j - 1)); eauto. lia.
Qed.

Lemma forallb_array_get {A : Type} (f : A -> bool) (l : list A) (i : Z) (x : A) :
  forallb f l = true -> array_get l i = Some x -> f x = true.
Proof.
  intros H Hi. rewrite forallb_forall in H. apply H.
  eapply array_get_In; eauto.
Qed.

(** ** Binary search *)

Lemma int_div2_mid (first last : Z) :
  0 <= first -> first <= last -> last < 2 ^ 30 ->
  int_div (int_add first last) 2 = (first + last) / 2 /\
  first <= (first + last) / 2 <= last.
Proof.
  intros H0 Hfl Hl.
  assert (Hpow : 2 ^ 30 = 1073741824) by reflexivity.
  assert (Hpow' : 2 ^ 31 = 2147483648) by reflexivity.
  unfold int_div, int_add.
  rewrite (int_wrap_small (first + last)) by lia.
  rewrite Z.quot_div_nonneg by lia.
  pose proof (Z.div_mod (first + last) 2 ltac:(lia)) as Hdm.
  pose proof (Z.mod_pos_bound (first + last) 2 ltac:(lia)) as Hmb.
  rewrite int_wrap_small by lia.
  split; [reflexivity | lia].
Qed.

Lemma find_timestamp_loop_correct (ts : TemporalS) (t : TimestampTz) :
  valid_temporals ts -> count ts <= 2 ^ 30 ->
  forall fuel first last middle seq,
    0 <= first -> last < count ts -> first <= last + 1 ->
    last - first + 1 <= Z.of_nat fuel ->
    (forall j s, temporals_seq_n ts j = Some s -> j < first ->
                 period_before (period s) t) ->
    (forall j s, temporals_seq_n ts j = Some s -> last < j ->
                 period_after (period s) t) ->
    (last < first -> exists s, seq = Some s /\ period_valid (period s) = true /\
        ((first = middle /\ period_after (period s) t) \/
         (first = middle + 1 /\ period_before (period s) t))) ->
    exists found pos,
      find_timestamp_loop fuel ts t first last middle seq = Some (found, pos) /\
      find_timestamp_post ts t found pos.
Proof.
  intros [Hcnt [Hpos [Hval Hord]]] Hsz.
  assert (Hpow : 2 ^ 30 = 1073741824) by reflexivity.
  assert (Hpow' : 2 ^ 31 = 2147483648) by reflexivity.
  assert (Hexit : forall fuel first last middle seq,
    0 <= first -> last < count ts -> first <= last + 1 -> last < first ->
    (forall j s, temporals_seq_n ts j = Some s -> j < first ->
                 period_before (period s) t) ->
    (forall j s, temporals_seq_n ts j = Some s -> last < j ->
                 period_after (period s) t) ->
    (exists s, seq = Some s /\ period_valid (period s) = true /\
        ((first = middle /\ period_after (period s) t) \/
         (first = middle + 1 /\ period_before (period s) t))) ->
    find_timestamp_loop fuel ts t first last middle seq = Some (false, first) /\
    find_timestamp_post ts t false first).
  { intros fuel first last middle seq H0 Hl Hfl Hlt Hb Ha [s [-> [Hv Hcase]]].
    split.
    - assert (Hgo : find_timestamp_loop fuel ts t first last middle (Some s) =
        Some (false, if timestamp_cmp_internal t (upper (period s)) >=? 0
                     then int_add middle 1 else middle)).
      { destruct fuel; cbn [find_timestamp_loop];
          replace (first <=? last) with false
            by (symmetry; apply Z.leb_gt; lia); reflexivity. }
      rewrite Hgo, timestamp_cmp_ge.
      pose proof (period_valid_le _ Hv) as Hle.
      destruct Hcase as [[-> Haft]|[-> Hbef]].
      + replace (upper (period s) <=? t) with false; [reflexivity|].
        symmetry. apply Z.leb_gt.
        destruct Haft as [?|[E Hf]]; [lia|].
        destruct (Z.eq_dec (lower (period s)) (upper (period s))) as [E'|E']; [|lia].
        destruct (period_valid_degenerate _ Hv E'). congruence.
      + replace (upper (period s) <=? t) with true.
        * unfold int_add. rewrite int_wrap_small by lia. reflexivity.
        * symmetry. apply Z.leb_le. destruct Hbef as [?|[? _]]; lia.
    - unfold find_timestamp_post. split; [lia|].
      intros j s' Hj. split; intros Hlt'.
      + eapply Hb; eauto.
      + eapply Ha; eauto. lia. }
  induction fuel as [|fuel IH]; intros first last middle seq H0 Hl Hfl Hfuel Hb Ha Hs.
  - exists false, first. apply Hexit; auto. lia. apply Hs. lia.
  - destruct (Z_lt_le_dec last first) as [Hlt|Hle].
    { exists false, first. apply Hexit; auto. }
    cbn [find_timestamp_loop].
    replace (first <=? last) with true by (symmetry; apply Z.leb_le; lia).
    destruct (int_div2_mid first last H0 Hle ltac:(lia)) as [-> Hmid].
    set (m := (first + last) / 2) in *.
    destruct (array_get_defined (sequences ts) m ltac:(lia)) as [s Hsm].
    unfold temporals_seq_n at 1. rewrite Hsm.
    assert (Hv : period_valid (period s) = true).
    { eapply (forallb_array_get (fun s => period_valid (period s))); eauto. }
    destruct (contains_period_timestamp_internal (period s) t) eqn:Hc.
    { exists true, m. split; [reflexivity|].
      exists s. split; [exact Hsm | exact Hc]. }
    rewrite timestamp_cmp_le.
    destruct (t <=? lower (period s)) eqn:Hcmp.
    + (* continue on the left of [m] *)
      apply Z.leb_le in Hcmp.
      assert (Haft : period_after (period s) t) by (apply not_contains_after; auto).
      unfold int_sub. rewrite int_wrap_small by lia.
      apply IH; try lia.
      * exact Hb.
      * intros j s' Hj Hjm.
        destruct (Z.eq_dec j m) as [->|Hne].
        -- unfold temporals_seq_n in Hj. congruence.
        -- eapply period_left_after; [exact Hv| |exact Haft].
           eapply (seqarr_ordered_pairs _ Hval Hord m j); eauto. lia.
      * intros Hlt. exists s. split; [reflexivity|]. split; [exact Hv|].
        left. split; [lia | exact Haft].
    + (* continue on the right of [m] *)
      apply Z.leb_gt in Hcmp.
      assert (Hbef : period_before (period s) t) by (apply not_contains_before; auto).
      unfold int_add. rewrite int_wrap_small by lia.
      apply IH; try lia.
      * intros j s' Hj Hjm.
        destruct (Z.eq_dec j m) as [->|Hne].
        -- unfold temporals_seq_n in Hj. congruence.
        -- eapply period_left_before; [exact Hv| |exact Hbef].
           eapply (seqarr_ordered_pairs _ Hval Hord j m); eauto. lia.
      * exact Ha.
      * intros Hlt. exists s. split; [reflexivity|]. split; [exact Hv|].
        right. split; [lia | exact Hbef].
Qed.

Lemma period_left_disjoint (p q : Period) (t : TimestampTz) :
  period_left p q ->
  contains_period_timestamp_internal p t = true ->
  contains_period_timestamp_internal q t = true -> False.
Proof.
  unfold period_left, contains_period_timestamp_internal.
  intros Hl Hp Hq.
  apply andb_true_iff in Hp. destruct Hp as [_ Hp].
  apply andb_true_iff in Hq. destruct Hq as [Hq _].
  apply orb_true_iff in Hp. apply orb_true_iff in Hq.
  destruct Hp as [Hp|Hp], Hq as [Hq|Hq]; boolZ;
    destruct Hl as [?|[? [?|?]]]; try lia; congruence.
Qed.

(** C1.  On a valid sequence set the binary search returns.  When it
    reports [true], [pos] is the one index whose sequence period contains
    [t] (bound flags included).  When it reports [false], [pos] is the gap
    index, between 0 and [count]: every sequence before [pos] ends strictly
    before [t] (its upper bound is below [t], or equals [t] and is
    exclusive, so each of its instants is below [t]) and every sequence at
    or after [pos] starts strictly after [t].  On the periods [0,10],
    [20,30], [40,50] the answers for 15, 5 and 60 are (false, 1),
    (true, 0) and (false, 3). *)
Theorem temporals_find_timestamp_correct :
  (forall (ts : TemporalS) (t : TimestampTz),
      valid_temporals ts -> count ts <= 2 ^ 30 ->
      exists found pos,
        temporals_find_timestamp ts t = Some (found, pos) /\
        (found = true ->
           (exists seq, temporals_seq_n ts pos = Some seq /\
              contains_period_timestamp_internal (period seq) t = true) /\
           (forall j seq, temporals_seq_n ts j = Some seq ->
              contains_period_timestamp_internal (period seq) t = true ->
              j = pos)) /\
        (found = false ->
           0 <= pos <= count ts /\
           forall j seq, temporals_seq_n ts j = Some seq ->
             (j < pos ->
                period_before (period seq) t /\
                forall u, contains_period_timestamp_internal (period seq) u = true ->
                          u < t) /\
             (pos <= j ->
                period_after (period seq) t /\
                forall u, contains_period_timestamp_internal (period seq) u = true ->
                          t < u))) /\
  temporals_find_timestamp example_ts 15 = Some (false, 1) /\
  temporals_find_timestamp example_ts 5 = Some (true, 0) /\
  temporals_find_timestamp example_ts 60 = Some (false, 3).
Proof.
  split; [|repeat split; reflexivity].
  intros ts t Hvalid Hsz.
  pose proof Hvalid as [Hcnt [Hpos [Hval Hord]]].
  assert (Hpow : 2 ^ 30 = 1073741824) by reflexivity.
  assert (Hpow' : 2 ^ 31 = 2147483648) by reflexivity.
  destruct (find_timestamp_loop_correct ts t Hvalid Hsz
              (S (Z.to_nat (count ts))) 0 (count ts - 1) 0 None)
    as [found [pos [Hrun Hpost]]]; try lia.
  - intros j s Hj Hlt. apply array_get_bounds in Hj. lia.
  - intros j s Hj Hlt. apply array_get_bounds in Hj. lia.
  - exists found, pos. split.
    + unfold temporals_find_timestamp, int_sub.
      rewrite int_wrap_small by lia. exact Hrun.
    + split; intros ->; unfold find_timestamp_post in Hpost.
      * split; [exact Hpost|].
        destruct Hpost as [s [Hs Hc]].
        intros j s' Hj Hc'.
        destruct (Z.lt_trichotomy j pos) as [Hlt|[Heq|Hgt]]; [exfalso|exact Heq|exfalso].
        -- eapply (period_left_disjoint (period s') (period s)); eauto.
           eapply (seqarr_ordered_pairs _ Hval Hord j pos); eauto.
        -- eapply (period_left_disjoint (period s) (period s')); eauto.
           eapply (seqarr_ordered_pairs _ Hval Hord pos j); eauto.
      * destruct Hpost as [Hrange Hall]. split; [exact Hrange|].
        intros j s Hj. destruct (Hall j s Hj) as [Hb Ha].
        split; intros Hcmp.
        -- split; [auto|]. intros u. apply period_before_lt. auto.
        -- split; [auto|]. intros u. apply period_after_gt. auto.
Qed.

(** The hypotheses of C1 hold on the specification's example, where the
    search answers [(false, 1)] for 15. *)
Lemma temporals_find_timestamp_correct_witness :
  valid_temporals example_ts /\ count example_ts <= 2 ^ 30 /\
  exists found pos, temporals_find_timestamp example_ts 15 = Some (found, pos).
Proof.
  assert (Hv : valid_temporals example_ts).
  { unfold valid_temporals. repeat split; simpl; try reflexivity; lia. }
  assert (Hs : count example_ts <= 2 ^ 30) by (simpl; lia).
  split; [exact Hv|]. split; [exact Hs|].
  destruct (proj1 temporals_find_timestamp_correct example_ts 15 Hv Hs)
    as [found [pos [H _]]].
  exists found, pos. exact H.
Defined.

(** ** Constructor *)

Section ConstructorProps.

Variable with_postgis : bool.
Variable geometry_oid geography_oid : Oid.
Variable tpoint_srid_internal : TemporalSeq -> Z.
Variable temporalseqarr_normalize : list TemporalSeq -> list TemporalSeq.
Variable temporal_bbox_size : Oid -> Z.
Variable temporals_make_bbox : list TemporalSeq -> BOX.

Lemma from_seqarr_check_cases (sequences : list TemporalSeq) (isgeo : bool)
    (srid : Z) (hasz0 : bool) (i : Z) (tc : bool) :
  1 <= i < Z.of_nat (length sequences) ->
  match from_seqarr_error tpoint_srid_internal sequences isgeo srid hasz0 i with
  | Some e =>
      from_seqarr_check tpoint_srid_internal sequences isgeo srid hasz0 i tc = Err e
  | None =>
      exists tc',
        from_seqarr_check tpoint_srid_internal sequences isgeo srid hasz0 i tc = Ok tc'
  end.
Proof.
  intros Hi. unfold from_seqarr_error, from_seqarr_check.
  destruct (array_get_defined sequences (i - 1) ltac:(lia)) as [a ->].
  destruct (array_get_defined sequences i ltac:(lia)) as [b ->].
  destruct (seq_pair_invalid a b); [reflexivity|].
  destruct isgeo; cbn [andb]; [|eauto].
  destruct (negb (tpoint_srid_internal b =? srid)); [reflexivity|].
  destruct (negb (Bool.eqb (hasz (seq_flags b)) hasz0)); [reflexivity|eauto].
Qed.

Lemma from_seqarr_loop (sequences : list TemporalSeq) (isgeo : bool)
    (srid : Z) (hasz0 : bool) :
  forall n i tc,
    1 <= i -> i + Z.of_nat n <= Z.of_nat (length sequences) ->
    let run := for_loop n i
      (from_seqarr_check tpoint_srid_internal sequences isgeo srid hasz0) tc in
    (forall j, i <= j < i + Z.of_nat n ->
       from_seqarr_error tpoint_srid_internal sequences isgeo srid hasz0 j = None) /\
      (exists tc', run = Ok tc') \/
    (exists j e, i <= j < i + Z.of_nat n /\
       from_seqarr_error tpoint_srid_internal sequences isgeo srid hasz0 j = Some e /\
       run = Err e).
Proof.
  induction n as [|n IH]; intros i tc Hi Hn run; subst run.
  - left. split; [intros j Hj; lia | exists tc; reflexivity].
  - cbn [for_loop].
    pose proof (from_seqarr_check_cases sequences isgeo srid hasz0 i tc
                  ltac:(lia)) as Hc.
    destruct (from_seqarr_error tpoint_srid_internal sequences isgeo srid hasz0 i)
      as [e|] eqn:He.
    + right. exists i, e. rewrite Hc. repeat split; try lia. exact He.
    + destruct Hc as [tc' ->]. cbn [bind].
      destruct (IH (i + 1) tc' ltac:(lia) ltac:(lia)) as [[Hnone Hok]|[j [e [Hj [Hje Hrun]]]]].
      * left. split; [|exact Hok].
        intros j Hj. destruct (Z.eq_dec j i) as [->|Hne]; [exact He|].
        apply Hnone. lia.
      * right. exists j, e. repeat split; try lia; assumption.
Qed.

Lemma seq_pair_invalid_true (a b : TemporalSeq) :
  seq_pair_invalid a b = true <-> pair_overlaps a b \/ pair_abuts_inclusive a b.
Proof.
  unfold seq_pair_invalid, pair_overlaps, pair_abuts_inclusive.
  rewrite timestamp_cmp_gt, timestamp_cmp_eq.
  rewrite orb_true_iff, !andb_true_iff, Z.ltb_lt, Z.eqb_eq.
  tauto.
Qed.

Lemma from_seqarr_error_iff (sequences : list TemporalSeq) (count : Z)
    (seq0 : TemporalSeq) (isgeo : bool) :
  array_get sequences 0 = Some seq0 ->
  count <= Z.of_nat (length sequences) ->
  (exists j e, 1 <= j < count /\
     from_seqarr_error tpoint_srid_internal sequences isgeo
       (tpoint_srid_internal seq0) (hasz (seq_flags seq0)) j = Some e) <->
  (some_pair pair_overlaps sequences count \/
   some_pair pair_abuts_inclusive sequences count \/
   (isgeo = true /\ some_geo_mismatch tpoint_srid_internal sequences count)).
Proof.
  intros H0 Hlen. split.
  - intros [j [e [Hj He]]]. unfold from_seqarr_error in He.
    destruct (array_get sequences (j - 1)) as [a|] eqn:Ha; [|discriminate].
    destruct (array_get sequences j) as [b|] eqn:Hb; [|discriminate].
    destruct (seq_pair_invalid a b) eqn:Hinv.
    { apply seq_pair_invalid_true in Hinv. destruct Hinv as [Ho|Hab].
      - left. exists j, a, b. auto.
      - right. left. exists j, a, b. auto. }
    right. right.
    destruct isgeo; cbn [andb] in He; [|discriminate].
    split; [reflexivity|]. exists j, seq0, b. repeat split; try lia; auto.
    destruct (tpoint_srid_internal b =? tpoint_srid_internal seq0) eqn:Hs.
    + cbn [negb] in He. right.
      destruct (Bool.eqb (hasz (seq_flags b)) (hasz (seq_flags seq0))) eqn:Hz;
        [discriminate|].
      apply eqb_false_iff in Hz. exact Hz.
    + left. apply Z.eqb_neq in Hs. exact Hs.
  - assert (Hinv : forall i a b, 1 <= i < count ->
        array_get sequences (i - 1) = Some a -> array_get sequences i = Some b ->
        seq_pair_invalid a b = true ->
        exists j e, 1 <= j < count /\
          from_seqarr_error tpoint_srid_internal sequences isgeo
            (tpoint_srid_internal seq0) (hasz (seq_flags seq0)) j = Some e).
    { intros i a b Hi Ha Hb Hbad. exists i. eexists. split; [exact Hi|].
      unfold from_seqarr_error. rewrite Ha, Hb, Hbad. reflexivity. }
    intros [[i [a [b [Hi [Ha [Hb Hp]]]]]]|[[i [a [b [Hi [Ha [Hb Hp]]]]]]|[Hgeo Hm]]].
    + apply (Hinv i a b); auto. apply seq_pair_invalid_true. auto.
    + apply (Hinv i a b); auto. apply seq_pair_invalid_true. auto.
    + destruct Hm as [i [s0 [b [Hi [Hs0 [Hb Hd]]]]]].
      assert (s0 = seq0) by congruence. subst s0 isgeo.
      destruct (array_get_defined sequences (i - 1) ltac:(lia)) as [a Ha].
      exists i. unfold from_seqarr_error. rewrite Ha, Hb. cbn [andb].
      destruct (seq_pair_invalid a b); [eauto|].
      destruct (tpoint_srid_internal b =? tpoint_srid_internal seq0) eqn:Hs;
        cbn [negb]; [|eauto].
      destruct (Bool.eqb (hasz (seq_flags b)) (hasz (seq_flags seq0))) eqn:Hz;
        cbn [negb]; [|eauto].
      exfalso. apply Z.eqb_eq in Hs. apply eqb_prop in Hz. tauto.
Qed.

Lemma from_seqarr_error_kind (sequences : list TemporalSeq) (isgeo : bool)
    (srid : Z) (hasz0 : bool) (j : Z) (e : error) :
  from_seqarr_error tpoint_srid_internal sequences isgeo srid hasz0 j = Some e ->
  (exists msg, e = RestrictViolation msg) /\
  (isgeo = false -> InvalidSequenceSet e).
Proof.
  unfold from_seqarr_error.
  destruct (array_get sequences (j - 1)); [|discriminate].
  destruct (array_get sequences j); [|discriminate].
  destruct (seq_pair_invalid _ _).
  { intros [= <-]. split; [eauto|]. intros _. right. reflexivity. }
  destruct isgeo; cbn [andb]; [|discriminate].
  destruct (negb _); [intros [= <-]; split; [eauto|discriminate]|].
  destruct (negb _); [intros [= <-]; split; [eauto|discriminate]|discriminate].
Qed.

(** C2, as the code has it.  On an array that holds at least one
    sequence and at least [count] of them, the constructor ends in an
    error exactly when [count < 1], or a consecutive pair overlaps, or a
    consecutive pair abuts at a timestamp both include, or (built
    [WITH_POSTGIS], on a geometry or geography value type) a sequence
    differs from the first in SRID or Z dimension.  Every error is a
    restrict violation; outside the geometry case it is of the kind
    [InvalidSequenceSet].  On every other such input it returns a sequence
    set (normalisation never returning an empty array). *)
Theorem temporals_from_temporalseqarr_errors
    (sequences : list TemporalSeq) (count : Z) (normalize : bool)
    (seq0 : TemporalSeq) :
  array_get sequences 0 = Some seq0 ->
  count <= Z.of_nat (length sequences) ->
  (forall l, l <> [] -> temporalseqarr_normalize l <> []) ->
  let r := temporals_from_temporalseqarr with_postgis geometry_oid geography_oid
             tpoint_srid_internal temporalseqarr_normalize temporal_bbox_size
             temporals_make_bbox sequences count normalize in
  let isgeo := is_geo with_postgis geometry_oid geography_oid (seq_valuetypid seq0) in
  let rejected :=
    count < 1 \/
    some_pair pair_overlaps sequences count \/
    some_pair pair_abuts_inclusive sequences count \/
    (isgeo = true /\ some_geo_mismatch tpoint_srid_internal sequences count) in
  ((exists e, r = Err e) <-> rejected) /\
  ((exists ts, r = Ok ts) <-> ~ rejected) /\
  (forall e, r = Err e -> exists msg, e = RestrictViolation msg) /\
  (isgeo = false -> forall e, r = Err e -> InvalidSequenceSet e).
Proof.
  intros H0 Hlen Hnorm r isgeo rejected.
  pose proof (from_seqarr_error_iff sequences count seq0 isgeo H0 Hlen) as Hiff.
  fold rejected in Hiff.
  pose proof (eq_refl r) as Er. unfold r at 2 in Er.
  unfold temporals_from_temporalseqarr in Er. rewrite H0 in Er.
  fold isgeo in Er. clearbody r.
  destruct (count <? 1) eqn:Hc.
  { (* no sequence *)
    apply Z.ltb_lt in Hc. subst r.
    assert (Hrej : rejected) by (left; exact Hc).
    repeat split.
    - intros _. exact Hrej.
    - eauto.
    - intros [ts Hts]. discriminate.
    - intros Hn. contradiction.
    - intros e [= <-]. eauto.
    - intros _ e [= <-]. left. reflexivity. }
  apply Z.ltb_ge in Hc.
  assert (Hrej : rejected <->
     exists j e, 1 <= j < count /\
       from_seqarr_error tpoint_srid_internal sequences isgeo
         (tpoint_srid_internal seq0) (hasz (seq_flags seq0)) j = Some e).
  { rewrite Hiff. unfold rejected. split; [|tauto]. intros [?|?]; [lia|tauto]. }
  unfold for_range in Er.
  destruct (from_seqarr_loop sequences isgeo (tpoint_srid_internal seq0)
              (hasz (seq_flags seq0)) (Z.to_nat (count - 1)) 1 true
              ltac:(lia) ltac:(lia))
    as [[Hnone [tc Hok]]|[j [e [Hj [He Hrun]]]]].
  - (* the loop passes *)
    assert (Hnot : ~ rejected).
    { rewrite Hrej. intros [j [e [Hj He]]]. rewrite Hnone in He by lia. discriminate. }
    assert (Hr : exists ts, r = Ok ts).
    { rewrite Er, Hok. cbn [bind]. unfold array_prefix.
      replace (Z.of_nat (length sequences) <? count) with false
        by (symmetry; apply Z.ltb_ge; lia).
      cbn [bind].
      assert (Hin : firstn (Z.to_nat count) sequences <> []).
      { destruct sequences as [|x xs]; [discriminate H0|].
        replace (Z.to_nat count) with (S (Z.to_nat (count - 1))) by lia.
        discriminate. }
      set (input := firstn (Z.to_nat count) sequences) in *.
      set (news := if normalize && (1 <? count)
                   then temporalseqarr_normalize input else input).
      assert (Hne : news <> []).
      { subst news. destruct (normalize && (1 <? count)); auto. }
      destruct news as [|n0 ns] eqn:En; [contradiction|].
      cbn. eauto. }
    destruct Hr as [ts Hts].
    repeat split.
    + intros [e He]. congruence.
    + intros Hr. contradiction.
    + intros _. exact Hnot.
    + eauto.
    + intros e He. congruence.
    + intros _ e He. congruence.
  - (* the loop raises [e] at iteration [j] *)
    assert (Hr : r = Err e).
    { rewrite Er, Hrun. reflexivity. }
    assert (Hyes : rejected).
    { rewrite Hrej. exists j, e. split; [lia | exact He]. }
    destruct (from_seqarr_error_kind _ _ _ _ _ _ He) as [Hmsg Hkind].
    repeat split.
    + intros _. exact Hyes.
    + eauto.
    + intros [ts Hts]. congruence.
    + intros Hn. contradiction.
    + intros e' He'. assert (e' = e) by congruence. subst e'. exact Hmsg.
    + intros Hg e' He'. assert (e' = e) by congruence. subst e'. auto.
Qed.

End ConstructorProps.

(** Refutes a [some_pair] claim on a concrete array of up to four cells. *)
Ltac no_such_pair :=
  let i := fresh "i" in
  let Hi := fresh "Hi" in
  let Ha := fresh "Ha" in
  let Hb := fresh "Hb" in
  let Hp := fresh "Hp" in
  intros [i [? [? [Hi [Ha [Hb Hp]]]]]];
  assert (i = 1 \/ i = 2 \/ i = 3) as [ -> | [ -> | -> ] ] by lia;
  cbn in Ha, Hb; try discriminate;
  injection Ha as <-; injection Hb as <-;
  cbv in Hp; repeat match goal with H : _ /\ _ |- _ => destruct H end;
  try discriminate; try lia.

(** The hypotheses of the C2 theorem hold on the three closed sequences
    of the specification's example, which the constructor accepts. *)
Lemma temporals_from_temporalseqarr_errors_witness :
  exists ts,
    temporals_from_temporalseqarr false 0 0 example_srid normalize_none
      (fun _ => 32) time_box (sequences example_ts) 3 false = Ok ts.
Proof.
  pose proof (temporals_from_temporalseqarr_errors false 0 0 example_srid
                normalize_none (fun _ => 32) time_box
                (sequences example_ts) 3 false (closed_seq 0 10)
                eq_refl ltac:(simpl; lia)
                ltac:(intros l Hl; exact Hl)) as H.
  cbv zeta in H. destruct H as [_ [H _]]. apply H.
  intros [Hc|[Ho|[Ha|[Hg _]]]].
  - lia.
  - revert Ho. no_such_pair.
  - revert Ha. no_such_pair.
  - discriminate Hg.
Defined.

(** C2 as stated fails in a build [WITH_POSTGIS]: two geometry sequences
    that neither overlap nor abut, and [count = 2], are rejected for
    their SRIDs, with an error that is not of the kind
    [InvalidSequenceSet]. *)
Lemma temporals_from_temporalseqarr_counterexample :
  let sequences := [geo_seq 4326 0 10; geo_seq 3857 20 30] in
  ~ (2 < 1) /\
  ~ some_pair pair_overlaps sequences 2 /\
  ~ some_pair pair_abuts_inclusive sequences 2 /\
  temporals_from_temporalseqarr true 100 101 example_srid normalize_none
    (fun _ => 32) time_box sequences 2 false = Err (RestrictViolation msg_srid) /\
  ~ InvalidSequenceSet (RestrictViolation msg_srid).
Proof.
  cbv zeta. split; [lia|]. split; [no_such_pair|]. split; [no_such_pair|].
  split; [reflexivity|].
  intros [H|H]; discriminate H.
Qed.

(** ** Intersection with a timestamp *)

(** C4.  The code answers the opposite of what the search found: it
    returns [false] when some sequence contains [t] and [true] when none
    does.  On the periods [0,10], [20,30], [40,50] it denies the
    intersection at 5, inside the first sequence, and reports one at 15,
    in a gap. *)
Theorem temporals_intersects_timestamp_inverted :
  (forall ts t,
     temporals_intersects_timestamp ts t =
     option_map (fun r => negb (fst r)) (temporals_find_timestamp ts t)) /\
  (exists seq, temporals_seq_n example_ts 0 = Some seq /\
               contains_period_timestamp_internal (period seq) 5 = true) /\
  temporals_find_timestamp example_ts 5 = Some (true, 0) /\
  temporals_intersects_timestamp example_ts 5 = Some false /\
  temporals_intersects_timestamp example_ts 15 = Some true.
Proof.
  split.
  - intros ts t. unfold temporals_intersects_timestamp.
    destruct (temporals_find_timestamp ts t) as [[[|] n]|]; reflexivity.
  - split; [|repeat split; reflexivity].
    eexists. split; reflexivity.
Qed.

(** ** Continuity in value *)

Section ContinuousValueProps.

Variable datum_ne : Datum -> Datum -> Oid -> bool.

Lemma continuous_value_loop_correct (ts : TemporalS) (valuetypid : Oid) :
  count ts = Z.of_nat (length (sequences ts)) ->
  Forall seq_wf (sequences ts) ->
  forall n i seq1,
    1 <= i -> i + Z.of_nat n = count ts ->
    temporals_seq_n ts (i - 1) = Some seq1 ->
    exists b,
      continuous_value_loop datum_ne n ts valuetypid i seq1 = Some b /\
      (b = true <->
       forall k, i - 1 <= k <= count ts - 2 ->
         exists s, temporals_seq_n ts k = Some s /\
                   self_continuous datum_ne valuetypid s).
Proof.
  intros Hcnt Hwf.
  induction n as [|n IH]; intros i seq1 Hi Hn Hseq1.
  - exists true. split; [reflexivity|].
    split; [|reflexivity]. intros _ k Hk. lia.
  - cbn [continuous_value_loop].
    destruct (array_get_defined (sequences ts) i ltac:(lia)) as [seq2 Hseq2].
    unfold temporals_seq_n at 1. rewrite Hseq2.
    assert (Hwf1 : seq_wf seq1).
    { rewrite Forall_forall in Hwf. apply Hwf.
      eapply array_get_In. exact Hseq1. }
    destruct Hwf1 as [Hc1 Hp1].
    destruct (array_get_defined (instants seq1) (seq_count seq1 - 1) ltac:(lia))
      as [last1 Hlast].
    destruct (array_get_defined (instants seq1) 0 ltac:(lia)) as [first1 Hfirst].
    unfold temporalseq_inst_n at 1 2. rewrite Hlast, Hfirst.
    destruct (datum_ne (temporalinst_value last1) (temporalinst_value first1)
                valuetypid) eqn:Hne.
    + exists false. split; [reflexivity|].
      split; [discriminate|]. intros Hall.
      destruct (Hall (i - 1) ltac:(lia)) as [s [Hs [l [f [Hl [Hf Hd]]]]]].
      assert (s = seq1) by congruence. subst s.
      unfold temporalseq_inst_n in Hl, Hf. congruence.
    + assert (Hseq2' : temporals_seq_n ts (i + 1 - 1) = Some seq2).
      { unfold temporals_seq_n. replace (i + 1 - 1) with i by lia. exact Hseq2. }
      destruct (IH (i + 1) seq2 ltac:(lia) ltac:(lia) Hseq2') as [b [Hrun Hb]].
      exists b. split; [exact Hrun|].
      rewrite Hb. split.
      * intros Hall k Hk. destruct (Z.eq_dec k (i - 1)) as [->|Hne'].
        -- exists seq1. split; [exact Hseq1|]. exists last1, first1. auto.
        -- apply Hall. lia.
      * intros Hall k Hk. apply Hall. lia.
Qed.

(** C9.  On a valid sequence set with at least two sequences, whose
    sequences each store their instants, the function returns, and it
    returns [true] exactly when, for every index [i] from 0 to
    [count - 2], the value of the last instant of sequence [i] equals
    (for [datum_ne] at the value type of sequence 0) the value of the first
    instant of that same sequence [i]: the loop compares each sequence with
    itself, never with its successor. *)
Theorem temporals_continuous_value_internal_self
    (ts : TemporalS) (seq0 : TemporalSeq) :
  valid_temporals ts -> Forall seq_wf (sequences ts) -> 2 <= count ts ->
  temporals_seq_n ts 0 = Some seq0 ->
  exists b,
    temporals_continuous_value_internal datum_ne ts = Some b /\
    (b = true <->
     forall i, 0 <= i <= count ts - 2 ->
       exists s, temporals_seq_n ts i = Some s /\
                 self_continuous datum_ne (seq_valuetypid seq0) s).
Proof.
  intros [Hcnt _] Hwf H2 H0.
  unfold temporals_continuous_value_internal. rewrite H0.
  destruct (continuous_value_loop_correct ts (seq_valuetypid seq0) Hcnt Hwf
              (Z.to_nat (count ts - 1)) 1 seq0 ltac:(lia) ltac:(lia) H0)
    as [b [Hrun Hb]].
  exists b. split; [exact Hrun|].
  rewrite Hb. split; intros Hall k Hk; apply Hall; lia.
Qed.

End ContinuousValueProps.

(** The hypotheses of C9 hold on two integer sequences whose values jump
    from 1 to 5 between them. *)
Lemma temporals_continuous_value_internal_self_witness :
  exists b,
    temporals_continuous_value_internal datum_ne_int jump_example = Some b /\
    (b = true <->
     forall i, 0 <= i <= count jump_example - 2 ->
       exists s, temporals_seq_n jump_example i = Some s /\
                 self_continuous datum_ne_int 23 s).
Proof.
  apply (temporals_continuous_value_internal_self datum_ne_int jump_example
           (int_seq 1 0 1 10)).
  - unfold valid_temporals. simpl. repeat split; try reflexivity; lia.
  - repeat constructor; simpl; lia.
  - simpl. lia.
  - reflexivity.
Defined.

(** The answer follows each sequence alone: [true] across a jump from 1
    to 5, [false] where the first sequence rises from 1 to the value the
    second starts with. *)
Example continuous_value_examples :
  temporals_continuous_value_internal datum_ne_int jump_example = Some true /\
  temporals_continuous_value_internal datum_ne_int joined_example = Some false.
Proof. split; reflexivity. Qed.

(** ** Shift *)

Lemma shift_seqs_periods (pl : TimestampTz -> Interval -> TimestampTz)
    (d : Interval) :
  forall n l l', shift_seqs pl d n l = Some l' -> map period l' = map period l.
Proof.
  induction n as [|n IH]; intros l l' H.
  - cbn in H. congruence.
  - destruct l as [|s r]; [discriminate|]. cbn [shift_seqs] in H.
    unfold shift_seq in H.
    destruct (array_map_n (shift_inst pl d) (Z.to_nat (seq_count s)) (instants s));
      [|discriminate].
    destruct (shift_seqs pl d n r) as [r'|] eqn:E; [|discriminate].
    injection H as <-. cbn. f_equal. eauto.
Qed.

(** C10.  Whatever the host's addition of an interval does, the shifted
    copy keeps the period of every sequence and the cached box of the
    original: only the instants move.  Shifting [1@0, 2@10] on [0, 10] by
    five microseconds gives instants at 5 and 15 under the period [0, 10]
    and the box up to 10, so neither invariant survives, though both held
    before. *)
Theorem temporals_shift_keeps_periods :
  (forall pl ts d,
     match temporals_shift pl ts d with
     | Some r => map period (sequences r) = map period (sequences ts) /\
                 bbox r = bbox ts
     | None => True
     end) /\
  Forall seq_period_matches (sequences shift_example) /\
  bbox_time_matches shift_example /\
  exists r,
    temporals_shift pl_microseconds shift_example (mkInterval 5 0 0) = Some r /\
    map (fun s => map inst_t (instants s)) (sequences r) = [[5; 15]] /\
    map period (sequences r) = [mkPeriod 0 10 true true] /\
    ~ Forall seq_period_matches (sequences r) /\
    ~ bbox_time_matches r.
Proof.
  split; [|split; [|split]].
  - intros pl ts d. unfold temporals_shift, temporals_copy.
    destruct (shift_seqs pl d (Z.to_nat (count ts)) (sequences ts)) eqn:E; [|exact I].
    cbn. split; [|reflexivity]. eapply shift_seqs_periods; eauto.
  - repeat constructor. eexists. eexists. repeat split; reflexivity.
  - intros b Hb. injection Hb as <-.
    do 4 eexists. repeat split; reflexivity.
  - eexists. split; [reflexivity|]. split; [reflexivity|]. split; [reflexivity|].
    split.
    + intros H. inversion H as [|s l Hs _]; subst.
      destruct Hs as [f [l' [Hf [_ [Hlow _]]]]].
      cbn in Hf. injection Hf as <-. cbn in Hlow. discriminate.
    + intros H. destruct (H _ eq_refl) as [s0 [sn [f [l [H0 [_ [Hf [_ [Hlow _]]]]]]]]].
      cbn in H0. injection H0 as <-. cbn in Hf. injection Hf as <-.
      cbn in Hlow. discriminate.
Qed.

(** ** Synchronisation *)

Section SynchronizeProps.

Variable with_postgis : bool.
Variable geometry_oid geography_oid : Oid.
Variable tpoint_srid_internal : TemporalSeq -> Z.
Variable temporalseqarr_normalize : list TemporalSeq -> list TemporalSeq.
Variable temporal_bbox_size : Oid -> Z.
Variable temporals_make_bbox : list TemporalSeq -> BOX.
Variable synchronize_temporalseq_temporalseq :
  TemporalSeq -> TemporalSeq -> bool -> option (TemporalSeq * TemporalSeq).

(** Without normalisation the constructor keeps the array it is given. *)
Lemma temporals_from_temporalseqarr_keeps (seqs : list TemporalSeq) (s : TemporalS) :
  temporals_from_temporalseqarr with_postgis geometry_oid geography_oid
    tpoint_srid_internal temporalseqarr_normalize temporal_bbox_size
    temporals_make_bbox seqs (Z.of_nat (length seqs)) false = Ok s ->
  sequences s = seqs /\ count s = Z.of_nat (length seqs).
Proof.
  unfold temporals_from_temporalseqarr.
  destruct (array_get seqs 0); [|discriminate].
  destruct (Z.of_nat (length seqs) <? 1); [discriminate|].
  destruct (for_range _ _ _ _); cbn [bind]; try discriminate.
  unfold array_prefix. rewrite Z.ltb_irrefl. cbn [bind andb].
  rewrite Nat2Z.id, firstn_all.
  destruct (array_get seqs 0); [|discriminate].
  intros [= <-]. cbn. auto.
Qed.

Lemma timespan_defined (ts : TemporalS) :
  valid_temporals ts -> exists p, temporals_timespan ts = Some p.
Proof.
  intros [Hcnt [Hpos _]]. unfold temporals_timespan, temporals_seq_n.
  destruct (array_get_defined (sequences ts) 0 ltac:(lia)) as [a ->].
  destruct (array_get_defined (sequences ts) (count ts - 1) ltac:(lia)) as [b ->].
  eauto.
Qed.

Lemma synchronize_walk_aligned (ts1 ts2 : TemporalS) (crossings : bool) :
  (forall a b s1 s2, synchronize_temporalseq_temporalseq a b crossings = Some (s1, s2) ->
                     period s1 = period s2) ->
  count ts1 = Z.of_nat (length (sequences ts1)) ->
  count ts2 = Z.of_nat (length (sequences ts2)) ->
  forall fuel i j acc1 acc2,
    0 <= i <= count ts1 -> 0 <= j <= count ts2 ->
    (count ts1 - i) + (count ts2 - j) <= Z.of_nat fuel ->
    Forall2 (fun a b => period a = period b) acc1 acc2 ->
    exists r1 r2,
      synchronize_walk synchronize_temporalseq_temporalseq fuel ts1 ts2 crossings
        i j acc1 acc2 = Some (r1, r2) /\
      Forall2 (fun a b => period a = period b) r1 r2.
Proof.
  intros Hsync Hc1 Hc2.
  induction fuel as [|fuel IH]; intros i j acc1 acc2 Hi Hj Hfuel Hacc.
  - exists acc1, acc2. split; [|exact Hacc]. cbn [synchronize_walk].
    replace ((i <? count ts1) && (j <? count ts2)) with false; [reflexivity|].
    symmetry. apply andb_false_iff.
    destruct (Z.eq_dec i (count ts1)) as [->|Hne].
    + left. apply Z.ltb_irrefl.
    + right. apply Z.ltb_ge. lia.
  - cbn [synchronize_walk].
    destruct ((i <? count ts1) && (j <? count ts2)) eqn:Hcond; [|eauto].
    apply andb_true_iff in Hcond. destruct Hcond as [Hi' Hj'].
    apply Z.ltb_lt in Hi', Hj'.
    destruct (array_get_defined (sequences ts1) i ltac:(lia)) as [seq1 Hs1].
    destruct (array_get_defined (sequences ts2) j ltac:(lia)) as [seq2 Hs2].
    unfold temporals_seq_n at 1 2. rewrite Hs1, Hs2.
    assert (Hnext : exists acc1' acc2',
      match synchronize_temporalseq_temporalseq seq1 seq2 crossings with
      | Some (syncseq1, syncseq2) => (acc1 ++ [syncseq1], acc2 ++ [syncseq2])
      | None => (acc1, acc2)
      end = (acc1', acc2') /\
      Forall2 (fun a b => period a = period b) acc1' acc2').
    { destruct (synchronize_temporalseq_temporalseq seq1 seq2 crossings)
        as [[s1 s2]|] eqn:Es.
      - do 2 eexists. split; [reflexivity|].
        apply Forall2_app; [exact Hacc|]. constructor; [|constructor]. eauto.
      - eauto. }
    destruct Hnext as [acc1' [acc2' [-> Hacc']]].
    destruct (period_eq_internal (period seq1) (period seq2)).
    + apply IH; auto; lia.
    + destruct (period_lt_internal (period seq1) (period seq2));
        apply IH; auto; lia.
Qed.

(** C3.  For valid sequence sets, given that the sequence-level
    synchronisation returns two sequences over one period, the function
    returns [false] exactly when the two bounding periods do not overlap or
    the walk collects no pair ([k = 0]); whenever it returns [true], the
    two outputs have the same count and their i-th sequences have the same
    period, for every i. *)
Theorem synchronize_temporals_temporals_aligned
    (ts1 ts2 : TemporalS) (crossings : bool) :
  (forall a b s1 s2, synchronize_temporalseq_temporalseq a b crossings = Some (s1, s2) ->
                     period s1 = period s2) ->
  valid_temporals ts1 -> valid_temporals ts2 ->
  exists p1 p2 sequences1 sequences2,
    temporals_timespan ts1 = Some p1 /\
    temporals_timespan ts2 = Some p2 /\
    synchronize_walk synchronize_temporalseq_temporalseq
      (Z.to_nat (count ts1 + count ts2)) ts1 ts2 crossings 0 0 [] []
      = Some (sequences1, sequences2) /\
    let r := synchronize_temporals_temporals with_postgis geometry_oid geography_oid
               tpoint_srid_internal temporalseqarr_normalize temporal_bbox_size
               temporals_make_bbox synchronize_temporalseq_temporalseq
               ts1 ts2 crossings in
    (r = Ok None <->
     overlaps_period_period_internal p1 p2 = false \/ length sequences1 = 0%nat) /\
    (forall sync1 sync2, r = Ok (Some (sync1, sync2)) ->
       count sync1 = count sync2 /\
       Forall2 (fun a b => period a = period b) (sequences sync1) (sequences sync2)).
Proof.
  intros Hsync Hv1 Hv2.
  destruct (timespan_defined ts1 Hv1) as [p1 Hp1].
  destruct (timespan_defined ts2 Hv2) as [p2 Hp2].
  pose proof Hv1 as [Hc1 [Hpos1 _]]. pose proof Hv2 as [Hc2 [Hpos2 _]].
  destruct (synchronize_walk_aligned ts1 ts2 crossings Hsync Hc1 Hc2
              (Z.to_nat (count ts1 + count ts2)) 0 0 [] []
              ltac:(lia) ltac:(lia) ltac:(lia) ltac:(constructor))
    as [r1 [r2 [Hwalk Hper]]].
  exists p1, p2, r1, r2. repeat (split; [assumption|]).
  intros r. subst r. unfold synchronize_temporals_temporals.
  rewrite Hp1, Hp2, Hwalk.
  pose proof (Forall2_length Hper) as Hlen.
  destruct (overlaps_period_period_internal p1 p2); cbn [negb].
  2:{ split; [split; auto|]. intros s1 s2 H. discriminate. }
  destruct (Z.of_nat (length r1) =? 0) eqn:Hk.
  { apply Z.eqb_eq in Hk. split; [split; [intros _; right; lia | reflexivity]|].
    intros s1 s2 H. discriminate. }
  apply Z.eqb_neq in Hk.
  destruct (temporals_from_temporalseqarr _ _ _ _ _ _ _ r1 _ false) as [s1| |] eqn:E1;
    cbn [bind].
  2,3: split; [split; [discriminate | intros [?|?]; [discriminate|lia]]|];
       intros ? ? H; discriminate.
  rewrite Hlen in *.
  destruct (temporals_from_temporalseqarr _ _ _ _ _ _ _ r2 _ false) as [s2| |] eqn:E2;
    cbn [bind].
  2,3: split; [split; [discriminate | intros [?|?]; [discriminate|lia]]|];
       intros ? ? H; discriminate.
  split; [split; [discriminate | intros [?|?]; [discriminate|lia]]|].
  intros sync1 sync2 [= <- <-].
  rewrite <- Hlen in E1.
  apply temporals_from_temporalseqarr_keeps in E1, E2.
  destruct E1 as [-> ->], E2 as [-> ->]. split; [lia | exact Hper].
Qed.

End SynchronizeProps.

(** The hypotheses of C3 hold for the example synchronisation on the
    periods [0,10], [20,30] against [5,25]: the function returns two sets
    over [5,10] and [20,25]. *)
Lemma synchronize_temporals_temporals_aligned_witness :
  exists sync1 sync2,
    synchronize_temporals_temporals false 0 0 example_srid normalize_none
      (fun _ => 32) time_box sync_example sync_left sync_right true
      = Ok (Some (sync1, sync2)) /\
    map period (sequences sync1) = [mkPeriod 5 10 true true; mkPeriod 20 25 true true] /\
    count sync1 = count sync2 /\
    Forall2 (fun a b => period a = period b) (sequences sync1) (sequences sync2).
Proof.
  destruct (synchronize_temporals_temporals_aligned false 0 0 example_srid
              normalize_none (fun _ => 32) time_box sync_example
              sync_left sync_right true)
    as [p1 [p2 [s1 [s2 [_ [_ [_ [_ H]]]]]]]].
  - intros a b x y. unfold sync_example.
    destruct (intersection_period_period_internal (period a) (period b));
      [|discriminate].
    intros [= <- <-]. reflexivity.
  - unfold valid_temporals. simpl. repeat split; try reflexivity; lia.
  - unfold valid_temporals. simpl. repeat split; try reflexivity; lia.
  - do 2 eexists. split; [reflexivity|]. split; [reflexivity|].
    apply H. reflexivity.
Defined.

(** ** Wire format *)

Lemma Z_of_byte_of_Z (z : Z) : Z_of_byte (byte_of_Z z) = z mod 256.
Proof.
  unfold Z_of_byte, byte_of_Z.
  pose proof (Z.mod_pos_bound z 256 ltac:(lia)) as Hb.
  destruct (Byte.of_N (Z.to_N (z mod 256))) as [b|] eqn:E.
  - apply Byte.to_of_N in E. rewrite E. lia.
  - apply Byte.of_N_None_iff in E. lia.
Qed.

Lemma pq_getmsgint_sendint (i : Z) (rest : list byte) :
  pq_getmsgint (pq_sendint [] i ++ rest) = Ok (i mod 2 ^ 32, rest).
Proof.
  unfold pq_sendint, pq_getmsgint. cbn [app].
  rewrite !Z_of_byte_of_Z. f_equal. f_equal.
  pose proof (Z.mod_pos_bound i (2 ^ 32) ltac:(lia)) as Hb.
  set (u := i mod 2 ^ 32) in *.
  change (2 ^ 32) with 4294967296 in Hb.
  change (2 ^ 24) with 16777216. change (2 ^ 16) with 65536.
  change (2 ^ 8) with 256.
  Z.div_mod_to_equations. lia.
Qed.

Lemma int_wrap_count (c : Z) : 0 <= c < 2 ^ 31 -> int_wrap (c mod 2 ^ 32) = c.
Proof.
  intros H. change (2 ^ 31) with 2147483648 in H.
  rewrite Z.mod_small by (change (2 ^ 32) with 4294967296; lia).
  apply int_wrap_small. change (2 ^ 31) with 2147483648. lia.
Qed.

Section WireProps.

Variable with_postgis : bool.
Variable geometry_oid geography_oid : Oid.
Variable tpoint_srid_internal : TemporalSeq -> Z.
Variable temporalseqarr_normalize : list TemporalSeq -> list TemporalSeq.
Variable temporal_bbox_size : Oid -> Z.
Variable temporals_make_bbox : list TemporalSeq -> BOX.
Variable temporalseq_write : TemporalSeq -> list byte.
Variable temporalseq_read : list byte -> Oid -> result (TemporalSeq * list byte).

Lemma write_loop (ts : TemporalS) :
  forall n i buf,
    0 <= i -> i + Z.of_nat n <= Z.of_nat (length (sequences ts)) ->
    for_loop n i
      (fun i buf =>
         match temporals_seq_n ts i with
         | Some seq => Ok (buf ++ temporalseq_write seq)
         | None => Fault
         end) buf
    = Ok (buf ++ concat (map temporalseq_write
                           (firstn n (skipn (Z.to_nat i) (sequences ts))))).
Proof.
  induction n as [|n IH]; intros i buf Hi Hn.
  - cbn. rewrite app_nil_r. reflexivity.
  - cbn [for_loop].
    destruct (array_get_defined (sequences ts) i ltac:(lia)) as [s Hs].
    unfold temporals_seq_n at 1. rewrite Hs. cbn [bind].
    rewrite IH by lia.
    unfold array_get in Hs.
    destruct (i <? 0) eqn:Hneg; [apply Z.ltb_lt in Hneg; lia|].
    replace (Z.to_nat (i + 1)) with (S (Z.to_nat i)) by lia.
    assert (Hskip : skipn (Z.to_nat i) (sequences ts)
                    = s :: skipn (S (Z.to_nat i)) (sequences ts)).
    { clear - Hs. revert Hs. generalize (Z.to_nat i) as k.
      induction (sequences ts) as [|x l IHl]; intros [|k] H; try discriminate.
      - cbn in H. injection H as ->. reflexivity.
      - cbn in H. cbn [skipn]. rewrite (IHl k H). reflexivity. }
    rewrite Hskip. cbn [firstn map concat].
    rewrite <- app_assoc. reflexivity.
Qed.

Lemma read_loop (valuetypid : Oid) :
  forall l i acc rest,
    (forall s tail, In s l ->
       temporalseq_read (temporalseq_write s ++ tail) valuetypid = Ok (s, tail)) ->
    for_loop (length l) i
      (fun i st =>
         sr <- temporalseq_read (snd st) valuetypid ;;
         Ok (fst st ++ [fst sr], snd sr))
      (acc, concat (map temporalseq_write l) ++ rest)
    = Ok (acc ++ l, rest).
Proof.
  induction l as [|s l IH]; intros i acc rest Hrt.
  - cbn. rewrite app_nil_r. reflexivity.
  - cbn [length for_loop map concat snd fst].
    rewrite <- app_assoc, Hrt by (left; reflexivity).
    cbn [bind fst snd].
    rewrite IH by (intros; apply Hrt; right; assumption).
    rewrite <- app_assoc. reflexivity.
Qed.

(** C8.  Let [x] be a valid sequence set that is as the constructor
    builds it from its own sequences without normalisation, with a count
    that fits an [int], and let the sequence encoding round-trip on the
    sequences of [x].  Then [temporals_write] produces the 4-byte count
    followed by the sequence encodings back to back; [temporals_read]
    runs the constructor with [normalize = false] on the decoded
    sequences and gives back exactly [x], with nothing left unread; and
    writing what was read reproduces the same bytes. *)
Theorem temporals_write_read_roundtrip (x : TemporalS) :
  valid_temporals x -> count x < 2 ^ 31 ->
  temporals_from_temporalseqarr with_postgis geometry_oid geography_oid
    tpoint_srid_internal temporalseqarr_normalize temporal_bbox_size
    temporals_make_bbox (sequences x) (count x) false = Ok x ->
  (forall s tail, In s (sequences x) ->
     temporalseq_read (temporalseq_write s ++ tail) (valuetypid x) = Ok (s, tail)) ->
  let read := temporals_read with_postgis geometry_oid geography_oid
                tpoint_srid_internal temporalseqarr_normalize temporal_bbox_size
                temporals_make_bbox temporalseq_read in
  exists b,
    temporals_write temporalseq_write x [] = Ok b /\
    b = pq_sendint [] (count x) ++ concat (map temporalseq_write (sequences x)) /\
    read b (valuetypid x) =
      (r <- temporals_from_temporalseqarr with_postgis geometry_oid geography_oid
              tpoint_srid_internal temporalseqarr_normalize temporal_bbox_size
              temporals_make_bbox (sequences x) (count x) false ;;
       Ok (r, [])) /\
    read b (valuetypid x) = Ok (x, []) /\
    (forall y, read b (valuetypid x) = Ok (y, []) ->
               temporals_write temporalseq_write y [] = Ok b).
Proof.
  intros Hv Hint Hfix Hrt read.
  pose proof Hv as [Hcnt [Hpos _]].
  assert (Hw : temporals_write temporalseq_write x [] =
               Ok (pq_sendint [] (count x) ++
                   concat (map temporalseq_write (sequences x)))).
  { unfold temporals_write, for_range.
    rewrite write_loop by lia.
    replace (Z.to_nat (count x - 0)) with (length (sequences x)) by lia.
    cbn [Z.to_nat skipn]. rewrite firstn_all. reflexivity. }
  assert (Hr : read (pq_sendint [] (count x) ++
                     concat (map temporalseq_write (sequences x))) (valuetypid x) =
               (r <- temporals_from_temporalseqarr with_postgis geometry_oid
                       geography_oid tpoint_srid_internal temporalseqarr_normalize
                       temporal_bbox_size temporals_make_bbox
                       (sequences x) (count x) false ;;
                Ok (r, []))).
  { unfold read, temporals_read.
    rewrite pq_getmsgint_sendint. cbn [bind fst snd].
    rewrite int_wrap_count by lia.
    replace (count x <? 0) with false by (symmetry; apply Z.ltb_ge; lia).
    unfold for_range.
    replace (Z.to_nat (count x - 0)) with (length (sequences x)) by lia.
    rewrite <- (app_nil_r (concat (map temporalseq_write (sequences x)))).
    rewrite read_loop by exact Hrt.
    cbn [bind fst snd app]. reflexivity. }
  eexists. split; [exact Hw|]. split; [reflexivity|].
  split; [exact Hr|].
  assert (Hx : read (pq_sendint [] (count x) ++
                     concat (map temporalseq_write (sequences x))) (valuetypid x)
               = Ok (x, [])).
  { rewrite Hr, Hfix. reflexivity. }
  split; [exact Hx|].
  intros y Hy. rewrite Hx in Hy. injection Hy as <-. exact Hw.
Qed.

(** A set built without normalisation is as the constructor builds it
    from its own sequences. *)
Lemma temporals_from_temporalseqarr_fixpoint (input : list TemporalSeq) (x : TemporalS) :
  temporals_from_temporalseqarr with_postgis geometry_oid geography_oid
    tpoint_srid_internal temporalseqarr_normalize temporal_bbox_size
    temporals_make_bbox input (Z.of_nat (length input)) false = Ok x ->
  temporals_from_temporalseqarr with_postgis geometry_oid geography_oid
    tpoint_srid_internal temporalseqarr_normalize temporal_bbox_size
    temporals_make_bbox (sequences x) (count x) false = Ok x.
Proof.
  intros H. destruct (temporals_from_temporalseqarr_keeps _ _ _ _ _ _ _ _ _ H)
    as [-> ->]. exact H.
Qed.

End WireProps.

(** The hypotheses of C8 hold on the specification's example of three
    closed sequences, with the model encoding of sequences. *)
Lemma temporals_write_read_roundtrip_witness :
  exists b,
    temporals_write temporalseq_write_model example_ts [] = Ok b /\
    temporals_read false 0 0 example_srid normalize_none (fun _ => 0) time_box
      temporalseq_read_model b 23 = Ok (example_ts, []).
Proof.
  destruct (temporals_write_read_roundtrip false 0 0 example_srid normalize_none
              (fun _ => 0) time_box temporalseq_write_model temporalseq_read_model
              example_ts) as [b [Hw [_ [_ [Hr _]]]]].
  - unfold valid_temporals. simpl. repeat split; try reflexivity; lia.
  - simpl. lia.
  - reflexivity.
  - intros s tail [<-|[<-|[<-|[]]]]; reflexivity.
  - exists b. split; [exact Hw | exact Hr].
Defined.

(** ** Restriction to the minimum or maximum value *)

Lemma seqarr_ordered_cons2 (a b : TemporalSeq) (l : list TemporalSeq) :
  seqarr_ordered (a :: b :: l) = negb (seq_pair_invalid a b) && seqarr_ordered (b :: l).
Proof. reflexivity. Qed.

Lemma seqarr_ordered_app (l m : list TemporalSeq) (a : TemporalSeq) :
  seqarr_ordered (l ++ [a]) = true -> seqarr_ordered (a :: m) = true ->
  seqarr_ordered (l ++ a :: m) = true.
Proof.
  induction l as [|x l IH]; intros Hl Hm; [exact Hm|].
  destruct l as [|y l].
  - cbn [app] in *. rewrite seqarr_ordered_cons2 in *.
    apply andb_true_iff in Hl. destruct Hl as [Hxa _].
    rewrite Hxa, Hm. reflexivity.
  - cbn [app] in *. rewrite seqarr_ordered_cons2 in *.
    apply andb_true_iff in Hl. destruct Hl as [Hxy Hl].
    rewrite Hxy. cbn [andb]. apply IH; assumption.
Qed.

Lemma seqarr_ordered_last_swap (l : list TemporalSeq) (a b : TemporalSeq) :
  lower (period b) = lower (period a) ->
  lower_inc (period b) = lower_inc (period a) ->
  seqarr_ordered (l ++ [a]) = true -> seqarr_ordered (l ++ [b]) = true.
Proof.
  intros Hlo Hinc.
  induction l as [|x l IH]; intros Hl; [reflexivity|].
  destruct l as [|y l].
  - cbn [app] in *. rewrite seqarr_ordered_cons2 in *.
    apply andb_true_iff in Hl. destruct Hl as [Hxa _].
    unfold seq_pair_invalid in *. rewrite Hlo, Hinc, Hxa. reflexivity.
  - cbn [app] in *. rewrite seqarr_ordered_cons2 in *.
    apply andb_true_iff in Hl. destruct Hl as [Hxy Hl].
    rewrite Hxy. cbn [andb]. apply IH. exact Hl.
Qed.

Lemma array_get_app_last {A : Type} (l : list A) (x : A) :
  array_get (l ++ [x]) (Z.of_nat (length (l ++ [x])) - 1) = Some x.
Proof.
  unfold array_get. rewrite length_app. cbn [length].
  destruct (Z.of_nat (length l + 1) - 1 <? 0) eqn:E; [apply Z.ltb_lt in E; lia|].
  replace (Z.to_nat (Z.of_nat (length l + 1) - 1)) with (length l) by lia.
  rewrite nth_error_app2 by lia. rewrite Nat.sub_diag. reflexivity.
Qed.

Lemma array_get_app_before_last {A : Type} (l : list A) (x y : A) :
  array_get (l ++ [x; y]) (Z.of_nat (length (l ++ [x; y])) - 2) = Some x.
Proof.
  unfold array_get. rewrite length_app. cbn [length].
  destruct (Z.of_nat (length l + 2) - 2 <? 0) eqn:E; [apply Z.ltb_lt in E; lia|].
  replace (Z.to_nat (Z.of_nat (length l + 2) - 2)) with (length l) by lia.
  rewrite nth_error_app2 by lia. rewrite Nat.sub_diag. reflexivity.
Qed.

Lemma array_get_app_last2 {A : Type} (l : list A) (x y : A) :
  array_get (l ++ [x; y]) (Z.of_nat (length (l ++ [x; y])) - 1) = Some y.
Proof.
  unfold array_get. rewrite length_app. cbn [length].
  destruct (Z.of_nat (length l + 2) - 1 <? 0) eqn:E; [apply Z.ltb_lt in E; lia|].
  replace (Z.to_nat (Z.of_nat (length l + 2) - 1)) with (S (length l)) by lia.
  rewrite nth_error_app2 by lia.
  replace (S (length l) - length l)%nat with 1%nat by lia. reflexivity.
Qed.

Lemma list_set_app {A : Type} (l r : list A) (x y : A) :
  list_set (l ++ x :: r) (length l) y = l ++ y :: r.
Proof.
  induction l as [|a l IH]; [reflexivity|].
  cbn. rewrite IH. reflexivity.
Qed.

Lemma minmax_push_first_nil (f : TemporalSeq) : minmax_push [] 0 f = [f].
Proof. reflexivity. Qed.

Lemma minmax_push_first_snoc (pre : list TemporalSeq) (g f : TemporalSeq) :
  minmax_push (pre ++ [g]) 0 f = pre ++ [minmax_repair g f; f].
Proof.
  unfold minmax_push, minmax_repair.
  rewrite <- app_assoc. cbn [app].
  assert (Hk : (1 <? Z.of_nat (length (pre ++ [g; f]))) = true).
  { apply Z.ltb_lt. rewrite length_app. cbn [length]. lia. }
  rewrite Hk. cbn [andb Z.eqb].
  rewrite array_get_app_before_last, array_get_app_last2.
  destruct ((timestamp_cmp_internal (upper (period g)) (lower (period f)) =? 0)
            && upper_inc (period g) && lower_inc (period f)); [|reflexivity].
  unfold array_set. rewrite length_app. cbn [length].
  destruct (Z.of_nat (length pre + 2) - 2 <? 0) eqn:E;
    [apply Z.ltb_lt in E; lia|].
  replace (Z.to_nat (Z.of_nat (length pre + 2) - 2)) with (length pre) by lia.
  apply list_set_app.
Qed.

Lemma minmax_inner_later (frags : list TemporalSeq) :
  forall allseqs j, 0 < j -> minmax_inner allseqs j frags = allseqs ++ frags.
Proof.
  induction frags as [|f r IH]; intros allseqs j Hj.
  - cbn. rewrite app_nil_r. reflexivity.
  - cbn [minmax_inner]. rewrite IH by lia.
    unfold minmax_push.
    replace (j =? 0) with false by (symmetry; apply Z.eqb_neq; lia).
    rewrite andb_false_r, <- app_assoc. reflexivity.
Qed.

Lemma minmax_inner_first (allseqs : list TemporalSeq) (f : TemporalSeq)
    (r : list TemporalSeq) :
  minmax_inner allseqs 0 (f :: r) = minmax_push allseqs 0 f ++ r.
Proof.
  cbn [minmax_inner]. apply minmax_inner_later. lia.
Qed.

Lemma minmax_repair_period (g f : TemporalSeq) :
  lower (period (minmax_repair g f)) = lower (period g) /\
  lower_inc (period (minmax_repair g f)) = lower_inc (period g) /\
  upper (period (minmax_repair g f)) = upper (period g).
Proof.
  unfold minmax_repair. destruct (_ && _ && _); cbn; auto.
Qed.

Lemma minmax_repair_pair (g f : TemporalSeq) :
  upper (period g) <= lower (period f) ->
  seq_pair_invalid (minmax_repair g f) f = false.
Proof.
  intros Hle. apply seq_pair_invalid_false.
  unfold minmax_repair, period_left. rewrite timestamp_cmp_eq.
  destruct (Z.eq_dec (upper (period g)) (lower (period f))) as [E|E].
  - rewrite E, Z.eqb_refl. cbn [andb].
    destruct (upper_inc (period g)) eqn:Hu, (lower_inc (period f)) eqn:Hl;
      cbn; right; rewrite ?Hu; auto.
  - apply Z.eqb_neq in E. rewrite E. cbn [andb]. left.
    apply Z.eqb_neq in E. lia.
Qed.

Lemma minmax_inner_ordered (allseqs frags : list TemporalSeq) (lo hi : Z) :
  seqarr_ordered allseqs = true ->
  Forall (fun g => upper (period g) <= lo) allseqs ->
  lo <= hi ->
  seqarr_ordered frags = true ->
  Forall (fun f => lo <= lower (period f) /\ upper (period f) <= hi) frags ->
  seqarr_ordered (minmax_inner allseqs 0 frags) = true /\
  Forall (fun g => upper (period g) <= hi) (minmax_inner allseqs 0 frags).
Proof.
  intros Hord Hup Hlohi Hfr Hin.
  assert (Hup' : Forall (fun g => upper (period g) <= hi) allseqs).
  { eapply Forall_impl; [|exact Hup]. cbn. intros; lia. }
  assert (Hin' : Forall (fun g => upper (period g) <= hi) frags).
  { eapply Forall_impl; [|exact Hin]. cbn. intros a [_ H]. exact H. }
  destruct frags as [|f r]; [cbn; auto|].
  rewrite minmax_inner_first.
  destruct allseqs as [|a0 l0].
  - rewrite minmax_push_first_nil. cbn [app]. auto.
  - destruct (exists_last (l := a0 :: l0) ltac:(discriminate)) as [pre [g Heq]].
    rewrite Heq in *. clear Heq a0 l0.
    rewrite minmax_push_first_snoc, <- app_assoc. cbn [app].
    destruct (minmax_repair_period g f) as [Rlo [Rinc Rup]].
    apply Forall_app in Hup. destruct Hup as [Hpre Hg].
    inversion Hg as [|? ? Hgle _]; subst.
    inversion Hin as [|? ? [Hflo Hfhi] _]; subst.
    split.
    + apply seqarr_ordered_app.
      * eapply seqarr_ordered_last_swap; [exact Rlo | exact Rinc | exact Hord].
      * rewrite seqarr_ordered_cons2, minmax_repair_pair by lia. exact Hfr.
    + apply Forall_app. split.
      * eapply Forall_impl; [|exact Hpre]. cbn. intros; lia.
      * constructor; [rewrite Rup; lia | exact Hin'].
Qed.

Lemma minmax_collect_ordered (F : TemporalSeq -> list TemporalSeq) :
  forall seqs B allseqs,
    chain B seqs ->
    (forall s, In s seqs -> fragments_within s (F s)) ->
    seqarr_ordered allseqs = true ->
    Forall (fun g => upper (period g) <= B) allseqs ->
    seqarr_ordered
      (fold_left (fun allseqs frags => minmax_inner allseqs 0 frags)
                 (map F seqs) allseqs) = true.
Proof.
  induction seqs as [|s rest IH]; intros B allseqs Hch HF Hord Hup; [exact Hord|].
  cbn [map fold_left]. destruct Hch as [HB [Hs Hrest]].
  destruct (HF s (or_introl eq_refl)) as [Hfo Hfw].
  destruct (minmax_inner_ordered allseqs (F s) (lower (period s)) (upper (period s)))
    as [Ho' Hu']; auto.
  - eapply Forall_impl; [|exact Hup]. cbn. intros; lia.
  - eapply IH; eauto. intros s' Hs'. apply HF. right. exact Hs'.
Qed.

Lemma valid_chain (seqs : list TemporalSeq) :
  forallb (fun s => period_valid (period s)) seqs = true ->
  seqarr_ordered seqs = true ->
  forall B, (forall s, In s seqs -> B <= lower (period s)) -> chain B seqs.
Proof.
  induction seqs as [|s rest IH]; intros Hv Ho B HB; [exact I|].
  cbn [forallb] in Hv. apply andb_true_iff in Hv. destruct Hv as [Hs Hv].
  cbn [chain]. split; [apply HB; left; reflexivity|].
  split; [apply period_valid_le; exact Hs|].
  apply IH; [exact Hv | eapply seqarr_ordered_tail; exact Ho |].
  intros s' Hs'.
  pose proof (seqarr_ordered_head s rest Hv Ho) as HF.
  rewrite Forall_forall in HF. specialize (HF s' Hs').
  destruct HF as [?|[? _]]; lia.
Qed.

Lemma seqarr_ordered_consecutive (l : list TemporalSeq) :
  seqarr_ordered l = true ->
  forall i a b, 1 <= i -> array_get l (i - 1) = Some a -> array_get l i = Some b ->
                seq_pair_invalid a b = false.
Proof.
  induction l as [|x l IH]; intros Ho i a b Hi Ha Hb.
  - apply array_get_bounds in Ha. cbn in Ha. lia.
  - rewrite array_get_cons in Hb by lia.
    destruct (Z.eq_dec i 1) as [->|Hne].
    + cbn in Ha. injection Ha as ->.
      destruct l as [|y l]; [discriminate Hb|].
      cbn in Hb. injection Hb as ->.
      rewrite seqarr_ordered_cons2 in Ho.
      apply andb_true_iff in Ho. destruct Ho as [Ho _].
      apply negb_true_iff in Ho. exact Ho.
    + rewrite array_get_cons in Ha by lia.
      apply (IH (seqarr_ordered_tail _ _ Ho) (i - 1)); auto. lia.
Qed.

Section MinMaxProps.

Variable with_postgis : bool.
Variable geometry_oid geography_oid : Oid.
Variable tpoint_srid_internal : TemporalSeq -> Z.
Variable temporalseqarr_normalize : list TemporalSeq -> list TemporalSeq.
Variable temporal_bbox_size : Oid -> Z.
Variable temporals_make_bbox : list TemporalSeq -> BOX.
Variable temporalseq_at_value2 : TemporalSeq -> Datum -> Oid -> list TemporalSeq.
Variable temporalseq_at_min temporalseq_at_max : TemporalSeq -> result TemporalS.
Variable temporalseq_min_value temporalseq_max_value : TemporalSeq -> Datum.
Variable datum_lt datum_gt : Datum -> Datum -> Oid -> bool.

(** On an array that passes the pairwise test the constructor never
    raises the error of that test, and what it returns passes the test
    too, normalisation keeping it. *)
Lemma temporals_from_temporalseqarr_ordered (seqs : list TemporalSeq) (normalize : bool) :
  (forall l, l <> [] -> seqarr_ordered l = true ->
             seqarr_ordered (temporalseqarr_normalize l) = true) ->
  seqarr_ordered seqs = true ->
  let r := temporals_from_temporalseqarr with_postgis geometry_oid geography_oid
             tpoint_srid_internal temporalseqarr_normalize temporal_bbox_size
             temporals_make_bbox seqs (Z.of_nat (length seqs)) normalize in
  r <> Err (RestrictViolation msg_invalid_sequence) /\
  (forall ts, r = Ok ts -> seqarr_ordered (sequences ts) = true).
Proof.
  intros Hnorm Hord r. subst r. unfold temporals_from_temporalseqarr.
  destruct (array_get seqs 0) as [seq0|] eqn:H0; [|split; discriminate].
  destruct (Z.of_nat (length seqs) <? 1) eqn:Hc.
  { apply Z.ltb_lt in Hc. apply array_get_bounds in H0. lia. }
  apply Z.ltb_ge in Hc. unfold for_range.
  destruct (from_seqarr_loop tpoint_srid_internal seqs
              (is_geo with_postgis geometry_oid geography_oid (seq_valuetypid seq0))
              (tpoint_srid_internal seq0) (hasz (seq_flags seq0))
              (Z.to_nat (Z.of_nat (length seqs) - 1)) 1 true
              ltac:(lia) ltac:(lia))
    as [[_ [tc ->]]|[j [e [Hj [He ->]]]]]; cbn [bind].
  - unfold array_prefix. rewrite Z.ltb_irrefl. cbn [bind].
    rewrite Nat2Z.id, firstn_all.
    assert (Hne : seqs <> []) by (intros ->; discriminate H0).
    set (news := if normalize && (1 <? Z.of_nat (length seqs))
                 then temporalseqarr_normalize seqs else seqs).
    assert (Hnews : seqarr_ordered news = true).
    { subst news. destruct (normalize && _); auto. }
    destruct (array_get news 0); [|split; discriminate].
    split; [discriminate|]. intros ts [= <-]. exact Hnews.
  - split; [|discriminate].
    unfold from_seqarr_error in He.
    destruct (array_get seqs (j - 1)) as [a|] eqn:Ha; [|discriminate].
    destruct (array_get seqs j) as [b|] eqn:Hb; [|discriminate].
    rewrite (seqarr_ordered_consecutive seqs Hord j a b ltac:(lia) Ha Hb) in He.
    destruct (_ && negb (_ =? _)); [injection He as <-; discriminate|].
    destruct (_ && negb (Bool.eqb _ _)); [injection He as <-; discriminate|].
    discriminate.
Qed.

Lemma seqarr_ordered_invariant (l : list TemporalSeq) :
  seqarr_ordered l = true -> sequence_set_invariant l.
Proof.
  intros Ho. split; intros [i [a [b [Hi [Ha [Hb Hp]]]]]];
    pose proof (seqarr_ordered_consecutive l Ho i a b ltac:(lia) Ha Hb) as Hok;
    assert (Hbad : seq_pair_invalid a b = true)
      by (apply seq_pair_invalid_true; auto);
    congruence.
Qed.

Lemma valid_chain_top (seqs : list TemporalSeq) :
  forallb (fun s => period_valid (period s)) seqs = true ->
  seqarr_ordered seqs = true ->
  exists B, chain B seqs.
Proof.
  intros Hv Ho. destruct seqs as [|s0 rest]; [exists 0; exact I|].
  exists (lower (period s0)). apply valid_chain; auto.
  cbn [forallb] in Hv. apply andb_true_iff in Hv. destruct Hv as [Hs Hv].
  intros s [<-|Hs']; [lia|].
  pose proof (seqarr_ordered_head s0 rest Hv Ho) as HF.
  rewrite Forall_forall in HF. specialize (HF s Hs').
  pose proof (period_valid_le _ Hs).
  destruct HF as [?|[? _]]; lia.
Qed.

(** C6.  Let the fragments that [temporalseq_at_value2] returns for a
    sequence be in order and within the bounds of that sequence, let
    normalisation keep an ordered array ordered, and let the
    single-sequence restrictions return ordered sets.  Then on a valid
    sequence set, for any value, the fragments collected by
    [temporals_at_minmax], after the repair of the shared bounds, pass the
    constructor's pairwise test: the constructor never raises its
    invalid-sequence error on them, and every set that
    [temporals_at_minmax], [temporals_at_min] or [temporals_at_max]
    returns has no two consecutive sequences that overlap, or that abut
    at a timestamp both include. *)
Theorem temporals_at_minmax_ordered (ts : TemporalS) :
  (forall seq value vt, lower (period seq) <= upper (period seq) ->
     fragments_within seq (temporalseq_at_value2 seq value vt)) ->
  (forall l, l <> [] -> seqarr_ordered l = true ->
     seqarr_ordered (temporalseqarr_normalize l) = true) ->
  (forall seq r, temporalseq_at_min seq = Ok r -> seqarr_ordered (sequences r) = true) ->
  (forall seq r, temporalseq_at_max seq = Ok r -> seqarr_ordered (sequences r) = true) ->
  valid_temporals ts ->
  let at_minmax := temporals_at_minmax with_postgis geometry_oid geography_oid
                     tpoint_srid_internal temporalseqarr_normalize temporal_bbox_size
                     temporals_make_bbox temporalseq_at_value2 in
  (forall value,
     seqarr_ordered
       (minmax_collect (map (minmax_fragments temporalseq_at_value2 value)
                            (sequences ts))) = true /\
     at_minmax ts value <> Err (RestrictViolation msg_invalid_sequence) /\
     (forall r, at_minmax ts value = Ok r -> sequence_set_invariant (sequences r))) /\
  (forall r,
     temporals_at_min with_postgis geometry_oid geography_oid tpoint_srid_internal
       temporalseqarr_normalize temporal_bbox_size temporals_make_bbox
       temporalseq_at_value2 temporalseq_at_min temporalseq_min_value datum_lt ts
       = Ok r ->
     sequence_set_invariant (sequences r)) /\
  (forall r,
     temporals_at_max with_postgis geometry_oid geography_oid tpoint_srid_internal
       temporalseqarr_normalize temporal_bbox_size temporals_make_bbox
       temporalseq_at_value2 temporalseq_at_max temporalseq_max_value datum_gt ts
       = Ok r ->
     sequence_set_invariant (sequences r)).
Proof.
  intros Hfrag Hnorm Hmin Hmax Hv at_minmax.
  pose proof Hv as [Hcnt [Hpos [Hval Hord]]].
  assert (Hcollect : forall value,
    seqarr_ordered
      (minmax_collect (map (minmax_fragments temporalseq_at_value2 value)
                           (sequences ts))) = true).
  { intros value. destruct (valid_chain_top _ Hval Hord) as [B HB].
    unfold minmax_collect.
    apply (minmax_collect_ordered _ (sequences ts) B []); auto.
    intros s Hs. unfold minmax_fragments, temporalseq_copy.
    destruct (Hfrag (seq_set_inc s true true) value
                (seq_valuetypid (seq_set_inc s true true))) as [Ho Hw].
    - cbn. apply period_valid_le.
      rewrite forallb_forall in Hval. apply (Hval s Hs).
    - split; [exact Ho|]. exact Hw. }
  assert (Hgen : forall value,
    at_minmax ts value <> Err (RestrictViolation msg_invalid_sequence) /\
    (forall r, at_minmax ts value = Ok r -> seqarr_ordered (sequences r) = true)).
  { intros value. subst at_minmax. unfold temporals_at_minmax, array_prefix.
    rewrite Hcnt, Z.ltb_irrefl, Nat2Z.id, firstn_all. cbn [bind].
    apply temporals_from_temporalseqarr_ordered; auto. }
  split; [|split].
  - intros value. split; [apply Hcollect|]. split; [apply Hgen|].
    intros r Hr. apply seqarr_ordered_invariant. eapply Hgen; eauto.
  - intros r. unfold temporals_at_min.
    destruct (count ts =? 1).
    + destruct (temporals_seq_n ts 0); [|discriminate].
      intros H. apply seqarr_ordered_invariant. eapply Hmin; eauto.
    + destruct (temporals_min_value _ _ ts); cbn [bind]; try discriminate.
      intros H. apply seqarr_ordered_invariant. eapply Hgen; eauto.
  - intros r. unfold temporals_at_max.
    destruct (count ts =? 1).
    + destruct (temporals_seq_n ts 0); [|discriminate].
      intros H. apply seqarr_ordered_invariant. eapply Hmax; eauto.
    + destruct (temporals_max_value _ _ ts); cbn [bind]; try discriminate.
      intros H. apply seqarr_ordered_invariant. eapply Hgen; eauto.
Qed.

End MinMaxProps.

(** The hypotheses of C6 hold for constant sequences.  On [0, 10) and
    [10, 20], both at the value 1, the copies with inclusive bounds give
    the fragments [0, 10] and [10, 20]; the repair opens the first at 10,
    and the constructor accepts [0, 10), [10, 20]. *)
Lemma temporals_at_minmax_ordered_witness :
  exists r,
    temporals_at_min false 0 0 example_srid normalize_none (fun _ => 0) time_box
      at_value2_constant seq_as_set (fun _ => 0) (fun _ _ _ => false)
      minmax_example = Ok r /\
    map period (sequences r) = [mkPeriod 0 10 true false; mkPeriod 10 20 true true] /\
    sequence_set_invariant (sequences r).
Proof.
  pose proof (temporals_at_minmax_ordered false 0 0 example_srid normalize_none
                (fun _ => 0) time_box at_value2_constant seq_as_set seq_as_set
                (fun _ => 0) (fun _ => 0) (fun _ _ _ => false) (fun _ _ _ => false)
                minmax_example) as H.
  cbv zeta in H. destruct H as [_ [Hmin _]].
  - intros seq value vt Hle. unfold at_value2_constant, fragments_within.
    destruct (forallb _ _).
    + split; [reflexivity|]. constructor; [lia | constructor].
    + split; [reflexivity | constructor].
  - intros l _ Hl. exact Hl.
  - intros seq r [= <-]. reflexivity.
  - intros seq r [= <-]. reflexivity.
  - unfold valid_temporals. simpl. repeat split; try reflexivity; lia.
  - eexists. split; [reflexivity|]. split; [reflexivity|].
    apply Hmin. reflexivity.
Defined.

(** ** Periods as sets of timestamps *)

Lemma in_period_iff (p : Period) (t : TimestampTz) :
  in_period p t <->
  (lower p < t \/ (lower p = t /\ lower_inc p = true)) /\
  (t < upper p \/ (t = upper p /\ upper_inc p = true)).
Proof.
  unfold in_period, contains_period_timestamp_internal.
  rewrite andb_true_iff, !orb_true_iff, !andb_true_iff, !Z.ltb_lt, !Z.eqb_eq.
  tauto.
Qed.

Lemma overlaps_iff (p q : Period) :
  overlaps_period_period_internal p q = true <->
  (lower p < upper q \/ (lower p = upper q /\ lower_inc p = true /\ upper_inc q = true)) /\
  (lower q < upper p \/ (lower q = upper p /\ lower_inc q = true /\ upper_inc p = true)).
Proof.
  unfold overlaps_period_period_internal.
  rewrite andb_true_iff, !orb_true_iff, !andb_true_iff, !Z.ltb_lt, !Z.eqb_eq.
  tauto.
Qed.

Lemma overlaps_sym (p q : Period) :
  overlaps_period_period_internal p q = overlaps_period_period_internal q p.
Proof.
  unfold overlaps_period_period_internal. apply andb_comm.
Qed.

Lemma contains_period_iff (p q : Period) :
  contains_period_period_internal p q = true <->
  (lower p < lower q \/ (lower p = lower q /\ (lower_inc p = true \/ lower_inc q = false))) /\
  (upper q < upper p \/ (upper q = upper p /\ (upper_inc p = true \/ upper_inc q = false))).
Proof.
  unfold contains_period_period_internal.
  rewrite andb_true_iff, !orb_true_iff, !andb_true_iff, !orb_true_iff,
    !negb_true_iff, !Z.ltb_lt, !Z.eqb_eq.
  tauto.
Qed.

Lemma in_both_overlaps (p q : Period) (t : TimestampTz) :
  in_period p t -> in_period q t -> overlaps_period_period_internal p q = true.
Proof.
  rewrite !in_period_iff, overlaps_iff. intros [Hp1 Hp2] [Hq1 Hq2].
  split.
  - destruct Hp1 as [?|[? ?]], Hq2 as [?|[? ?]]; try (left; lia).
    right. repeat split; auto; lia.
  - destruct Hq1 as [?|[? ?]], Hp2 as [?|[? ?]]; try (left; lia).
    right. repeat split; auto; lia.
Qed.

Lemma contains_period_in (p q : Period) (t : TimestampTz) :
  contains_period_period_internal p q = true -> in_period q t -> in_period p t.
Proof.
  rewrite contains_period_iff, !in_period_iff. intros [Hl Hu] [Hq1 Hq2].
  split.
  - destruct Hl as [?|[? [?|?]]], Hq1 as [?|[? ?]];
      try (left; lia); try (right; split; [lia | assumption]); congruence.
  - destruct Hu as [?|[? [?|?]]], Hq2 as [?|[? ?]];
      try (left; lia); try (right; split; [lia | assumption]); congruence.
Qed.

Lemma contains_period_refl (p : Period) : contains_period_period_internal p p = true.
Proof.
  apply contains_period_iff. split; right; (split; [reflexivity|]).
  - destruct (lower_inc p); auto.
  - destruct (upper_inc p); auto.
Qed.

Lemma intersection_spec (p q r : Period) :
  intersection_period_period_internal p q = Some r ->
  contains_period_period_internal p r = true /\
  contains_period_period_internal q r = true /\
  forall t, in_period r t <-> in_period p t /\ in_period q t.
Proof.
  unfold intersection_period_period_internal, period_set.
  destruct (overlaps_period_period_internal p q) eqn:Ho; [|discriminate].
  cbn [negb]. intros [= <-].
  rewrite !contains_period_iff. cbn [lower upper lower_inc upper_inc].
  destruct (Z.eqb_spec (lower p) (lower q)) as [El|El];
  destruct (Z.eqb_spec (upper p) (upper q)) as [Eu|Eu];
  destruct (Z.ltb_spec (lower q) (lower p)) as [Ll|Ll];
  destruct (Z.ltb_spec (upper p) (upper q)) as [Lu|Lu]; try lia;
  (split; [|split]);
  try (intros t; rewrite !in_period_iff; cbn [lower upper lower_inc upper_inc]);
  destruct (lower_inc p), (lower_inc q), (upper_inc p), (upper_inc q);
  cbn [andb]; try lia;
  repeat match goal with
  | |- _ /\ _ => split
  | |- _ <-> _ => split; intros
  end;
  try lia; intuition (try lia; try congruence).
Qed.

Lemma period_left_within (p q p' q' : Period) :
  period_left p q ->
  contains_period_period_internal p p' = true ->
  contains_period_period_internal q q' = true ->
  period_left p' q'.
Proof.
  rewrite !contains_period_iff. unfold period_left.
  intros Hpq [_ Hu] [Hl _].
  destruct (Z.eq_dec (upper p') (lower q')) as [E|E]; [right|left].
  - split; [exact E|].
    destruct (upper_inc p') eqn:Hup; [|auto].
    destruct (lower_inc q') eqn:Hlq; [|auto].
    exfalso.
    destruct Hu as [?|[? [?|?]]], Hl as [?|[? [?|?]]],
      Hpq as [?|[? [?|?]]]; try lia; congruence.
  - destruct Hu as [?|[? _]], Hl as [?|[? _]], Hpq as [?|[? _]]; lia.
Qed.

Lemma seqs_extent_cons (s : TemporalSeq) (l : list TemporalSeq) (t : TimestampTz) :
  seqs_extent (s :: l) t <-> in_period (period s) t \/ seqs_extent l t.
Proof.
  unfold seqs_extent. split.
  - intros [x [[<-|Hx] Ht]]; [left; exact Ht | right; eauto].
  - intros [Ht|[x [Hx Ht]]]; [exists s | exists x]; cbn; auto.
Qed.

Lemma seqs_extent_app (l m : list TemporalSeq) (t : TimestampTz) :
  seqs_extent (l ++ m) t <-> seqs_extent l t \/ seqs_extent m t.
Proof.
  unfold seqs_extent. split.
  - intros [x [Hx Ht]]. apply in_app_or in Hx. destruct Hx; [left|right]; eauto.
  - intros [[x [Hx Ht]]|[x [Hx Ht]]]; exists x; split; auto;
      apply in_or_app; auto.
Qed.

Lemma seqs_extent_nil (t : TimestampTz) : ~ seqs_extent [] t.
Proof. intros [x [[] _]]. Qed.

Lemma seqarr_ordered_cons_left (k : TemporalSeq) (more : list TemporalSeq) :
  seqarr_ordered more = true ->
  (forall m, In m more -> period_left (period k) (period m)) ->
  seqarr_ordered (k :: more) = true.
Proof.
  intros Ho Hl. destruct more as [|m more]; [reflexivity|].
  rewrite seqarr_ordered_cons2, Ho, andb_true_r.
  apply negb_true_iff, seq_pair_invalid_false, Hl. left. reflexivity.
Qed.

(** No instant of a sequence to the right of [seq] is in [p] once the
    loop of [temporals_at_period] has reached its [break]. *)
Lemma at_period_break (p : Period) (seq s' : TemporalSeq) (t : TimestampTz) :
  (timestamp_cmp_internal (upper p) (upper (period seq)) <? 0) ||
  ((timestamp_cmp_internal (upper p) (upper (period seq)) =? 0) &&
   upper_inc (period seq)) = true ->
  period_left (period seq) (period s') ->
  in_period (period s') t -> in_period p t -> False.
Proof.
  rewrite timestamp_cmp_lt, timestamp_cmp_eq, orb_true_iff, andb_true_iff,
    Z.ltb_lt, Z.eqb_eq, !in_period_iff.
  unfold period_left.
  intros Hb Hl [Hs1 _] [_ Hp2].
  destruct Hb as [?|[? ?]], Hl as [?|[? [?|?]]], Hs1 as [?|[? ?]],
    Hp2 as [?|[? ?]]; try lia; congruence.
Qed.

(** ** Restriction to a period and to its complement *)

Section AtPeriodProps.

Variable with_postgis : bool.
Variable geometry_oid geography_oid : Oid.
Variable tpoint_srid_internal : TemporalSeq -> Z.
Variable temporalseqarr_normalize : list TemporalSeq -> list TemporalSeq.
Variable temporal_bbox_size : Oid -> Z.
Variable temporals_make_bbox : list TemporalSeq -> BOX.
Variable temporalseq_at_period : TemporalSeq -> Period -> option TemporalSeq.
Variable temporalseq_minus_period : TemporalSeq -> Period -> option TemporalS.
Variable temporalseq_at_periodset : TemporalSeq -> PeriodSet -> option TemporalS.
Variable temporalseq_at_periodset1 : TemporalSeq -> PeriodSet -> list TemporalSeq.
Variable periodset_from_periodarr_internal : list Period -> Z -> bool -> PeriodSet.
Variable minus_periodset_period_internal : PeriodSet -> Period -> option PeriodSet.

(** Contracts of the collaborators.  The restriction of a sequence to a
    period is over the intersection of the two periods, NULL when there is
    none, and keeps the SRID and Z flag. *)
Hypothesis at_period_period : forall seq p,
  option_map period (temporalseq_at_period seq p)
  = intersection_period_period_internal (period seq) p.
Hypothesis at_period_geo : forall seq p s,
  temporalseq_at_period seq p = Some s -> same_geo tpoint_srid_internal seq s.

Lemma at_period_loop_props (p : Period) :
  forall l,
    forallb (fun s => period_valid (period s)) l = true ->
    seqarr_ordered l = true ->
    exists kept,
      at_period_loop temporalseq_at_period p l = Ok kept /\
      seqarr_ordered kept = true /\
      Forall (fun k => exists s, In s l /\
                contains_period_period_internal (period s) (period k) = true /\
                same_geo tpoint_srid_internal s k) kept /\
      (forall t, seqs_extent kept t <-> seqs_extent l t /\ in_period p t).
Proof.
  induction l as [|seq rest IH]; intros Hv Ho.
  { exists []. split; [reflexivity|]. split; [reflexivity|].
    split; [constructor|]. intros t. split.
    - intros H. destruct (seqs_extent_nil _ H).
    - intros [H _]. exact H. }
  cbn [forallb] in Hv. apply andb_true_iff in Hv. destruct Hv as [Hs Hv].
  pose proof (seqarr_ordered_head seq rest Hv Ho) as Hleft.
  rewrite Forall_forall in Hleft.
  destruct (IH Hv (seqarr_ordered_tail _ _ Ho))
    as [more [Hmore [Hmo [Hmw Hme]]]].
  (* what the current sequence contributes *)
  assert (Hk : exists kept0,
    (if contains_period_period_internal p (period seq) then Ok [seq]
     else if overlaps_period_period_internal p (period seq) then
       match temporalseq_at_period seq p with
       | Some newseq => Ok [newseq]
       | None => Fault
       end
     else Ok []) = Ok kept0 /\
    (kept0 = [] \/ exists k, kept0 = [k] /\
       contains_period_period_internal (period seq) (period k) = true /\
       same_geo tpoint_srid_internal seq k) /\
    (forall t, seqs_extent kept0 t <-> in_period (period seq) t /\ in_period p t)).
  { destruct (contains_period_period_internal p (period seq)) eqn:Hc.
    - exists [seq]. split; [reflexivity|]. split.
      + right. exists seq. split; [reflexivity|].
        split; [apply contains_period_refl | split; reflexivity].
      + intros t. rewrite seqs_extent_cons. split.
        * intros [H|H]; [|destruct (seqs_extent_nil _ H)].
          split; [exact H|]. eapply contains_period_in; eauto.
        * intros [H _]. left. exact H.
    - destruct (overlaps_period_period_internal p (period seq)) eqn:Hov.
      + pose proof (at_period_period seq p) as Hper.
        unfold intersection_period_period_internal in Hper.
        rewrite overlaps_sym, Hov in Hper. cbn [negb] in Hper.
        destruct (temporalseq_at_period seq p) as [k|] eqn:Hat; [|discriminate].
        cbn [option_map] in Hper.
        assert (Hint : intersection_period_period_internal (period seq) p
                       = Some (period k)).
        { unfold intersection_period_period_internal.
          rewrite overlaps_sym, Hov. cbn [negb]. congruence. }
        destruct (intersection_spec _ _ _ Hint) as [Hin1 [_ Hext]].
        exists [k]. split; [reflexivity|]. split.
        * right. exists k. split; [reflexivity|]. split; [exact Hin1|].
          eapply at_period_geo; eauto.
        * intros t. rewrite seqs_extent_cons, Hext. split; [|tauto].
          intros [H|H]; [exact H | destruct (seqs_extent_nil _ H)].
      + exists []. split; [reflexivity|]. split; [left; reflexivity|].
        intros t. split.
        * intros H. destruct (seqs_extent_nil _ H).
        * intros [H1 H2]. pose proof (in_both_overlaps _ _ _ H2 H1). congruence. }
  destruct Hk as [kept0 [Hk0 [Hshape Hext0]]].
  cbn [at_period_loop]. rewrite Hk0. cbn [bind].
  assert (Hw0 : Forall (fun k => exists s, In s (seq :: rest) /\
                  contains_period_period_internal (period s) (period k) = true /\
                  same_geo tpoint_srid_internal s k) kept0).
  { destruct Hshape as [->|[k [-> [Hc Hg]]]]; constructor; [|constructor].
    exists seq. split; [left; reflexivity | auto]. }
  destruct ((timestamp_cmp_internal (upper p) (upper (period seq)) <? 0) ||
            ((timestamp_cmp_internal (upper p) (upper (period seq)) =? 0) &&
             upper_inc (period seq))) eqn:Hbreak.
  - (* break *)
    exists kept0. split; [reflexivity|]. split.
    { destruct Hshape as [->|[k [-> _]]]; reflexivity. }
    split; [exact Hw0|].
    intros t. rewrite Hext0, seqs_extent_cons. split; [tauto|].
    intros [[H|[s' [Hs' Ht]]] Hp]; [tauto|].
    exfalso. eapply (at_period_break p seq s'); eauto.
  - rewrite Hmore. cbn [bind]. exists (kept0 ++ more).
    split; [reflexivity|]. split; [|split].
    + destruct Hshape as [->|[k [-> [Hc _]]]]; [exact Hmo|].
      cbn [app]. apply seqarr_ordered_cons_left; [exact Hmo|].
      intros m Hm. rewrite Forall_forall in Hmw.
      destruct (Hmw m Hm) as [s' [Hs' [Hc' _]]].
      eapply period_left_within; [apply (Hleft s' Hs') | exact Hc | exact Hc'].
    + apply Forall_app. split; [exact Hw0|].
      eapply Forall_impl; [|exact Hmw]. cbn.
      intros k [s' [Hs' H]]. exists s'. split; [right; exact Hs' | exact H].
    + intros t. rewrite seqs_extent_app, Hext0, Hme, seqs_extent_cons. tauto.
Qed.

(** The constructor accepts a non-empty array that passes the pairwise
    test and has one SRID and one Z flag. *)
Lemma temporals_from_temporalseqarr_ok (seqs : list TemporalSeq) (normalize : bool) :
  seqs <> [] -> seqarr_ordered seqs = true ->
  (forall a b, In a seqs -> In b seqs -> same_geo tpoint_srid_internal a b) ->
  (normalize = true -> temporalseqarr_normalize seqs <> []) ->
  exists r,
    temporals_from_temporalseqarr with_postgis geometry_oid geography_oid
      tpoint_srid_internal temporalseqarr_normalize temporal_bbox_size
      temporals_make_bbox seqs (Z.of_nat (length seqs)) normalize = Ok r /\
    sequences r = if normalize && (1 <? Z.of_nat (length seqs))
                  then temporalseqarr_normalize seqs else seqs.
Proof.
  intros Hne Hord Hgeo Hnorm. unfold temporals_from_temporalseqarr.
  destruct seqs as [|seq0 rest] eqn:Eseqs; [contradiction|]. rewrite <- Eseqs in *.
  assert (H0 : array_get seqs 0 = Some seq0) by (rewrite Eseqs; reflexivity).
  rewrite H0.
  assert (Hlen : 1 <= Z.of_nat (length seqs)) by (rewrite Eseqs; cbn [length]; lia).
  replace (Z.of_nat (length seqs) <? 1) with false
    by (symmetry; apply Z.ltb_ge; lia).
  unfold for_range.
  destruct (from_seqarr_loop tpoint_srid_internal seqs
              (is_geo with_postgis geometry_oid geography_oid (seq_valuetypid seq0))
              (tpoint_srid_internal seq0) (hasz (seq_flags seq0))
              (Z.to_nat (Z.of_nat (length seqs) - 1)) 1 true
              ltac:(lia) ltac:(lia))
    as [[_ [tc ->]]|[j [e [Hj [He _]]]]]; cbn [bind].
  - unfold array_prefix. rewrite Z.ltb_irrefl. cbn [bind].
    rewrite Nat2Z.id, firstn_all.
    set (news := if normalize && (1 <? Z.of_nat (length seqs))
                 then temporalseqarr_normalize seqs else seqs).
    assert (Hnews : news <> []).
    { subst news. destruct normalize; cbn [andb]; [|exact Hne].
      destruct (1 <? Z.of_nat (length seqs)); auto. }
    destruct news as [|n0 ns] eqn:En; [contradiction|].
    cbn [array_get Z.ltb Z.to_nat nth_error]. cbn. eexists. split; reflexivity.
  - exfalso. unfold from_seqarr_error in He.
    destruct (array_get seqs (j - 1)) as [a|] eqn:Ha; [|discriminate].
    destruct (array_get seqs j) as [b|] eqn:Hb; [|discriminate].
    rewrite (seqarr_ordered_consecutive seqs Hord j a b ltac:(lia) Ha Hb) in He.
    destruct (Hgeo seq0 b) as [Hsrid Hz].
    { rewrite Eseqs. left. reflexivity. }
    { eapply array_get_In; eauto. }
    rewrite Hsrid, Z.eqb_refl, Hz, eqb_reflx, !andb_false_r in He. discriminate.
Qed.

Lemma In_firstn_nth {A : Type} (l : list A) :
  forall n x, In x (firstn n l) -> exists j, (j < n)%nat /\ nth_error l j = Some x.
Proof.
  induction l as [|a l IH]; intros [|n] x H; try (cbn in H; contradiction).
  cbn in H. destruct H as [<-|H].
  - exists 0%nat. split; [lia | reflexivity].
  - destruct (IH n x H) as [j [Hj Hn]]. exists (S j). split; [lia | exact Hn].
Qed.

Lemma In_skipn_nth {A : Type} (l : list A) :
  forall n x, In x (skipn n l) -> exists j, (n <= j)%nat /\ nth_error l j = Some x.
Proof.
  induction l as [|a l IH]; intros [|n] x H; try (cbn in H; contradiction).
  - apply In_nth_error in H. destruct H as [j Hj]. exists j. split; [lia | exact Hj].
  - cbn in H. destruct (IH n x H) as [j [Hj Hn]]. exists (S j).
    split; [lia | exact Hn].
Qed.

Lemma In_skipn {A : Type} (l : list A) (n : nat) (x : A) :
  In x (skipn n l) -> In x l.
Proof.
  intros H. destruct (In_skipn_nth l n x H) as [j [_ Hj]].
  eapply nth_error_In; eauto.
Qed.

Lemma forallb_skipn {A : Type} (f : A -> bool) (l : list A) :
  forall n, forallb f l = true -> forallb f (skipn n l) = true.
Proof.
  induction l as [|a l IH]; intros [|n] H; auto.
  cbn in H. apply andb_true_iff in H. destruct H. cbn. auto.
Qed.

Lemma seqarr_ordered_skipn (l : list TemporalSeq) :
  forall n, seqarr_ordered l = true -> seqarr_ordered (skipn n l) = true.
Proof.
  induction l as [|a l IH]; intros [|n] H; auto.
  cbn [skipn]. apply IH. eapply seqarr_ordered_tail; eauto.
Qed.

Lemma array_get_nth {A : Type} (l : list A) (j : nat) :
  array_get l (Z.of_nat j) = nth_error l j.
Proof.
  unfold array_get.
  destruct (Z.of_nat j <? 0) eqn:E; [apply Z.ltb_lt in E; lia|].
  rewrite Nat2Z.id. reflexivity.
Qed.

Lemma temporals_find_timestamp_defined (ts : TemporalS) (t : TimestampTz) :
  valid_temporals ts -> count ts <= 2 ^ 30 ->
  exists found pos,
    temporals_find_timestamp ts t = Some (found, pos) /\
    find_timestamp_post ts t found pos /\ 0 <= pos <= count ts.
Proof.
  intros Hvalid Hsz. pose proof Hvalid as [Hcnt [Hpos _]].
  assert (Hpow : 2 ^ 30 = 1073741824) by reflexivity.
  assert (Hpow' : 2 ^ 31 = 2147483648) by reflexivity.
  destruct (find_timestamp_loop_correct ts t Hvalid Hsz
              (S (Z.to_nat (count ts))) 0 (count ts - 1) 0 None)
    as [found [pos [Hrun Hpost]]]; try lia.
  - intros j s Hj Hlt. apply array_get_bounds in Hj. lia.
  - intros j s Hj Hlt. apply array_get_bounds in Hj. lia.
  - exists found, pos. split; [|split; [exact Hpost|]].
    + unfold temporals_find_timestamp, int_sub.
      rewrite int_wrap_small by lia. exact Hrun.
    + destruct found; cbn in Hpost.
      * destruct Hpost as [s [Hs _]]. apply array_get_bounds in Hs. lia.
      * apply Hpost.
Qed.

(** The sequences before the index returned by the search for the lower
    bound of [p] have no instant in [p]. *)
Lemma at_period_prefix_empty (ts : TemporalS) (p : Period) (found : bool) (n : Z) :
  valid_temporals ts ->
  find_timestamp_post ts (lower p) found n -> 0 <= n ->
  forall t, seqs_extent (firstn (Z.to_nat n) (sequences ts)) t ->
            in_period p t -> False.
Proof.
  intros [Hcnt [Hpos [Hval Hord]]] Hpost Hn t [s [Hs Hst]] Hpt.
  destruct (In_firstn_nth _ _ _ Hs) as [j [Hj Hnth]].
  rewrite <- array_get_nth in Hnth.
  destruct found; cbn in Hpost.
  - destruct Hpost as [sn [Hsn Hc]].
    assert (Hleft : period_left (period s) (period sn)).
    { eapply (seqarr_ordered_pairs _ Hval Hord (Z.of_nat j) n); eauto. lia. }
    apply in_period_iff in Hst, Hpt. fold (in_period (period sn) (lower p)) in Hc.
    apply in_period_iff in Hc. unfold period_left in Hleft.
    destruct Hst as [_ Hs2], Hpt as [Hp1 _], Hc as [Hc1 _].
    destruct Hleft as [?|[? [?|?]]], Hs2 as [?|[? ?]], Hp1 as [?|[? ?]],
      Hc1 as [?|[? ?]]; try lia; congruence.
  - destruct Hpost as [_ Hall].
    destruct (Hall (Z.of_nat j) s Hnth) as [Hb _].
    pose proof (period_before_lt _ _ _ (Hb ltac:(lia)) Hst) as Hlt.
    apply in_period_iff in Hpt. destruct Hpt as [[?|[? _]] _]; lia.
Qed.

Lemma uniform_geo_kept (l kept : list TemporalSeq) :
  uniform_geo tpoint_srid_internal l ->
  Forall (fun k => exists s, In s l /\
            contains_period_period_internal (period s) (period k) = true /\
            same_geo tpoint_srid_internal s k) kept ->
  uniform_geo tpoint_srid_internal kept.
Proof.
  intros Hu Hk a b Ha Hb. rewrite Forall_forall in Hk.
  destruct (Hk a Ha) as [sa [Hsa [_ [Ha1 Ha2]]]].
  destruct (Hk b Hb) as [sb [Hsb [_ [Hb1 Hb2]]]].
  destruct (Hu sa sb Hsa Hsb) as [H1 H2].
  split; congruence.
Qed.

Lemma temporals_at_period_extent (ts : TemporalS) (p : Period) :
  valid_temporals ts -> count ts <= 2 ^ 30 ->
  uniform_geo tpoint_srid_internal (sequences ts) ->
  (count ts = 1 -> forall seq0, temporals_seq_n ts 0 = Some seq0 ->
     overlaps_period_period_internal p (period seq0) = true) ->
  exists A,
    temporals_at_period with_postgis geometry_oid geography_oid
      tpoint_srid_internal temporalseqarr_normalize temporal_bbox_size
      temporals_make_bbox temporalseq_at_period ts p = Ok A /\
    forall t, temporals_extent A t <->
              seqs_extent (sequences ts) t /\ in_period p t.
Proof.
  intros Hvalid Hsz Hgeo Hpre. pose proof Hvalid as [Hcnt [Hpos [Hval Hord]]].
  unfold temporals_at_period.
  destruct (count ts =? 1) eqn:Hone.
  - (* singleton *)
    apply Z.eqb_eq in Hone.
    assert (Hsingle : exists seq0, sequences ts = [seq0]).
    { destruct (sequences ts) as [|seq0 [|x xs]]; cbn [length] in Hcnt;
        [lia | eauto | lia]. }
    destruct Hsingle as [seq0 Es].
    unfold temporals_seq_n in *. rewrite Es in *.
    change (array_get [seq0] 0) with (Some seq0) in *.
    specialize (Hpre Hone seq0 eq_refl).
    pose proof (at_period_period seq0 p) as Hper.
    destruct (intersection_period_period_internal (period seq0) p) as [q|] eqn:Hint.
    2:{ unfold intersection_period_period_internal in Hint.
        rewrite overlaps_sym, Hpre in Hint. discriminate. }
    destruct (temporalseq_at_period seq0 p) as [k|] eqn:Hat; [|discriminate].
    cbn [option_map] in Hper. injection Hper as <-.
    destruct (temporals_from_temporalseqarr_ok [k] false ltac:(discriminate)
                eq_refl) as [r [Hr Hseqs]].
    { intros a b [<-|[]] [<-|[]]. split; reflexivity. }
    { discriminate. }
    cbn [length Z.of_nat Pos.of_succ_nat] in Hr. rewrite Hr. cbn [bind].
    eexists. split; [reflexivity|].
    intros t. cbn [temporals_extent andb] in *. rewrite Hseqs.
    destruct (intersection_spec _ _ _ Hint) as [_ [_ Hext]].
    rewrite !seqs_extent_cons, Hext. split.
    + intros [H|H]; [tauto | destruct (seqs_extent_nil _ H)].
    + intros [[H|H] Hp]; [tauto | destruct (seqs_extent_nil _ H)].
  - (* general case *)
    destruct (temporals_find_timestamp_defined ts (lower p) Hvalid Hsz)
      as [found [n [-> [Hpost Hn]]]].
    unfold array_prefix. rewrite Hcnt, Z.ltb_irrefl, Nat2Z.id, firstn_all.
    cbn [bind].
    destruct (at_period_loop_props p (skipn (Z.to_nat n) (sequences ts))
                (forallb_skipn _ _ _ Hval) (seqarr_ordered_skipn _ _ Hord))
      as [kept [-> [Hko [Hkw Hke]]]].
    cbn [bind].
    assert (Hext : forall t, seqs_extent kept t <->
                             seqs_extent (sequences ts) t /\ in_period p t).
    { intros t. rewrite Hke.
      rewrite <- (firstn_skipn (Z.to_nat n) (sequences ts)) at 2.
      rewrite seqs_extent_app. split; [tauto|].
      intros [[H|H] Hp]; [|tauto].
      exfalso. eapply at_period_prefix_empty; eauto. lia. }
    destruct kept as [|k0 ks] eqn:Ek.
    + cbn. eexists. split; [reflexivity|]. intros t. cbn [temporals_extent].
      rewrite <- Hext. split; [contradiction|]. apply seqs_extent_nil.
    + rewrite <- Ek in *.
      replace (Z.of_nat (length kept) =? 0) with false
        by (symmetry; apply Z.eqb_neq; rewrite Ek; cbn [length]; lia).
      destruct (temporals_from_temporalseqarr_ok kept false) as [r [Hr Hseqs]].
      * rewrite Ek. discriminate.
      * exact Hko.
      * eapply uniform_geo_kept; [|exact Hkw].
        intros a b Ha Hb. apply Hgeo; eapply In_skipn; eauto.
      * discriminate.
      * rewrite Hr. cbn [bind]. eexists. split; [reflexivity|].
        intros t. cbn [temporals_extent andb] in *. rewrite Hseqs. apply Hext.
Qed.

(** The complement of a valid period in one sequence covers the instants
    of the sequence outside the period. *)
Hypothesis minus_period_extent : forall seq p t,
  period_valid (period seq) = true -> period_valid p = true ->
  (temporals_extent (temporalseq_minus_period seq p) t <->
   in_period (period seq) t /\ ~ in_period p t).
(** A period set built without normalisation holds the periods given. *)
Hypothesis from_periodarr_periods : forall periods n,
  ps_periods (periodset_from_periodarr_internal periods n false)
  = firstn (Z.to_nat n) periods.
(** Subtracting a valid period from a valid period set gives a valid
    period set over the instants left, NULL when none is left. *)
Hypothesis minus_periodset_spec : forall ps p,
  periodset_valid ps -> period_valid p = true ->
  match minus_periodset_period_internal ps p with
  | Some r => periodset_valid r /\
              forall t, periodset_extent r t <-> periodset_extent ps t /\ ~ in_period p t
  | None => forall t, periodset_extent ps t -> in_period p t
  end.
(** The fragments of a sequence at a valid period set are in order, lie
    within the period of the sequence, keep its SRID and Z flag, and cover
    the instants of the sequence that are in the set. *)
Hypothesis at_periodset1_spec : forall seq ps,
  period_valid (period seq) = true -> periodset_valid ps ->
  seqarr_ordered (temporalseq_at_periodset1 seq ps) = true /\
  Forall (fun f => contains_period_period_internal (period seq) (period f) = true /\
                   same_geo tpoint_srid_internal seq f)
         (temporalseq_at_periodset1 seq ps) /\
  forall t, seqs_extent (temporalseq_at_periodset1 seq ps) t <->
            in_period (period seq) t /\ periodset_extent ps t.
(** Normalisation returns at least one sequence and keeps the instants
    covered. *)
Hypothesis normalize_extent : forall l,
  l <> [] -> seqarr_ordered l = true ->
  temporalseqarr_normalize l <> [] /\
  forall t, seqs_extent (temporalseqarr_normalize l) t <-> seqs_extent l t.

Lemma periodarr_ordered_map (l : list TemporalSeq) :
  periodarr_ordered (map period l) = seqarr_ordered l.
Proof.
  induction l as [|a l IH]; [reflexivity|].
  destruct l as [|b l]; [reflexivity|].
  rewrite seqarr_ordered_cons2, <- IH. cbn [map periodarr_ordered].
  unfold seq_pair_invalid. rewrite timestamp_cmp_gt, timestamp_cmp_eq, Z.gtb_ltb.
  reflexivity.
Qed.

Lemma seqarr_ordered_concat (a b : list TemporalSeq) :
  seqarr_ordered a = true -> seqarr_ordered b = true ->
  (forall x y, In x a -> In y b -> period_left (period x) (period y)) ->
  seqarr_ordered (a ++ b) = true.
Proof.
  induction a as [|x a IH]; intros Ha Hb Hl; [exact Hb|].
  destruct a as [|x2 a].
  - cbn [app]. apply seqarr_ordered_cons_left; [exact Hb|].
    intros m Hm. apply Hl; [left; reflexivity | exact Hm].
  - change ((x :: x2 :: a) ++ b) with (x :: x2 :: (a ++ b)).
    rewrite seqarr_ordered_cons2 in *.
    apply andb_true_iff in Ha. destruct Ha as [Hx Ha].
    rewrite Hx. cbn [andb]. apply IH; [exact Ha | exact Hb |].
    intros x' y Hx' Hy. apply Hl; [right; exact Hx' | exact Hy].
Qed.

Lemma at_periodset_fragments (ps : PeriodSet) :
  periodset_valid ps ->
  forall l,
    forallb (fun s => period_valid (period s)) l = true ->
    seqarr_ordered l = true ->
    let allseqs := concat (map (fun seq => temporalseq_at_periodset1 seq ps) l) in
    seqarr_ordered allseqs = true /\
    Forall (fun f => exists s, In s l /\
              contains_period_period_internal (period s) (period f) = true /\
              same_geo tpoint_srid_internal s f) allseqs /\
    (forall t, seqs_extent allseqs t <-> seqs_extent l t /\ periodset_extent ps t).
Proof.
  intros Hps. induction l as [|seq rest IH]; intros Hv Ho allseqs; subst allseqs.
  { cbn. split; [reflexivity|]. split; [constructor|]. intros t. split.
    - intros H. destruct (seqs_extent_nil _ H).
    - intros [H _]. exact H. }
  cbn [forallb] in Hv. apply andb_true_iff in Hv. destruct Hv as [Hs Hv].
  pose proof (seqarr_ordered_head seq rest Hv Ho) as Hleft.
  rewrite Forall_forall in Hleft.
  destruct (IH Hv (seqarr_ordered_tail _ _ Ho)) as [Hmo [Hmw Hme]].
  destruct (at_periodset1_spec seq ps Hs Hps) as [Hfo [Hfw Hfe]].
  cbn [map concat]. split; [|split].
  - apply seqarr_ordered_concat; auto.
    intros x y Hx Hy. rewrite Forall_forall in Hfw, Hmw.
    destruct (Hfw x Hx) as [Hcx _].
    destruct (Hmw y Hy) as [s' [Hs' [Hcy _]]].
    eapply period_left_within; [apply (Hleft s' Hs') | exact Hcx | exact Hcy].
  - apply Forall_app. split.
    + eapply Forall_impl; [|exact Hfw]. cbn. intros f Hf.
      exists seq. split; [left; reflexivity | exact Hf].
    + eapply Forall_impl; [|exact Hmw]. cbn.
      intros f [s' [Hs' H]]. exists s'. split; [right; exact Hs' | exact H].
  - intros t. rewrite seqs_extent_app, Hfe, Hme, seqs_extent_cons. tauto.
Qed.

Lemma temporals_at_periodset_extent (ts : TemporalS) (ps : PeriodSet) :
  valid_temporals ts -> count ts <> 1 ->
  uniform_geo tpoint_srid_internal (sequences ts) ->
  periodset_valid ps ->
  exists M,
    temporals_at_periodset with_postgis geometry_oid geography_oid
      tpoint_srid_internal temporalseqarr_normalize temporal_bbox_size
      temporals_make_bbox temporalseq_at_periodset temporalseq_at_periodset1
      ts ps = Ok M /\
    forall t, temporals_extent M t <->
              seqs_extent (sequences ts) t /\ periodset_extent ps t.
Proof.
  intros [Hcnt [Hpos [Hval Hord]]] Hmany Hgeo Hps.
  unfold temporals_at_periodset.
  replace (count ts =? 1) with false by (symmetry; apply Z.eqb_neq; exact Hmany).
  unfold array_prefix. rewrite Hcnt, Z.ltb_irrefl, Nat2Z.id, firstn_all.
  cbn [bind].
  destruct (at_periodset_fragments ps Hps (sequences ts) Hval Hord)
    as [Hao [Haw Hae]].
  set (allseqs := concat (map (fun seq => temporalseq_at_periodset1 seq ps)
                              (sequences ts))) in *.
  destruct allseqs as [|a0 rest] eqn:Ea.
  - cbn. eexists. split; [reflexivity|]. intros t. cbn [temporals_extent].
    rewrite <- Hae. split; [contradiction | apply seqs_extent_nil].
  - rewrite <- Ea in *.
    assert (Hne : allseqs <> []) by (rewrite Ea; discriminate).
    replace (Z.of_nat (length allseqs) =? 0) with false
      by (symmetry; apply Z.eqb_neq; rewrite Ea; cbn [length]; lia).
    destruct (normalize_extent allseqs Hne Hao) as [Hnn Hne'].
    destruct (temporals_from_temporalseqarr_ok allseqs true Hne Hao) as [r [Hr Hseqs]].
    + eapply uniform_geo_kept; eauto.
    + intros _. exact Hnn.
    + rewrite Hr. cbn [bind]. eexists. split; [reflexivity|].
      intros t. cbn [temporals_extent andb] in *. rewrite Hseqs.
      destruct (1 <? Z.of_nat (length allseqs)); [rewrite Hne'|]; apply Hae.
Qed.

Lemma forallb_map_period (l : list TemporalSeq) :
  forallb period_valid (map period l) = forallb (fun s => period_valid (period s)) l.
Proof.
  induction l as [|a l IH]; [reflexivity|]. cbn. rewrite IH. reflexivity.
Qed.

Lemma periodset_extent_map (ps : PeriodSet) (l : list TemporalSeq) (t : TimestampTz) :
  ps_periods ps = map period l ->
  (periodset_extent ps t <-> seqs_extent l t).
Proof.
  intros E. unfold periodset_extent, seqs_extent. rewrite E. split.
  - intros [p [Hp Ht]]. apply in_map_iff in Hp. destruct Hp as [s [<- Hs]]. eauto.
  - intros [s [Hs Ht]]. exists (period s). split; [apply in_map; exact Hs | exact Ht].
Qed.

(** C5, as the code has it.  Let [ts] be a valid sequence set with one
    SRID and Z flag and let [p] be a valid period; when [ts] has a single
    sequence, let [p] overlap its period (the test the callers make
    first); when it has more, let some instant of [ts] be outside [p], so
    that the subtraction of [p] from the time of [ts] leaves a period set
    to release.  Then, the collaborators keeping their contracts,
    [temporals_at_period], [temporals_minus_period] and
    [temporals_get_time] all return; no instant is in the extents of both
    results; and an instant is in one of them exactly when it is in the
    time of [ts].  A NULL result counts as the empty extent. *)
Theorem temporals_at_minus_period_partition (ts : TemporalS) (p : Period) :
  valid_temporals ts -> count ts <= 2 ^ 30 -> period_valid p = true ->
  uniform_geo tpoint_srid_internal (sequences ts) ->
  (count ts = 1 -> forall seq0, temporals_seq_n ts 0 = Some seq0 ->
     overlaps_period_period_internal p (period seq0) = true) ->
  (count ts <> 1 ->
     exists t, seqs_extent (sequences ts) t /\ ~ in_period p t) ->
  exists A M ps,
    temporals_at_period with_postgis geometry_oid geography_oid
      tpoint_srid_internal temporalseqarr_normalize temporal_bbox_size
      temporals_make_bbox temporalseq_at_period ts p = Ok A /\
    temporals_minus_period with_postgis geometry_oid geography_oid
      tpoint_srid_internal temporalseqarr_normalize temporal_bbox_size
      temporals_make_bbox temporalseq_minus_period temporalseq_at_periodset
      temporalseq_at_periodset1 periodset_from_periodarr_internal
      minus_periodset_period_internal ts p = Ok M /\
    temporals_get_time periodset_from_periodarr_internal ts = Ok ps /\
    (forall t, ~ (temporals_extent A t /\ temporals_extent M t)) /\
    (forall t, temporals_extent A t \/ temporals_extent M t <-> periodset_extent ps t).
Proof.
  intros Hvalid Hsz Hp Hgeo Hpre Hout.
  pose proof Hvalid as [Hcnt [Hpos [Hval Hord]]].
  destruct (temporals_at_period_extent ts p Hvalid Hsz Hgeo Hpre) as [A [HA HAe]].
  (* the time of [ts] *)
  set (ps := periodset_from_periodarr_internal (map period (sequences ts))
               (count ts) false).
  assert (Hget : temporals_get_time periodset_from_periodarr_internal ts = Ok ps).
  { unfold temporals_get_time, array_prefix.
    rewrite Hcnt, Z.ltb_irrefl, Nat2Z.id, firstn_all. cbn [bind].
    subst ps. rewrite Hcnt. reflexivity. }
  assert (Hper : ps_periods ps = map period (sequences ts)).
  { subst ps. rewrite from_periodarr_periods, Hcnt, Nat2Z.id.
    rewrite <- (length_map period). apply firstn_all. }
  assert (Hpsv : periodset_valid ps).
  { unfold periodset_valid. rewrite Hper, forallb_map_period, periodarr_ordered_map.
    auto. }
  assert (Hpse : forall t, periodset_extent ps t <-> seqs_extent (sequences ts) t).
  { intros t. apply periodset_extent_map. exact Hper. }
  (* the complement *)
  assert (HM : exists M,
    temporals_minus_period with_postgis geometry_oid geography_oid
      tpoint_srid_internal temporalseqarr_normalize temporal_bbox_size
      temporals_make_bbox temporalseq_minus_period temporalseq_at_periodset
      temporalseq_at_periodset1 periodset_from_periodarr_internal
      minus_periodset_period_internal ts p = Ok M /\
    forall t, temporals_extent M t <->
              seqs_extent (sequences ts) t /\ ~ in_period p t).
  { unfold temporals_minus_period.
    destruct (count ts =? 1) eqn:Hone.
    - apply Z.eqb_eq in Hone.
      assert (Hsingle : exists seq0, sequences ts = [seq0]).
      { destruct (sequences ts) as [|seq0 [|x xs]]; cbn [length] in Hcnt;
          [lia | eauto | lia]. }
      destruct Hsingle as [seq0 Es].
      unfold temporals_seq_n. rewrite Es.
      change (array_get [seq0] 0) with (Some seq0).
      eexists. split; [reflexivity|]. intros t.
      rewrite Es in Hval. cbn [forallb] in Hval. rewrite andb_true_r in Hval.
      rewrite (minus_period_extent seq0 p t Hval Hp), seqs_extent_cons.
      split; [tauto|]. intros [[H|H] Hn]; [tauto | destruct (seqs_extent_nil _ H)].
    - apply Z.eqb_neq in Hone. rewrite Hget. cbn [bind].
      pose proof (minus_periodset_spec ps p Hpsv Hp) as Hminus.
      destruct (minus_periodset_period_internal ps p) as [r|].
      + destruct Hminus as [Hrv Hre].
        destruct (temporals_at_periodset_extent ts r Hvalid Hone Hgeo Hrv)
          as [M [HM HMe]].
        exists M. split; [exact HM|]. intros t.
        rewrite HMe, Hre, Hpse. tauto.
      + destruct (Hout Hone) as [t [Hs Hn]].
        exfalso. apply Hn, Hminus, Hpse, Hs. }
  destruct HM as [M [HM HMe]].
  exists A, M, ps. repeat (split; [assumption|]). split.
  - intros t [Ha Hm]. apply HAe in Ha. apply HMe in Hm. tauto.
  - intros t. rewrite HAe, HMe, Hpse.
    unfold in_period. destruct (contains_period_timestamp_internal p t).
    + split; [tauto|]. intros H. left. split; [exact H | reflexivity].
    + split; [tauto|]. intros H. right. split; [exact H | discriminate].
Qed.

(** Subtracting from a valid period set a period that contains each of
    its periods leaves nothing: the result is NULL. *)
Hypothesis minus_periodset_null : forall ps p,
  periodset_valid ps -> period_valid p = true ->
  (forall q, In q (ps_periods ps) -> contains_period_period_internal p q = true) ->
  minus_periodset_period_internal ps p = None.

(** X26.  The complement of a period that covers the set.  Let [ts] be a
    valid sequence set of two sequences or more, with one SRID and Z
    flag, and let the valid period [p] contain the period of every
    sequence.  Then [temporals_at_period] returns, and its result covers
    every instant of [ts]; but [temporals_minus_period] does not return
    the NULL that stands for the empty complement: the subtraction gives
    it NULL, and it releases that pointer. *)
Theorem temporals_minus_period_covering (ts : TemporalS) (p : Period) :
  valid_temporals ts -> count ts <= 2 ^ 30 -> period_valid p = true ->
  uniform_geo tpoint_srid_internal (sequences ts) ->
  count ts <> 1 ->
  (forall s, In s (sequences ts) ->
     contains_period_period_internal p (period s) = true) ->
  (exists A,
     temporals_at_period with_postgis geometry_oid geography_oid
       tpoint_srid_internal temporalseqarr_normalize temporal_bbox_size
       temporals_make_bbox temporalseq_at_period ts p = Ok A /\
     forall t, temporals_extent A t <-> seqs_extent (sequences ts) t) /\
  temporals_minus_period with_postgis geometry_oid geography_oid
    tpoint_srid_internal temporalseqarr_normalize temporal_bbox_size
    temporals_make_bbox temporalseq_minus_period temporalseq_at_periodset
    temporalseq_at_periodset1 periodset_from_periodarr_internal
    minus_periodset_period_internal ts p = Fault.
Proof.
  intros Hvalid Hsz Hp Hgeo Hmany Hcover.
  pose proof Hvalid as [Hcnt [Hpos [Hval Hord]]].
  split.
  - destruct (temporals_at_period_extent ts p Hvalid Hsz Hgeo) as [A [HA HAe]].
    { intros Hone. contradiction. }
    exists A. split; [exact HA|]. intros t. rewrite HAe. split; [tauto|].
    intros Hs. split; [exact Hs|].
    destruct Hs as [s [Hin Ht]].
    eapply contains_period_in; [apply (Hcover s Hin) | exact Ht].
  - unfold temporals_minus_period.
    replace (count ts =? 1) with false by (symmetry; apply Z.eqb_neq; exact Hmany).
    unfold temporals_get_time, array_prefix.
    rewrite Hcnt, Z.ltb_irrefl, Nat2Z.id, firstn_all. cbn [bind].
    set (ps := periodset_from_periodarr_internal (map period (sequences ts))
                 (Z.of_nat (length (sequences ts))) false).
    assert (Hper : ps_periods ps = map period (sequences ts)).
    { subst ps. rewrite from_periodarr_periods, Nat2Z.id.
      rewrite <- (length_map period). apply firstn_all. }
    rewrite minus_periodset_null; [reflexivity | | exact Hp |].
    + unfold periodset_valid.
      rewrite Hper, forallb_map_period, periodarr_ordered_map. auto.
    + intros q Hq. rewrite Hper in Hq. apply in_map_iff in Hq.
      destruct Hq as [s [<- Hs]]. apply Hcover. exact Hs.
Qed.

End AtPeriodProps.

(** ** The models keep the contracts *)

Lemma period_valid_iff (p : Period) :
  period_valid p = true <->
  lower p < upper p \/ (lower p = upper p /\ lower_inc p = true /\ upper_inc p = true).
Proof.
  unfold period_valid.
  rewrite orb_true_iff, !andb_true_iff, Z.ltb_lt, Z.eqb_eq. tauto.
Qed.

Lemma periodarr_ordered_seqs (l : list Period) :
  periodarr_ordered l = seqarr_ordered (map seq_of_period l).
Proof.
  rewrite <- periodarr_ordered_map, map_map. cbn. rewrite map_id. reflexivity.
Qed.

Lemma periodarr_ordered_cons2 (p q : Period) (l : list Period) :
  periodarr_ordered (p :: q :: l) = true <->
  period_left p q /\ periodarr_ordered (q :: l) = true.
Proof.
  rewrite !periodarr_ordered_seqs. cbn [map].
  rewrite seqarr_ordered_cons2, andb_true_iff, negb_true_iff,
    seq_pair_invalid_false.
  reflexivity.
Qed.

(** The pieces of [q] outside [p]: valid, inside [q], in order, and
    covering the instants of [q] that are not in [p]. *)
Lemma minus_period_period_model_spec (q p : Period) :
  period_valid q = true -> period_valid p = true ->
  Forall (fun r => period_valid r = true /\
                   contains_period_period_internal q r = true)
         (minus_period_period_model q p) /\
  periodarr_ordered (minus_period_period_model q p) = true /\
  (forall t, (exists r, In r (minus_period_period_model q p) /\ in_period r t) <->
             in_period q t /\ ~ in_period p t).
Proof.
  intros Hq Hp.
  apply period_valid_iff in Hq, Hp.
  unfold minus_period_period_model.
  destruct (overlaps_period_period_internal q p) eqn:Hov; cbn [negb].
  2:{ split; [|split].
      - constructor; [|constructor]. split.
        + apply period_valid_iff. exact Hq.
        + apply contains_period_refl.
      - reflexivity.
      - intros t. split.
        + intros [r [[<-|[]] Ht]]. split; [exact Ht|].
          intros Hpt. pose proof (in_both_overlaps _ _ _ Ht Hpt). congruence.
        + intros [Ht _]. exists q. split; [left; reflexivity | exact Ht]. }
  apply overlaps_iff in Hov.
  set (cl := (lower q <? lower p) ||
             ((lower q =? lower p) && lower_inc q && negb (lower_inc p))).
  set (cr := (upper p <? upper q) ||
             ((upper p =? upper q) && upper_inc q && negb (upper_inc p))).
  assert (Hcl : cl = true <->
            lower q < lower p \/
            (lower q = lower p /\ lower_inc q = true /\ lower_inc p = false)).
  { subst cl. rewrite orb_true_iff, !andb_true_iff, negb_true_iff, Z.ltb_lt, Z.eqb_eq.
    tauto. }
  assert (Hcr : cr = true <->
            upper p < upper q \/
            (upper p = upper q /\ upper_inc q = true /\ upper_inc p = false)).
  { subst cr. rewrite orb_true_iff, !andb_true_iff, negb_true_iff, Z.ltb_lt, Z.eqb_eq.
    tauto. }
  split; [|split].
  - apply Forall_app. split.
    + destruct cl; [|constructor]. constructor; [|constructor].
      rewrite period_valid_iff, contains_period_iff.
      cbn [lower upper lower_inc upper_inc].
      destruct (proj1 Hcl eq_refl) as [?|[? [? ?]]];
        destruct (lower_inc q), (lower_inc p), (upper_inc q), (upper_inc p);
        cbn [negb]; intuition (try lia; try congruence).
    + destruct cr; [|constructor]. constructor; [|constructor].
      rewrite period_valid_iff, contains_period_iff.
      cbn [lower upper lower_inc upper_inc].
      destruct (proj1 Hcr eq_refl) as [?|[? [? ?]]];
        destruct (lower_inc q), (lower_inc p), (upper_inc q), (upper_inc p);
        cbn [negb]; intuition (try lia; try congruence).
  - destruct cl, cr; cbn [app]; try reflexivity.
    apply periodarr_ordered_cons2. split; [|reflexivity].
    unfold period_left. cbn [lower upper lower_inc upper_inc].
    destruct (lower_inc p), (upper_inc p); cbn [negb];
      intuition (try lia; try congruence).
  - intros t. rewrite !in_period_iff. split.
    + intros [r [Hr Ht]]. apply in_app_or in Hr.
      rewrite in_period_iff in Ht.
      destruct Hr as [Hr|Hr].
      * destruct cl; [|contradiction]. destruct Hr as [<-|[]].
        cbn [lower upper lower_inc upper_inc] in Ht.
        destruct (lower_inc q), (lower_inc p), (upper_inc q), (upper_inc p);
          cbn [negb] in Ht; intuition (try lia; try congruence).
      * destruct cr; [|contradiction]. destruct Hr as [<-|[]].
        cbn [lower upper lower_inc upper_inc] in Ht.
        destruct (lower_inc q), (lower_inc p), (upper_inc q), (upper_inc p);
          cbn [negb] in Ht; intuition (try lia; try congruence).
    + intros [Hqt Hnp].
      assert (Hside : (t < lower p \/ (t = lower p /\ lower_inc p = false)) \/
                      (upper p < t \/ (t = upper p /\ upper_inc p = false))).
      { destruct (lower_inc p) eqn:Elp, (upper_inc p) eqn:Eup;
          destruct (Z.lt_trichotomy t (lower p)) as [?|[?|?]];
          destruct (Z.lt_trichotomy t (upper p)) as [?|[?|?]];
          try tauto; try lia;
          exfalso; apply Hnp; intuition (try lia; try congruence). }
      destruct Hside as [Hbefore|Hafter].
      * assert (Hc : cl = true).
        { apply Hcl. destruct (lower_inc q), (lower_inc p);
            intuition (try lia; try congruence). }
        rewrite Hc. eexists. split; [apply in_or_app; left; left; reflexivity|].
        rewrite in_period_iff. cbn [lower upper lower_inc upper_inc].
        destruct (lower_inc p); cbn [negb]; intuition (try lia; try congruence).
      * assert (Hc : cr = true).
        { apply Hcr. destruct (upper_inc q), (upper_inc p);
            intuition (try lia; try congruence). }
        rewrite Hc. eexists. split; [apply in_or_app; right; left; reflexivity|].
        rewrite in_period_iff. cbn [lower upper lower_inc upper_inc].
        destruct (upper_inc p); cbn [negb]; intuition (try lia; try congruence).
Qed.

Lemma periodarr_ordered_app (a b : list Period) :
  periodarr_ordered a = true -> periodarr_ordered b = true ->
  (forall x y, In x a -> In y b -> period_left x y) ->
  periodarr_ordered (a ++ b) = true.
Proof.
  rewrite !periodarr_ordered_seqs, map_app. intros Ha Hb Hl.
  apply seqarr_ordered_concat; auto.
  intros x y Hx Hy. apply in_map_iff in Hx, Hy.
  destruct Hx as [x' [<- Hx]], Hy as [y' [<- Hy]]. cbn. auto.
Qed.

Lemma periodarr_ordered_head (q : Period) (l : list Period) :
  forallb period_valid l = true -> periodarr_ordered (q :: l) = true ->
  periodarr_ordered l = true /\ forall q', In q' l -> period_left q q'.
Proof.
  rewrite !periodarr_ordered_seqs. cbn [map]. intros Hv Ho. split.
  - eapply seqarr_ordered_tail; eauto.
  - assert (Hv' : forallb (fun s => period_valid (period s)) (map seq_of_period l)
                  = true).
    { rewrite <- forallb_map_period, map_map. cbn. rewrite map_id. exact Hv. }
    pose proof (seqarr_ordered_head _ _ Hv' Ho) as HF.
    rewrite Forall_forall in HF. intros q' Hq'.
    apply (HF (seq_of_period q')). apply in_map. exact Hq'.
Qed.

(** Cutting each period of a valid ordered array into ordered pieces
    inside it gives an ordered array. *)
Lemma flat_map_ordered (F : Period -> list Period) :
  forall l,
    forallb period_valid l = true -> periodarr_ordered l = true ->
    (forall q, In q l -> periodarr_ordered (F q) = true /\
       Forall (fun r => contains_period_period_internal q r = true) (F q)) ->
    periodarr_ordered (flat_map F l) = true /\
    Forall (fun r => exists q, In q l /\
              contains_period_period_internal q r = true) (flat_map F l).
Proof.
  induction l as [|q l IH]; intros Hv Ho HF; [split; [reflexivity | constructor]|].
  cbn [forallb] in Hv. apply andb_true_iff in Hv. destruct Hv as [Hq Hv].
  destruct (periodarr_ordered_head q l Hv Ho) as [Ho' Hleft].
  destruct (IH Hv Ho') as [IHo IHw].
  { intros q' Hq'. apply HF. right. exact Hq'. }
  destruct (HF q (or_introl eq_refl)) as [Hfo Hfw].
  cbn [flat_map]. split.
  - apply periodarr_ordered_app; auto.
    intros x y Hx Hy. rewrite Forall_forall in Hfw, IHw.
    destruct (IHw y Hy) as [q' [Hq' Hc']].
    eapply period_left_within; [apply (Hleft q' Hq') | apply (Hfw x Hx) | exact Hc'].
  - apply Forall_app. split.
    + eapply Forall_impl; [|exact Hfw]. cbn. intros r Hr.
      exists q. split; [left; reflexivity | exact Hr].
    + eapply Forall_impl; [|exact IHw]. cbn. intros r [q' [Hq' Hr]].
      exists q'. split; [right; exact Hq' | exact Hr].
Qed.

Lemma forallb_flat_map (F : Period -> list Period) (l : list Period) :
  (forall q, In q l -> forallb period_valid (F q) = true) ->
  forallb period_valid (flat_map F l) = true.
Proof.
  induction l as [|q l IH]; intros H; [reflexivity|].
  cbn [flat_map]. rewrite forallb_app, (H q (or_introl eq_refl)), IH; auto.
  intros q' Hq'. apply H. right. exact Hq'.
Qed.

Lemma minus_periodset_period_model_spec (ps : PeriodSet) (p : Period) :
  periodset_valid ps -> period_valid p = true ->
  match minus_periodset_period_model ps p with
  | Some r => periodset_valid r /\
              forall t, periodset_extent r t <-> periodset_extent ps t /\ ~ in_period p t
  | None => forall t, periodset_extent ps t -> in_period p t
  end.
Proof.
  intros [Hv Ho] Hp.
  set (l := flat_map (fun q => minus_period_period_model q p) (ps_periods ps)).
  assert (Hvalid_q : forall q, In q (ps_periods ps) -> period_valid q = true).
  { intros q Hq. rewrite forallb_forall in Hv. auto. }
  assert (Hlv : forallb period_valid l = true).
  { apply forallb_flat_map. intros q Hq.
    destruct (minus_period_period_model_spec q p (Hvalid_q q Hq) Hp) as [HF _].
    apply forallb_forall. intros r Hr. rewrite Forall_forall in HF.
    apply (HF r Hr). }
  assert (Hlo : periodarr_ordered l = true).
  { apply flat_map_ordered; auto. intros q Hq.
    destruct (minus_period_period_model_spec q p (Hvalid_q q Hq) Hp)
      as [HF [Hord _]].
    split; [exact Hord|]. eapply Forall_impl; [|exact HF]. cbn. tauto. }
  assert (Hle : forall t, (exists r, In r l /\ in_period r t) <->
                          periodset_extent ps t /\ ~ in_period p t).
  { intros t. unfold periodset_extent. split.
    - intros [r [Hr Ht]]. apply in_flat_map in Hr. destruct Hr as [q [Hq Hr]].
      destruct (minus_period_period_model_spec q p (Hvalid_q q Hq) Hp)
        as [_ [_ Hext]].
      destruct (proj1 (Hext t) (ex_intro _ r (conj Hr Ht))) as [H1 H2].
      split; [exists q; auto | exact H2].
    - intros [[q [Hq Ht]] Hn].
      destruct (minus_period_period_model_spec q p (Hvalid_q q Hq) Hp)
        as [_ [_ Hext]].
      destruct (proj2 (Hext t) (conj Ht Hn)) as [r [Hr Hrt]].
      exists r. split; [|exact Hrt]. apply in_flat_map. exists q. auto. }
  unfold minus_periodset_period_model. fold l.
  destruct l as [|r0 rs] eqn:El.
  - intros t Ht. unfold in_period.
    destruct (contains_period_timestamp_internal p t) eqn:E; [reflexivity|].
    exfalso. destruct (proj2 (Hle t)) as [r [[] _]].
    split; [exact Ht|]. unfold in_period. congruence.
  - split; [split; assumption|]. intros t. apply Hle.
Qed.

Lemma intersection_defined (p q : Period) (t : TimestampTz) :
  in_period p t -> in_period q t ->
  exists r, intersection_period_period_internal p q = Some r /\ in_period r t.
Proof.
  intros Hp Hq.
  destruct (intersection_period_period_internal p q) as [r|] eqn:E.
  - exists r. split; [reflexivity|].
    apply (proj2 (proj2 (intersection_spec _ _ _ E))). auto.
  - unfold intersection_period_period_internal in E.
    rewrite (in_both_overlaps _ _ _ Hp Hq) in E. discriminate.
Qed.

Lemma temporalseq_at_periodset1_model_spec (seq : TemporalSeq) (ps : PeriodSet) :
  period_valid (period seq) = true -> periodset_valid ps ->
  seqarr_ordered (temporalseq_at_periodset1_model seq ps) = true /\
  Forall (fun f => contains_period_period_internal (period seq) (period f) = true /\
                   same_geo example_srid seq f)
         (temporalseq_at_periodset1_model seq ps) /\
  forall t, seqs_extent (temporalseq_at_periodset1_model seq ps) t <->
            in_period (period seq) t /\ periodset_extent ps t.
Proof.
  intros Hs [Hv Ho]. unfold temporalseq_at_periodset1_model, temporalseq_at_period_model.
  set (G := fun q => match option_map (seq_with_period seq)
                             (intersection_period_period_internal (period seq) q) with
                     | Some s => [s]
                     | None => []
                     end).
  set (F := fun q => match intersection_period_period_internal (period seq) q with
                     | Some r => [r]
                     | None => []
                     end).
  assert (Hmap : forall l, map period (flat_map G l) = flat_map F l).
  { induction l as [|q l IH]; [reflexivity|].
    cbn [flat_map]. rewrite map_app, IH. f_equal.
    subst G F. cbn.
    destruct (intersection_period_period_internal (period seq) q); reflexivity. }
  split; [|split].
  - rewrite <- periodarr_ordered_map, Hmap.
    apply flat_map_ordered; auto.
    intros q Hq. subst F. cbn.
    destruct (intersection_period_period_internal (period seq) q) as [r|] eqn:E.
    + split; [reflexivity|]. constructor; [|constructor].
      apply (intersection_spec _ _ _ E).
    + split; [reflexivity | constructor].
  - apply Forall_forall. intros f Hf. apply in_flat_map in Hf.
    destruct Hf as [q [Hq Hf]]. subst G. cbn in Hf.
    destruct (intersection_period_period_internal (period seq) q) as [r|] eqn:E;
      [|contradiction].
    destruct Hf as [<-|[]]. cbn. split; [|split; reflexivity].
    apply (intersection_spec _ _ _ E).
  - intros t. unfold seqs_extent, periodset_extent. split.
    + intros [f [Hf Ht]]. apply in_flat_map in Hf.
      destruct Hf as [q [Hq Hf]]. subst G. cbn in Hf.
      destruct (intersection_period_period_internal (period seq) q) as [r|] eqn:E;
        [|contradiction].
      destruct Hf as [<-|[]]. cbn in Ht.
      apply (proj2 (proj2 (intersection_spec _ _ _ E))) in Ht.
      split; [tauto | exists q; tauto].
    + intros [Hst [q [Hq Hqt]]].
      destruct (intersection_defined _ _ t Hst Hqt) as [r [Hr Hrt]].
      exists (seq_with_period seq r). split; [|exact Hrt].
      apply in_flat_map. exists q. split; [exact Hq|].
      subst G. cbn. rewrite Hr. left. reflexivity.
Qed.

Lemma seqs_as_set_extent (seq : TemporalSeq) (l : list TemporalSeq) (t : TimestampTz) :
  temporals_extent (seqs_as_set seq l) t <-> seqs_extent l t.
Proof.
  destruct l as [|a l]; cbn [seqs_as_set temporals_extent sequences]; [|tauto].
  split; [contradiction | apply seqs_extent_nil].
Qed.

Lemma temporalseq_minus_period_model_spec (seq : TemporalSeq) (p : Period)
    (t : TimestampTz) :
  period_valid (period seq) = true -> period_valid p = true ->
  (temporals_extent (temporalseq_minus_period_model seq p) t <->
   in_period (period seq) t /\ ~ in_period p t).
Proof.
  intros Hs Hp. unfold temporalseq_minus_period_model.
  rewrite seqs_as_set_extent.
  destruct (minus_period_period_model_spec (period seq) p Hs Hp) as [_ [_ Hext]].
  rewrite <- Hext. unfold seqs_extent. split.
  - intros [f [Hf Ht]]. apply in_map_iff in Hf. destruct Hf as [r [<- Hr]].
    exists r. auto.
  - intros [r [Hr Ht]]. exists (seq_with_period seq r).
    split; [apply in_map; exact Hr | exact Ht].
Qed.

(** The hypotheses of the C5 theorem hold for the models on the periods
    [0,10], [20,30] and the period [5,25]: the restriction is over [5,10],
    [20,25] and the complement over [0,5), (25,30]. *)
Lemma temporals_at_minus_period_partition_witness :
  exists A M ps,
    temporals_at_period false 0 0 example_srid normalize_none (fun _ => 0) time_box
      temporalseq_at_period_model sync_left (mkPeriod 5 25 true true) = Ok A /\
    temporals_minus_period false 0 0 example_srid normalize_none (fun _ => 0)
      time_box temporalseq_minus_period_model temporalseq_at_periodset_model
      temporalseq_at_periodset1_model periodset_from_periodarr_model
      minus_periodset_period_model sync_left (mkPeriod 5 25 true true) = Ok M /\
    temporals_get_time periodset_from_periodarr_model sync_left = Ok ps /\
    (forall t, ~ (temporals_extent A t /\ temporals_extent M t)) /\
    (forall t, temporals_extent A t \/ temporals_extent M t <-> periodset_extent ps t).
Proof.
  apply (temporals_at_minus_period_partition false 0 0 example_srid normalize_none
           (fun _ => 0) time_box temporalseq_at_period_model
           temporalseq_minus_period_model temporalseq_at_periodset_model
           temporalseq_at_periodset1_model periodset_from_periodarr_model
           minus_periodset_period_model).
  - intros seq p. unfold temporalseq_at_period_model.
    destruct (intersection_period_period_internal (period seq) p); reflexivity.
  - intros seq p s. unfold temporalseq_at_period_model.
    destruct (intersection_period_period_internal (period seq) p); [|discriminate].
    intros [= <-]. split; reflexivity.
  - apply temporalseq_minus_period_model_spec.
  - reflexivity.
  - apply minus_periodset_period_model_spec.
  - apply temporalseq_at_periodset1_model_spec.
  - intros l Hl _. split; [exact Hl | reflexivity].
  - unfold valid_temporals. simpl. repeat split; try reflexivity; lia.
  - simpl. lia.
  - reflexivity.
  - intros a b [<-|[<-|[]]] [<-|[<-|[]]]; split; reflexivity.
  - simpl. intros H. discriminate H.
  - intros _. exists 0. split.
    + exists (closed_seq 0 10). split; [left; reflexivity | reflexivity].
    + unfold in_period. cbn. discriminate.
Defined.

(** What the two functions return on that input. *)
Example at_minus_period_example :
  option_map (fun r => map period (sequences r))
    match temporals_at_period false 0 0 example_srid normalize_none (fun _ => 0)
            time_box temporalseq_at_period_model sync_left (mkPeriod 5 25 true true)
    with Ok A => A | _ => None end
  = Some [mkPeriod 5 10 true true; mkPeriod 20 25 true true] /\
  option_map (fun r => map period (sequences r))
    match temporals_minus_period false 0 0 example_srid normalize_none (fun _ => 0)
            time_box temporalseq_minus_period_model temporalseq_at_periodset_model
            temporalseq_at_periodset1_model periodset_from_periodarr_model
            minus_periodset_period_model sync_left (mkPeriod 5 25 true true)
    with Ok M => M | _ => None end
  = Some [mkPeriod 0 5 true false; mkPeriod 25 30 false true].
Proof. split; reflexivity. Qed.

(** C5 as stated fails on a set with a single sequence and a period that
    misses it: [temporalseq_at_period] returns NULL for [0,10] against
    [20,30], the singleton branch hands that NULL to the constructor, and
    the restriction has no result, while the complement returns the whole
    sequence. *)
Lemma temporals_at_minus_period_counterexample :
  valid_temporals single_example /\
  period_valid (mkPeriod 20 30 true true) = true /\
  temporalseq_at_period_model (closed_seq 0 10) (mkPeriod 20 30 true true) = None /\
  temporals_at_period false 0 0 example_srid normalize_none (fun _ => 0) time_box
    temporalseq_at_period_model single_example (mkPeriod 20 30 true true) = Fault /\
  (~ exists A,
      temporals_at_period false 0 0 example_srid normalize_none (fun _ => 0) time_box
        temporalseq_at_period_model single_example (mkPeriod 20 30 true true) = Ok A) /\
  exists M,
    temporals_minus_period false 0 0 example_srid normalize_none (fun _ => 0)
      time_box temporalseq_minus_period_model temporalseq_at_periodset_model
      temporalseq_at_periodset1_model periodset_from_periodarr_model
      minus_periodset_period_model single_example (mkPeriod 20 30 true true)
    = Ok (Some M) /\
    map period (sequences M) = [mkPeriod 0 10 true true].
Proof.
  split.
  { unfold valid_temporals. simpl. repeat split; try reflexivity; lia. }
  split; [reflexivity|]. split; [reflexivity|]. split; [reflexivity|].
  split.
  - intros [A H]. discriminate H.
  - eexists. split; reflexivity.
Qed.

(** Nothing of a valid period is left outside a period that contains
    it. *)
Lemma minus_period_period_model_contained (q p : Period) :
  period_valid q = true ->
  contains_period_period_internal p q = true ->
  minus_period_period_model q p = [].
Proof.
  intros Hq Hc. apply period_valid_iff in Hq. apply contains_period_iff in Hc.
  destruct Hc as [Hl Hu].
  unfold minus_period_period_model.
  assert (Hov : overlaps_period_period_internal q p = true).
  { apply overlaps_iff. split.
    - destruct (Z.eq_dec (lower q) (upper p)) as [E|E]; [right|left].
      + split; [exact E|].
        destruct Hq as [?|[? [? ?]]], Hu as [?|[? [?|?]]]; try lia;
          split; congruence.
      + destruct Hq as [?|[? _]], Hu as [?|[? _]]; lia.
    - destruct (Z.eq_dec (lower p) (upper q)) as [E|E]; [right|left].
      + split; [exact E|].
        destruct Hq as [?|[? [? ?]]], Hl as [?|[? [?|?]]]; try lia;
          split; congruence.
      + destruct Hq as [?|[? _]], Hl as [?|[? _]]; lia. }
  rewrite Hov. cbn [negb].
  assert (H1 : (lower q <? lower p) ||
               ((lower q =? lower p) && lower_inc q && negb (lower_inc p)) = false).
  { apply orb_false_iff. split.
    - apply Z.ltb_ge. destruct Hl as [?|[? _]]; lia.
    - destruct (Z.eqb_spec (lower q) (lower p)) as [E|E]; [|reflexivity].
      cbn [andb]. destruct Hl as [?|[_ [->| ->]]]; [lia | |reflexivity].
      cbn [negb]. apply andb_false_r. }
  assert (H2 : (upper p <? upper q) ||
               ((upper p =? upper q) && upper_inc q && negb (upper_inc p)) = false).
  { apply orb_false_iff. split.
    - apply Z.ltb_ge. destruct Hu as [?|[? _]]; lia.
    - destruct (Z.eqb_spec (upper p) (upper q)) as [E|E]; [|reflexivity].
      cbn [andb]. destruct Hu as [?|[_ [->| ->]]]; [lia | |reflexivity].
      cbn [negb]. apply andb_false_r. }
  rewrite H1, H2. reflexivity.
Qed.

Lemma minus_periodset_period_model_null (ps : PeriodSet) (p : Period) :
  periodset_valid ps -> period_valid p = true ->
  (forall q, In q (ps_periods ps) -> contains_period_period_internal p q = true) ->
  minus_periodset_period_model ps p = None.
Proof.
  intros [Hv _] _ Hc. unfold minus_periodset_period_model.
  replace (flat_map (fun q => minus_period_period_model q p) (ps_periods ps))
    with (@nil Period); [reflexivity|].
  symmetry. rewrite forallb_forall in Hv.
  induction (ps_periods ps) as [|q l IH]; [reflexivity|].
  cbn [flat_map].
  rewrite minus_period_period_model_contained
    by (try apply Hv; try apply Hc; left; reflexivity).
  apply IH; intros; [apply Hv | apply Hc]; right; assumption.
Qed.

(** On the periods [0,10], [20,30] and the period [0,30] the restriction
    returns and the complement does not. *)
Lemma temporals_minus_period_covering_witness :
  (exists A,
     temporals_at_period false 0 0 example_srid normalize_none (fun _ => 0) time_box
       temporalseq_at_period_model sync_left (mkPeriod 0 30 true true) = Ok A) /\
  temporals_minus_period false 0 0 example_srid normalize_none (fun _ => 0)
    time_box temporalseq_minus_period_model temporalseq_at_periodset_model
    temporalseq_at_periodset1_model periodset_from_periodarr_model
    minus_periodset_period_model sync_left (mkPeriod 0 30 true true) = Fault.
Proof.
  destruct (temporals_minus_period_covering false 0 0 example_srid normalize_none
              (fun _ => 0) time_box temporalseq_at_period_model
              temporalseq_minus_period_model temporalseq_at_periodset_model
              temporalseq_at_periodset1_model periodset_from_periodarr_model
              minus_periodset_period_model)
    with (ts := sync_left) (p := mkPeriod 0 30 true true) as [[A [HA _]] HM].
  - intros seq p. unfold temporalseq_at_period_model.
    destruct (intersection_period_period_internal (period seq) p); reflexivity.
  - intros seq p s. unfold temporalseq_at_period_model.
    destruct (intersection_period_period_internal (period seq) p); [|discriminate].
    intros [= <-]. split; reflexivity.
  - reflexivity.
  - apply minus_periodset_period_model_null.
  - unfold valid_temporals. simpl. repeat split; try reflexivity; lia.
  - simpl. lia.
  - reflexivity.
  - intros a b [<-|[<-|[]]] [<-|[<-|[]]]; split; reflexivity.
  - simpl. discriminate.
  - intros s [<-|[<-|[]]]; reflexivity.
  - split; [exists A; exact HA | exact HM].
Defined.

(** ** Equality on the packed bytes *)

Lemma Z_of_byte_inj (a b : byte) : Z_of_byte a = Z_of_byte b -> a = b.
Proof.
  unfold Z_of_byte. intros H. apply N2Z.inj in H.
  pose proof (Byte.of_to_N a) as Ha. pose proof (Byte.of_to_N b) as Hb.
  rewrite H in Ha. congruence.
Qed.

Lemma memcmp_full :
  forall n s1 s2,
    (n <= length s1)%nat -> (n <= length s2)%nat ->
    exists c, memcmp s1 s2 n = Some c /\ (c = 0 <-> firstn n s1 = firstn n s2).
Proof.
  induction n as [|n IH]; intros s1 s2 H1 H2.
  - exists 0. cbn. split; [reflexivity|]. split; reflexivity.
  - destruct s1 as [|b1 r1]; [cbn in H1; lia|].
    destruct s2 as [|b2 r2]; [cbn in H2; lia|].
    cbn [memcmp firstn].
    destruct (Byte.eqb b1 b2) eqn:E.
    + apply Byte.byte_dec_bl in E. subst b2.
      destruct (IH r1 r2) as [c [Hc Hiff]]; [cbn in H1; lia | cbn in H2; lia|].
      exists c. split; [exact Hc|]. rewrite Hiff. split; [congruence|].
      intros [= H]. exact H.
    + eexists. split; [reflexivity|]. split.
      * intros H. assert (Hb : b1 = b2) by (apply Z_of_byte_inj; lia).
        apply Byte.byte_dec_lb in Hb. congruence.
      * intros [= Hb _]. apply Byte.byte_dec_lb in Hb. congruence.
Qed.

Lemma memcmp_diff :
  forall k n s1 s2,
    (k <= n)%nat -> (k <= length s1)%nat -> (k <= length s2)%nat ->
    firstn k s1 <> firstn k s2 ->
    exists c, memcmp s1 s2 n = Some c /\ c <> 0.
Proof.
  induction k as [|k IH]; intros n s1 s2 Hk H1 H2 Hd; [cbn in Hd; congruence|].
  destruct n as [|n]; [lia|].
  destruct s1 as [|b1 r1]; [cbn in H1; lia|].
  destruct s2 as [|b2 r2]; [cbn in H2; lia|].
  cbn [memcmp]. destruct (Byte.eqb b1 b2) eqn:E.
  - apply Byte.byte_dec_bl in E. subst b2.
    apply IH; try (cbn in *; lia).
    intros H. apply Hd. cbn [firstn]. congruence.
  - eexists. split; [reflexivity|]. intros H.
    assert (Hb : b1 = b2) by (apply Z_of_byte_inj; lia).
    apply Byte.byte_dec_lb in Hb. congruence.
Qed.

Lemma firstn_neq_mono {A : Type} (k n : nat) (s1 s2 : list A) :
  (k <= n)%nat -> firstn k s1 <> firstn k s2 -> firstn n s1 <> firstn n s2.
Proof.
  intros Hk Hd H. apply Hd.
  rewrite <- (Nat.min_l k n Hk), <- !firstn_firstn, H. reflexivity.
Qed.

Section PackedProps.

Variable sizeof_TemporalS : Z.
Variable double_pad : Z -> Z.
Variable temporal_bbox_size : Oid -> Z.
Variable VARSIZE_4B : list byte -> Z.
Variable ts_count : list byte -> Z.
Variable ts_valuetypid : list byte -> Oid.
Variable ts_offset : list byte -> Z -> Z.

Let wf := image_wf sizeof_TemporalS double_pad temporal_bbox_size VARSIZE_4B
                   ts_count ts_valuetypid ts_offset.
Let eq_bytes := temporals_eq sizeof_TemporalS double_pad temporal_bbox_size
                             VARSIZE_4B ts_count ts_valuetypid ts_offset.
Let bbox_of := bbox_bytes sizeof_TemporalS double_pad temporal_bbox_size
                          ts_count ts_offset.
Let packed_of := packed_bytes double_pad temporal_bbox_size VARSIZE_4B ts_valuetypid.

Lemma temporals_eq_defined (ts1 ts2 : list byte) :
  wf ts1 -> wf ts2 -> ts_valuetypid ts1 = ts_valuetypid ts2 ->
  exists b,
    eq_bytes ts1 ts2 = Some b /\
    (b = true <->
     ts_count ts1 = ts_count ts2 /\
     bbox_of (ts_valuetypid ts1) ts1 = bbox_of (ts_valuetypid ts1) ts2 /\
     packed_of ts1 ts1 = packed_of ts1 ts2).
Proof.
  subst wf eq_bytes bbox_of packed_of.
  intros [Hl1 [Hp1 [Hb1 He1]]] [Hl2 [Hp2 [Hb2 He2]]] Hty.
  unfold temporals_eq, bbox_bytes, packed_bytes.
  rewrite <- Hty in *.
  set (bboxsize := double_pad (temporal_bbox_size (ts_valuetypid ts1))) in *.
  set (p1 := temporals_bbox_ptr sizeof_TemporalS double_pad ts_count ts_offset ts1) in *.
  set (p2 := temporals_bbox_ptr sizeof_TemporalS double_pad ts_count ts_offset ts2) in *.
  destruct (ts_count ts1 =? ts_count ts2) eqn:Hc; cbn [negb].
  2:{ apply Z.eqb_neq in Hc. exists false. split; [reflexivity|].
      split; [discriminate|]. intros [H _]. contradiction. }
  apply Z.eqb_eq in Hc.
  destruct (memcmp_full (Z.to_nat bboxsize) (skipn (Z.to_nat p1) ts1)
              (skipn (Z.to_nat p2) ts2)) as [c [Hm Hc0]].
  { rewrite length_skipn. lia. }
  { rewrite length_skipn. lia. }
  rewrite Hm.
  destruct (c =? 0) eqn:Ec; cbn [negb].
  2:{ apply Z.eqb_neq in Ec. exists false. split; [reflexivity|].
      split; [discriminate|]. intros [_ [H _]]. exfalso. apply Ec, Hc0, H. }
  apply Z.eqb_eq in Ec. apply Hc0 in Ec.
  set (sz1 := VARSIZE VARSIZE_4B ts1 - bboxsize) in *.
  destruct (list_eq_dec Byte.byte_eq_dec (firstn 4 ts1) (firstn 4 ts2)) as [E4|N4].
  - assert (Hv : VARSIZE VARSIZE_4B ts1 = VARSIZE VARSIZE_4B ts2).
    { unfold VARSIZE. rewrite E4. reflexivity. }
    destruct (memcmp_full (Z.to_nat sz1) ts1 ts2) as [c' [Hm' Hc']]; try lia.
    rewrite Hm'. destruct (c' =? 0) eqn:Ec'.
    + apply Z.eqb_eq in Ec'. exists true. split; [reflexivity|].
      split; [|reflexivity]. intros _. split; [exact Hc|]. split; [exact Ec|].
      apply Hc', Ec'.
    + apply Z.eqb_neq in Ec'. exists false. split; [reflexivity|].
      split; [discriminate|]. intros [_ [_ H]]. exfalso. apply Ec', Hc', H.
  - destruct (memcmp_diff 4 (Z.to_nat sz1) ts1 ts2) as [c' [Hm' Hc']];
      try lia; [exact N4|].
    rewrite Hm'. replace (c' =? 0) with false by (symmetry; apply Z.eqb_neq; exact Hc').
    exists false. split; [reflexivity|]. split; [discriminate|].
    intros [_ [_ H]]. exfalso.
    apply (firstn_neq_mono 4 (Z.to_nat sz1) ts1 ts2); [lia | exact N4 | exact H].
Qed.

Lemma temporals_eq_images (ts1 ts2 : list byte) :
  wf ts1 -> wf ts2 -> ts_valuetypid ts1 = ts_valuetypid ts2 ->
  (eq_bytes ts1 ts2 = Some true <-> ts1 = ts2).
Proof.
  intros H1 H2 Hty.
  destruct (temporals_eq_defined ts1 ts2 H1 H2 Hty) as [b [Hrun Hb]].
  rewrite Hrun. split.
  - intros [= ->]. destruct (proj1 Hb eq_refl) as [_ [Hbox Hpk]].
    subst wf eq_bytes bbox_of packed_of.
    destruct H1 as [Hl1 [Hp1 [Hb1 He1]]], H2 as [Hl2 [Hp2 [Hb2 He2]]].
    unfold bbox_bytes, packed_bytes in *. rewrite <- Hty in *.
    set (bboxsize := double_pad (temporal_bbox_size (ts_valuetypid ts1))) in *.
    set (p1 := temporals_bbox_ptr sizeof_TemporalS double_pad ts_count ts_offset ts1) in *.
    set (p2 := temporals_bbox_ptr sizeof_TemporalS double_pad ts_count ts_offset ts2) in *.
    assert (Hsz : VARSIZE VARSIZE_4B ts1 - bboxsize = p1) by lia.
    rewrite Hsz in Hpk.
    assert (E4 : firstn 4 ts1 = firstn 4 ts2).
    { rewrite <- (Nat.min_l 4 (Z.to_nat p1)) by lia.
      rewrite <- !firstn_firstn, Hpk. reflexivity. }
    assert (Hv : VARSIZE VARSIZE_4B ts1 = VARSIZE VARSIZE_4B ts2).
    { unfold VARSIZE. rewrite E4. reflexivity. }
    assert (Hp : p2 = p1) by lia. rewrite Hp in Hbox.
    rewrite !firstn_all2 in Hbox by (rewrite length_skipn; lia).
    rewrite <- (firstn_skipn (Z.to_nat p1) ts1), <- (firstn_skipn (Z.to_nat p1) ts2).
    congruence.
  - intros <-. f_equal. apply Hb. auto.
Qed.

Section CompareProps.

Variable with_postgis : bool.
Variable geometry_oid geography_oid : Oid.
Variable tpoint_srid_internal : TemporalSeq -> Z.
Variable temporalseqarr_normalize : list TemporalSeq -> list TemporalSeq.
Variable temporals_make_bbox : list TemporalSeq -> BOX.
Variable temporalseq_cmp : TemporalSeq -> TemporalSeq -> Z.
(** The packed bytes of a sequence set. *)
Variable pack : TemporalS -> list byte.

Lemma temporals_cmp_loop_zero (a b : TemporalS) :
  count a = Z.of_nat (length (sequences a)) ->
  count b = Z.of_nat (length (sequences b)) ->
  (forall s1 s2, In s1 (sequences a) -> In s2 (sequences b) ->
     (temporalseq_cmp s1 s2 = 0 <-> s1 = s2)) ->
  forall n i,
    0 <= i -> i + Z.of_nat n <= count a -> i + Z.of_nat n <= count b ->
    exists r,
      temporals_cmp_loop temporalseq_cmp n a b i = Some r /\
      (r = 0 <-> forall k, i <= k < i + Z.of_nat n ->
                           temporals_seq_n a k = temporals_seq_n b k).
Proof.
  intros Ha Hb Hcmp. induction n as [|n IH]; intros i Hi Hna Hnb.
  - exists 0. split; [reflexivity|]. split; [|reflexivity]. intros _ k Hk. lia.
  - cbn [temporals_cmp_loop]. unfold temporals_seq_n at 1 2.
    destruct (array_get_defined (sequences a) i ltac:(lia)) as [s1 Hs1].
    destruct (array_get_defined (sequences b) i ltac:(lia)) as [s2 Hs2].
    rewrite Hs1, Hs2.
    pose proof (Hcmp s1 s2 (array_get_In _ _ _ Hs1) (array_get_In _ _ _ Hs2)) as Hc.
    destruct (temporalseq_cmp s1 s2 =? 0) eqn:E; cbn [negb].
    + apply Z.eqb_eq in E. apply Hc in E. subst s2.
      destruct (IH (i + 1) ltac:(lia) ltac:(lia) ltac:(lia)) as [r [Hr Hiff]].
      exists r. split; [exact Hr|]. rewrite Hiff. split.
      * intros H k Hk. destruct (Z.eq_dec k i) as [->|Hne].
        -- unfold temporals_seq_n. congruence.
        -- apply H. lia.
      * intros H k Hk. apply H. lia.
    + apply Z.eqb_neq in E. eexists. split; [reflexivity|].
      split; [intros H; contradiction|].
      intros H. exfalso. apply E, Hc.
      specialize (H i ltac:(lia)). unfold temporals_seq_n in H. congruence.
Qed.

Lemma temporals_cmp_zero (a b : TemporalS) :
  count a = Z.of_nat (length (sequences a)) ->
  count b = Z.of_nat (length (sequences b)) ->
  (forall s1 s2, In s1 (sequences a) -> In s2 (sequences b) ->
     (temporalseq_cmp s1 s2 = 0 <-> s1 = s2)) ->
  (temporals_cmp temporalseq_cmp a b = Some 0 <-> sequences a = sequences b).
Proof.
  intros Ha Hb Hcmp. unfold temporals_cmp.
  destruct (temporals_cmp_loop_zero a b Ha Hb Hcmp
              (Z.to_nat (Z.min (count a) (count b))) 0 ltac:(lia) ltac:(lia)
              ltac:(lia)) as [r [-> Hr]].
  split.
  - intros H.
    destruct (r =? 0) eqn:Er; cbn [negb] in H.
    2:{ apply Z.eqb_neq in Er. congruence. }
    apply Z.eqb_eq in Er.
    destruct (count a <? count b) eqn:E1; [discriminate|].
    destruct (count b <? count a) eqn:E2; [discriminate|].
    apply Z.ltb_ge in E1, E2.
    apply nth_error_ext. intros k.
    destruct (Nat.lt_ge_cases k (length (sequences a))) as [Hk|Hk].
    + rewrite <- !array_get_nth. apply (proj1 Hr Er). lia.
    + rewrite (proj2 (nth_error_None _ _)) by lia.
      rewrite (proj2 (nth_error_None _ _)) by lia. reflexivity.
  - intros Heq.
    assert (Hc : count a = count b) by (rewrite Ha, Hb, Heq; reflexivity).
    assert (Hz : r = 0).
    { apply Hr. intros k _. unfold temporals_seq_n. rewrite Heq. reflexivity. }
    subst r. cbn [Z.eqb negb]. rewrite Hc, Z.ltb_irrefl. reflexivity.
Qed.

(** C7.  On two packed values of one value type, [temporals_eq] returns,
    and it returns [true] exactly when the two have the same sequence
    count, the same bytes in their bounding boxes, and the same bytes
    before the bounding box (length word, fields, offset table and packed
    sequences).  And when the two values are as the constructor builds
    them, are packed without variance (equal bytes only for equal values),
    and the sequence comparator answers 0 exactly on identical sequences,
    that byte equality holds exactly when [temporals_cmp] returns 0. *)
Theorem temporals_eq_bytes :
  (forall ts1 ts2 : list byte,
     wf ts1 -> wf ts2 -> ts_valuetypid ts1 = ts_valuetypid ts2 ->
     exists b,
       eq_bytes ts1 ts2 = Some b /\
       (b = true <->
        ts_count ts1 = ts_count ts2 /\
        bbox_of (ts_valuetypid ts1) ts1 = bbox_of (ts_valuetypid ts1) ts2 /\
        packed_of ts1 ts1 = packed_of ts1 ts2)) /\
  (forall a b : TemporalS,
     valid_temporals a -> valid_temporals b ->
     temporals_from_temporalseqarr with_postgis geometry_oid geography_oid
       tpoint_srid_internal temporalseqarr_normalize temporal_bbox_size
       temporals_make_bbox (sequences a) (count a) false = Ok a ->
     temporals_from_temporalseqarr with_postgis geometry_oid geography_oid
       tpoint_srid_internal temporalseqarr_normalize temporal_bbox_size
       temporals_make_bbox (sequences b) (count b) false = Ok b ->
     (forall s1 s2, In s1 (sequences a) -> In s2 (sequences b) ->
        (temporalseq_cmp s1 s2 = 0 <-> s1 = s2)) ->
     wf (pack a) -> wf (pack b) ->
     ts_valuetypid (pack a) = ts_valuetypid (pack b) ->
     (pack a = pack b -> a = b) ->
     (eq_bytes (pack a) (pack b) = Some true <->
      temporals_cmp temporalseq_cmp a b = Some 0)).
Proof.
  split; [exact temporals_eq_defined|].
  intros a b [Ha _] [Hb _] Hfa Hfb Hcmp Hwa Hwb Hty Hinj.
  rewrite (temporals_eq_images _ _ Hwa Hwb Hty).
  rewrite (temporals_cmp_zero a b Ha Hb Hcmp).
  split.
  - intros H. apply Hinj in H. congruence.
  - intros Hs. f_equal.
    assert (Hc : count a = count b) by (rewrite Ha, Hb, Hs; reflexivity).
    rewrite Hs, Hc in Hfa. congruence.
Qed.

End CompareProps.

End PackedProps.

(** The hypotheses of C7 hold for the example layout: a packed value is
    equal to itself, byte for byte, and compares as 0 with itself. *)
Lemma temporals_eq_bytes_witness :
  temporals_eq 16 double_pad_model (fun _ => 32) VARSIZE_4B_model ts_count_model
    ts_valuetypid_model ts_offset_model
    (pack_model packed_example) (pack_model packed_example) = Some true /\
  temporals_cmp temporalseq_cmp_model packed_example packed_example = Some 0.
Proof.
  pose proof (temporals_eq_bytes 16 double_pad_model (fun _ => 32) VARSIZE_4B_model
                ts_count_model ts_valuetypid_model ts_offset_model
                false 0 0 example_srid normalize_none time_box
                temporalseq_cmp_model pack_model) as [HA HB].
  assert (Hwf : image_wf 16 double_pad_model (fun _ => 32) VARSIZE_4B_model
                  ts_count_model ts_valuetypid_model ts_offset_model
                  (pack_model packed_example)).
  { repeat split; vm_compute; try reflexivity; discriminate. }
  assert (Hv : valid_temporals packed_example).
  { unfold valid_temporals. simpl. repeat split; try reflexivity; lia. }
  destruct (HA (pack_model packed_example) (pack_model packed_example)
              Hwf Hwf eq_refl) as [b [Hrun Hb]].
  assert (Hcmp : forall s1 s2 : TemporalSeq,
            In s1 (sequences packed_example) -> In s2 (sequences packed_example) ->
            (temporalseq_cmp_model s1 s2 = 0 <-> s1 = s2)).
  { intros s1 s2 [<-|[<-|[]]] [<-|[<-|[]]]; split; intros H;
      try reflexivity; try discriminate H. }
  pose proof (HB packed_example packed_example Hv Hv eq_refl eq_refl Hcmp
                Hwf Hwf eq_refl (fun _ => eq_refl)) as Hiff.
  assert (Ht : b = true) by (apply Hb; auto).
  subst b. split; [exact Hrun | apply Hiff; exact Hrun].
Defined.

(** Two values that differ in one instant: not equal, and not 0. *)
Example temporals_eq_example :
  temporals_eq 16 double_pad_model (fun _ => 32) VARSIZE_4B_model ts_count_model
    ts_valuetypid_model ts_offset_model
    (pack_model packed_example) (pack_model packed_example') = Some false /\
  temporals_cmp temporalseq_cmp_model packed_example packed_example' = Some (-1).
Proof. split; vm_compute; reflexivity. Qed.

(** * Further properties of the sequence-set functions *)

(** ** Binary search in an array of sequences *)

Lemma find_timestamp_loop_array (ts : TemporalS) (t : TimestampTz) :
  forall fuel first last middle seq,
    find_timestamp_loop fuel ts t first last middle seq =
    seqarr_find_timestamp_loop fuel (sequences ts) t first last middle seq.
Proof.
  induction fuel as [|fuel IH]; intros first last middle seq; [reflexivity|].
  cbn [find_timestamp_loop seqarr_find_timestamp_loop].
  unfold temporals_seq_n.
  destruct (first <=? last); [|reflexivity].
  destruct (array_get (sequences ts) (int_div (int_add first last) 2)); [|reflexivity].
  rewrite !IH. reflexivity.
Qed.

Lemma seqarr_find_timestamp_loop_correct (l : list TemporalSeq) (t : TimestampTz)
    (from count : Z) :
  forallb (fun s => period_valid (period s)) l = true ->
  seqarr_ordered l = true ->
  0 <= from -> count <= Z.of_nat (length l) -> count <= 2 ^ 30 ->
  forall fuel first last middle seq,
    from <= first -> last < count -> first <= last + 1 ->
    last - first + 1 <= Z.of_nat fuel ->
    (forall j s, array_get l j = Some s -> from <= j < first ->
                 period_before (period s) t) ->
    (forall j s, array_get l j = Some s -> last < j < count ->
                 period_after (period s) t) ->
    (last < first -> exists s, seq = Some s /\ period_valid (period s) = true /\
        ((first = middle /\ period_after (period s) t) \/
         (first = middle + 1 /\ period_before (period s) t))) ->
    exists found pos,
      seqarr_find_timestamp_loop fuel l t first last middle seq = Some (found, pos) /\
      seqarr_find_post l from count t found pos.
Proof.
  intros Hval Hord Hfrom Hcnt Hsz.
  assert (Hpow : 2 ^ 30 = 1073741824) by reflexivity.
  assert (Hpow' : 2 ^ 31 = 2147483648) by reflexivity.
  induction fuel as [|fuel IH]; intros first last middle seq H0 Hl Hfl Hfuel Hb Ha Hs.
  - assert (Hlt : last < first) by lia.
    destruct (Hs Hlt) as [s [-> [Hv Hcase]]].
    exists false, first. split.
    + cbn [seqarr_find_timestamp_loop].
      replace (first <=? last) with false by (symmetry; apply Z.leb_gt; lia).
      rewrite timestamp_cmp_ge.
      pose proof (period_valid_le _ Hv) as Hle.
      destruct Hcase as [[-> Haft]|[-> Hbef]].
      * replace (upper (period s) <=? t) with false; [reflexivity|].
        symmetry. apply Z.leb_gt.
        destruct Haft as [?|[E Hf]]; [lia|].
        destruct (Z.eq_dec (lower (period s)) (upper (period s))) as [E'|E']; [|lia].
        destruct (period_valid_degenerate _ Hv E'). congruence.
      * replace (upper (period s) <=? t) with true.
        -- unfold int_add. rewrite int_wrap_small by lia. reflexivity.
        -- symmetry. apply Z.leb_le. destruct Hbef as [?|[? _]]; lia.
    + unfold seqarr_find_post. split; [lia|].
      intros j s' Hj. split; intros Hlt'.
      * eapply Hb; eauto.
      * eapply Ha; eauto. lia.
  - destruct (Z_lt_le_dec last first) as [Hlt|Hle].
    { destruct (Hs Hlt) as [s [-> [Hv Hcase]]].
      exists false, first. split.
      - cbn [seqarr_find_timestamp_loop].
        replace (first <=? last) with false by (symmetry; apply Z.leb_gt; lia).
        rewrite timestamp_cmp_ge.
        pose proof (period_valid_le _ Hv) as Hle.
        destruct Hcase as [[-> Haft]|[-> Hbef]].
        + replace (upper (period s) <=? t) with false; [reflexivity|].
          symmetry. apply Z.leb_gt.
          destruct Haft as [?|[E Hf]]; [lia|].
          destruct (Z.eq_dec (lower (period s)) (upper (period s))) as [E'|E']; [|lia].
          destruct (period_valid_degenerate _ Hv E'). congruence.
        + replace (upper (period s) <=? t) with true.
          * unfold int_add. rewrite int_wrap_small by lia. reflexivity.
          * symmetry. apply Z.leb_le. destruct Hbef as [?|[? _]]; lia.
      - unfold seqarr_find_post. split; [lia|].
        intros j s' Hj. split; intros Hlt'.
        + eapply Hb; eauto.
        + eapply Ha; eauto. lia. }
    cbn [seqarr_find_timestamp_loop].
    replace (first <=? last) with true by (symmetry; apply Z.leb_le; lia).
    destruct (int_div2_mid first last ltac:(lia) Hle ltac:(lia)) as [-> Hmid].
    set (m := (first + last) / 2) in *.
    destruct (array_get_defined l m ltac:(lia)) as [s Hsm].
    rewrite Hsm.
    assert (Hv : period_valid (period s) = true).
    { eapply (forallb_array_get (fun s => period_valid (period s))); eauto. }
    destruct (contains_period_timestamp_internal (period s) t) eqn:Hc.
    { exists true, m. split; [reflexivity|].
      split; [lia|]. exists s. split; [exact Hsm | exact Hc]. }
    rewrite timestamp_cmp_le.
    destruct (t <=? lower (period s)) eqn:Hcmp.
    + apply Z.leb_le in Hcmp.
      assert (Haft : period_after (period s) t) by (apply not_contains_after; auto).
      unfold int_sub. rewrite int_wrap_small by lia.
      apply IH; try lia.
      * exact Hb.
      * intros j s' Hj Hjm.
        destruct (Z.eq_dec j m) as [->|Hne].
        -- congruence.
        -- destruct (Z_lt_le_dec last j) as [Hlj|Hlj]; [eapply Ha; eauto; lia|].
           eapply period_left_after; [exact Hv| |exact Haft].
           eapply (seqarr_ordered_pairs _ Hval Hord m j); eauto. lia.
      * intros Hlt. exists s. split; [reflexivity|]. split; [exact Hv|].
        left. split; [lia | exact Haft].
    + apply Z.leb_gt in Hcmp.
      assert (Hbef : period_before (period s) t) by (apply not_contains_before; auto).
      unfold int_add. rewrite int_wrap_small by lia.
      apply IH; try lia.
      * intros j s' Hj Hjm.
        destruct (Z.eq_dec j m) as [->|Hne].
        -- congruence.
        -- destruct (Z_lt_le_dec j first) as [Hlj|Hlj]; [eapply Hb; eauto; lia|].
           eapply period_left_before; [exact Hv| |exact Hbef].
           eapply (seqarr_ordered_pairs _ Hval Hord j m); eauto. lia.
      * exact Ha.
      * intros Hlt. exists s. split; [reflexivity|]. split; [exact Hv|].
        right. split; [lia | exact Hbef].
Qed.

(** X1.  On an array whose periods are valid and in order, the search in
    [sequences[from .. count-1]] (a non-empty range of at most 2^30 cells)
    returns: with [true], an index of the range whose sequence contains
    [t]; with [false], the index of the range before which every sequence
    of the range ends before [t] and from which on every one starts after
    [t].  From index 0 it is the search of the sequence set.  On an empty
    range ([count <= from]) it reads through the null [seq]. *)
Theorem temporalseqarr_find_timestamp_correct :
  (forall sequences from count t,
     forallb (fun s => period_valid (period s)) sequences = true ->
     seqarr_ordered sequences = true ->
     0 <= from < count -> count <= Z.of_nat (length sequences) ->
     count <= 2 ^ 30 ->
     exists found pos,
       temporalseqarr_find_timestamp sequences from count t = Some (found, pos) /\
       seqarr_find_post sequences from count t found pos) /\
  (forall ts t,
     temporals_find_timestamp ts t =
     temporalseqarr_find_timestamp (sequences ts) 0 (count ts) t) /\
  (forall sequences from count t,
     - 2 ^ 31 < count < 2 ^ 31 -> count <= from ->
     temporalseqarr_find_timestamp sequences from count t = None).
Proof.
  assert (Hpow : 2 ^ 30 = 1073741824) by reflexivity.
  assert (Hpow' : 2 ^ 31 = 2147483648) by reflexivity.
  split; [|split].
  - intros l from count t Hval Hord Hfrom Hcnt Hsz.
    unfold temporalseqarr_find_timestamp, int_sub.
    rewrite int_wrap_small by lia.
    apply (seqarr_find_timestamp_loop_correct l t from count); try lia; auto.
    all: intros j s _ Hj; lia.
  - intros ts t. unfold temporals_find_timestamp, temporalseqarr_find_timestamp.
    rewrite Z.sub_0_r. apply find_timestamp_loop_array.
  - intros l from count t Hc Hle.
    unfold temporalseqarr_find_timestamp, int_sub.
    rewrite int_wrap_small by lia.
    cbn [seqarr_find_timestamp_loop].
    replace (from <=? count - 1) with false by (symmetry; apply Z.leb_gt; lia).
    reflexivity.
Qed.

Lemma temporalseqarr_find_timestamp_correct_witness :
  temporalseqarr_find_timestamp (sequences example_ts) 1 3 35 = Some (false, 2) /\
  exists found pos,
    temporalseqarr_find_timestamp (sequences example_ts) 1 3 35 = Some (found, pos) /\
    seqarr_find_post (sequences example_ts) 1 3 35 found pos.
Proof.
  split; [reflexivity|].
  apply (proj1 temporalseqarr_find_timestamp_correct (sequences example_ts) 1 3 35).
  - reflexivity.
  - reflexivity.
  - lia.
  - simpl. lia.
  - lia.
Defined.

(** ** The bounding period *)

Lemma contains_period_overlaps (p q p' q' : Period) :
  contains_period_period_internal p p' = true ->
  contains_period_period_internal q q' = true ->
  overlaps_period_period_internal p' q' = true ->
  overlaps_period_period_internal p q = true.
Proof.
  rewrite !contains_period_iff, !overlaps_iff.
  intros [Hpl Hpu] [Hql Hqu] [H1 H2]. split.
  - destruct (Z.eq_dec (lower p) (upper q)) as [E|E]; [right|left].
    + split; [exact E|].
      destruct Hpl as [?|[? Hl]], Hqu as [?|[? Hu]], H1 as [?|[? [? ?]]]; try lia.
      split; [destruct Hl | destruct Hu]; congruence.
    + destruct Hpl as [?|[? _]], Hqu as [?|[? _]], H1 as [?|[? _]]; lia.
  - destruct (Z.eq_dec (lower q) (upper p)) as [E|E]; [right|left].
    + split; [exact E|].
      destruct Hql as [?|[? Hl]], Hpu as [?|[? Hu]], H2 as [?|[? [? ?]]]; try lia.
      split; [destruct Hl | destruct Hu]; congruence.
    + destruct Hql as [?|[? _]], Hpu as [?|[? _]], H2 as [?|[? _]]; lia.
Qed.

Lemma timespan_contains (ts : TemporalS) :
  valid_temporals ts ->
  exists p first last,
    temporals_timespan ts = Some p /\
    temporals_seq_n ts 0 = Some first /\
    temporals_seq_n ts (count ts - 1) = Some last /\
    p = mkPeriod (lower (period first)) (upper (period last))
                 (lower_inc (period first)) (upper_inc (period last)) /\
    period_valid p = true /\
    forall s, In s (sequences ts) ->
              contains_period_period_internal p (period s) = true.
Proof.
  intros [Hcnt [Hpos [Hval Hord]]].
  destruct (array_get_defined (sequences ts) 0 ltac:(lia)) as [first Hf].
  destruct (array_get_defined (sequences ts) (count ts - 1) ltac:(lia)) as [last Hl].
  exists (mkPeriod (lower (period first)) (upper (period last))
                   (lower_inc (period first)) (upper_inc (period last))), first, last.
  assert (Hvf : period_valid (period first) = true)
    by (eapply (forallb_array_get (fun s => period_valid (period s))); eauto).
  assert (Hvl : period_valid (period last) = true)
    by (eapply (forallb_array_get (fun s => period_valid (period s))); eauto).
  assert (Hleft : forall i j a b, array_get (sequences ts) i = Some a ->
            array_get (sequences ts) j = Some b -> i < j ->
            period_left (period a) (period b))
    by (apply seqarr_ordered_pairs; auto).
  split; [|split; [exact Hf|split; [exact Hl|split; [reflexivity|split]]]].
  - unfold temporals_timespan, temporals_seq_n. rewrite Hf, Hl. reflexivity.
  - apply period_valid_iff. cbn [lower upper lower_inc upper_inc].
    apply period_valid_iff in Hvf. apply period_valid_iff in Hvl.
    destruct (Z.eq_dec (count ts) 1) as [E|E].
    + replace (count ts - 1) with 0 in Hl by lia.
      rewrite Hf in Hl. injection Hl as <-. exact Hvf.
    + specialize (Hleft 0 (count ts - 1) first last Hf Hl ltac:(lia)).
      unfold period_left in Hleft.
      destruct Hvf as [?|[? [? ?]]], Hvl as [?|[? [? ?]]],
        Hleft as [?|[? [?|?]]]; try (left; lia); congruence.
  - intros s Hs. apply In_nth_error in Hs. destruct Hs as [k Hk].
    rewrite <- array_get_nth in Hk.
    pose proof (array_get_bounds _ _ _ Hk) as Bk.
    assert (Hvs : period_valid (period s) = true)
      by (eapply (forallb_array_get (fun s => period_valid (period s))); eauto).
    apply contains_period_iff. cbn [lower upper lower_inc upper_inc].
    apply period_valid_iff in Hvf. apply period_valid_iff in Hvl.
    apply period_valid_iff in Hvs.
    split.
    + destruct (Z.eq_dec (Z.of_nat k) 0) as [E|E].
      * rewrite E in Hk. rewrite Hf in Hk. injection Hk as <-.
        right. split; [reflexivity|]. destruct (lower_inc (period first)); auto.
      * specialize (Hleft 0 (Z.of_nat k) first s Hf Hk ltac:(lia)).
        unfold period_left in Hleft.
        destruct Hvf as [?|[? [? ?]]], Hvs as [?|[? [? ?]]],
          Hleft as [?|[? [?|?]]]; try (left; lia);
          try (right; split; [lia|left; assumption]); congruence.
    + destruct (Z.eq_dec (Z.of_nat k) (count ts - 1)) as [E|E].
      * rewrite E in Hk. rewrite Hl in Hk. injection Hk as <-.
        right. split; [reflexivity|]. destruct (upper_inc (period last)); auto.
      * specialize (Hleft (Z.of_nat k) (count ts - 1) s last Hk Hl ltac:(lia)).
        unfold period_left in Hleft.
        destruct Hvl as [?|[? [? ?]]], Hvs as [?|[? [? ?]]],
          Hleft as [?|[? [?|?]]]; try (left; lia);
          try (right; split; [lia|left; assumption]); congruence.
Qed.

(** X2.  The bounding period of a valid sequence set runs from
    [temporals_start_timestamp] to [temporals_end_timestamp], is a valid
    period, and contains the period of every sequence of the set, so a
    timestamp outside it is in no sequence. *)
Theorem temporals_timespan_bounds (ts : TemporalS) :
  valid_temporals ts ->
  exists p,
    temporals_timespan ts = Some p /\
    temporals_start_timestamp ts = Some (lower p) /\
    temporals_end_timestamp ts = Some (upper p) /\
    period_valid p = true /\
    (forall s, In s (sequences ts) ->
               contains_period_period_internal p (period s) = true) /\
    (forall t, seqs_extent (sequences ts) t -> in_period p t).
Proof.
  intros Hv.
  destruct (timespan_contains ts Hv) as [p [first [last [Hp [Hf [Hl [E [Hpv Hc]]]]]]]].
  exists p. split; [exact Hp|].
  unfold temporals_start_timestamp, temporals_end_timestamp.
  rewrite Hf, Hl, E. cbn [lower upper].
  split; [reflexivity|]. split; [reflexivity|].
  rewrite <- E. split; [exact Hpv|]. split; [exact Hc|].
  intros t [s [Hs Ht]]. eapply contains_period_in; eauto.
Qed.

Lemma temporals_timespan_bounds_witness :
  exists p,
    temporals_timespan example_ts = Some p /\
    temporals_start_timestamp example_ts = Some (lower p) /\
    temporals_end_timestamp example_ts = Some (upper p) /\
    period_valid p = true /\
    (forall s, In s (sequences example_ts) ->
               contains_period_period_internal p (period s) = true) /\
    (forall t, seqs_extent (sequences example_ts) t -> in_period p t).
Proof.
  apply (temporals_timespan_bounds example_ts).
  unfold valid_temporals. simpl. repeat split; try reflexivity; lia.
Defined.

(** ** Intersection with a period *)

Lemma nth_error_In_skipn {A : Type} (l : list A) (n j : nat) (x : A) :
  nth_error l j = Some x -> (n <= j)%nat -> In x (skipn n l).
Proof.
  intros H Hle. apply nth_error_In with (n := (j - n)%nat).
  rewrite nth_error_skipn. replace (n + (j - n))%nat with j by lia. exact H.
Qed.

Lemma before_not_overlaps (q p : Period) :
  period_before q (lower p) -> overlaps_period_period_internal q p = false.
Proof.
  intros Hb. destruct (overlaps_period_period_internal q p) eqn:E; [|reflexivity].
  apply overlaps_iff in E. destruct E as [_ E]. unfold period_before in Hb.
  destruct Hb as [?|[? ?]], E as [?|[? [? ?]]]; try lia; congruence.
Qed.

Lemma contains_lower_overlaps (q p : Period) :
  period_valid p = true -> lower_inc p = true ->
  contains_period_timestamp_internal q (lower p) = true ->
  overlaps_period_period_internal q p = true.
Proof.
  intros Hv Hl Hc. apply period_valid_iff in Hv.
  apply in_period_iff in Hc. apply overlaps_iff.
  destruct Hc as [H1 H2]. split.
  - destruct H1 as [?|[? ?]], Hv as [?|[? [? ?]]]; try (left; lia).
    right. repeat split; auto; lia.
  - destruct H2 as [?|[? ?]]; [left; lia|]. right. repeat split; auto.
Qed.

Lemma contains_upper_overlaps (q p : Period) :
  period_valid p = true -> upper_inc p = true ->
  contains_period_timestamp_internal q (upper p) = true ->
  overlaps_period_period_internal q p = true.
Proof.
  intros Hv Hu Hc. apply period_valid_iff in Hv.
  apply in_period_iff in Hc. apply overlaps_iff.
  destruct Hc as [H1 H2]. split.
  - destruct H1 as [?|[? ?]]; [left; lia|]. right. repeat split; auto.
  - destruct H2 as [?|[? ?]], Hv as [?|[? [? ?]]]; try (left; lia).
    right. repeat split; auto; lia.
Qed.

Lemma intersects_period_loop_sound (p : Period) (l : list TemporalSeq) :
  intersects_period_loop p l = true ->
  exists s, In s l /\ overlaps_period_period_internal (period s) p = true.
Proof.
  induction l as [|a l IH]; cbn [intersects_period_loop]; [discriminate|].
  destruct (overlaps_period_period_internal (period a) p) eqn:E.
  - intros _. exists a. split; [left; reflexivity | exact E].
  - destruct (timestamp_cmp_internal (upper p) (upper (period a)) <? 0); [discriminate|].
    intros H. destruct (IH H) as [s [Hs Ho]]. exists s. split; [right|]; assumption.
Qed.

Lemma intersects_period_loop_complete (p : Period) (l : list TemporalSeq) :
  forallb (fun s => period_valid (period s)) l = true ->
  seqarr_ordered l = true ->
  (exists s, In s l /\ overlaps_period_period_internal (period s) p = true) ->
  intersects_period_loop p l = true.
Proof.
  induction l as [|a l IH]; intros Hv Ho [s [Hs Hover]]; [destruct Hs|].
  cbn [intersects_period_loop].
  destruct (overlaps_period_period_internal (period a) p) eqn:E; [reflexivity|].
  destruct Hs as [->|Hs]; [congruence|].
  cbn [forallb] in Hv. apply andb_true_iff in Hv. destruct Hv as [Hva Hv].
  pose proof (seqarr_ordered_head a l Hv Ho) as Hleft.
  rewrite Forall_forall in Hleft. specialize (Hleft s Hs).
  rewrite timestamp_cmp_lt.
  destruct (Z.ltb_spec (upper p) (upper (period a))) as [Hlt|Hge].
  - exfalso. apply overlaps_iff in Hover. destruct Hover as [H1 _].
    unfold period_left in Hleft.
    destruct Hleft as [?|[? _]], H1 as [?|[? _]]; lia.
  - apply IH; [exact Hv | eapply seqarr_ordered_tail; eauto | eauto].
Qed.

(** The answer of [temporals_intersects_period] on a valid sequence set
    and a valid period. *)
Lemma intersects_period_answer (ts : TemporalS) (p : Period) :
  valid_temporals ts -> count ts <= 2 ^ 30 -> period_valid p = true ->
  exists b,
    temporals_intersects_period ts p = Some b /\
    ((exists s, In s (sequences ts) /\
                overlaps_period_period_internal (period s) p = true) ->
     b = true) /\
    (lower_inc p = true -> upper_inc p = true -> b = true ->
     exists s, In s (sequences ts) /\
               overlaps_period_period_internal (period s) p = true).
Proof.
  intros Hvalid Hsz Hp.
  pose proof Hvalid as [Hcnt [Hpos [Hval Hord]]].
  destruct (temporals_find_timestamp_defined ts (lower p) Hvalid Hsz)
    as [f1 [n1 [E1 [P1 B1]]]].
  destruct (temporals_find_timestamp_defined ts (upper p) Hvalid Hsz)
    as [f2 [n2 [E2 [P2 B2]]]].
  unfold temporals_intersects_period. rewrite E1.
  destruct f1.
  { exists true. split; [reflexivity|]. split; [reflexivity|].
    intros Hl _ _. destruct P1 as [s [Hs Hc]].
    exists s. split; [eapply array_get_In; eauto|].
    apply contains_lower_overlaps; auto. }
  rewrite E2. destruct f2.
  { exists true. split; [reflexivity|]. split; [reflexivity|].
    intros _ Hu _. destruct P2 as [s [Hs Hc]].
    exists s. split; [eapply array_get_In; eauto|].
    apply contains_upper_overlaps; auto. }
  replace (n1 <? 0) with false by (symmetry; apply Z.ltb_ge; lia).
  unfold array_prefix.
  replace (Z.of_nat (length (sequences ts)) <? count ts) with false
    by (symmetry; apply Z.ltb_ge; lia).
  rewrite Hcnt, Nat2Z.id, firstn_all.
  eexists. split; [reflexivity|]. split.
  + intros [s [Hs Hover]].
    apply intersects_period_loop_complete.
    * apply forallb_skipn. exact Hval.
    * apply seqarr_ordered_skipn. exact Hord.
    * exists s. split; [|exact Hover].
      apply In_nth_error in Hs. destruct Hs as [k Hk].
      apply nth_error_In_skipn with (j := k); [exact Hk|].
      destruct (Z_lt_le_dec (Z.of_nat k) n1) as [Hlt|Hge]; [exfalso|lia].
      destruct P1 as [_ P1]. rewrite <- array_get_nth in Hk.
      destruct (P1 _ _ Hk) as [Hbef _].
      rewrite (before_not_overlaps _ _ (Hbef Hlt)) in Hover. discriminate.
  + intros _ _ Hb. apply intersects_period_loop_sound in Hb.
    destruct Hb as [s [Hs Ho]]. exists s. split; [|exact Ho].
    eapply In_skipn; eauto.
Qed.

(** X3.  On a valid sequence set and a valid period,
    [temporals_intersects_period] returns, and returns [true] whenever the
    period of some sequence overlaps the period: it has no false negative.
    When both bounds of the period are inclusive the answer is exact.  With
    an exclusive bound it can be [true] although nothing overlaps: the
    search for the bound itself succeeds in a sequence that only touches
    the period. *)
Theorem temporals_intersects_period_complete :
  (forall ts p,
     valid_temporals ts -> count ts <= 2 ^ 30 -> period_valid p = true ->
     exists b,
       temporals_intersects_period ts p = Some b /\
       ((exists s, In s (sequences ts) /\
                   overlaps_period_period_internal (period s) p = true) ->
        b = true) /\
       (lower_inc p = true -> upper_inc p = true -> b = true ->
        exists s, In s (sequences ts) /\
                  overlaps_period_period_internal (period s) p = true)) /\
  (valid_temporals touching_example /\
   period_valid (mkPeriod 10 20 false true) = true /\
   temporals_intersects_period touching_example (mkPeriod 10 20 false true)
     = Some true /\
   forall s, In s (sequences touching_example) ->
     overlaps_period_period_internal (period s) (mkPeriod 10 20 false true) = false).
Proof.
  split.
  - exact intersects_period_answer.
  - split; [|split; [reflexivity|split; [reflexivity|]]].
    + unfold valid_temporals. simpl. repeat split; try reflexivity; lia.
    + intros s [<-|[<-|[]]]; reflexivity.
Qed.

Lemma temporals_intersects_period_complete_witness :
  exists b,
    temporals_intersects_period example_ts (mkPeriod 12 25 true true) = Some b /\
    ((exists s, In s (sequences example_ts) /\
                overlaps_period_period_internal (period s) (mkPeriod 12 25 true true)
                = true) -> b = true) /\
    (true = true -> true = true -> b = true ->
     exists s, In s (sequences example_ts) /\
               overlaps_period_period_internal (period s) (mkPeriod 12 25 true true)
               = true).
Proof.
  apply (proj1 temporals_intersects_period_complete example_ts
               (mkPeriod 12 25 true true)).
  - unfold valid_temporals. simpl. repeat split; try reflexivity; lia.
  - simpl. lia.
  - reflexivity.
Defined.

(** ** Intersection of two sequence sets in time *)

Lemma lasting_same_end_overlap (p q : Period) :
  lower p < upper p -> lower q < upper q -> upper p = upper q ->
  overlaps_period_period_internal p q = true.
Proof.
  intros Hp Hq E. apply overlaps_iff. split; left; lia.
Qed.

Lemma ends_first_no_overlap (p q q' : Period) :
  upper p < upper q -> period_left q q' ->
  overlaps_period_period_internal p q' = false.
Proof.
  intros Hlt Hl.
  destruct (overlaps_period_period_internal p q') eqn:E; [|reflexivity].
  apply overlaps_iff in E. destruct E as [_ E]. unfold period_left in Hl.
  destruct Hl as [?|[? _]], E as [?|[? _]]; lia.
Qed.

Lemma Forall_lasts_get (l : list TemporalSeq) (i : Z) (s : TemporalSeq) :
  Forall seq_lasts l -> array_get l i = Some s ->
  lower (period s) < upper (period s).
Proof.
  intros HF Hs. rewrite Forall_forall in HF. apply HF.
  eapply array_get_In; eauto.
Qed.

Lemma intersects_walk_spec (ts1 ts2 : TemporalS) :
  valid_temporals ts1 -> valid_temporals ts2 ->
  forall fuel i j,
    0 <= i <= count ts1 -> 0 <= j <= count ts2 ->
    (count ts1 - i) + (count ts2 - j) <= Z.of_nat fuel ->
    exists b,
      intersects_walk fuel ts1 ts2 i j = Some b /\
      (b = true ->
       exists s1 s2, In s1 (sequences ts1) /\ In s2 (sequences ts2) /\
         overlaps_period_period_internal (period s1) (period s2) = true) /\
      (Forall seq_lasts (sequences ts1) -> Forall seq_lasts (sequences ts2) ->
       (exists a c s1 s2, i <= a /\ j <= c /\
          temporals_seq_n ts1 a = Some s1 /\ temporals_seq_n ts2 c = Some s2 /\
          overlaps_period_period_internal (period s1) (period s2) = true) ->
       b = true).
Proof.
  intros [Hc1 [Hp1 [Hv1 Ho1]]] [Hc2 [Hp2 [Hv2 Ho2]]].
  assert (Hstop : forall fuel i j,
            0 <= i <= count ts1 -> 0 <= j <= count ts2 ->
            (i <? count ts1) && (j <? count ts2) = false ->
            exists b,
              intersects_walk fuel ts1 ts2 i j = Some b /\
              (b = true ->
               exists s1 s2, In s1 (sequences ts1) /\ In s2 (sequences ts2) /\
                 overlaps_period_period_internal (period s1) (period s2) = true) /\
              (Forall seq_lasts (sequences ts1) -> Forall seq_lasts (sequences ts2) ->
               (exists a c s1 s2, i <= a /\ j <= c /\
                  temporals_seq_n ts1 a = Some s1 /\ temporals_seq_n ts2 c = Some s2 /\
                  overlaps_period_period_internal (period s1) (period s2) = true) ->
               b = true)).
  { intros fuel i j Hi Hj Hcond. exists false. split.
    - destruct fuel; cbn [intersects_walk]; rewrite Hcond; reflexivity.
    - split; [discriminate|].
      intros _ _ [a [c [s1 [s2 [Ha [Hc [Hs1 [Hs2 _]]]]]]]].
      apply array_get_bounds in Hs1. apply array_get_bounds in Hs2.
      apply andb_false_iff in Hcond. destruct Hcond as [H|H]; apply Z.ltb_ge in H; lia. }
  induction fuel as [|fuel IH]; intros i j Hi Hj Hfuel.
  - apply Hstop; auto. apply andb_false_iff. left. apply Z.ltb_ge. lia.
  - destruct ((i <? count ts1) && (j <? count ts2)) eqn:Hcond;
      [|apply Hstop; auto].
    apply andb_true_iff in Hcond. destruct Hcond as [Hi' Hj'].
    apply Z.ltb_lt in Hi'. apply Z.ltb_lt in Hj'.
    destruct (array_get_defined (sequences ts1) i ltac:(lia)) as [seq1 Hs1].
    destruct (array_get_defined (sequences ts2) j ltac:(lia)) as [seq2 Hs2].
    cbn [intersects_walk].
    replace ((i <? count ts1) && (j <? count ts2)) with true
      by (symmetry; apply andb_true_iff; split; apply Z.ltb_lt; lia).
    unfold temporals_seq_n at 1 2. rewrite Hs1, Hs2.
    destruct (overlaps_period_period_internal (period seq1) (period seq2)) eqn:E.
    { exists true. split; [reflexivity|]. split; [|reflexivity].
      intros _. exists seq1, seq2.
      repeat split; try (eapply array_get_In; eauto); exact E. }
    rewrite timestamp_cmp_eq, timestamp_cmp_lt.
    destruct (Z.eqb_spec (upper (period seq1)) (upper (period seq2))) as [Eu|Eu].
    { destruct (IH (i + 1) (j + 1)) as [b [Hb [Hsound _]]]; try lia.
      exists b. split; [exact Hb|]. split; [exact Hsound|].
      intros HL1 HL2 _. exfalso.
      rewrite lasting_same_end_overlap in E; [discriminate| | |exact Eu].
      - exact (Forall_lasts_get _ _ _ HL1 Hs1).
      - exact (Forall_lasts_get _ _ _ HL2 Hs2). }
    destruct (Z.ltb_spec (upper (period seq1)) (upper (period seq2))) as [Hlt|Hge].
    + destruct (IH (i + 1) j) as [b [Hb [Hsound Hcomp]]]; try lia.
      exists b. split; [exact Hb|]. split; [exact Hsound|].
      intros HL1 HL2 [a [c [s1 [s2 [Ha [Hc [Hsa [Hsc Hover]]]]]]]].
      apply Hcomp; auto. exists a, c, s1, s2. repeat split; auto.
      destruct (Z.eq_dec a i) as [->|Hne]; [exfalso|lia].
      unfold temporals_seq_n in Hsa. rewrite Hs1 in Hsa. injection Hsa as <-.
      destruct (Z.eq_dec c j) as [->|Hne].
      * unfold temporals_seq_n in Hsc. rewrite Hs2 in Hsc. injection Hsc as <-.
        congruence.
      * rewrite (ends_first_no_overlap _ (period seq2)) in Hover; [discriminate|exact Hlt|].
        eapply (seqarr_ordered_pairs _ Hv2 Ho2 j c); eauto. lia.
    + destruct (IH i (j + 1)) as [b [Hb [Hsound Hcomp]]]; try lia.
      exists b. split; [exact Hb|]. split; [exact Hsound|].
      intros HL1 HL2 [a [c [s1 [s2 [Ha [Hc [Hsa [Hsc Hover]]]]]]]].
      apply Hcomp; auto. exists a, c, s1, s2. repeat split; auto.
      destruct (Z.eq_dec c j) as [->|Hne]; [exfalso|lia].
      unfold temporals_seq_n in Hsc. rewrite Hs2 in Hsc. injection Hsc as <-.
      destruct (Z.eq_dec a i) as [->|Hne].
      * unfold temporals_seq_n in Hsa. rewrite Hs1 in Hsa. injection Hsa as <-.
        congruence.
      * rewrite overlaps_sym in Hover.
        rewrite (ends_first_no_overlap _ (period seq1)) in Hover;
          [discriminate|lia|].
        eapply (seqarr_ordered_pairs _ Hv1 Ho1 i a); eauto. lia.
Qed.

(** X4.  On valid sequence sets [temporals_intersects_temporals] returns,
    and [true] only if the periods of some pair of sequences overlap.  When
    no sequence of either set is instantaneous it is exact.  Otherwise it
    can miss an intersection: sequences that end together are both passed
    over, although the next sequence of one set may start at that very
    instant and meet an instantaneous sequence of the other. *)
Theorem temporals_intersects_temporals_sound :
  (forall ts1 ts2,
     valid_temporals ts1 -> valid_temporals ts2 ->
     exists b,
       temporals_intersects_temporals ts1 ts2 = Some b /\
       (b = true ->
        exists s1 s2, In s1 (sequences ts1) /\ In s2 (sequences ts2) /\
          overlaps_period_period_internal (period s1) (period s2) = true) /\
       (Forall seq_lasts (sequences ts1) -> Forall seq_lasts (sequences ts2) ->
        (exists s1 s2, In s1 (sequences ts1) /\ In s2 (sequences ts2) /\
           overlaps_period_period_internal (period s1) (period s2) = true) ->
        b = true)) /\
  (valid_temporals walk_left_example /\ valid_temporals walk_right_example /\
   temporals_intersects_temporals walk_left_example walk_right_example = Some false /\
   exists s1 s2, In s1 (sequences walk_left_example) /\
     In s2 (sequences walk_right_example) /\
     overlaps_period_period_internal (period s1) (period s2) = true).
Proof.
  split.
  - intros ts1 ts2 Hv1 Hv2.
    destruct (timespan_contains ts1 Hv1) as [p1 [f1 [l1 [Hp1 [_ [_ [_ [_ Hc1]]]]]]]].
    destruct (timespan_contains ts2 Hv2) as [p2 [f2 [l2 [Hp2 [_ [_ [_ [_ Hc2]]]]]]]].
    pose proof Hv1 as [Hn1 [Hpos1 _]]. pose proof Hv2 as [Hn2 [Hpos2 _]].
    unfold temporals_intersects_temporals. rewrite Hp1, Hp2.
    destruct (overlaps_period_period_internal p1 p2) eqn:Ho; cbn [negb].
    + destruct (intersects_walk_spec ts1 ts2 Hv1 Hv2
                  (Z.to_nat (count ts1 + count ts2)) 0 0) as [b [Hb [Hs Hc]]];
        try lia.
      exists b. split; [exact Hb|]. split; [exact Hs|].
      intros HL1 HL2 [s1 [s2 [Hi1 [Hi2 Hover]]]]. apply Hc; auto.
      apply In_nth_error in Hi1. destruct Hi1 as [a Ha].
      apply In_nth_error in Hi2. destruct Hi2 as [c Hc'].
      exists (Z.of_nat a), (Z.of_nat c), s1, s2.
      unfold temporals_seq_n. rewrite !array_get_nth.
      repeat split; auto; lia.
    + exists false. split; [reflexivity|]. split; [discriminate|].
      intros _ _ [s1 [s2 [Hi1 [Hi2 Hover]]]].
      rewrite (contains_period_overlaps p1 p2 (period s1) (period s2)) in Ho;
        auto.
  - split; [|split; [|split; [reflexivity|]]].
    + unfold valid_temporals. simpl. repeat split; try reflexivity; lia.
    + unfold valid_temporals. simpl. repeat split; try reflexivity; lia.
    + exists (closed_seq 10 20), (instant_seq 10).
      split; [right; left; reflexivity|]. split; [left; reflexivity|reflexivity].
Qed.

Lemma temporals_intersects_temporals_sound_witness :
  temporals_intersects_temporals sync_left sync_right = Some true /\
  exists b,
    temporals_intersects_temporals sync_left sync_right = Some b /\
    (b = true ->
     exists s1 s2, In s1 (sequences sync_left) /\ In s2 (sequences sync_right) /\
       overlaps_period_period_internal (period s1) (period s2) = true) /\
    (Forall seq_lasts (sequences sync_left) -> Forall seq_lasts (sequences sync_right) ->
     (exists s1 s2, In s1 (sequences sync_left) /\ In s2 (sequences sync_right) /\
        overlaps_period_period_internal (period s1) (period s2) = true) ->
     b = true).
Proof.
  split; [reflexivity|].
  apply (proj1 temporals_intersects_temporals_sound sync_left sync_right).
  - unfold valid_temporals. simpl. repeat split; try reflexivity; lia.
  - unfold valid_temporals. simpl. repeat split; try reflexivity; lia.
Defined.

Lemma intersection_valid (p q r : Period) :
  period_valid p = true -> period_valid q = true ->
  intersection_period_period_internal p q = Some r -> period_valid r = true.
Proof.
  unfold intersection_period_period_internal, period_set.
  intros Hp Hq.
  destruct (overlaps_period_period_internal p q) eqn:Ho; [|discriminate].
  cbn [negb]. intros [= <-].
  apply period_valid_iff in Hp. apply period_valid_iff in Hq.
  apply overlaps_iff in Ho. destruct Ho as [H1 H2].
  apply period_valid_iff. cbn [lower upper lower_inc upper_inc].
  destruct (Z.eqb_spec (lower p) (lower q)) as [El|El];
  destruct (Z.eqb_spec (upper p) (upper q)) as [Eu|Eu];
  destruct (Z.ltb_spec (lower q) (lower p)) as [Ll|Ll];
  destruct (Z.ltb_spec (upper p) (upper q)) as [Lu|Lu]; try lia;
  destruct Hp as [?|[? [? ?]]], Hq as [?|[? [? ?]]],
    H1 as [?|[? [? ?]]], H2 as [?|[? [? ?]]]; try lia;
  try (left; lia);
  right; (split; [lia|]);
  repeat match goal with H : _ = true |- _ => rewrite H end;
  split; reflexivity.
Qed.

Lemma intersection_overlaps (p q : Period) :
  (exists r, intersection_period_period_internal p q = Some r) <->
  overlaps_period_period_internal p q = true.
Proof.
  unfold intersection_period_period_internal.
  destruct (overlaps_period_period_internal p q); cbn [negb]; split.
  - reflexivity.
  - intros _. eexists. reflexivity.
  - intros [r H]. discriminate.
  - discriminate.
Qed.

(** The periods collected by the walk, each the intersection of the
    periods of one pair of sequences. *)
Lemma intersection_walk_spec (ts1 ts2 : TemporalS) :
  valid_temporals ts1 -> valid_temporals ts2 ->
  forall fuel i j acc,
    0 <= i <= count ts1 -> 0 <= j <= count ts2 ->
    (count ts1 - i) + (count ts2 - j) <= Z.of_nat fuel ->
    periodarr_ordered acc = true ->
    Forall (fun q =>
      (exists a s, a < i /\ temporals_seq_n ts1 a = Some s /\
                   contains_period_period_internal (period s) q = true) \/
      (exists c s, c < j /\ temporals_seq_n ts2 c = Some s /\
                   contains_period_period_internal (period s) q = true)) acc ->
    exists more b,
      intersection_walk fuel ts1 ts2 i j acc = Some (acc ++ more) /\
      periodarr_ordered (acc ++ more) = true /\
      Forall (fun q => period_valid q = true /\
                exists s1 s2, In s1 (sequences ts1) /\ In s2 (sequences ts2) /\
                  intersection_period_period_internal (period s1) (period s2)
                  = Some q) more /\
      intersects_walk fuel ts1 ts2 i j = Some b /\
      (b = true <-> more <> []).
Proof.
  intros [Hc1 [Hp1 [Hv1 Ho1]]] [Hc2 [Hp2 [Hv2 Ho2]]].
  induction fuel as [|fuel IH]; intros i j acc Hi Hj Hfuel Hacc Hinv.
  - exists [], false. cbn [intersection_walk intersects_walk].
    replace ((i <? count ts1) && (j <? count ts2)) with false
      by (symmetry; apply andb_false_iff; left; apply Z.ltb_ge; lia).
    rewrite app_nil_r. repeat split; auto; try discriminate.
    all: try (intros H; exfalso; apply H; reflexivity).
  - cbn [intersection_walk intersects_walk].
    destruct ((i <? count ts1) && (j <? count ts2)) eqn:Hcond.
    2:{ exists [], false. rewrite app_nil_r. repeat split; auto; try discriminate.
        all: try (intros H; exfalso; apply H; reflexivity). }
    apply andb_true_iff in Hcond. destruct Hcond as [Hi' Hj'].
    apply Z.ltb_lt in Hi'. apply Z.ltb_lt in Hj'.
    destruct (array_get_defined (sequences ts1) i ltac:(lia)) as [seq1 Hs1].
    destruct (array_get_defined (sequences ts2) j ltac:(lia)) as [seq2 Hs2].
    unfold temporals_seq_n at 1 2 3 4. rewrite Hs1, Hs2.
    assert (Hvs1 : period_valid (period seq1) = true)
      by exact (forallb_array_get (fun s => period_valid (period s)) _ _ _ Hv1 Hs1).
    assert (Hvs2 : period_valid (period seq2) = true)
      by exact (forallb_array_get (fun s => period_valid (period s)) _ _ _ Hv2 Hs2).
    set (acc' := match intersection_period_period_internal (period seq1) (period seq2) with
                 | Some inter => acc ++ [inter]
                 | None => acc
                 end).
    (* the new array is in order, and whichever index advances its
       elements stay behind *)
    assert (Hacc' : periodarr_ordered acc' = true).
    { unfold acc'.
      destruct (intersection_period_period_internal (period seq1) (period seq2))
        as [inter|] eqn:Ei; [|exact Hacc].
      destruct (intersection_spec _ _ _ Ei) as [Hin1 [Hin2 _]].
      apply periodarr_ordered_app; [exact Hacc|reflexivity|].
      intros x y Hx [<-|[]].
      rewrite Forall_forall in Hinv.
      destruct (Hinv x Hx) as [[a [s [Ha [Hs Hc]]]]|[c [s [Hc' [Hs Hc]]]]].
      - eapply period_left_within; [|exact Hc|exact Hin1].
        eapply (seqarr_ordered_pairs _ Hv1 Ho1 a i); eauto.
      - eapply period_left_within; [|exact Hc|exact Hin2].
        eapply (seqarr_ordered_pairs _ Hv2 Ho2 c j); eauto. }
    assert (Hinv' : forall i' j', i <= i' -> j <= j' -> (i < i' \/ j < j') ->
      Forall (fun q =>
        (exists a s, a < i' /\ temporals_seq_n ts1 a = Some s /\
                     contains_period_period_internal (period s) q = true) \/
        (exists c s, c < j' /\ temporals_seq_n ts2 c = Some s /\
                     contains_period_period_internal (period s) q = true)) acc').
    { intros i' j' Hii Hjj Hadv.
      assert (Hold : Forall (fun q =>
        (exists a s, a < i' /\ temporals_seq_n ts1 a = Some s /\
                     contains_period_period_internal (period s) q = true) \/
        (exists c s, c < j' /\ temporals_seq_n ts2 c = Some s /\
                     contains_period_period_internal (period s) q = true)) acc).
      { eapply Forall_impl; [|exact Hinv]. cbv beta.
        intros q [[a [s [Ha H]]]|[c [s [Hc H]]]].
        - left. exists a, s. split; [lia | exact H].
        - right. exists c, s. split; [lia | exact H]. }
      unfold acc'.
      destruct (intersection_period_period_internal (period seq1) (period seq2))
        as [inter|] eqn:Ei; [|exact Hold].
      destruct (intersection_spec _ _ _ Ei) as [Hin1 [Hin2 _]].
      apply Forall_app. split; [exact Hold|]. constructor; [|constructor].
      destruct Hadv as [Hadv|Hadv].
      - left. exists i, seq1. repeat split; auto.
      - right. exists j, seq2. repeat split; auto. }
    assert (Hmore : forall more0 b0,
      Forall (fun q => period_valid q = true /\
                exists s1 s2, In s1 (sequences ts1) /\ In s2 (sequences ts2) /\
                  intersection_period_period_internal (period s1) (period s2)
                  = Some q) more0 ->
      (overlaps_period_period_internal (period seq1) (period seq2) = false ->
       (b0 = true <-> more0 <> [])) ->
      exists more b,
        acc' ++ more0 = acc ++ more /\
        Forall (fun q => period_valid q = true /\
                  exists s1 s2, In s1 (sequences ts1) /\ In s2 (sequences ts2) /\
                    intersection_period_period_internal (period s1) (period s2)
                    = Some q) more /\
        (if overlaps_period_period_internal (period seq1) (period seq2)
         then Some true else Some b0) = Some b /\
        (b = true <-> more <> [])).
    { intros more0 b0 HF Hb0. unfold acc'.
      destruct (intersection_period_period_internal (period seq1) (period seq2))
        as [inter|] eqn:Ei.
      - assert (Hov : overlaps_period_period_internal (period seq1) (period seq2) = true)
          by (apply intersection_overlaps; eauto).
        rewrite Hov. exists (inter :: more0), true.
        rewrite <- app_assoc. split; [reflexivity|]. split.
        + constructor; [|exact HF]. split; [exact (intersection_valid _ _ _ Hvs1 Hvs2 Ei)|].
          exists seq1, seq2.
          split; [exact (array_get_In _ _ _ Hs1)|].
          split; [exact (array_get_In _ _ _ Hs2)|exact Ei].
        + split; [reflexivity|]. split; [discriminate|reflexivity].
      - assert (Hov : overlaps_period_period_internal (period seq1) (period seq2) = false).
        { destruct (overlaps_period_period_internal (period seq1) (period seq2)) eqn:E;
            [|reflexivity].
          apply intersection_overlaps in E. destruct E as [r Hr]. congruence. }
        rewrite Hov. exists more0, b0. repeat split; auto; apply Hb0; auto. }
    fold acc'.
    destruct (timestamp_cmp_internal (upper (period seq1)) (upper (period seq2)) =? 0).
    { destruct (IH (i + 1) (j + 1) acc') as [more0 [b0 [Hr [Hord [HF [Hb Hiff]]]]]];
        try lia; auto.
      { apply Hinv'; lia. }
      destruct (Hmore more0 b0 HF (fun _ => Hiff)) as [more [b [E [HF' [Hb' Hiff']]]]].
      exists more, b. rewrite Hr, Hb, <- E.
      destruct (overlaps_period_period_internal (period seq1) (period seq2));
        repeat split; auto; apply Hiff'. }
    destruct (timestamp_cmp_internal (upper (period seq1)) (upper (period seq2)) <? 0).
    { destruct (IH (i + 1) j acc') as [more0 [b0 [Hr [Hord [HF [Hb Hiff]]]]]];
        try lia; auto.
      { apply Hinv'; lia. }
      destruct (Hmore more0 b0 HF (fun _ => Hiff)) as [more [b [E [HF' [Hb' Hiff']]]]].
      exists more, b. rewrite Hr, Hb, <- E.
      destruct (overlaps_period_period_internal (period seq1) (period seq2));
        repeat split; auto; apply Hiff'. }
    destruct (IH i (j + 1) acc') as [more0 [b0 [Hr [Hord [HF [Hb Hiff]]]]]];
      try lia; auto.
    { apply Hinv'; lia. }
    destruct (Hmore more0 b0 HF (fun _ => Hiff)) as [more [b [E [HF' [Hb' Hiff']]]]].
    exists more, b. rewrite Hr, Hb, <- E.
    destruct (overlaps_period_period_internal (period seq1) (period seq2));
      repeat split; auto; apply Hiff'.
Qed.

Section IntersectionTimeProps.

Variable periodset_from_periodarr_internal : list Period -> Z -> bool -> PeriodSet.

(** X5.  On valid sequence sets [temporals_intersection_temporals] hands
    to the period set constructor an array of valid periods in time order,
    no two of them overlapping, each the intersection of the periods of a
    sequence of [ts1] and a sequence of [ts2]; it returns NULL when the
    array is empty, which is exactly when [temporals_intersects_temporals]
    does not answer [true]. *)
Theorem temporals_intersection_temporals_ordered (ts1 ts2 : TemporalS) :
  valid_temporals ts1 -> valid_temporals ts2 ->
  exists periods,
    temporals_intersection_temporals periodset_from_periodarr_internal ts1 ts2 =
      Some (match periods with
            | [] => None
            | _ :: _ => Some (periodset_from_periodarr_internal periods
                                (Z.of_nat (length periods)) false)
            end) /\
    forallb period_valid periods = true /\
    periodarr_ordered periods = true /\
    Forall (fun q => exists s1 s2, In s1 (sequences ts1) /\ In s2 (sequences ts2) /\
              intersection_period_period_internal (period s1) (period s2) = Some q)
           periods /\
    (periods <> [] <-> temporals_intersects_temporals ts1 ts2 = Some true).
Proof.
  intros Hv1 Hv2.
  destruct (timespan_contains ts1 Hv1) as [p1 [f1 [l1 [Hp1 _]]]].
  destruct (timespan_contains ts2 Hv2) as [p2 [f2 [l2 [Hp2 _]]]].
  pose proof Hv1 as [Hn1 [Hpos1 _]]. pose proof Hv2 as [Hn2 [Hpos2 _]].
  unfold temporals_intersection_temporals, temporals_intersects_temporals.
  rewrite Hp1, Hp2.
  destruct (overlaps_period_period_internal p1 p2) eqn:Ho; cbn [negb].
  - destruct (intersection_walk_spec ts1 ts2 Hv1 Hv2
                (Z.to_nat (count ts1 + count ts2)) 0 0 [])
      as [more [b [Hr [Hord [HF [Hb Hiff]]]]]]; try lia; auto.
    cbn [app] in Hr, Hord. rewrite Hr, Hb.
    exists more. split; [|split; [|split; [exact Hord|split]]].
    + destruct more; reflexivity.
    + apply forallb_forall. intros q Hq. rewrite Forall_forall in HF.
      apply (HF q Hq).
    + eapply Forall_impl; [|exact HF]. cbv beta. intros q [_ H]. exact H.
    + split.
      * intros H. f_equal. apply Hiff. exact H.
      * intros [= ->]. apply Hiff. reflexivity.
  - exists []. repeat split; auto; try discriminate.
    intros H. exfalso. apply H. reflexivity.
Qed.

End IntersectionTimeProps.

Lemma temporals_intersection_temporals_ordered_witness :
  exists periods,
    temporals_intersection_temporals (fun l n _ => mkPeriodSet n l)
      sync_left sync_right =
      Some (match periods with
            | [] => None
            | _ :: _ => Some (mkPeriodSet (Z.of_nat (length periods)) periods)
            end) /\
    periods = [mkPeriod 5 10 true true; mkPeriod 20 25 true true] /\
    periodarr_ordered periods = true.
Proof.
  destruct (temporals_intersection_temporals_ordered (fun l n _ => mkPeriodSet n l)
              sync_left sync_right) as [periods [Hr [_ [Hord _]]]].
  - unfold valid_temporals. simpl. repeat split; try reflexivity; lia.
  - unfold valid_temporals. simpl. repeat split; try reflexivity; lia.
  - exists periods. split; [exact Hr|]. split; [|exact Hord].
    change (temporals_intersection_temporals (fun l n _ => mkPeriodSet n l)
              sync_left sync_right)
      with (Some (Some (mkPeriodSet 2 [mkPeriod 5 10 true true;
                                       mkPeriod 20 25 true true]))) in Hr.
    destruct periods as [|q periods]; [discriminate|].
    injection Hr as _ Hq Hrest. rewrite <- Hq, <- Hrest. reflexivity.
Defined.

(** ** Instants by position *)

Lemma array_get_middle {A : Type} (pre : list A) (x : A) (rest : list A) :
  array_get (pre ++ x :: rest) (Z.of_nat (length pre)) = Some x.
Proof.
  rewrite array_get_nth, nth_error_app2 by lia.
  replace (length pre - length pre)%nat with 0%nat by lia. reflexivity.
Qed.

Lemma array_get_nat {A : Type} (l : list A) (i : Z) :
  0 <= i -> array_get l i = nth_error l (Z.to_nat i).
Proof.
  intros H. unfold array_get.
  replace (i <? 0) with false by (symmetry; apply Z.ltb_ge; lia). reflexivity.
Qed.

Lemma seq_wf_length (s : TemporalSeq) :
  seq_wf s -> seq_count s = Z.of_nat (length (instants s)) /\ (1 <= length (instants s))%nat.
Proof. intros [H1 H2]. split; [exact H1 | lia]. Qed.

Lemma num_instants_loop (ts : TemporalS) :
  forall l pre acc,
    sequences ts = pre ++ l ->
    0 <= acc ->
    acc + Z.of_nat (length (concat (map instants l))) < 2 ^ 31 ->
    Forall seq_wf l ->
    for_loop (length l) (Z.of_nat (length pre))
      (fun i result =>
         match temporals_seq_n ts i with
         | Some seq => Ok (int_add result (seq_count seq))
         | None => Fault
         end) acc
    = Ok (acc + Z.of_nat (length (concat (map instants l)))).
Proof.
  assert (Hpow : 2 ^ 31 = 2147483648) by reflexivity.
  induction l as [|s rest IH]; intros pre acc Hseq Hacc Hsz Hwf.
  - cbn. f_equal. lia.
  - cbn [length for_loop]. unfold temporals_seq_n at 1.
    rewrite Hseq, array_get_middle. cbn [bind].
    inversion Hwf as [|? ? Hs Hrest]; subst.
    destruct (seq_wf_length s Hs) as [Hc _].
    cbn [map concat] in Hsz |- *. rewrite length_app in Hsz |- *.
    unfold int_add. rewrite int_wrap_small by lia.
    replace (Z.of_nat (length pre) + 1) with (Z.of_nat (length (pre ++ [s])))
      by (rewrite length_app; cbn [length]; lia).
    rewrite (IH (pre ++ [s])); try lia; auto.
    + f_equal. lia.
    + rewrite <- app_assoc. exact Hseq.
Qed.

Lemma instant_n_loop_nth (ts : TemporalS) (n : Z) :
  count ts = Z.of_nat (length (sequences ts)) ->
  1 <= n < 2 ^ 31 ->
  forall l pre fuel cnt,
    sequences ts = pre ++ l ->
    0 <= cnt < n ->
    cnt + Z.of_nat (length (concat (map instants l))) < 2 ^ 31 ->
    Forall seq_wf l ->
    (length l <= fuel)%nat ->
    instant_n_loop fuel ts n (Z.of_nat (length pre)) cnt cnt
    = Ok (nth_error (concat (map instants l)) (Z.to_nat (n - cnt - 1))).
Proof.
  intros Hcount Hn.
  assert (Hpow : 2 ^ 31 = 2147483648) by reflexivity.
  induction l as [|s rest IH]; intros pre fuel cnt Hseq Hcnt Hsz Hwf Hfuel.
  - assert (Hi : (Z.of_nat (length pre) <? count ts) = false).
    { apply Z.ltb_ge. rewrite Hcount, Hseq, length_app. cbn [length]. lia. }
    destruct fuel; cbn [instant_n_loop]; rewrite Hi; cbn [andb map concat];
      destruct (Z.to_nat (n - cnt - 1)); reflexivity.
  - destruct fuel as [|fuel]; [cbn [length] in Hfuel; lia|].
    cbn [instant_n_loop].
    replace (Z.of_nat (length pre) <? count ts) with true
      by (symmetry; apply Z.ltb_lt; rewrite Hcount, Hseq, length_app;
          cbn [length]; lia).
    replace (cnt <? n) with true by (symmetry; apply Z.ltb_lt; lia).
    cbn [andb]. unfold temporals_seq_n at 1. rewrite Hseq, array_get_middle.
    inversion Hwf as [|? ? Hs Hrest]; subst.
    destruct (seq_wf_length s Hs) as [Hc Hone].
    cbn [map concat] in Hsz |- *. rewrite length_app in Hsz.
    unfold int_add. rewrite int_wrap_small by lia.
    replace (cnt <=? n) with true by (symmetry; apply Z.leb_le; lia).
    cbn [andb].
    destruct (Z.leb_spec n (cnt + seq_count s)) as [Hle|Hgt].
    + unfold int_sub. rewrite !int_wrap_small by (rewrite ?int_wrap_small; lia).
      unfold temporalseq_inst_n. rewrite array_get_nat by lia.
      rewrite nth_error_app1 by lia.
      destruct (nth_error (instants s) (Z.to_nat (n - cnt - 1))) eqn:E; [reflexivity|].
      apply nth_error_None in E. lia.
    + replace (Z.of_nat (length pre) + 1) with (Z.of_nat (length (pre ++ [s])))
        by (rewrite length_app; cbn [length]; lia).
      rewrite (IH (pre ++ [s])); try lia; auto.
      * rewrite nth_error_app2 by lia. f_equal. f_equal. lia.
      * rewrite <- app_assoc. exact Hseq.
      * cbn [length] in Hfuel. lia.
Qed.

(** X6.  On a set whose sequences each hold [count] instants, at least
    one, fewer than 2^31 in all: [temporals_num_instants] is the number of
    instants of the set, and [temporals_instant_n ts n] is the [n]-th
    instant (from 1) of the instants of the sequences taken in order; it
    is NULL exactly when [n < 1] or [n] is beyond the number of
    instants. *)
Theorem temporals_instant_n_nth (ts : TemporalS) :
  count ts = Z.of_nat (length (sequences ts)) ->
  Forall seq_wf (sequences ts) ->
  Z.of_nat (length (all_instants ts)) < 2 ^ 31 ->
  temporals_num_instants ts = Ok (Z.of_nat (length (all_instants ts))) /\
  (forall n, n < 2 ^ 31 ->
     temporals_instant_n ts n =
     Ok (if n <? 1 then None else nth_error (all_instants ts) (Z.to_nat (n - 1)))) /\
  (forall n, n < 2 ^ 31 ->
     (temporals_instant_n ts n = Ok None <->
      n < 1 \/ Z.of_nat (length (all_instants ts)) < n)).
Proof.
  intros Hcount Hwf Hsz.
  assert (Hnth : forall n, n < 2 ^ 31 ->
     temporals_instant_n ts n =
     Ok (if n <? 1 then None else nth_error (all_instants ts) (Z.to_nat (n - 1)))).
  { intros n Hn. unfold temporals_instant_n.
    destruct (Z.ltb_spec n 1) as [Hlt|Hge]; [reflexivity|].
    rewrite Hcount, Nat2Z.id.
    rewrite (instant_n_loop_nth ts n Hcount ltac:(lia) (sequences ts) [] _ 0);
      auto; try lia.
    f_equal. f_equal. lia. }
  split; [|split; [exact Hnth|]].
  - unfold temporals_num_instants, for_range.
    rewrite Z.sub_0_r, Hcount, Nat2Z.id.
    pose proof (num_instants_loop ts (sequences ts) [] 0 eq_refl ltac:(lia)
                  ltac:(unfold all_instants in Hsz; lia) Hwf) as H.
    cbn [length Z.of_nat] in H. rewrite Z.add_0_l in H. exact H.
  - intros n Hn. rewrite (Hnth n Hn).
    destruct (Z.ltb_spec n 1) as [Hlt|Hge].
    + split; [left; lia | reflexivity].
    + split.
      * intros [= E]. apply nth_error_None in E. right. lia.
      * intros [?|H]; [lia|]. f_equal. apply nth_error_None. lia.
Qed.

Lemma temporals_instant_n_nth_witness :
  temporals_num_instants example_ts = Ok 6 /\
  temporals_instant_n example_ts 3 = Ok (Some (mkInst 1 20 23)) /\
  temporals_instant_n example_ts 7 = Ok None.
Proof.
  destruct (temporals_instant_n_nth example_ts) as [Hnum [Hnth _]].
  - reflexivity.
  - repeat (apply Forall_cons; [split; [reflexivity | simpl; lia]|]).
    apply Forall_nil.
  - simpl. lia.
  - split; [exact Hnum|]. split.
    + rewrite Hnth by lia. reflexivity.
    + rewrite Hnth by lia. reflexivity.
Defined.

(** ** Timestamps by position *)

Lemma nth_error_last {A : Type} (l : list A) (d : A) :
  l <> [] -> nth_error l (length l - 1) = Some (last l d).
Proof.
  induction l as [|a l IH]; intros H; [contradiction|].
  destruct l as [|b l]; [reflexivity|].
  cbn [length]. replace (S (S (length l)) - 1)%nat with (S (length (b :: l) - 1))
    by (cbn [length]; lia).
  cbn [nth_error]. rewrite IH by discriminate. reflexivity.
Qed.

Lemma last_In {A : Type} (l : list A) (d : A) : l <> [] -> In (last l d) l.
Proof.
  intros H. eapply nth_error_In. apply nth_error_last. exact H.
Qed.

Lemma increasing_app (a b : list TimestampTz) :
  increasing a -> increasing b ->
  (forall x y, In x a -> In y b -> x < y) ->
  increasing (a ++ b).
Proof.
  induction a as [|x a IH]; intros Ha Hb Hab; [exact Hb|].
  cbn [app increasing]. destruct Ha as [Hx Ha]. split.
  - apply Forall_app. split; [exact Hx|].
    apply Forall_forall. intros y Hy. apply Hab; [left; reflexivity | exact Hy].
  - apply IH; auto. intros x' y Hx' Hy. apply Hab; [right|]; assumption.
Qed.

Lemma increasing_le_last (l : list TimestampTz) (d : Z) :
  increasing l -> forall t, In t l -> t <= last l d.
Proof.
  induction l as [|a l IH]; intros Hl t Ht; [destruct Ht|].
  destruct Hl as [Ha Hl]. destruct l as [|b l].
  - destruct Ht as [<-|[]]. cbn. lia.
  - change (last (a :: b :: l) d) with (last (b :: l) d).
    destruct Ht as [<-|Ht]; [|apply IH; auto].
    rewrite Forall_forall in Ha.
    specialize (Ha (last (b :: l) d) (last_In (b :: l) d ltac:(discriminate))). lia.
Qed.

(** The part of the timestamps of [s] that [distinct_times] keeps. *)
Lemma distinct_times_cons (prev : option TimestampTz) (s : TemporalSeq)
    (rest : list TemporalSeq) :
  distinct_times prev (s :: rest) =
  fresh_times prev (seq_times s) ++ distinct_times (Some (last (seq_times s) 0)) rest.
Proof. reflexivity. Qed.

Lemma last_map {A B : Type} (f : A -> B) (l : list A) (d : A) (e : B) :
  l <> [] -> last (map f l) e = f (last l d).
Proof.
  induction l as [|a l IH]; intros H; [contradiction|].
  destruct l as [|b l]; [reflexivity|].
  change (last (map f (a :: b :: l)) e) with (last (map f (b :: l)) e).
  change (last (a :: b :: l) d) with (last (b :: l) d).
  apply IH. discriminate.
Qed.

Lemma last_inst_time (s : TemporalSeq) :
  seq_wf s -> seq_count s < 2 ^ 31 ->
  exists inst,
    temporalseq_inst_n s (int_sub (seq_count s) 1) = Some inst /\
    inst_t inst = last (seq_times s) 0.
Proof.
  intros Hs Hlt. destruct (seq_wf_length s Hs) as [Hc Hone].
  assert (Hpow : 2 ^ 31 = 2147483648) by reflexivity.
  unfold temporalseq_inst_n, seq_times.
  destruct (instants s) as [|i0 ir] eqn:E; [cbn in Hone; lia|].
  assert (Hne : i0 :: ir <> []) by discriminate.
  pose proof (nth_error_last (i0 :: ir) i0 Hne) as Hl.
  exists (last (i0 :: ir) i0). split.
  - unfold int_sub. rewrite int_wrap_small by lia.
    rewrite array_get_nat by lia. rewrite <- Hl. f_equal. lia.
  - symmetry. apply last_map. exact Hne.
Qed.

Lemma timestamp_n_loop_nth (ts : TemporalS) (n : Z) :
  count ts = Z.of_nat (length (sequences ts)) ->
  0 <= n < 2 ^ 31 ->
  forall l pre fuel cnt prev,
    sequences ts = pre ++ l ->
    0 <= cnt <= n ->
    cnt + Z.of_nat (length (concat (map instants l))) < 2 ^ 31 ->
    Forall seq_wf l ->
    (length l <= fuel)%nat ->
    timestamp_n_loop fuel ts n (Z.of_nat (length pre)) cnt cnt prev
    = Ok (nth_error (distinct_times prev l) (Z.to_nat (n - cnt))).
Proof.
  intros Hcount Hn.
  assert (Hpow : 2 ^ 31 = 2147483648) by reflexivity.
  induction l as [|s rest IH]; intros pre fuel cnt prev Hseq Hcnt Hsz Hwf Hfuel.
  - assert (Hi : (Z.of_nat (length pre) <? count ts) = false).
    { apply Z.ltb_ge. rewrite Hcount, Hseq, length_app. cbn [length]. lia. }
    destruct fuel; cbn [timestamp_n_loop]; rewrite Hi; cbn [distinct_times];
      destruct (Z.to_nat (n - cnt)); reflexivity.
  - destruct fuel as [|fuel]; [cbn [length] in Hfuel; lia|].
    cbn [timestamp_n_loop].
    replace (Z.of_nat (length pre) <? count ts) with true
      by (symmetry; apply Z.ltb_lt; rewrite Hcount, Hseq, length_app;
          cbn [length]; lia).
    unfold temporals_seq_n at 1. rewrite Hseq, array_get_middle.
    inversion Hwf as [|? ? Hs Hrest]; subst.
    destruct (seq_wf_length s Hs) as [Hc Hone].
    cbn [map concat] in Hsz. rewrite length_app in Hsz.
    destruct (last_inst_time s Hs ltac:(lia)) as [il [Hil Hlast]].
    rewrite distinct_times_cons.
    assert (Hnext : forall cnt',
      cnt' = cnt + Z.of_nat (length (fresh_times prev (seq_times s))) ->
      cnt' <= n ->
      timestamp_n_loop fuel ts n (Z.of_nat (length pre) + 1) cnt' cnt'
        (Some (inst_t il)) =
      Ok (nth_error
            (fresh_times prev (seq_times s) ++ distinct_times (Some (last (seq_times s) 0)) rest)
            (Z.to_nat (n - cnt)))).
    { intros cnt' Ecnt Hle.
      assert (Hchunk : (length (fresh_times prev (seq_times s)) <= length (instants s))%nat).
      { unfold fresh_times, seq_times. destruct prev as [p|]; [|rewrite length_map; lia].
        destruct (instants s) as [|i0 ir]; [cbn; lia|]. cbn [map].
        destruct (p =? inst_t i0); cbn [length]; rewrite ?length_map; lia. }
      replace (Z.of_nat (length pre) + 1) with (Z.of_nat (length (pre ++ [s])))
        by (rewrite length_app; cbn [length]; lia).
      rewrite (IH (pre ++ [s])); try lia; auto.
      - rewrite Hlast. rewrite nth_error_app2 by lia. f_equal. f_equal. lia.
      - rewrite <- app_assoc. exact Hseq.
      - cbn [length] in Hfuel. lia. }
    unfold int_add. rewrite int_wrap_small by lia.
    unfold int_sub in *.
    unfold fresh_times, seq_times in *.
    destruct (instants s) as [|i0 ir] eqn:Ei; [cbn in Hone; lia|].
    rewrite ?Ei in Hsz. cbn [length] in Hc, Hsz, Hone. cbn [map] in Hnext |- *.
    assert (Hfound : forall k : nat, (k < length (i0 :: ir))%nat ->
      match temporalseq_inst_n s (Z.of_nat k) with
      | Some inst => Ok (Some (inst_t inst))
      | None => Fault
      end = Ok (nth_error (inst_t i0 :: map inst_t ir) k)).
    { intros k Hk. unfold temporalseq_inst_n. rewrite array_get_nth, Ei.
      change (inst_t i0 :: map inst_t ir) with (map inst_t (i0 :: ir)).
      rewrite nth_error_map.
      destruct (nth_error (i0 :: ir) k) eqn:E; [reflexivity|].
      apply nth_error_None in E. lia. }
    assert (H0 : temporalseq_inst_n s 0 = Some i0)
      by (unfold temporalseq_inst_n; rewrite Ei; reflexivity).
    destruct prev as [p|].
    + rewrite H0. cbn [bind].
      destruct (p =? inst_t i0) eqn:Esame.
      * rewrite (int_wrap_small (cnt - 1)) by lia.
        rewrite (int_wrap_small (cnt + seq_count s - 1)) by lia.
        replace (cnt - 1 <=? n) with true by (symmetry; apply Z.leb_le; lia).
        cbn [andb].
        destruct (Z.ltb_spec n (cnt + seq_count s - 1)) as [Hlt|Hge].
        -- rewrite int_wrap_small by lia.
           replace (n - (cnt - 1)) with (Z.of_nat (S (Z.to_nat (n - cnt)))) by lia.
           rewrite Hfound by (cbn [length]; lia).
           cbn [nth_error]. rewrite nth_error_app1 by (rewrite length_map; lia).
           reflexivity.
        -- rewrite Hil. apply Hnext; [rewrite length_map|]; lia.
      * replace (cnt <=? n) with true by (symmetry; apply Z.leb_le; lia).
        cbn [andb].
        destruct (Z.ltb_spec n (cnt + seq_count s)) as [Hlt|Hge].
        -- rewrite int_wrap_small by lia.
           replace (n - cnt) with (Z.of_nat (Z.to_nat (n - cnt))) at 1 by lia.
           rewrite Hfound by (cbn [length]; lia).
           rewrite nth_error_app1 by (cbn [length]; rewrite length_map; lia).
           reflexivity.
        -- rewrite Hil. apply Hnext; [cbn [length]; rewrite length_map|]; lia.
    + cbn [bind].
      replace (cnt <=? n) with true by (symmetry; apply Z.leb_le; lia).
      cbn [andb].
      destruct (Z.ltb_spec n (cnt + seq_count s)) as [Hlt|Hge].
      * rewrite int_wrap_small by lia.
        replace (n - cnt) with (Z.of_nat (Z.to_nat (n - cnt))) at 1 by lia.
        rewrite Hfound by (cbn [length]; lia).
        rewrite nth_error_app1 by (cbn [length]; rewrite length_map; lia).
        reflexivity.
      * rewrite Hil. apply Hnext; [cbn [length]; rewrite length_map|]; lia.
Qed.

Lemma fresh_times_length (prev : option TimestampTz) (times : list TimestampTz) :
  (length (fresh_times prev times) <= length times)%nat.
Proof.
  unfold fresh_times. destruct prev as [p|]; [|lia].
  destruct times as [|t r]; [lia|]. destruct (p =? t); cbn [length]; lia.
Qed.

Lemma num_timestamps_loop (ts : TemporalS) :
  forall l pre acc prev,
    sequences ts = pre ++ l ->
    0 <= acc ->
    acc + Z.of_nat (length (concat (map instants l))) < 2 ^ 31 ->
    Forall seq_wf l ->
    exists lasttime,
      for_loop (length l) (Z.of_nat (length pre))
        (fun i st =>
           match temporals_seq_n ts i with
           | None => Fault
           | Some seq =>
               let result := int_add (fst st) (seq_count seq) in
               result <- match snd st with
                         | None => Ok result
                         | Some lasttime =>
                             match temporalseq_inst_n seq 0 with
                             | Some inst =>
                                 Ok (if lasttime =? inst_t inst
                                     then int_sub result 1 else result)
                             | None => Fault
                             end
                         end ;;
               match temporalseq_inst_n seq (int_sub (seq_count seq) 1) with
               | Some inst => Ok (result, Some (inst_t inst))
               | None => Fault
               end
           end) (acc, prev)
      = Ok (acc + Z.of_nat (length (distinct_times prev l)), lasttime).
Proof.
  assert (Hpow : 2 ^ 31 = 2147483648) by reflexivity.
  induction l as [|s rest IH]; intros pre acc prev Hseq Hacc Hsz Hwf.
  - exists prev. cbn. f_equal. f_equal. lia.
  - cbn [length for_loop]. unfold temporals_seq_n at 1.
    rewrite Hseq, array_get_middle. cbn [fst snd].
    inversion Hwf as [|? ? Hs Hrest]; subst.
    destruct (seq_wf_length s Hs) as [Hc Hone].
    cbn [map concat] in Hsz. rewrite length_app in Hsz.
    destruct (last_inst_time s Hs ltac:(lia)) as [il [Hil Hlast]].
    rewrite Hil.
    unfold int_add. rewrite int_wrap_small by lia.
    cbn [distinct_times]. rewrite length_app.
    assert (Hfl : (length (fresh_times prev (seq_times s)) <= length (instants s))%nat).
    { pose proof (fresh_times_length prev (seq_times s)) as Hfl.
      unfold seq_times in Hfl at 2. rewrite length_map in Hfl. exact Hfl. }
    assert (Hstep : forall r,
      r = acc + Z.of_nat (length (fresh_times prev (seq_times s))) ->
      exists lasttime,
        for_loop (length rest) (Z.of_nat (length pre) + 1)
          (fun i st =>
             match temporals_seq_n ts i with
             | None => Fault
             | Some seq =>
                 let result := int_add (fst st) (seq_count seq) in
                 result <- match snd st with
                           | None => Ok result
                           | Some lasttime =>
                               match temporalseq_inst_n seq 0 with
                               | Some inst =>
                                   Ok (if lasttime =? inst_t inst
                                       then int_sub result 1 else result)
                               | None => Fault
                               end
                           end ;;
                 match temporalseq_inst_n seq (int_sub (seq_count seq) 1) with
                 | Some inst => Ok (result, Some (inst_t inst))
                 | None => Fault
                 end
             end) (r, Some (inst_t il))
        = Ok (acc + Z.of_nat (length (fresh_times prev (seq_times s)) +
                              length (distinct_times (Some (last (seq_times s) 0)) rest)),
              lasttime)).
    { intros r ->.
      replace (Z.of_nat (length pre) + 1) with (Z.of_nat (length (pre ++ [s])))
        by (rewrite length_app; cbn [length]; lia).
      destruct (IH (pre ++ [s])
                   (acc + Z.of_nat (length (fresh_times prev (seq_times s))))
                   (Some (inst_t il))) as [lt Hlt]; try lia; auto.
      { rewrite <- app_assoc. exact Hseq. }
      exists lt. eapply eq_trans; [exact Hlt|]. rewrite Hlast.
      f_equal. f_equal. lia. }
    unfold fresh_times, seq_times in *.
    destruct (instants s) as [|i0 ir] eqn:Ei; [cbn in Hone; lia|].
    assert (H0 : temporalseq_inst_n s 0 = Some i0)
      by (unfold temporalseq_inst_n; rewrite Ei; reflexivity).
    cbn [length] in Hc, Hsz. cbn [map] in Hstep |- *.
    destruct prev as [p|]; cbn [bind].
    + rewrite H0. cbn [bind].
      destruct (p =? inst_t i0).
      * unfold int_sub. rewrite int_wrap_small by lia. cbn [bind].
        apply Hstep. rewrite length_map. lia.
      * cbn [bind]. apply Hstep. cbn [length]. rewrite length_map. lia.
    + apply Hstep. cbn [length]. rewrite length_map. lia.
Qed.

(** The timestamps kept are in increasing order and are all the
    timestamps of the instants. *)
Lemma distinct_times_increasing :
  forall l prev,
    Forall seq_wf l ->
    Forall (fun s => increasing (seq_times s)) l ->
    times_chain l ->
    (forall p, prev = Some p ->
       Forall (fun t => p <= t) (concat (map seq_times l))) ->
    increasing (distinct_times prev l) /\
    forall t, In t (distinct_times prev l) <->
              In t (concat (map seq_times l)) /\
              (forall p, prev = Some p -> p < t).
Proof.
  induction l as [|s rest IH]; intros prev Hwf Hinc Hchain Hprev.
  - cbn. split; [exact I|]. intros t. tauto.
  - inversion Hwf as [|? ? Hs Hwf']; subst.
    inversion Hinc as [|? ? Hsi Hinc']; subst.
    destruct Hchain as [Hlater Hchain].
    rewrite Forall_forall in Hlater.
    destruct (seq_wf_length s Hs) as [_ Hone].
    assert (Hne : seq_times s <> []).
    { unfold seq_times. destruct (instants s); [cbn in Hone; lia|discriminate]. }
    set (lastS := last (seq_times s) 0) in *.
    assert (HlastIn : In lastS (seq_times s)) by (apply last_In; exact Hne).
    assert (Hmax : forall t, In t (seq_times s) -> t <= lastS)
      by (apply increasing_le_last; exact Hsi).
    destruct (IH (Some lastS) Hwf' Hinc' Hchain) as [IHinc IHin].
    { intros p [= <-]. apply Forall_forall. exact Hlater. }
    (* the timestamps kept from [s] *)
    assert (Hfresh : increasing (fresh_times prev (seq_times s)) /\
      forall t, In t (fresh_times prev (seq_times s)) <->
                In t (seq_times s) /\ (forall p, prev = Some p -> p < t)).
    { unfold fresh_times. destruct prev as [p|].
      - specialize (Hprev p eq_refl). cbn [map concat] in Hprev.
        apply Forall_app in Hprev. destruct Hprev as [Hps _].
        rewrite Forall_forall in Hps.
        destruct (seq_times s) as [|t0 r]; [contradiction|].
        destruct Hsi as [Ht0 Hr]. rewrite Forall_forall in Ht0.
        destruct (Z.eqb_spec p t0) as [->|Hneq].
        + split; [exact Hr|]. intros t. split.
          * intros Ht. split; [right; exact Ht|]. intros p [= <-]. apply Ht0, Ht.
          * intros [[<-|Ht] Hlt]; [specialize (Hlt _ eq_refl); lia | exact Ht].
        + split; [split; [apply Forall_forall; exact Ht0 | exact Hr]|].
          intros t. split.
          * intros Ht. split; [exact Ht|]. intros p' [= <-].
            pose proof (Hps t0 ltac:(left; reflexivity)).
            destruct Ht as [<-|Ht]; [lia|]. specialize (Ht0 t Ht). lia.
          * intros [Ht _]. exact Ht.
      - split; [exact Hsi|]. intros t. split.
        + intros Ht. split; [exact Ht|]. intros p [=].
        + intros [Ht _]. exact Ht. }
    destruct Hfresh as [Hfinc Hfin].
    cbn [distinct_times]. fold lastS. split.
    + apply increasing_app; auto.
      intros x y Hx Hy. apply Hfin in Hx. apply IHin in Hy.
      destruct Hx as [Hx _]. destruct Hy as [_ Hy].
      specialize (Hmax x Hx). specialize (Hy lastS eq_refl). lia.
    + intros t. cbn [map concat]. rewrite !in_app_iff, Hfin, IHin. split.
      * intros [[Ht Hp]|[Ht Hl]].
        -- split; [left; exact Ht | exact Hp].
        -- split; [right; exact Ht|]. intros p ->.
           specialize (Hprev p eq_refl). cbn [map concat] in Hprev.
           rewrite Forall_forall in Hprev.
           specialize (Hprev lastS ltac:(apply in_or_app; left; exact HlastIn)).
           specialize (Hl lastS eq_refl). lia.
      * intros [[Ht|Ht] Hp].
        -- left. split; assumption.
        -- destruct (Z.eq_dec t lastS) as [->|Hneq].
           ++ left. split; [exact HlastIn | exact Hp].
           ++ right. split; [exact Ht|]. intros p [= <-].
              specialize (Hlater t Ht). lia.
Qed.

Lemma first_inst_time (s : TemporalSeq) (first : TemporalInst) :
  temporalseq_inst_n s 0 = Some first ->
  exists r, seq_times s = inst_t first :: r.
Proof.
  unfold temporalseq_inst_n, seq_times.
  destruct (instants s) as [|i0 ir]; [discriminate|].
  intros [= <-]. exists (map inst_t ir). reflexivity.
Qed.

Lemma valid_times_chain (l : list TemporalSeq) :
  forallb (fun s => period_valid (period s)) l = true ->
  seqarr_ordered l = true ->
  Forall seq_wf l ->
  Forall seq_period_matches l ->
  Forall (fun s => increasing (seq_times s)) l ->
  times_chain l.
Proof.
  induction l as [|s rest IH]; intros Hval Hord Hwf Hpm Hinc; [exact I|].
  cbn [forallb] in Hval. apply andb_true_iff in Hval. destruct Hval as [Hvs Hval].
  inversion Hwf as [|? ? Hs Hwf']; subst.
  inversion Hpm as [|? ? Hps Hpm']; subst.
  inversion Hinc as [|? ? Hsi Hinc']; subst.
  split; [|apply IH; auto; eapply seqarr_ordered_tail; eauto].
  pose proof (seqarr_ordered_head s rest Hval Hord) as Hleft.
  rewrite Forall_forall in Hleft, Hpm', Hinc'.
  apply Forall_forall. intros t Ht.
  apply in_concat in Ht. destruct Ht as [times [Htimes Ht]].
  apply in_map_iff in Htimes. destruct Htimes as [s' [<- Hs']].
  specialize (Hleft s' Hs').
  (* the upper bound of [s] is its last timestamp *)
  destruct Hps as [f [la [_ [Hla [_ Hup]]]]].
  destruct (seq_wf_length s Hs) as [Hc Hone].
  assert (Elast : last (seq_times s) 0 = upper (period s)).
  { rewrite Hup. unfold temporalseq_inst_n in Hla.
    rewrite array_get_nat in Hla by lia.
    unfold seq_times.
    assert (Hne : instants s <> [])
      by (destruct (instants s); [cbn in Hone; lia|discriminate]).
    rewrite (last_map inst_t (instants s) la 0 Hne). f_equal.
    pose proof (nth_error_last (instants s) la Hne) as Hl.
    replace (Z.to_nat (seq_count s - 1)) with (length (instants s) - 1)%nat in Hla
      by lia.
    congruence. }
  (* the lower bound of [s'] is its first timestamp *)
  destruct (Hpm' s' Hs') as [f' [la' [Hf' [_ [Hlow _]]]]].
  destruct (first_inst_time s' f' Hf') as [r Er].
  specialize (Hinc' s' Hs'). rewrite Er in Hinc', Ht.
  destruct Hinc' as [Hhead _]. rewrite Forall_forall in Hhead.
  rewrite Elast. unfold period_left in Hleft.
  destruct Ht as [<-|Ht]; [|specialize (Hhead t Ht)];
    destruct Hleft as [?|[? _]]; lia.
Qed.

(** X7.  Let the sequences of a valid set each hold [count] instants, at
    least one, with strictly increasing timestamps, the first and the last
    being the bounds of the period, fewer than 2^31 instants in all.  Then
    there is one list [D] of the timestamps of the set, each once and in
    increasing order, such that [temporals_num_timestamps] is its length
    and [temporals_timestamp_n ts n] is its [n]-th element (from 1), and
    fails exactly when [n] is not a position of [D]. *)
Theorem temporals_timestamp_n_distinct (ts : TemporalS) :
  valid_temporals ts ->
  Forall seq_wf (sequences ts) ->
  Forall seq_period_matches (sequences ts) ->
  Forall (fun s => increasing (seq_times s)) (sequences ts) ->
  Z.of_nat (length (all_instants ts)) < 2 ^ 31 ->
  exists D,
    increasing D /\
    (forall t, In t D <-> In t (all_times ts)) /\
    temporals_num_timestamps ts = Ok (Z.of_nat (length D)) /\
    (forall n, n < 2 ^ 31 ->
       temporals_timestamp_n ts n =
       Ok (if n <? 1 then None else nth_error D (Z.to_nat (n - 1)))).
Proof.
  intros Hvalid Hwf Hpm Hinc Hsz.
  pose proof Hvalid as [Hcount [Hpos [Hval Hord]]].
  assert (Hpow : 2 ^ 31 = 2147483648) by reflexivity.
  exists (distinct_times None (sequences ts)).
  destruct (distinct_times_increasing (sequences ts) None Hwf Hinc
              (valid_times_chain _ Hval Hord Hwf Hpm Hinc)) as [HD Hin].
  { intros p [=]. }
  split; [exact HD|]. split; [|split].
  - intros t. rewrite Hin. unfold all_times. split; [tauto|].
    intros H. split; [exact H|]. intros p [=].
  - unfold temporals_num_timestamps, for_range.
    rewrite Z.sub_0_r, Hcount, Nat2Z.id.
    destruct (num_timestamps_loop ts (sequences ts) [] 0 None eq_refl ltac:(lia)
                ltac:(unfold all_instants in Hsz; lia) Hwf) as [lt Hlt].
    cbn [length Z.of_nat] in Hlt. rewrite Hlt. cbn [bind fst]. f_equal.
  - intros n Hn. unfold temporals_timestamp_n.
    destruct (Z.ltb_spec n 1) as [Hlt|Hge]; [reflexivity|].
    destruct (Z.eqb_spec n 1) as [->|Hne].
    + destruct (sequences ts) as [|s0 rest] eqn:Es; [cbn in Hcount; lia|].
      unfold temporals_seq_n. rewrite Es. cbn [array_get Z.ltb Z.to_nat nth_error].
      cbn. inversion Hwf as [|? ? Hs _]; subst.
      destruct (seq_wf_length s0 Hs) as [_ Hone].
      unfold temporalseq_inst_n, seq_times.
      destruct (instants s0) as [|i0 ir]; [cbn in Hone; lia|]. reflexivity.
    + unfold int_sub. rewrite int_wrap_small by lia.
      rewrite Hcount, Nat2Z.id.
      pose proof (timestamp_n_loop_nth ts (n - 1) Hcount ltac:(lia)
                    (sequences ts) [] (length (sequences ts)) 0 None eq_refl
                    ltac:(lia) ltac:(unfold all_instants in Hsz; lia) Hwf
                    ltac:(lia)) as H.
      cbn [length Z.of_nat] in H. rewrite H. f_equal. f_equal. lia.
Qed.

Lemma temporals_timestamp_n_distinct_witness :
  exists D,
    increasing D /\
    (forall t, In t D <-> In t (all_times walk_left_example)) /\
    temporals_num_timestamps walk_left_example = Ok (Z.of_nat (length D)) /\
    (forall n, n < 2 ^ 31 ->
       temporals_timestamp_n walk_left_example n =
       Ok (if n <? 1 then None else nth_error D (Z.to_nat (n - 1)))).
Proof.
  apply (temporals_timestamp_n_distinct walk_left_example).
  - unfold valid_temporals. simpl. repeat split; try reflexivity; lia.
  - repeat (apply Forall_cons; [split; [reflexivity | simpl; lia]|]).
    apply Forall_nil.
  - repeat (apply Forall_cons;
            [eexists; eexists; repeat split; reflexivity|]).
    apply Forall_nil.
  - repeat (apply Forall_cons;
            [simpl; repeat split; repeat constructor; lia|]).
    apply Forall_nil.
  - simpl. lia.
Defined.

(** ** Continuity in time *)

Lemma continuous_time_loop_correct (ts : TemporalS) :
  count ts = Z.of_nat (length (sequences ts)) ->
  forall n i seq1,
    1 <= i -> i + Z.of_nat n = count ts ->
    temporals_seq_n ts (i - 1) = Some seq1 ->
    exists b,
      continuous_time_loop n ts i seq1 = Some b /\
      (b = true <->
       forall k a c, i <= k < count ts ->
         temporals_seq_n ts (k - 1) = Some a -> temporals_seq_n ts k = Some c ->
         upper (period a) = lower (period c)).
Proof.
  intros Hcnt.
  induction n as [|n IH]; intros i seq1 Hi Hn Hseq1.
  - exists true. split; [reflexivity|].
    split; [|reflexivity]. intros _ k a c Hk. lia.
  - cbn [continuous_time_loop].
    destruct (array_get_defined (sequences ts) i ltac:(lia)) as [seq2 Hseq2].
    unfold temporals_seq_n at 1. rewrite Hseq2.
    rewrite timestamp_cmp_eq.
    destruct (Z.eqb_spec (upper (period seq1)) (lower (period seq2))) as [E|E];
      cbn [negb].
    + assert (Hseq2' : temporals_seq_n ts (i + 1 - 1) = Some seq2).
      { unfold temporals_seq_n. replace (i + 1 - 1) with i by lia. exact Hseq2. }
      destruct (IH (i + 1) seq2 ltac:(lia) ltac:(lia) Hseq2') as [b [Hrun Hb]].
      exists b. split; [exact Hrun|].
      rewrite Hb. split.
      * intros Hall k a c Hk Ha Hc.
        destruct (Z.eq_dec k i) as [->|Hne'].
        -- unfold temporals_seq_n in *. congruence.
        -- eapply Hall; eauto. lia.
      * intros Hall k a c Hk. apply Hall. lia.
    + exists false. split; [reflexivity|].
      split; [discriminate|]. intros Hall. exfalso. apply E.
      apply (Hall i seq1 seq2); auto. lia.
Qed.

Section ContinuousTimeProps.

Variable with_postgis : bool.
Variable geometry_oid geography_oid : Oid.
Variable tpoint_srid_internal : TemporalSeq -> Z.
Variable temporalseqarr_normalize : list TemporalSeq -> list TemporalSeq.
Variable temporal_bbox_size : Oid -> Z.
Variable temporals_make_bbox : list TemporalSeq -> BOX.

(** The value of [tempcontinuous] at the end of the validity loop. *)
Lemma from_seqarr_loop_tempcont (sequences : list TemporalSeq) (isgeo : bool)
    (srid : Z) (hasz0 : bool) :
  forall n i tc tc',
    1 <= i -> i + Z.of_nat n <= Z.of_nat (length sequences) ->
    for_loop n i
      (from_seqarr_check tpoint_srid_internal sequences isgeo srid hasz0) tc
      = Ok tc' ->
    (tc' = true <->
     tc = true /\
     forall j a b, i <= j < i + Z.of_nat n ->
       array_get sequences (j - 1) = Some a -> array_get sequences j = Some b ->
       pair_meets a b).
Proof.
  induction n as [|n IH]; intros i tc tc' Hi Hn Hrun.
  - cbn in Hrun. injection Hrun as <-. split.
    + intros H. split; [exact H|]. intros j a b Hj. lia.
    + intros [H _]. exact H.
  - cbn [for_loop] in Hrun.
    destruct (array_get_defined sequences (i - 1) ltac:(lia)) as [a Ha].
    destruct (array_get_defined sequences i ltac:(lia)) as [b Hb].
    unfold from_seqarr_check at 1 in Hrun. rewrite Ha, Hb in Hrun.
    destruct (seq_pair_invalid a b); [discriminate|].
    set (tc1 := tc && ((timestamp_cmp_internal (upper (period a)) (lower (period b)) =? 0)
                       && (upper_inc (period a) || lower_inc (period b)))) in Hrun.
    assert (Hrun' : for_loop n (i + 1)
              (from_seqarr_check tpoint_srid_internal sequences isgeo srid hasz0) tc1
            = Ok tc').
    { destruct isgeo; [|exact Hrun].
      destruct (negb (tpoint_srid_internal b =? srid)); [discriminate|].
      destruct (negb (Bool.eqb (hasz (seq_flags b)) hasz0)); [discriminate|].
      exact Hrun. }
    rewrite (IH (i + 1) tc1 tc' ltac:(lia) ltac:(lia) Hrun').
    assert (Htc1 : tc1 = true <-> tc = true /\ pair_meets a b).
    { unfold tc1, pair_meets.
      rewrite !andb_true_iff, orb_true_iff, timestamp_cmp_eq, Z.eqb_eq. tauto. }
    rewrite Htc1. split.
    + intros [[Htc Hab] Hall]. split; [exact Htc|].
      intros j a' b' Hj Ha' Hb'.
      destruct (Z.eq_dec j i) as [->|Hne]; [congruence|].
      eapply Hall; eauto. lia.
    + intros [Htc Hall]. split; [split; [exact Htc|]|].
      * apply (Hall i); auto. lia.
      * intros j a' b' Hj. apply Hall. lia.
Qed.

Lemma every_pair_tail (P : TemporalSeq -> TemporalSeq -> Prop)
    (a : TemporalSeq) (l : list TemporalSeq) :
  every_pair P (a :: l) (Z.of_nat (length (a :: l))) ->
  every_pair P l (Z.of_nat (length l)).
Proof.
  intros H i x y Hi Hx Hy. apply (H (i + 1) x y).
  - cbn [length]. lia.
  - rewrite array_get_cons by lia. replace (i + 1 - 1 - 1) with (i - 1) by lia.
    exact Hx.
  - rewrite array_get_cons by lia. replace (i + 1 - 1) with i by lia. exact Hy.
Qed.

Lemma last_cons {A : Type} (l : list A) :
  forall a d : A, last (a :: l) d = last l a.
Proof.
  induction l as [|b l IH]; intros a d; [reflexivity|].
  change (last (a :: b :: l) d) with (last (b :: l) d).
  rewrite (IH b d), (IH b a). reflexivity.
Qed.

(** Sequences that meet pairwise leave no hole between the start of the
    first and the end of the last. *)
Lemma meeting_pairs_cover :
  forall l first,
    every_pair pair_meets (first :: l) (Z.of_nat (length (first :: l))) ->
    forall t,
      in_period (mkPeriod (lower (period first)) (upper (period (last l first)))
                          (lower_inc (period first))
                          (upper_inc (period (last l first)))) t ->
      seqs_extent (first :: l) t.
Proof.
  induction l as [|b l IH]; intros first Hall t Ht.
  - exists first. split; [left; reflexivity|].
    apply in_period_iff in Ht. apply in_period_iff. exact Ht.
  - assert (Hab : pair_meets first b).
    { apply (Hall 1); [cbn [length]; lia | reflexivity | reflexivity]. }
    destruct (contains_period_timestamp_internal (period first) t) eqn:Hc.
    { exists first. split; [left; reflexivity | exact Hc]. }
    assert (Hrest : seqs_extent (b :: l) t).
    { apply IH; [eapply every_pair_tail; eauto|].
      rewrite <- (last_cons l b first).
      apply in_period_iff in Ht. cbn [lower upper lower_inc upper_inc] in Ht.
      apply in_period_iff. cbn [lower upper lower_inc upper_inc].
      destruct Ht as [Hlo Hup]. split; [|exact Hup].
      assert (Hnot : ~ in_period (period first) t)
        by (unfold in_period; congruence).
      rewrite in_period_iff in Hnot.
      destruct Hab as [E Hinc].
      destruct (Z_lt_le_dec (lower (period b)) t) as [?|Hle]; [left; assumption|].
      destruct (Z.eq_dec (lower (period b)) t) as [E'|E'].
      - right. split; [exact E'|].
        destruct (lower_inc (period b)) eqn:Hlb; [reflexivity|].
        exfalso. apply Hnot. split; [exact Hlo|]. right.
        split; [lia|]. destruct Hinc; congruence.
      - exfalso. apply Hnot. split; [exact Hlo|]. left. lia. }
    destruct Hrest as [s [Hs Hin]]. exists s. split; [right; exact Hs | exact Hin].
Qed.

Lemma last_array_get {A : Type} (l : list A) (a d : A) :
  array_get (a :: l) (Z.of_nat (length (a :: l)) - 1) = Some (last l a).
Proof.
  rewrite array_get_nat by (cbn [length]; lia).
  replace (Z.to_nat (Z.of_nat (length (a :: l)) - 1)) with (length (a :: l) - 1)%nat
    by lia.
  rewrite (nth_error_last (a :: l) a) by discriminate.
  f_equal. apply last_cons.
Qed.

(** The flag is the state of the validity loop at its end. *)
Lemma tempcontinuous_flag_meets (seqs : list TemporalSeq) (r : TemporalS) :
  temporals_from_temporalseqarr with_postgis geometry_oid geography_oid
    tpoint_srid_internal temporalseqarr_normalize temporal_bbox_size
    temporals_make_bbox seqs (Z.of_nat (length seqs)) false = Ok r ->
  (tempcontinuous (flags r) = true <->
   every_pair pair_meets seqs (Z.of_nat (length seqs))).
Proof.
  intros Hr.
  unfold temporals_from_temporalseqarr in Hr.
  destruct (array_get seqs 0) as [seq0|] eqn:H0; [|discriminate].
  destruct (Z.of_nat (length seqs) <? 1) eqn:Hlen; [discriminate|].
  apply Z.ltb_ge in Hlen.
  unfold for_range in Hr.
  destruct (for_loop _ _ _ _) as [tc| |] eqn:Hloop; cbn [bind] in Hr;
    try discriminate.
  unfold array_prefix in Hr. rewrite Z.ltb_irrefl in Hr. cbn [bind andb] in Hr.
  rewrite Nat2Z.id, firstn_all, H0 in Hr. injection Hr as <-.
  cbn [flags tempcontinuous].
  rewrite (from_seqarr_loop_tempcont seqs _ _ _
             (Z.to_nat (Z.of_nat (length seqs) - 1)) 1 true tc ltac:(lia)
             ltac:(lia) Hloop).
  unfold every_pair. split.
  - intros [_ H] i a b Hi. apply H. lia.
  - intros H. split; [reflexivity|]. intros j a b Hj. apply H. lia.
Qed.

(** X8.  Built without normalisation, a sequence set has the flag
    [tempcontinuous] exactly when every sequence ends where the next one
    starts, one of the two including that timestamp.  The flag implies that
    [temporals_continuous_time_internal] answers [true] and that every
    timestamp of the bounding period is in some sequence.  The function
    itself compares the bounds only: it answers [true] on [0, 10) (10, 20],
    which has no value at 10 and does not get the flag. *)
Theorem temporals_tempcontinuous_flag :
  (forall seqs r,
     temporals_from_temporalseqarr with_postgis geometry_oid geography_oid
       tpoint_srid_internal temporalseqarr_normalize temporal_bbox_size
       temporals_make_bbox seqs (Z.of_nat (length seqs)) false = Ok r ->
     (tempcontinuous (flags r) = true <->
      every_pair pair_meets (sequences r) (count r)) /\
     (exists b, temporals_continuous_time_internal r = Some b /\
        (b = true <->
         every_pair (fun a c => upper (period a) = lower (period c))
                    (sequences r) (count r)) /\
        (tempcontinuous (flags r) = true -> b = true)) /\
     (tempcontinuous (flags r) = true ->
      exists p, temporals_timespan r = Some p /\
        forall t, in_period p t -> seqs_extent (sequences r) t)) /\
  (temporals_continuous_time_internal hole_example = Some true /\
   (forall r,
      temporals_from_temporalseqarr with_postgis geometry_oid geography_oid
        tpoint_srid_internal temporalseqarr_normalize temporal_bbox_size
        temporals_make_bbox (sequences hole_example) 2 false = Ok r ->
      tempcontinuous (flags r) = false) /\
   temporals_timespan hole_example = Some (mkPeriod 0 20 true true) /\
   ~ seqs_extent (sequences hole_example) 10).
Proof.
  split.
  - intros seqs r Hr.
    destruct (temporals_from_temporalseqarr_keeps with_postgis geometry_oid
                geography_oid tpoint_srid_internal temporalseqarr_normalize
                temporal_bbox_size temporals_make_bbox seqs r Hr) as [Hseqs Hcount].
    pose proof (tempcontinuous_flag_meets seqs r Hr) as Hflag.
    rewrite Hseqs, Hcount.
    assert (Hn : count r = Z.of_nat (length (sequences r))) by congruence.
    assert (Hpos : 1 <= Z.of_nat (length seqs)).
    { unfold temporals_from_temporalseqarr in Hr.
      destruct (array_get seqs 0); [|discriminate].
      destruct (Z.of_nat (length seqs) <? 1) eqn:Hlen; [discriminate|].
      apply Z.ltb_ge in Hlen. exact Hlen. }
    destruct (array_get_defined (sequences r) 0 ltac:(lia)) as [seq0 H0].
    destruct (continuous_time_loop_correct r Hn (Z.to_nat (count r - 1)) 1 seq0
                ltac:(lia) ltac:(lia) H0) as [b [Hb Hiff]].
    assert (Hiff' : b = true <->
      every_pair (fun a c => upper (period a) = lower (period c)) seqs
                 (Z.of_nat (length seqs))).
    { rewrite Hiff. unfold every_pair, temporals_seq_n. rewrite Hseqs, Hcount.
      split; intros H i a c Hi; apply H; lia. }
    split; [exact Hflag|]. split.
    + exists b. split; [|split; [exact Hiff'|]].
      * unfold temporals_continuous_time_internal, temporals_seq_n. rewrite H0.
        exact Hb.
      * intros Hf. apply Hiff'. apply Hflag in Hf.
        intros i a c Hi Ha Hc. apply (Hf i a c Hi Ha Hc).
    + intros Hf. apply Hflag in Hf.
      destruct seqs as [|first l]; [cbn in Hpos; lia|].
      exists (mkPeriod (lower (period first)) (upper (period (last l first)))
                       (lower_inc (period first)) (upper_inc (period (last l first)))).
      split.
      * unfold temporals_timespan, temporals_seq_n. rewrite Hcount, Hseqs.
        rewrite (last_array_get l first first). reflexivity.
      * intros t Ht. apply meeting_pairs_cover; auto.
  - split; [reflexivity|]. split; [|split; [reflexivity|]].
    + intros r Hr.
      destruct (tempcontinuous (flags r)) eqn:Hf; [exfalso|reflexivity].
      apply (tempcontinuous_flag_meets (sequences hole_example) r Hr) in Hf.
      destruct (Hf 1 (flagged_seq 0 10 true false) (flagged_seq 10 20 false true))
        as [_ [H|H]]; try reflexivity; try discriminate H.
      cbn. lia.
    + intros [s [[<-|[<-|[]]] H]]; discriminate H.
Qed.

End ContinuousTimeProps.

Lemma temporals_tempcontinuous_flag_witness :
  exists r,
    temporals_from_temporalseqarr false 0 0 example_srid normalize_none
      (fun _ => 0) time_box (sequences walk_left_example) 2 false = Ok r /\
    tempcontinuous (flags r) = true /\
    temporals_continuous_time_internal r = Some true /\
    (forall t, in_period (mkPeriod 0 20 true true) t -> seqs_extent (sequences r) t).
Proof.
  exists (mkTS 2 23 (mkFlags false true false) (sequences walk_left_example) None).
  assert (Hr : temporals_from_temporalseqarr false 0 0 example_srid normalize_none
                 (fun _ => 0) time_box (sequences walk_left_example)
                 (Z.of_nat (length (sequences walk_left_example))) false
               = Ok (mkTS 2 23 (mkFlags false true false)
                          (sequences walk_left_example) None)) by reflexivity.
  split; [exact Hr|].
  destruct (proj1 (temporals_tempcontinuous_flag false 0 0 example_srid
                     normalize_none (fun _ => 0) time_box) _ _ Hr)
    as [_ [[b [Hb [_ Hfb]]] Hcover]].
  split; [reflexivity|]. split.
  - eapply eq_trans; [exact Hb|]. f_equal. apply Hfb. reflexivity.
  - destruct (Hcover eq_refl) as [p [Hp Hall]].
    injection Hp as <-. exact Hall.
Defined.

(** ** Hash *)

Lemma hash_step (r h : Z) :
  uint32_wrap (uint32_wrap (uint32_wrap (Z.shiftl r 5) - r) + uint32_wrap h)
  = (31 * r + h) mod 2 ^ 32.
Proof.
  unfold uint32_wrap. rewrite Z.shiftl_mul_pow2 by lia.
  rewrite Zminus_mod_idemp_l, Zplus_mod_idemp_l, Zplus_mod_idemp_r.
  f_equal. change (2 ^ 5) with 32. lia.
Qed.

Lemma hash_fold_mod (hash : TemporalSeq -> Z) :
  forall l a,
    (fold_left (fun acc s => 31 * acc + hash s) l a) mod 2 ^ 32 =
    (fold_left (fun acc s => 31 * acc + hash s) l (a mod 2 ^ 32)) mod 2 ^ 32.
Proof.
  induction l as [|s l IH]; intros a; cbn [fold_left].
  - rewrite Z.mod_mod by lia. reflexivity.
  - rewrite (IH (31 * a + hash s)), (IH (31 * (a mod 2 ^ 32) + hash s)).
    f_equal. f_equal.
    rewrite <- Zplus_mod_idemp_l, <- Zmult_mod_idemp_r, Zplus_mod_idemp_l.
    reflexivity.
Qed.

Section HashProps.

Variable temporalseq_hash : TemporalSeq -> Z.

Lemma hash_loop (ts : TemporalS) :
  forall l pre acc,
    sequences ts = pre ++ l ->
    for_loop (length l) (Z.of_nat (length pre))
      (fun i result =>
         match temporals_seq_n ts i with
         | Some seq =>
             let seq_hash := uint32_wrap (temporalseq_hash seq) in
             Ok (uint32_wrap (uint32_wrap (uint32_wrap (Z.shiftl result 5) - result)
                              + seq_hash))
         | None => Fault
         end) (acc mod 2 ^ 32)
    = Ok ((fold_left (fun a s => 31 * a + temporalseq_hash s) l acc) mod 2 ^ 32).
Proof.
  induction l as [|s rest IH]; intros pre acc Hseq.
  - reflexivity.
  - cbn [length for_loop fold_left]. unfold temporals_seq_n at 1.
    rewrite Hseq, array_get_middle. cbn [bind]. rewrite hash_step.
    replace (Z.of_nat (length pre) + 1) with (Z.of_nat (length (pre ++ [s])))
      by (rewrite length_app; cbn [length]; lia).
    replace ((31 * (acc mod 2 ^ 32) + temporalseq_hash s) mod 2 ^ 32)
      with ((31 * acc + temporalseq_hash s) mod 2 ^ 32).
    + apply IH. rewrite <- app_assoc. exact Hseq.
    + rewrite <- Zplus_mod_idemp_l, <- Zmult_mod_idemp_r, Zplus_mod_idemp_l.
      reflexivity.
Qed.

(** X9.  The hash of a sequence set is the value at 31 of the polynomial
    whose coefficients are 1 and then the hashes of the sequences in
    order, taken modulo 2^32: the wrap-arounds of the shift, of the
    subtraction and of the addition in [uint32] change nothing else.  It
    lies in the range of [uint32]. *)
Theorem temporals_hash_polynomial (ts : TemporalS) :
  count ts = Z.of_nat (length (sequences ts)) ->
  exists h,
    temporals_hash temporalseq_hash ts = Ok h /\
    h = (fold_left (fun acc s => 31 * acc + temporalseq_hash s)
                   (sequences ts) 1) mod 2 ^ 32 /\
    0 <= h < 2 ^ 32.
Proof.
  intros Hcount. eexists. split; [|split; [reflexivity|]].
  - unfold temporals_hash, for_range. rewrite Z.sub_0_r, Hcount, Nat2Z.id.
    exact (hash_loop ts (sequences ts) [] 1 eq_refl).
  - apply Z.mod_pos_bound. lia.
Qed.

End HashProps.

Lemma temporals_hash_polynomial_witness :
  temporals_hash (fun s => upper (period s)) example_ts
  = Ok (((31 * 1 + 10) * 31 + 30) * 31 + 50).
Proof.
  destruct (temporals_hash_polynomial (fun s => upper (period s)) example_ts)
    as [h [Hh [E _]]]; [reflexivity|].
  rewrite Hh, E. reflexivity.
Defined.
(** ** The comparator as an order *)

Lemma sgn_cases (x : Z) :
  (x < 0 /\ Z.sgn x = -1) \/ (x = 0 /\ Z.sgn x = 0) \/ (0 < x /\ Z.sgn x = 1).
Proof.
  destruct (Z.sgn_spec x) as [[? ?]|[[? ?]|[? ?]]]; [right; right|right; left|left];
    split; auto; lia.
Qed.

Section CompareOrderProps.

Variable temporalseq_cmp : TemporalSeq -> TemporalSeq -> Z.

Lemma temporals_cmp_loop_lex (a b : TemporalS) :
  count a = Z.of_nat (length (sequences a)) ->
  count b = Z.of_nat (length (sequences b)) ->
  forall l1 l2 pre1 pre2,
    sequences a = pre1 ++ l1 -> sequences b = pre2 ++ l2 ->
    length pre1 = length pre2 ->
    exists r,
      temporals_cmp_loop temporalseq_cmp (Nat.min (length l1) (length l2)) a b
                         (Z.of_nat (length pre1)) = Some r /\
      (if negb (r =? 0) then r
       else if count a <? count b then -1
       else if count b <? count a then 1 else 0)
      = seqs_cmp temporalseq_cmp l1 l2.
Proof.
  intros Ha Hb.
  induction l1 as [|x r1 IH]; intros l2 pre1 pre2 H1 H2 Hpre.
  - exists 0. split; [reflexivity|]. cbn [negb Z.eqb].
    rewrite Ha, Hb, H1, H2, !length_app, Hpre.
    destruct l2 as [|y r2]; cbn [length seqs_cmp].
    + rewrite Z.ltb_irrefl. reflexivity.
    + replace (_ <? _) with true by (symmetry; apply Z.ltb_lt; lia). reflexivity.
  - destruct l2 as [|y r2].
    + exists 0. split; [reflexivity|]. cbn [negb Z.eqb seqs_cmp].
      rewrite Ha, Hb, H1, H2, !length_app, Hpre. cbn [length].
      replace (Z.of_nat (length pre2 + S (length r1)) <? Z.of_nat (length pre2 + 0))
        with false by (symmetry; apply Z.ltb_ge; lia).
      replace (Z.of_nat (length pre2 + 0) <? Z.of_nat (length pre2 + S (length r1)))
        with true by (symmetry; apply Z.ltb_lt; lia).
      reflexivity.
    + cbn [length Nat.min temporals_cmp_loop seqs_cmp].
      assert (G1 : array_get (sequences a) (Z.of_nat (length pre1)) = Some x)
        by (rewrite H1; apply array_get_middle).
      assert (G2 : array_get (sequences b) (Z.of_nat (length pre1)) = Some y)
        by (rewrite H2, Hpre; apply array_get_middle).
      unfold temporals_seq_n at 1 2. rewrite G1, G2.
      destruct (temporalseq_cmp x y =? 0) eqn:E; cbn [negb].
      * replace (Z.of_nat (length pre1) + 1) with (Z.of_nat (length (pre1 ++ [x])))
          by (rewrite length_app; cbn [length]; lia).
        apply (IH r2 (pre1 ++ [x]) (pre2 ++ [y])).
        -- rewrite <- app_assoc. exact H1.
        -- rewrite <- app_assoc. exact H2.
        -- rewrite !length_app. cbn [length]. lia.
      * eexists. split; [reflexivity|]. rewrite E. reflexivity.
Qed.

Lemma temporals_cmp_lex (a b : TemporalS) :
  count a = Z.of_nat (length (sequences a)) ->
  count b = Z.of_nat (length (sequences b)) ->
  temporals_cmp temporalseq_cmp a b =
  Some (seqs_cmp temporalseq_cmp (sequences a) (sequences b)).
Proof.
  intros Ha Hb. unfold temporals_cmp.
  destruct (temporals_cmp_loop_lex a b Ha Hb (sequences a) (sequences b) [] []
              eq_refl eq_refl eq_refl) as [r [Hr E]].
  replace (Z.to_nat (Z.min (count a) (count b)))
    with (Nat.min (length (sequences a)) (length (sequences b))) by lia.
  cbn [length Z.of_nat] in Hr. rewrite Hr, <- E.
  destruct (negb (r =? 0)); [reflexivity|].
  destruct (count a <? count b); [reflexivity|].
  destruct (count b <? count a); reflexivity.
Qed.

Hypothesis Hcmp : cmp_preorder temporalseq_cmp.

Lemma seqs_cmp_refl (l : list TemporalSeq) : seqs_cmp temporalseq_cmp l l = 0.
Proof.
  destruct Hcmp as [Hrefl _].
  induction l as [|a l IH]; [reflexivity|].
  cbn [seqs_cmp]. rewrite Hrefl. exact IH.
Qed.

Lemma seqs_cmp_antisym :
  forall l1 l2,
    Z.sgn (seqs_cmp temporalseq_cmp l2 l1) = - Z.sgn (seqs_cmp temporalseq_cmp l1 l2).
Proof.
  destruct Hcmp as [_ [Hanti _]].
  induction l1 as [|a r1 IH]; intros [|b r2]; try reflexivity.
  cbn [seqs_cmp]. specialize (Hanti a b).
  destruct (sgn_cases (temporalseq_cmp a b)) as [[? Ea]|[[? Ea]|[? Ea]]];
  destruct (sgn_cases (temporalseq_cmp b a)) as [[? Eb]|[[? Eb]|[? Eb]]];
    rewrite Ea, Eb in Hanti; try lia.
  - replace (temporalseq_cmp a b =? 0) with false by (symmetry; apply Z.eqb_neq; lia).
    replace (temporalseq_cmp b a =? 0) with false by (symmetry; apply Z.eqb_neq; lia).
    cbn [negb]. lia.
  - replace (temporalseq_cmp a b =? 0) with true by (symmetry; apply Z.eqb_eq; lia).
    replace (temporalseq_cmp b a =? 0) with true by (symmetry; apply Z.eqb_eq; lia).
    cbn [negb]. apply IH.
  - replace (temporalseq_cmp a b =? 0) with false by (symmetry; apply Z.eqb_neq; lia).
    replace (temporalseq_cmp b a =? 0) with false by (symmetry; apply Z.eqb_neq; lia).
    cbn [negb]. lia.
Qed.

Lemma seqs_cmp_trans :
  forall l1 l2 l3,
    seqs_cmp temporalseq_cmp l1 l2 <= 0 -> seqs_cmp temporalseq_cmp l2 l3 <= 0 ->
    seqs_cmp temporalseq_cmp l1 l3 <= 0.
Proof.
  destruct Hcmp as [_ [Hanti Htrans]].
  assert (Hflip : forall s1 s2, temporalseq_cmp s1 s2 = 0 -> temporalseq_cmp s2 s1 = 0).
  { intros s1 s2 E. specialize (Hanti s1 s2). rewrite E in Hanti. cbn in Hanti.
    destruct (sgn_cases (temporalseq_cmp s2 s1)) as [[? Es]|[[? Es]|[? Es]]]; lia. }
  assert (Hlt : forall s1 s2, temporalseq_cmp s1 s2 < 0 -> ~ temporalseq_cmp s2 s1 <= 0).
  { intros s1 s2 E H. specialize (Hanti s1 s2).
    destruct (sgn_cases (temporalseq_cmp s1 s2)) as [[? Ea]|[[? Ea]|[? Ea]]];
    destruct (sgn_cases (temporalseq_cmp s2 s1)) as [[? Eb]|[[? Eb]|[? Eb]]]; lia. }
  induction l1 as [|a r1 IH]; intros l2 l3 H12 H23.
  - destruct l3; cbn; lia.
  - destruct l2 as [|b r2]; [cbn in H12; lia|].
    destruct l3 as [|c r3]; [cbn in H23; lia|].
    cbn [seqs_cmp] in *.
    destruct (Z.eqb_spec (temporalseq_cmp a b) 0) as [Eab|Eab];
    destruct (Z.eqb_spec (temporalseq_cmp b c) 0) as [Ebc|Ebc];
    cbn [negb] in *.
    + assert (Eac : temporalseq_cmp a c = 0).
      { pose proof (Htrans a b c ltac:(lia) ltac:(lia)).
        pose proof (Htrans c b a ltac:(rewrite (Hflip b c Ebc); lia)
                                 ltac:(rewrite (Hflip a b Eab); lia)) as Hca.
        destruct (Z.eq_dec (temporalseq_cmp a c) 0) as [E|E]; [exact E|].
        exfalso. apply (Hlt a c); [lia | exact Hca]. }
      rewrite Eac. cbn. eapply IH; eauto.
    + assert (Hac : temporalseq_cmp a c < 0).
      { pose proof (Htrans a b c ltac:(lia) ltac:(lia)).
        destruct (Z.eq_dec (temporalseq_cmp a c) 0) as [E|E]; [|lia].
        exfalso. apply (Hlt b c); [lia|].
        apply (Htrans c a b); [rewrite (Hflip a c E); lia | lia]. }
      replace (temporalseq_cmp a c =? 0) with false by (symmetry; apply Z.eqb_neq; lia).
      cbn. lia.
    + assert (Hac : temporalseq_cmp a c < 0).
      { pose proof (Htrans a b c ltac:(lia) ltac:(lia)).
        destruct (Z.eq_dec (temporalseq_cmp a c) 0) as [E|E]; [|lia].
        exfalso. apply (Hlt a b); [lia|].
        apply (Htrans b c a); [lia | rewrite (Hflip a c E); lia]. }
      replace (temporalseq_cmp a c =? 0) with false by (symmetry; apply Z.eqb_neq; lia).
      cbn. lia.
    + assert (Hac : temporalseq_cmp a c < 0).
      { pose proof (Htrans a b c ltac:(lia) ltac:(lia)).
        destruct (Z.eq_dec (temporalseq_cmp a c) 0) as [E|E]; [|lia].
        exfalso. apply (Hlt a b); [lia|].
        apply (Htrans b c a); [lia | rewrite (Hflip a c E); lia]. }
      replace (temporalseq_cmp a c =? 0) with false by (symmetry; apply Z.eqb_neq; lia).
      cbn. lia.
Qed.

(** X10.  When [temporalseq_cmp] is the three-way comparison of a total
    preorder on sequences, [temporals_cmp] is one on sequence sets, as a
    B-tree needs: a set compares equal to itself, swapping the arguments
    flips the sign of the answer, and [a <= b], [b <= c] give [a <= c].
    It is the lexicographic order of the arrays, a proper prefix coming
    first. *)
Theorem temporals_cmp_total_preorder (a b c : TemporalS) :
  count a = Z.of_nat (length (sequences a)) ->
  count b = Z.of_nat (length (sequences b)) ->
  count c = Z.of_nat (length (sequences c)) ->
  temporals_cmp temporalseq_cmp a a = Some 0 /\
  (exists x y,
     temporals_cmp temporalseq_cmp a b = Some x /\
     temporals_cmp temporalseq_cmp b a = Some y /\
     Z.sgn y = - Z.sgn x) /\
  (exists x y z,
     temporals_cmp temporalseq_cmp a b = Some x /\
     temporals_cmp temporalseq_cmp b c = Some y /\
     temporals_cmp temporalseq_cmp a c = Some z /\
     (x <= 0 -> y <= 0 -> z <= 0)) /\
  temporals_cmp temporalseq_cmp a b =
    Some (seqs_cmp temporalseq_cmp (sequences a) (sequences b)).
Proof.
  intros Ha Hb Hc.
  rewrite !temporals_cmp_lex by assumption.
  split; [f_equal; apply seqs_cmp_refl|]. split; [|split; [|reflexivity]].
  - eexists. eexists. split; [reflexivity|]. split; [reflexivity|].
    apply seqs_cmp_antisym.
  - eexists. eexists. eexists. repeat (split; [reflexivity|]).
    apply seqs_cmp_trans.
Qed.

End CompareOrderProps.

Lemma temporals_cmp_total_preorder_witness :
  let cmp := fun s1 s2 =>
    timestamp_cmp_internal (upper (period s1)) (upper (period s2)) in
  temporals_cmp cmp sync_right sync_left = Some 1 /\
  exists x y,
    temporals_cmp cmp sync_left sync_right = Some x /\
    temporals_cmp cmp sync_right sync_left = Some y /\
    Z.sgn y = - Z.sgn x.
Proof.
  intros cmp. split; [reflexivity|].
  apply (temporals_cmp_total_preorder cmp) with (c := sync_left);
    try reflexivity.
  unfold cmp_preorder, cmp, timestamp_cmp_internal. split; [|split].
  - intros s. rewrite Z.compare_refl. reflexivity.
  - intros s1 s2. rewrite (Z.compare_antisym (upper (period s1))).
    destruct (upper (period s1) ?= upper (period s2)); reflexivity.
  - intros s1 s2 s3.
    destruct (Z.compare_spec (upper (period s1)) (upper (period s2)));
    destruct (Z.compare_spec (upper (period s2)) (upper (period s3)));
    destruct (Z.compare_spec (upper (period s1)) (upper (period s3))); lia.
Defined.
(** ** Minimum and maximum value *)

Section ExtremeValueProps.

Variable seq_value : TemporalSeq -> Datum.
Variable better : Datum -> Datum -> Oid -> bool.

Lemma extreme_value_loop (ts : TemporalS) :
  forall l pre acc,
    sequences ts = pre ++ l ->
    for_loop (length l) (Z.of_nat (length pre))
      (fun i result =>
         match temporals_seq_n ts i with
         | None => Fault
         | Some seq =>
             let value := seq_value seq in
             Ok (if better value result (valuetypid ts) then value else result)
         end) acc
    = Ok (fold_left (fun r s => if better (seq_value s) r (valuetypid ts)
                                then seq_value s else r) l acc).
Proof.
  induction l as [|s rest IH]; intros pre acc Hseq; [reflexivity|].
  cbn [length for_loop fold_left]. unfold temporals_seq_n at 1.
  rewrite Hseq, array_get_middle. cbn [bind].
  replace (Z.of_nat (length pre) + 1) with (Z.of_nat (length (pre ++ [s])))
    by (rewrite length_app; cbn [length]; lia).
  apply IH. rewrite <- app_assoc. exact Hseq.
Qed.

Lemma extreme_fold (vt : Oid) :
  (forall a, better a a vt = false) ->
  (forall a b c, better a b vt = true -> better b c vt = true -> better a c vt = true) ->
  forall l acc seen,
    In acc seen ->
    (forall x, In x seen -> better x acc vt = false) ->
    let m := fold_left (fun r s => if better (seq_value s) r vt
                                   then seq_value s else r) l acc in
    In m (seen ++ map seq_value l) /\
    forall x, In x (seen ++ map seq_value l) -> better x m vt = false.
Proof.
  intros Hirr Htr.
  induction l as [|s rest IH]; intros acc seen Hacc Hseen; cbn [fold_left map].
  - rewrite app_nil_r. split; assumption.
  - replace (seen ++ seq_value s :: map seq_value rest)
      with ((seen ++ [seq_value s]) ++ map seq_value rest)
      by (rewrite <- app_assoc; reflexivity).
    apply IH.
    + destruct (better (seq_value s) acc vt); apply in_or_app;
        [right; left; reflexivity | left; exact Hacc].
    + intros x Hx. apply in_app_or in Hx.
      destruct (better (seq_value s) acc vt) eqn:E.
      * destruct Hx as [Hx|[<-|[]]]; [|apply Hirr].
        destruct (better x (seq_value s) vt) eqn:E'; [|reflexivity].
        rewrite <- (Hseen x Hx). symmetry. eapply Htr; eauto.
      * destruct Hx as [Hx|[<-|[]]]; [apply Hseen; exact Hx | exact E].
Qed.

Lemma extreme_value_extremal (ts : TemporalS) :
  count ts = Z.of_nat (length (sequences ts)) -> 1 <= count ts ->
  (forall a, better a a (valuetypid ts) = false) ->
  (forall a b c, better a b (valuetypid ts) = true ->
                 better b c (valuetypid ts) = true ->
                 better a c (valuetypid ts) = true) ->
  exists m,
    extreme_value seq_value better ts = Ok m /\
    (exists s, In s (sequences ts) /\ m = seq_value s) /\
    (forall s, In s (sequences ts) -> better (seq_value s) m (valuetypid ts) = false).
Proof.
  intros Hcount Hpos Hirr Htr. unfold extreme_value, temporals_seq_n.
  destruct (sequences ts) as [|s0 rest] eqn:Es; [cbn in Hcount; lia|].
  cbn [array_get Z.ltb Z.to_nat nth_error]. cbn [length] in Hcount.
  change (match 0 ?= 0 with Lt => true | _ => false end) with false. cbv iota.
  unfold for_range.
  replace (Z.to_nat (count ts - 1)) with (length rest) by lia.
  pose proof (extreme_value_loop ts rest [s0] (seq_value s0) Es) as Hloop.
  cbn [length Z.of_nat Pos.of_succ_nat] in Hloop.
  unfold temporals_seq_n in Hloop. rewrite Es in Hloop.
  eexists. split; [exact Hloop|].
  destruct (extreme_fold (valuetypid ts) Hirr Htr rest (seq_value s0) [seq_value s0])
    as [Hin Hmin].
  { left. reflexivity. }
  { intros x [<-|[]]. apply Hirr. }
  split.
  - cbn [app] in Hin. destruct Hin as [Hin|Hin].
    + exists s0. split; [left; reflexivity | symmetry; exact Hin].
    + apply in_map_iff in Hin. destruct Hin as [s [E Hs]].
      exists s. split; [right; exact Hs | symmetry; exact E].
  - intros s [<-|Hs]; apply Hmin.
    + left. reflexivity.
    + right. apply in_map. exact Hs.
Qed.

End ExtremeValueProps.

Section MinMaxValueProps.

Variable temporalseq_min_value temporalseq_max_value : TemporalSeq -> Datum.
Variable datum_lt datum_gt : Datum -> Datum -> Oid -> bool.

(** X11.  For a value type other than integer and float,
    [temporals_min_value] returns the minimum of one of the sequences, and
    the minimum of no sequence is [datum_lt] it, whenever [datum_lt] is
    irreflexive and transitive on that type; likewise
    [temporals_max_value] with [datum_gt].  For integers and floats both
    read the cached bounding box instead. *)
Theorem temporals_min_max_value_extremal (ts : TemporalS) :
  count ts = Z.of_nat (length (sequences ts)) -> 1 <= count ts ->
  (valuetypid ts =? INT4OID) || (valuetypid ts =? FLOAT8OID) = false ->
  (forall a, datum_lt a a (valuetypid ts) = false) ->
  (forall a b c, datum_lt a b (valuetypid ts) = true ->
                 datum_lt b c (valuetypid ts) = true ->
                 datum_lt a c (valuetypid ts) = true) ->
  (forall a, datum_gt a a (valuetypid ts) = false) ->
  (forall a b c, datum_gt a b (valuetypid ts) = true ->
                 datum_gt b c (valuetypid ts) = true ->
                 datum_gt a c (valuetypid ts) = true) ->
  (exists m,
     temporals_min_value temporalseq_min_value datum_lt ts = Ok m /\
     (exists s, In s (sequences ts) /\ m = temporalseq_min_value s) /\
     (forall s, In s (sequences ts) ->
        datum_lt (temporalseq_min_value s) m (valuetypid ts) = false)) /\
  (exists m,
     temporals_max_value temporalseq_max_value datum_gt ts = Ok m /\
     (exists s, In s (sequences ts) /\ m = temporalseq_max_value s) /\
     (forall s, In s (sequences ts) ->
        datum_gt (temporalseq_max_value s) m (valuetypid ts) = false)).
Proof.
  intros Hcount Hpos Hty Hi1 Ht1 Hi2 Ht2.
  unfold temporals_min_value, temporals_max_value. rewrite Hty.
  split; apply extreme_value_extremal; assumption.
Qed.

End MinMaxValueProps.

Lemma temporals_min_max_value_extremal_witness :
  temporals_min_value (fun s => lower (period s)) (fun a b _ => a <? b)
    (mkTS 3 25 (mkFlags false false false) (sequences example_ts) None) = Ok 0 /\
  temporals_max_value (fun s => upper (period s)) (fun a b _ => b <? a)
    (mkTS 3 25 (mkFlags false false false) (sequences example_ts) None) = Ok 50.
Proof.
  destruct (temporals_min_max_value_extremal
              (fun s => lower (period s)) (fun s => upper (period s))
              (fun a b _ => a <? b) (fun a b _ => b <? a)
              (mkTS 3 25 (mkFlags false false false) (sequences example_ts) None))
    as [[m [Hm _]] [M [HM _]]].
  - reflexivity.
  - simpl. lia.
  - reflexivity.
  - intros a. apply Z.ltb_irrefl.
  - intros a b c H1 H2. apply Z.ltb_lt in H1, H2. apply Z.ltb_lt. lia.
  - intros a. apply Z.ltb_irrefl.
  - intros a b c H1 H2. apply Z.ltb_lt in H1, H2. apply Z.ltb_lt. lia.
  - split; reflexivity.
Defined.

(** ** Restriction to a timestamp *)

Lemma find_timestamp_extent (ts : TemporalS) (t : TimestampTz) (found : bool) (pos : Z) :
  valid_temporals ts ->
  find_timestamp_post ts t found pos ->
  (found = true <-> seqs_extent (sequences ts) t).
Proof.
  intros [Hcnt [Hpos [Hval Hord]]] Hpost. destruct found; cbn in Hpost.
  - split; [|reflexivity]. intros _. destruct Hpost as [s [Hs Hc]].
    exists s. split; [eapply array_get_In; eauto | exact Hc].
  - split; [discriminate|]. intros [s [Hs Hc]]. exfalso.
    apply In_nth_error in Hs. destruct Hs as [k Hk].
    rewrite <- array_get_nth in Hk.
    destruct Hpost as [_ Hall]. destruct (Hall _ _ Hk) as [Hb Ha].
    destruct (Z_lt_le_dec (Z.of_nat k) pos) as [Hlt|Hge].
    + pose proof (period_before_lt _ _ _ (Hb Hlt) Hc). lia.
    + pose proof (period_after_gt _ _ _ (Ha Hge) Hc). lia.
Qed.

Lemma found_unique (ts : TemporalS) (t : TimestampTz) (n : Z) (seq s : TemporalSeq) :
  valid_temporals ts ->
  temporals_seq_n ts n = Some seq ->
  contains_period_timestamp_internal (period seq) t = true ->
  In s (sequences ts) -> in_period (period s) t -> s = seq.
Proof.
  intros [Hcnt [Hpos [Hval Hord]]] Hn Hc Hs Hin.
  apply In_nth_error in Hs. destruct Hs as [k Hk].
  rewrite <- array_get_nth in Hk.
  destruct (Z.lt_trichotomy (Z.of_nat k) n) as [Hlt|[E|Hgt]].
  - exfalso. eapply (period_left_disjoint (period s) (period seq) t); eauto.
    eapply (seqarr_ordered_pairs _ Hval Hord (Z.of_nat k) n); eauto.
  - rewrite E in Hk. unfold temporals_seq_n in Hn. congruence.
  - exfalso. eapply (period_left_disjoint (period seq) (period s) t); eauto.
    eapply (seqarr_ordered_pairs _ Hval Hord n (Z.of_nat k)); eauto.
Qed.

Section AtTimestampProps.

Variable A : Type.
(** A restriction of one sequence to a timestamp: [temporalseq_at_timestamp]
    or [temporalseq_value_at_timestamp]. *)
Variable seq_at : TemporalSeq -> TimestampTz -> option A.

(** The shape shared by [temporals_at_timestamp] and
    [temporals_value_at_timestamp]. *)
Lemma at_timestamp_shape (ts : TemporalS) (t : TimestampTz)
    (run : option (option A)) :
  run = (if count ts =? 1 then
           match temporals_seq_n ts 0 with
           | Some seq => Some (seq_at seq t)
           | None => None
           end
         else
           match temporals_find_timestamp ts t with
           | None => None
           | Some (false, _) => Some None
           | Some (true, n) =>
               match temporals_seq_n ts n with
               | Some seq => Some (seq_at seq t)
               | None => None
               end
           end) ->
  (forall seq u, seq_at seq u <> None <->
                 contains_period_timestamp_internal (period seq) u = true) ->
  valid_temporals ts -> count ts <= 2 ^ 30 ->
  exists r,
    run = Some r /\
    (r <> None <-> seqs_extent (sequences ts) t) /\
    (forall s, In s (sequences ts) -> in_period (period s) t -> r = seq_at s t).
Proof.
  intros -> Hat Hvalid Hsz. pose proof Hvalid as [Hcnt [Hpos [Hval Hord]]].
  destruct (Z.eqb_spec (count ts) 1) as [E1|E1].
  - destruct (sequences ts) as [|s0 [|s1 rest]] eqn:Es;
      try (cbn [length] in Hcnt; lia).
    unfold temporals_seq_n. rewrite Es. cbn [array_get Z.ltb Z.to_nat nth_error].
    change (match 0 ?= 0 with Lt => true | _ => false end) with false. cbv iota.
    exists (seq_at s0 t). split; [reflexivity|]. split.
    + rewrite Hat. split.
      * intros Hc. exists s0. split; [left; reflexivity | exact Hc].
      * intros [s [[<-|[]] Hc]]. exact Hc.
    + intros s [<-|[]] _. reflexivity.
  - destruct (temporals_find_timestamp_defined ts t Hvalid Hsz)
      as [found [pos [Hrun [Hpost _]]]].
    rewrite Hrun.
    pose proof (find_timestamp_extent ts t found pos Hvalid Hpost) as Hext.
    destruct found.
    + destruct Hpost as [seq [Hseq Hc]]. rewrite Hseq.
      exists (seq_at seq t). split; [reflexivity|]. split.
      * split; [intros _; apply Hext; reflexivity|].
        intros _. apply Hat. exact Hc.
      * intros s Hs Hin. f_equal. symmetry.
        exact (found_unique ts t pos seq s Hvalid Hseq Hc Hs Hin).
    + exists None. split; [reflexivity|]. split.
      * split; [intros H; contradiction|].
        intros H. apply Hext in H. discriminate H.
      * intros s Hs Hin. exfalso.
        assert (H : false = true) by (apply Hext; exists s; split; assumption).
        discriminate H.
Qed.

End AtTimestampProps.

Section AtTimestampResults.

Variable temporalseq_at_timestamp : TemporalSeq -> TimestampTz -> option TemporalInst.
Variable temporalseq_value_at_timestamp : TemporalSeq -> TimestampTz -> option Datum.

(** X12.  Let the restriction of one sequence to a timestamp be defined
    exactly on the timestamps its period contains.  Then on a valid
    sequence set [temporals_at_timestamp] and
    [temporals_value_at_timestamp] are defined (not NULL, not [false])
    exactly on the timestamps that some sequence contains, and there they
    are the restriction of every sequence -- there is only one -- that
    contains the timestamp.  The synchronisation with an instant succeeds
    on the same timestamps, and both its outputs are the instant of the
    set at the timestamp of the instant given: nothing else of that
    instant is read, in either order of the arguments. *)
Theorem temporals_at_timestamp_extent (ts : TemporalS) (t : TimestampTz) :
  (forall seq u, temporalseq_at_timestamp seq u <> None <->
                 contains_period_timestamp_internal (period seq) u = true) ->
  (forall seq u, temporalseq_value_at_timestamp seq u <> None <->
                 contains_period_timestamp_internal (period seq) u = true) ->
  valid_temporals ts -> count ts <= 2 ^ 30 ->
  (exists r,
     temporals_at_timestamp temporalseq_at_timestamp ts t = Some r /\
     (r <> None <-> seqs_extent (sequences ts) t) /\
     (forall s, In s (sequences ts) -> in_period (period s) t ->
                r = temporalseq_at_timestamp s t)) /\
  (exists r,
     temporals_value_at_timestamp temporalseq_value_at_timestamp ts t = Some r /\
     (r <> None <-> seqs_extent (sequences ts) t) /\
     (forall s, In s (sequences ts) -> in_period (period s) t ->
                r = temporalseq_value_at_timestamp s t)) /\
  (forall inst, inst_t inst = t ->
     exists r,
       synchronize_temporals_temporalinst temporalseq_at_timestamp ts inst = Some r /\
       synchronize_temporalinst_temporals temporalseq_at_timestamp inst ts = Some r /\
       (r <> None <-> seqs_extent (sequences ts) t) /\
       (forall sync1 sync2, r = Some (sync1, sync2) ->
          sync2 = sync1 /\
          temporals_at_timestamp temporalseq_at_timestamp ts t = Some (Some sync1))).
Proof.
  intros H1 H2 Hvalid Hsz.
  pose proof (at_timestamp_shape _ temporalseq_at_timestamp ts t _ eq_refl H1
                Hvalid Hsz) as Hat.
  split; [exact Hat|]. split.
  - exact (at_timestamp_shape _ temporalseq_value_at_timestamp ts t _ eq_refl H2
             Hvalid Hsz).
  - intros inst <-. destruct Hat as [r [Hr [Hext _]]].
    change (temporals_at_timestamp temporalseq_at_timestamp ts (inst_t inst) = Some r)
      in Hr.
    unfold synchronize_temporalinst_temporals, synchronize_temporals_temporalinst.
    rewrite Hr. destruct r as [inst1|].
    + eexists. split; [reflexivity|]. split; [reflexivity|]. split.
      * split; [intros _; apply Hext; discriminate | discriminate].
      * intros sync1 sync2 [= <- <-]. split; reflexivity.
    + exists None. split; [reflexivity|]. split; [reflexivity|]. split.
      * split; [intros H; contradiction|].
        intros H. apply Hext in H. contradiction.
      * intros sync1 sync2 H. discriminate H.
Qed.

End AtTimestampResults.

Lemma temporals_at_timestamp_extent_witness :
  temporals_at_timestamp at_timestamp_example example_ts 25
    = Some (Some (mkInst 1 25 23)) /\
  temporals_at_timestamp at_timestamp_example example_ts 35 = Some None /\
  exists r,
    temporals_at_timestamp at_timestamp_example example_ts 25 = Some r /\
    (r <> None <-> seqs_extent (sequences example_ts) 25).
Proof.
  split; [reflexivity|]. split; [reflexivity|].
  destruct (temporals_at_timestamp_extent at_timestamp_example
              value_at_timestamp_example example_ts 25) as [[r [Hr [Hext _]]] _].
  - intros seq u. unfold at_timestamp_example.
    destruct (contains_period_timestamp_internal (period seq) u).
    + destruct (instants seq); split; auto; discriminate.
    + split; [intros H; contradiction | discriminate].
  - intros seq u. unfold value_at_timestamp_example, at_timestamp_example.
    destruct (contains_period_timestamp_internal (period seq) u).
    + destruct (instants seq); split; auto; discriminate.
    + split; [intros H; contradiction | discriminate].
  - unfold valid_temporals. simpl. repeat split; try reflexivity; lia.
  - simpl. lia.
  - exists r. split; [exact Hr | exact Hext].
Defined.

(** ** Transformation of an instant set to a sequence set *)

Lemma consecutive_seqarr_ordered (l : list TemporalSeq) :
  (forall i a b, 1 <= i -> array_get l (i - 1) = Some a -> array_get l i = Some b ->
                 seq_pair_invalid a b = false) ->
  seqarr_ordered l = true.
Proof.
  induction l as [|x l IH]; intros H; [reflexivity|].
  destruct l as [|y l]; [reflexivity|].
  cbn [seqarr_ordered]. apply andb_true_iff. split.
  - rewrite (H 1 x y); [reflexivity|lia|reflexivity|reflexivity].
  - apply IH. intros i a b Hi Ha Hb.
    apply (H (i + 1)); [lia| |].
    + rewrite array_get_cons by lia.
      replace (i + 1 - 1 - 1) with (i - 1) by lia. exact Ha.
    + rewrite array_get_cons by lia.
      replace (i + 1 - 1) with i by lia. exact Hb.
Qed.

(** A loop that stores [f (l[i])] at index [i] builds [map f l]. *)
Lemma for_loop_collect {A B : Type} (f : A -> B) (l : list A) :
  forall (rest pre : list A) (acc : list B),
    l = pre ++ rest ->
    for_loop (length rest) (Z.of_nat (length pre))
      (fun i sequences =>
         match array_get l i with
         | Some x => Ok (sequences ++ [f x])
         | None => Fault
         end) acc = Ok (acc ++ map f rest).
Proof.
  induction rest as [|x r IH]; intros pre acc E.
  - cbn. rewrite app_nil_r. reflexivity.
  - cbn [length for_loop]. rewrite E at 1. rewrite array_get_middle. cbn [bind].
    replace (Z.of_nat (length pre) + 1) with (Z.of_nat (length (pre ++ [x])))
      by (rewrite length_app; cbn [length]; lia).
    rewrite (IH (pre ++ [x]) (acc ++ [f x])).
    + rewrite <- app_assoc. reflexivity.
    + rewrite <- app_assoc. exact E.
Qed.

Section AsTemporalsProps.

Variable with_postgis : bool.
Variable geometry_oid geography_oid : Oid.
Variable tpoint_srid_internal : TemporalSeq -> Z.
Variable temporalseqarr_normalize : list TemporalSeq -> list TemporalSeq.
Variable temporal_bbox_size : Oid -> Z.
Variable temporals_make_bbox : list TemporalSeq -> BOX.
Variable temporalseq_from_temporalinstarr :
  list TemporalInst -> Z -> bool -> bool -> bool -> TemporalSeq.

(** Without normalisation and outside the geometry case the constructor
    accepts an array exactly when it is ordered, and keeps it. *)
Lemma from_seqarr_plain (seqs : list TemporalSeq) :
  with_postgis = false -> seqs <> [] ->
  let r := temporals_from_temporalseqarr with_postgis geometry_oid geography_oid
             tpoint_srid_internal temporalseqarr_normalize temporal_bbox_size
             temporals_make_bbox seqs (Z.of_nat (length seqs)) false in
  if seqarr_ordered seqs
  then exists ts, r = Ok ts /\ sequences ts = seqs /\
                  count ts = Z.of_nat (length seqs)
  else r = Err (RestrictViolation msg_invalid_sequence).
Proof.
  intros Hpg Hne r. subst r. unfold temporals_from_temporalseqarr.
  destruct seqs as [|seq0 rest] eqn:Eseqs; [contradiction|]. rewrite <- Eseqs in *.
  assert (H0 : array_get seqs 0 = Some seq0) by (rewrite Eseqs; reflexivity).
  rewrite H0.
  assert (Hlen : 1 <= Z.of_nat (length seqs)) by (rewrite Eseqs; cbn [length]; lia).
  replace (Z.of_nat (length seqs) <? 1) with false
    by (symmetry; apply Z.ltb_ge; lia).
  unfold is_geo. rewrite Hpg. cbn [andb].
  unfold for_range.
  destruct (from_seqarr_loop tpoint_srid_internal seqs false
              (tpoint_srid_internal seq0) (hasz (seq_flags seq0))
              (Z.to_nat (Z.of_nat (length seqs) - 1)) 1 true
              ltac:(lia) ltac:(lia))
    as [[Hnone [tc ->]]|[j [e [Hj [He ->]]]]]; cbn [bind].
  - assert (Hord : seqarr_ordered seqs = true).
    { apply consecutive_seqarr_ordered. intros i a b Hi Ha Hb.
      pose proof (array_get_bounds _ _ _ Hb) as Hbi.
      specialize (Hnone i ltac:(lia)). unfold from_seqarr_error in Hnone.
      rewrite Ha, Hb in Hnone.
      destruct (seq_pair_invalid a b); [discriminate|reflexivity]. }
    rewrite Hord. unfold array_prefix. rewrite Z.ltb_irrefl. cbn [bind andb].
    rewrite Nat2Z.id, firstn_all. rewrite H0.
    eexists. split; [reflexivity|]. cbn [sequences count]. split; reflexivity.
  - unfold from_seqarr_error in He.
    destruct (array_get seqs (j - 1)) as [a|] eqn:Ha; [|discriminate].
    destruct (array_get seqs j) as [b|] eqn:Hb; [|discriminate].
    destruct (seq_pair_invalid a b) eqn:Hinv; [|cbn [andb] in He; discriminate].
    injection He as <-.
    destruct (seqarr_ordered seqs) eqn:Hord; [|reflexivity].
    rewrite (seqarr_ordered_consecutive seqs Hord j a b ltac:(lia) Ha Hb) in Hinv.
    discriminate.
Qed.

(** The sequences built from instants are ordered exactly when the
    timestamps of the instants increase strictly. *)
Lemma instant_seqs_ordered (f : TemporalInst -> TemporalSeq) :
  (forall inst, period (f inst) = mkPeriod (inst_t inst) (inst_t inst) true true) ->
  forall l, seqarr_ordered (map f l) = true <-> increasing (map inst_t l).
Proof.
  intros Hf. induction l as [|a l IH]; [cbn; tauto|].
  destruct l as [|b l].
  { cbn. split; auto. }
  change (map f (a :: b :: l)) with (f a :: f b :: map f l).
  change (map inst_t (a :: b :: l)) with (inst_t a :: inst_t b :: map inst_t l).
  cbn [seqarr_ordered increasing].
  change (f b :: map f l) with (map f (b :: l)).
  rewrite andb_true_iff, negb_true_iff, IH.
  change (map inst_t (b :: l)) with (inst_t b :: map inst_t l).
  cbn [increasing].
  assert (Hp : seq_pair_invalid (f a) (f b) = false <-> inst_t a < inst_t b).
  { unfold seq_pair_invalid. rewrite !Hf. cbn [upper lower upper_inc lower_inc].
    rewrite timestamp_cmp_gt, timestamp_cmp_eq, !andb_true_r.
    rewrite orb_false_iff, Z.ltb_ge, Z.eqb_neq. lia. }
  rewrite Hp. split.
  - intros [Hab [Hb Hinc]]. repeat split; auto.
    constructor; [exact Hab|].
    eapply Forall_impl; [|exact Hb]. cbn. intros; lia.
  - intros [Ha [Hb Hinc]]. inversion Ha; subst. repeat split; auto.
Qed.

(** X13.  Transformation to a sequence set.  A sequence, and an instant,
    always give a sequence set of one sequence, whatever the period of the
    sequence is.  An instant set of [count >= 1] instants, in a build
    without PostGIS, gives the set of its instants as instantaneous
    sequences exactly when the timestamps of its instants increase
    strictly; otherwise the transformation ends in the error of an invalid
    sequence set. *)
Theorem temporali_as_temporals_increasing (ti : TemporalI) :
  with_postgis = false ->
  (forall inst, period (temporalseq_from_temporalinstarr [inst] 1 true true false) =
                mkPeriod (inst_t inst) (inst_t inst) true true) ->
  ti_count ti = Z.of_nat (length (ti_instants ti)) ->
  1 <= ti_count ti ->
  let as_temporals :=
    temporali_as_temporals with_postgis geometry_oid geography_oid
      tpoint_srid_internal temporalseqarr_normalize temporal_bbox_size
      temporals_make_bbox temporalseq_from_temporalinstarr in
  let built :=
    map (fun inst => temporalseq_from_temporalinstarr [inst] 1 true true false)
        (ti_instants ti) in
  (increasing (map inst_t (ti_instants ti)) ->
   exists ts, as_temporals ti = Ok ts /\ sequences ts = built /\
              count ts = ti_count ti /\ valid_temporals ts) /\
  (~ increasing (map inst_t (ti_instants ti)) ->
   as_temporals ti = Err (RestrictViolation msg_invalid_sequence)) /\
  (forall seq, exists ts,
     temporalseq_as_temporals with_postgis geometry_oid geography_oid
       tpoint_srid_internal temporalseqarr_normalize temporal_bbox_size
       temporals_make_bbox seq = Ok ts /\
     sequences ts = [seq] /\ count ts = 1) /\
  (forall inst, exists ts,
     temporalinst_as_temporals with_postgis geometry_oid geography_oid
       tpoint_srid_internal temporalseqarr_normalize temporal_bbox_size
       temporals_make_bbox temporalseq_from_temporalinstarr inst = Ok ts /\
     sequences ts = [temporalseq_from_temporalinstarr [inst] 1 true true false] /\
     count ts = 1).
Proof.
  intros Hpg Hmk Hcnt Hpos as_temporals built.
  set (f := fun inst => temporalseq_from_temporalinstarr [inst] 1 true true false)
    in *.
  assert (Hrun : as_temporals ti =
            temporals_from_temporalseqarr with_postgis geometry_oid geography_oid
              tpoint_srid_internal temporalseqarr_normalize temporal_bbox_size
              temporals_make_bbox built (Z.of_nat (length built)) false).
  { subst as_temporals. unfold temporali_as_temporals, for_range, temporali_inst_n.
    rewrite Z.sub_0_r, Hcnt, Nat2Z.id.
    pose proof (for_loop_collect f (ti_instants ti) (ti_instants ti) [] []
                  eq_refl) as Hl.
    cbn [length Z.of_nat app] in Hl.
    eapply eq_trans; [apply (f_equal (fun r => bind r _)); exact Hl|].
    cbn [bind]. subst built. rewrite length_map. reflexivity. }
  assert (Hne : built <> []).
  { subst built. destruct (ti_instants ti); [cbn [length] in Hcnt; lia|discriminate]. }
  pose proof (from_seqarr_plain built Hpg Hne) as Hplain. cbv zeta in Hplain.
  rewrite <- Hrun in Hplain.
  pose proof (instant_seqs_ordered f Hmk (ti_instants ti)) as Hord.
  fold built in Hord.
  split; [|split; [|split]].
  - intros Hinc. apply Hord in Hinc. rewrite Hinc in Hplain.
    destruct Hplain as [ts [Hok [Hs Hc]]]. exists ts.
    assert (Hc' : count ts = ti_count ti).
    { rewrite Hc, Hcnt. subst built. rewrite length_map. reflexivity. }
    repeat split; auto.
    + rewrite Hs. exact Hc.
    + lia.
    + rewrite Hs. subst built. apply forallb_forall. intros s Hin.
      apply in_map_iff in Hin. destruct Hin as [inst [<- _]].
      unfold period_valid, f. rewrite Hmk. cbn [lower upper lower_inc upper_inc].
      rewrite Z.eqb_refl, orb_true_r. reflexivity.
    + rewrite Hs. exact Hinc.
  - intros Hninc. destruct (seqarr_ordered built) eqn:E; [|exact Hplain].
    exfalso. apply Hninc, Hord. reflexivity.
  - intros seq. unfold temporalseq_as_temporals, temporals_from_temporalseqarr.
    cbn. destruct (temporal_bbox_size (seq_valuetypid seq) =? 0);
      eexists; (split; [reflexivity|split; reflexivity]).
  - intros inst. unfold temporalinst_as_temporals, temporals_from_temporalseqarr.
    cbn. destruct (temporal_bbox_size _ =? 0);
      eexists; (split; [reflexivity|split; reflexivity]).
Qed.

End AsTemporalsProps.

Lemma temporali_as_temporals_increasing_witness :
  exists ts,
    temporali_as_temporals false 0 0 example_srid normalize_none (fun _ => 0)
      time_box instant_seq_of
      (mkTI 3 [mkInst 1 0 23; mkInst 2 10 23; mkInst 3 20 23]) = Ok ts /\
    count ts = 3.
Proof.
  assert (Hinc : increasing (map inst_t [mkInst 1 0 23; mkInst 2 10 23; mkInst 3 20 23])).
  { cbn. repeat split; repeat constructor. }
  destruct (temporali_as_temporals_increasing false 0 0 example_srid normalize_none
              (fun _ => 0) time_box instant_seq_of
              (mkTI 3 [mkInst 1 0 23; mkInst 2 10 23; mkInst 3 20 23])
              eq_refl (fun inst => eq_refl) eq_refl ltac:(cbn; lia))
    as [Hyes _].
  destruct (Hyes Hinc) as [ts [Hok [_ [Hc _]]]].
  exists ts. split; [exact Hok | exact Hc].
Defined.

(** ** Restriction to a timestamp set *)

Section AtTimestampSetProps.

Variable temporalseq_at_timestamp : TemporalSeq -> TimestampTz -> option TemporalInst.
Variable temporalseq_at_timestampset : TemporalSeq -> TimestampSet -> option TemporalI.
Variable temporali_from_temporalinstarr : list TemporalInst -> Z -> TemporalI.

Lemma at_timestampset_loop_sound (ts1 : TemporalS) (ts2 : TimestampSet) :
  forall fuel i j instants result,
    Forall (restricted_instant temporalseq_at_timestamp ts1 ts2) instants ->
    at_timestampset_loop temporalseq_at_timestamp fuel ts1 ts2 i j instants
      = Some result ->
    Forall (restricted_instant temporalseq_at_timestamp ts1 ts2) result.
Proof.
  induction fuel as [|fuel IH]; intros i j instants result Hinv Hrun;
    cbn [at_timestampset_loop] in Hrun;
    destruct ((i <? tss_count ts2) && (j <? count ts1));
    try discriminate; try (injection Hrun as <-; exact Hinv).
  destruct (temporals_seq_n ts1 j) as [seq|] eqn:Hseq; [|discriminate].
  destruct (timestampset_time_n ts2 i) as [t|] eqn:Ht; [|discriminate].
  cbv zeta in Hrun. eapply IH; [|exact Hrun].
  destruct (contains_period_timestamp_internal (period seq) t) eqn:Hc; [|exact Hinv].
  apply Forall_app. split; [exact Hinv|].
  constructor; [|constructor].
  exists seq, t. repeat split; auto.
  - eapply array_get_In. exact Hseq.
  - eapply array_get_In. exact Ht.
Qed.

(** X14.  Restriction to a timestamp set, general case.  Every instant
    of the result is the restriction of a sequence of the set to a
    timestamp of the timestamp set that the sequence contains.  Not every
    such timestamp is kept: when the first timestamp is the inclusive
    lower bound of the first sequence, the loop advances twice in the
    timestamp set, so that of the timestamps [lower] and [u] only [lower]
    is kept, whatever [u] is, the timestamps of the sequences included. *)
Theorem temporals_at_timestampset_skips
    (ts1 : TemporalS) (seq0 : TemporalSeq) (rest : list TemporalSeq)
    (u : TimestampTz) :
  sequences ts1 = seq0 :: rest ->
  2 <= count ts1 ->
  period_valid (period seq0) = true ->
  lower_inc (period seq0) = true ->
  lower (period seq0) < u ->
  (forall ts2 fuel result,
     at_timestampset_loop temporalseq_at_timestamp fuel ts1 ts2 0 0 [] = Some result ->
     Forall (restricted_instant temporalseq_at_timestamp ts1 ts2) result) /\
  temporals_at_timestampset temporalseq_at_timestamp temporalseq_at_timestampset
    temporali_from_temporalinstarr ts1 (mkTSS 2 [lower (period seq0); u]) =
  match temporalseq_at_timestamp seq0 (lower (period seq0)) with
  | Some inst => Some (Some (temporali_from_temporalinstarr [inst] 1))
  | None => None
  end.
Proof.
  intros Hs Hc Hv Hli Hu. split.
  { intros ts2 fuel result Hrun.
    eapply at_timestampset_loop_sound; [|exact Hrun]. constructor. }
  unfold temporals_at_timestampset.
  replace (count ts1 =? 1) with false by (symmetry; apply Z.eqb_neq; lia).
  cbn [tss_count].
  destruct (Z.to_nat (2 + count ts1)) as [|fuel] eqn:Ef; [lia|].
  cbn [at_timestampset_loop tss_count].
  replace (0 <? count ts1) with true by (symmetry; apply Z.ltb_lt; lia).
  cbn [andb Z.ltb Z.compare].
  unfold temporals_seq_n. rewrite Hs.
  change (array_get (seq0 :: rest) 0) with (Some seq0).
  change (timestampset_time_n (mkTSS 2 [lower (period seq0); u]) 0)
    with (Some (lower (period seq0))).
  cbv zeta.
  assert (Hcont : contains_period_timestamp_internal (period seq0)
                    (lower (period seq0)) = true).
  { unfold contains_period_timestamp_internal. unfold period_valid in Hv.
    rewrite ?timestamp_cmp_lt, ?timestamp_cmp_gt, ?timestamp_cmp_eq,
      ?timestamp_cmp_le, ?timestamp_cmp_ge.
    rewrite Hli in *.
    destruct (lower (period seq0) <? upper (period seq0)) eqn:E1;
      destruct (lower (period seq0) =? upper (period seq0)) eqn:E2;
      destruct (upper_inc (period seq0));
      cbn in Hv |- *; try discriminate;
      rewrite ?Z.ltb_irrefl, ?Z.eqb_refl; cbn; try reflexivity;
      try (apply Z.eqb_eq in E2; rewrite <- E2;
           rewrite ?Z.ltb_irrefl, ?Z.eqb_refl; reflexivity). }
  cbv iota beta. rewrite Hcont. rewrite timestamp_cmp_le, Z.leb_refl.
  cbn [app]. replace (0 + 1 + 1) with 2 by lia.
  destruct fuel; cbn [at_timestampset_loop tss_count andb Z.ltb Z.compare];
    cbn [length Z.of_nat Z.eqb Pos.of_succ_nat all_some];
    destruct (temporalseq_at_timestamp seq0 (lower (period seq0)));
    reflexivity.
Qed.

End AtTimestampSetProps.

Lemma temporals_at_timestampset_skips_witness :
  temporals_at_timestampset at_timestamp_example (fun _ _ => None)
    (fun l n => mkTI n l) touching_example (mkTSS 2 [0; 5]) =
  Some (Some (mkTI 1 [mkInst 1 0 23])) /\
  contains_period_timestamp_internal (period (closed_seq 0 10)) 5 = true.
Proof.
  split; [|reflexivity].
  exact (proj2 (temporals_at_timestampset_skips at_timestamp_example (fun _ _ => None)
                  (fun l n => mkTI n l) touching_example (closed_seq 0 10)
                  [closed_seq 30 40] 5 eq_refl ltac:(cbn; lia) eq_refl eq_refl
                  ltac:(cbn; lia))).
Defined.

(** ** Output *)

Lemma list_set_length {A : Type} (l : list A) (n : nat) (x : A) :
  length (list_set l n x) = length l.
Proof.
  revert n. induction l as [|a l IH]; intros [|n]; cbn; auto.
Qed.

Lemma buf_set_middle (pre : buffer) (x : option Ascii.ascii) (rest : buffer)
    (c : Ascii.ascii) :
  buf_set (pre ++ x :: rest) (Z.of_nat (length pre)) c = Ok (pre ++ Some c :: rest).
Proof.
  unfold buf_set, array_set. rewrite length_app. cbn [length].
  replace (Z.of_nat (length pre) <? 0) with false by (symmetry; apply Z.ltb_ge; lia).
  replace (Z.of_nat (length pre + S (length rest)) <=? Z.of_nat (length pre))
    with false by (symmetry; apply Z.leb_gt; lia).
  cbn [orb]. rewrite Nat2Z.id, list_set_app. reflexivity.
Qed.

Lemma buf_set_inside (buf : buffer) (i : Z) (c : Ascii.ascii) :
  0 <= i < Z.of_nat (length buf) ->
  exists buf', buf_set buf i c = Ok buf' /\ length buf' = length buf.
Proof.
  intros H. unfold buf_set, array_set.
  replace (i <? 0) with false by (symmetry; apply Z.ltb_ge; lia).
  replace (Z.of_nat (length buf) <=? i) with false by (symmetry; apply Z.leb_gt; lia).
  cbn [orb]. eexists. split; [reflexivity|]. apply list_set_length.
Qed.

Lemma strcpy_at (s : cstring) :
  forall (pre rest : buffer),
    (length s < length rest)%nat ->
    exists rest',
      strcpy (pre ++ rest) (Z.of_nat (length pre)) s =
        Ok (pre ++ map Some s ++ Some Ascii.zero :: rest') /\
      length rest = (length s + 1 + length rest')%nat.
Proof.
  induction s as [|c r IH]; intros pre rest Hlen.
  - destruct rest as [|x rest]; [cbn in Hlen; lia|].
    exists rest. cbn [strcpy map app]. rewrite buf_set_middle.
    split; [reflexivity|cbn [length]; lia].
  - destruct rest as [|x rest]; [cbn in Hlen; lia|].
    cbn [length] in Hlen.
    destruct (IH (pre ++ [Some c]) rest ltac:(lia)) as [rest' [Hcp Hl]].
    exists rest'. cbn [strcpy]. rewrite buf_set_middle. cbn [bind].
    replace (Z.of_nat (length pre) + 1) with (Z.of_nat (length (pre ++ [Some c])))
      by (rewrite length_app; cbn [length]; lia).
    replace (pre ++ Some c :: rest) with ((pre ++ [Some c]) ++ rest)
      by (rewrite <- app_assoc; reflexivity).
    rewrite Hcp. rewrite <- app_assoc. split; [reflexivity|].
    cbn [length]. lia.
Qed.

Lemma separated_length_app (l m : list cstring) :
  separated_length (l ++ m) = separated_length l + separated_length m.
Proof.
  induction l as [|a l IH]; cbn [app separated_length]; [lia|]. lia.
Qed.

Lemma separated_length_nonneg (l : list cstring) : 0 <= separated_length l.
Proof.
  induction l as [|a l IH]; cbn [separated_length]; [lia|]. unfold strlen. lia.
Qed.

Lemma separated_length_correct (l : list cstring) :
  Z.of_nat (length (separated l)) = separated_length l.
Proof.
  induction l as [|a l IH]; [reflexivity|].
  unfold separated in *. cbn [map concat separated_length]. rewrite !length_app, Nat2Z.inj_add, IH.
  rewrite Nat2Z.inj_add. cbn [length]. unfold strlen. lia.
Qed.

Lemma join_strings_last (l : list cstring) (s : cstring) :
  join_strings (l ++ [s]) = separated l ++ s.
Proof.
  induction l as [|a l IH]; [reflexivity|].
  destruct l as [|b l].
  - unfold separated. cbn [app map concat join_strings].
    rewrite app_nil_r, <- app_assoc. reflexivity.
  - change (join_strings ((a :: b :: l) ++ [s]))
      with (a ++ [char_comma; char_space] ++ join_strings ((b :: l) ++ [s])).
    rewrite IH. unfold separated. cbn [map concat].
    rewrite <- !app_assoc. reflexivity.
Qed.

Lemma separated_last (l : list cstring) (s : cstring) :
  separated (l ++ [s]) = separated l ++ s ++ [char_comma; char_space].
Proof.
  unfold separated. rewrite map_app, concat_app. cbn [map concat].
  rewrite app_nil_r. reflexivity.
Qed.

Lemma buf_string_prefix (pre : cstring) (rest : buffer) :
  Forall (fun c => c <> Ascii.zero) pre ->
  buf_string (map Some pre ++ Some Ascii.zero :: rest) = Some pre.
Proof.
  induction 1 as [|c pre Hc _ IH]; [reflexivity|].
  cbn [map app buf_string].
  destruct (Ascii.eqb c Ascii.zero) eqn:E; [apply Ascii.eqb_eq in E; contradiction|].
  rewrite IH. reflexivity.
Qed.

Section ToStringProps.

Variable value_out : Oid -> Datum -> cstring.
Variable temporalseq_to_string : TemporalSeq -> (Oid -> Datum -> cstring) -> cstring.

(** The first loop: the strings of the sequences and [outlen]. *)
Lemma to_string_collect (ts : TemporalS) (size : Z) :
  forall (rest pre : list TemporalSeq) (acc : list cstring) (outlen : Z),
    sequences ts = pre ++ rest ->
    8 * Z.of_nat (length (sequences ts)) <= size ->
    for_loop (length rest) (Z.of_nat (length pre))
      (fun i p =>
         match temporals_seq_n ts i with
         | Some seq =>
             if 8 * i <? size then
               let s := temporalseq_to_string seq value_out in
               Ok (fst p ++ [s], snd p + (strlen s + 2))
             else Fault
         | None => Fault
         end) (acc, outlen) =
    Ok (acc ++ map (fun seq => temporalseq_to_string seq value_out) rest,
        outlen + separated_length
                   (map (fun seq => temporalseq_to_string seq value_out) rest)).
Proof.
  induction rest as [|x r IH]; intros pre acc outlen E Hsize.
  - cbn. rewrite app_nil_r, Z.add_0_r. reflexivity.
  - cbn [length for_loop]. unfold temporals_seq_n at 1. rewrite E at 1.
    rewrite array_get_middle.
    assert (Hl : (length pre < length (sequences ts))%nat).
    { rewrite E, length_app. cbn [length]. lia. }
    replace (8 * Z.of_nat (length pre) <? size) with true
      by (symmetry; apply Z.ltb_lt; lia).
    cbv zeta. cbn [bind fst snd].
    replace (Z.of_nat (length pre) + 1) with (Z.of_nat (length (pre ++ [x])))
      by (rewrite length_app; cbn [length]; lia).
    rewrite (IH (pre ++ [x])); [|rewrite <- app_assoc; exact E|exact Hsize].
    cbn [map separated_length].
    rewrite <- app_assoc. f_equal. f_equal. lia.
Qed.

(** The second loop: after the characters [pre], the strings, each
    followed by a comma and a space. *)
Lemma to_string_write (strings : list cstring) :
  forall (todo done : list cstring) (pre : cstring) (rest : buffer),
    strings = done ++ todo ->
    separated_length todo <= Z.of_nat (length rest) ->
    exists rest',
      for_loop (length todo) (Z.of_nat (length done))
        (fun i q =>
           match array_get strings i with
           | Some s =>
               result <- strcpy (fst q) (snd q) s ;;
               let pos := snd q + strlen s in
               result <- buf_set result pos char_comma ;;
               result <- buf_set result (pos + 1) char_space ;;
               Ok (result, pos + 2)
           | None => Fault
           end) (map Some pre ++ rest, Z.of_nat (length pre)) =
      Ok (map Some (pre ++ separated todo) ++ rest',
          Z.of_nat (length pre) + separated_length todo).
Proof.
  induction todo as [|s todo IH]; intros done pre rest E Hroom.
  - exists rest. cbn. rewrite app_nil_r, Z.add_0_r. reflexivity.
  - cbn [separated_length] in Hroom.
    pose proof (separated_length_nonneg todo) as Hnn. unfold strlen in Hroom.
    assert (Hget : array_get strings (Z.of_nat (length done)) = Some s)
      by (rewrite E; apply array_get_middle).
    cbn [length for_loop]. rewrite Hget. cbn [fst snd].
    destruct (strcpy_at s (map Some pre) rest ltac:(lia)) as [r1 [Hcp Hl1]].
    rewrite length_map in Hcp. rewrite Hcp. cbn [bind]. cbv zeta.
    destruct r1 as [|y r1]; [cbn [length] in Hl1; lia|].
    cbn [length] in Hl1.
    assert (Hc1 : buf_set (map Some pre ++ map Some s ++ Some Ascii.zero :: y :: r1)
                    (Z.of_nat (length pre) + strlen s) char_comma =
                  Ok (map Some pre ++ map Some s ++ Some char_comma :: y :: r1)).
    { rewrite !app_assoc.
      replace (Z.of_nat (length pre) + strlen s)
        with (Z.of_nat (length (map Some pre ++ map Some s)))
        by (rewrite length_app, !length_map; unfold strlen; lia).
      apply buf_set_middle. }
    rewrite Hc1. cbn [bind].
    assert (Hc2 : buf_set (map Some pre ++ map Some s ++ Some char_comma :: y :: r1)
                    (Z.of_nat (length pre) + strlen s + 1) char_space =
                  Ok (map Some (pre ++ s ++ [char_comma; char_space]) ++ r1)).
    { replace (map Some pre ++ map Some s ++ Some char_comma :: y :: r1)
        with ((map Some pre ++ map Some s ++ [Some char_comma]) ++ y :: r1)
        by (rewrite <- !app_assoc; reflexivity).
      replace (Z.of_nat (length pre) + strlen s + 1)
        with (Z.of_nat (length (map Some pre ++ map Some s ++ [Some char_comma])))
        by (rewrite !length_app, !length_map; cbn [length]; unfold strlen; lia).
      rewrite buf_set_middle. rewrite !map_app, <- !app_assoc. reflexivity. }
    rewrite Hc2. cbn [bind].
    replace (Z.of_nat (length done) + 1) with (Z.of_nat (length (done ++ [s])))
      by (rewrite length_app; cbn [length]; lia).
    replace (Z.of_nat (length pre) + strlen s + 2)
      with (Z.of_nat (length (pre ++ s ++ [char_comma; char_space])))
      by (rewrite !length_app; cbn [length]; unfold strlen; lia).
    destruct (IH (done ++ [s]) (pre ++ s ++ [char_comma; char_space]) r1)
      as [rest' Hrun].
    + rewrite <- app_assoc. exact E.
    + lia.
    + exists rest'. eapply eq_trans; [exact Hrun|]. f_equal. f_equal.
      * unfold separated. cbn [map concat]. rewrite <- !app_assoc. reflexivity.
      * cbn [separated_length].
        rewrite !length_app. cbn [length]. unfold strlen. lia.
Qed.

(** X15.  Output.  For a set of [count >= 1] sequences whose allocation
    requests the host accepts, the function writes inside its buffer only
    and returns the string of the sequences' strings, separated by a comma
    and a space, between braces.  With [count = 0] it writes the closing
    brace one cell before the buffer. *)
Theorem temporals_to_string_format (ts : TemporalS) :
  let strs := map (fun seq => temporalseq_to_string seq value_out) (sequences ts) in
  count ts = Z.of_nat (length (sequences ts)) ->
  Forall (Forall (fun c => c <> Ascii.zero)) strs ->
  8 * count ts <= MaxAllocSize ->
  separated_length strs + 3 <= MaxAllocSize ->
  (1 <= count ts ->
   exists buf,
     temporals_to_string value_out temporalseq_to_string ts = Ok buf /\
     buf_string buf = Some ([char_lbrace] ++ join_strings strs ++ [char_rbrace])) /\
  (count ts = 0 ->
   temporals_to_string value_out temporalseq_to_string ts = Fault).
Proof.
  intros strs Hcnt Hnul Hsz Hout.
  pose proof (separated_length_nonneg strs) as Hnn.
  assert (Hwrap : int_wrap (8 * count ts) = 8 * count ts).
  { apply int_wrap_small. unfold MaxAllocSize in Hsz. lia. }
  assert (Hfirst :
    temporals_to_string value_out temporalseq_to_string ts =
    (result <- palloc (separated_length strs + 3) ;;
     result <- buf_set result (separated_length strs) Ascii.zero ;;
     result <- buf_set result 0 char_lbrace ;;
     q <- for_range 0 (count ts)
            (fun i q =>
               match array_get strs i with
               | Some s =>
                   result <- strcpy (fst q) (snd q) s ;;
                   let pos := snd q + strlen s in
                   result <- buf_set result pos char_comma ;;
                   result <- buf_set result (pos + 1) char_space ;;
                   Ok (result, pos + 2)
               | None => Fault
               end)
            (result, 1) ;;
     result <- buf_set (fst q) (snd q - 2) char_rbrace ;;
     buf_set result (snd q - 1) Ascii.zero)).
  { unfold temporals_to_string. cbv zeta. rewrite Hwrap.
    unfold palloc at 1.
    replace (8 * count ts <? 0) with false by (symmetry; apply Z.ltb_ge; lia).
    replace (MaxAllocSize <? 8 * count ts) with false
      by (symmetry; apply Z.ltb_ge; lia).
    cbn [orb bind]. unfold for_range at 1. rewrite Z.sub_0_r, Hcnt, Nat2Z.id.
    pose proof (to_string_collect ts (8 * Z.of_nat (length (sequences ts)))
                  (sequences ts) [] [] 0 eq_refl ltac:(lia)) as Hl.
    cbn [length Z.of_nat app] in Hl. rewrite Z.add_0_l in Hl.
    rewrite Hl. cbn [bind fst snd]. reflexivity. }
  rewrite Hfirst. split.
  - intros Hpos. unfold palloc.
    replace (separated_length strs + 3 <? 0) with false
      by (symmetry; apply Z.ltb_ge; lia).
    replace (MaxAllocSize <? separated_length strs + 3) with false
      by (symmetry; apply Z.ltb_ge; lia).
    cbn [orb bind].
    destruct (buf_set_inside (repeat None (Z.to_nat (separated_length strs + 3)))
                (separated_length strs) Ascii.zero) as [b1 [-> Hb1]].
    { rewrite repeat_length. lia. }
    rewrite repeat_length in Hb1. cbn [bind].
    destruct b1 as [|x b1]; [cbn [length] in Hb1; lia|].
    pose proof (buf_set_middle [] x b1 char_lbrace) as H0.
    cbn [length Z.of_nat app] in H0. rewrite H0. cbn [bind].
    unfold for_range. rewrite Z.sub_0_r, Hcnt, Nat2Z.id.
    destruct (to_string_write strs strs [] [char_lbrace] b1 eq_refl) as [rest' Hrun].
    { cbn [length] in Hb1. lia. }
    replace (length (sequences ts)) with (length strs)
      by (subst strs; apply length_map).
    cbn [length Z.of_nat map app] in Hrun.
    change (Z.pos (Pos.of_succ_nat 0)) with 1 in Hrun.
    match goal with
    | |- exists buf, bind ?run ?k = Ok buf /\ ?P =>
        enough (Hgoal : exists buf,
                  bind (Ok (map Some (char_lbrace :: separated strs) ++ rest',
                            1 + separated_length strs)) k = Ok buf /\
                  buf_string buf =
                    Some ([char_lbrace] ++ join_strings strs ++ [char_rbrace]))
          by (destruct Hgoal as [buf [Hb1' Hb2']]; exists buf;
              split; [|exact Hb2'];
              eapply eq_trans; [|exact Hb1'];
              apply (f_equal (fun r => bind r k)); exact Hrun)
    end.
    cbn [bind fst snd].
    (* the closing brace and the terminator replace the last separator *)
    assert (Hne : strs <> []).
    { intros E. assert (length strs = O) by (rewrite E; reflexivity).
      subst strs. rewrite length_map in H. lia. }
    destruct (exists_last Hne) as [init [lasts Elast]].
    rewrite Elast in *. rewrite separated_length_app.
    cbn [separated_length].
    set (body := [Some char_lbrace] ++ map Some (separated init) ++ map Some lasts).
    assert (Hbody : Z.of_nat (length body) =
                    1 + (separated_length init + (strlen lasts + 2 + 0)) - 2).
    { subst body. rewrite !length_app, !length_map. cbn [length].
      rewrite !Nat2Z.inj_add, separated_length_correct. unfold strlen. lia. }
    match goal with
    | |- context [buf_set ?b _ char_rbrace] =>
        replace b with (body ++ Some char_comma :: Some char_space :: rest')
    end.
    2:{ subst body. rewrite separated_last. cbn [map app].
        rewrite !map_app, <- !app_assoc. reflexivity. }
    rewrite <- Hbody. rewrite buf_set_middle. cbn [bind].
    replace (1 + (separated_length init + (strlen lasts + 2 + 0)) - 1)
      with (Z.of_nat (length (body ++ [Some char_rbrace])))
      by (rewrite length_app; cbn [length]; lia).
    replace (body ++ Some char_rbrace :: Some char_space :: rest')
      with ((body ++ [Some char_rbrace]) ++ Some char_space :: rest')
      by (rewrite <- app_assoc; reflexivity).
    rewrite buf_set_middle. eexists. split; [reflexivity|].
    rewrite join_strings_last.
    replace (body ++ [Some char_rbrace])
      with (map Some ([char_lbrace] ++ (separated init ++ lasts) ++ [char_rbrace]))
      by (subst body; rewrite !map_app; cbn [map]; rewrite <- !app_assoc;
          reflexivity).
    apply buf_string_prefix.
    apply Forall_app in Hnul. destruct Hnul as [Hinit Hlast].
    inversion Hlast as [|? ? Hl _]; subst.
    apply Forall_app. split; [repeat constructor; discriminate|].
    apply Forall_app. split; [|repeat constructor; discriminate].
    apply Forall_app. split; [|exact Hl].
    clear - Hinit. induction Hinit as [|s l Hs _ IH]; [constructor|].
    unfold separated. cbn [map concat]. apply Forall_app. split; [|exact IH].
    apply Forall_app. split; [exact Hs|repeat constructor; discriminate].
  - intros H0. rewrite H0 in Hcnt.
    assert (E : strs = []).
    { subst strs. destruct (sequences ts); [reflexivity|cbn [length] in Hcnt; lia]. }
    rewrite E, H0. reflexivity.
Qed.

End ToStringProps.

Lemma temporals_to_string_format_witness :
  exists buf,
    temporals_to_string value_out_example seq_string_example minmax_example = Ok buf /\
    buf_string buf =
      Some [char_lbrace; Ascii.ascii_of_nat 49; char_comma; char_space;
            Ascii.ascii_of_nat 49; char_rbrace].
Proof.
  exact (proj1 (temporals_to_string_format value_out_example seq_string_example
                  minmax_example eq_refl
                  ltac:(repeat constructor; discriminate)
                  ltac:(vm_compute; discriminate) ltac:(vm_compute; discriminate))
          ltac:(vm_compute; discriminate)).
Defined.

(** ** Restriction to the complement of a timestamp *)

Lemma store_seq_n_loop (room : Z) (src : TemporalS) :
  forall (mid pre acc post : list TemporalSeq),
    sequences src = pre ++ mid ++ post ->
    Z.of_nat (length acc) + Z.of_nat (length mid) <= room ->
    for_loop (length mid) (Z.of_nat (length pre)) (store_seq_n room src) acc
    = Ok (acc ++ mid).
Proof.
  induction mid as [|x mid IH]; intros pre acc post E Hroom.
  - cbn. rewrite app_nil_r. reflexivity.
  - cbn [length for_loop]. unfold store_seq_n at 1, temporals_seq_n.
    rewrite E. cbn [app]. rewrite array_get_middle.
    cbn [length] in Hroom.
    replace (Z.of_nat (length acc) <? room) with true
      by (symmetry; apply Z.ltb_lt; lia).
    cbn [bind].
    replace (Z.of_nat (length pre) + 1) with (Z.of_nat (length (pre ++ [x])))
      by (rewrite length_app; cbn [length]; lia).
    rewrite (IH (pre ++ [x]) (acc ++ [x]) post).
    + rewrite <- app_assoc. reflexivity.
    + rewrite <- app_assoc. exact E.
    + rewrite length_app. cbn [length]. lia.
Qed.

Lemma left_sorted_app (a b : list TemporalSeq) :
  left_sorted (a ++ b) <->
  left_sorted a /\ left_sorted b /\
  forall x y, In x a -> In y b -> period_left (period x) (period y).
Proof.
  induction a as [|x a IH]; cbn [app left_sorted].
  - split.
    + intros H. split; [exact I|]. split; [exact H|]. intros x y [].
    + intros [_ [H _]]. exact H.
  - rewrite IH, Forall_app. split.
    + intros [[Ha Hb] [Hsa [Hsb Hab]]].
      split; [split; assumption|]. split; [assumption|].
      intros x' y [<-|Hx'] Hy.
      * rewrite Forall_forall in Hb. exact (Hb y Hy).
      * exact (Hab x' y Hx' Hy).
    + intros [[Ha Hsa] [Hsb Hab]]. split; [split; [exact Ha|]|].
      * apply Forall_forall. intros y Hy. apply Hab; [left; reflexivity|exact Hy].
      * split; [exact Hsa|]. split; [exact Hsb|].
        intros x' y Hx' Hy. apply Hab; [right; exact Hx'|exact Hy].
Qed.

Lemma left_sorted_ordered (l : list TemporalSeq) :
  left_sorted l -> seqarr_ordered l = true.
Proof.
  induction l as [|a l IH]; [reflexivity|].
  intros [Ha Hl]. apply seqarr_ordered_cons_left; [apply IH; exact Hl|].
  apply Forall_forall. exact Ha.
Qed.

Lemma ordered_left_sorted (l : list TemporalSeq) :
  forallb (fun s => period_valid (period s)) l = true ->
  seqarr_ordered l = true -> left_sorted l.
Proof.
  induction l as [|a l IH]; intros Hv Ho; [exact I|].
  cbn [forallb] in Hv. apply andb_true_iff in Hv. destruct Hv as [_ Hv].
  split; [apply seqarr_ordered_head; assumption|].
  apply IH; [exact Hv|]. eapply seqarr_ordered_tail. exact Ho.
Qed.

Section MinusTimestampProps.

Variable with_postgis : bool.
Variable geometry_oid geography_oid : Oid.
Variable tpoint_srid_internal : TemporalSeq -> Z.
Variable temporalseqarr_normalize : list TemporalSeq -> list TemporalSeq.
Variable temporal_bbox_size : Oid -> Z.
Variable temporals_make_bbox : list TemporalSeq -> BOX.
Variable temporalseq_minus_timestamp : TemporalSeq -> TimestampTz -> option TemporalS.

(** X16.  Restriction to the complement of a timestamp.  On a valid
    sequence set with one SRID and Z flag, [temporalseq_minus_timestamp]
    keeping its contract on the sequences of the set, the function returns
    without an error; the result is NULL or a set of sequences in order,
    and its instants are those of the set other than [t]. *)
Theorem temporals_minus_timestamp_extent (ts : TemporalS) (t : TimestampTz) :
  valid_temporals ts -> count ts <= 2 ^ 30 ->
  uniform_geo tpoint_srid_internal (sequences ts) ->
  (forall seq, In seq (sequences ts) -> minus_timestamp_spec tpoint_srid_internal temporalseq_minus_timestamp seq t) ->
  exists r,
    temporals_minus_timestamp with_postgis geometry_oid geography_oid
      tpoint_srid_internal temporalseqarr_normalize temporal_bbox_size
      temporals_make_bbox temporalseq_minus_timestamp ts t = Ok r /\
    (forall ts', r = Some ts' -> seqarr_ordered (sequences ts') = true) /\
    (forall u, temporals_extent r u <-> seqs_extent (sequences ts) u /\ u <> t).
Proof.
  intros Hvalid Hsz Hgeo Hspec.
  pose proof Hvalid as [Hcnt [Hpos [Hval Hord]]].
  unfold temporals_minus_timestamp.
  destruct (Z.eqb_spec (count ts) 1) as [E1|E1].
  - (* singleton *)
    destruct (sequences ts) as [|s0 [|s1 rest]] eqn:Es;
      try (cbn [length] in Hcnt; lia).
    unfold temporals_seq_n. rewrite Es.
    change (array_get [s0] 0) with (Some s0). cbv iota.
    eexists. split; [reflexivity|].
    pose proof (Hspec s0 (or_introl eq_refl)) as Hs0. unfold minus_timestamp_spec in Hs0.
    destruct (temporalseq_minus_timestamp s0 t) as [m|].
    + destruct Hs0 as [_ [_ [Hmo [_ Hme]]]]. split.
      * intros ts' [= <-]. exact Hmo.
      * intros u. cbn [temporals_extent]. rewrite Hme, seqs_extent_cons.
        split; [intros [H1 H2]; split; [left; exact H1 | exact H2]|].
        intros [[H1|H1] H2]; [split; assumption | destruct (seqs_extent_nil _ H1)].
    + split; [discriminate|]. intros u. cbn [temporals_extent].
      rewrite seqs_extent_cons. split; [contradiction|].
      intros [[H1|H1] H2]; [apply H2, Hs0, H1 | destruct (seqs_extent_nil _ H1)].
  - (* general case *)
    destruct (temporals_find_timestamp_defined ts t Hvalid Hsz)
      as [found [n [Hrun [Hpost _]]]].
    rewrite Hrun.
    pose proof (find_timestamp_extent ts t found n Hvalid Hpost) as Hext.
    destruct found.
    + destruct Hpost as [seq [Hseq Hc]]. rewrite Hseq.
      pose proof (array_get_bounds _ _ _ Hseq) as Hn.
      assert (Hsplit : exists pre post,
                sequences ts = pre ++ seq :: post /\ Z.of_nat (length pre) = n).
      { unfold temporals_seq_n in Hseq. rewrite array_get_nat in Hseq by lia.
        destruct (nth_error_split _ _ Hseq) as [pre [post [E El]]].
        exists pre, post. split; [exact E | lia]. }
      destruct Hsplit as [pre [post [Es En]]].
      assert (Hlen : Z.of_nat (length (sequences ts)) =
                     Z.of_nat (length pre) + 1 + Z.of_nat (length post)).
      { rewrite Es, length_app. cbn [length]. lia. }
      assert (Hin : In seq (sequences ts)).
      { rewrite Es. apply in_or_app. right. left. reflexivity. }
      pose proof (Hspec seq Hin) as Hs. unfold minus_timestamp_spec in Hs.
      (* the array that goes to the constructor *)
      set (frags := match temporalseq_minus_timestamp seq t with
                    | Some m => sequences m
                    | None => []
                    end).
      assert (Hfl : (length frags <= 2)%nat).
      { subst frags. destruct (temporalseq_minus_timestamp seq t) as [m|];
          [|cbn; lia]. destruct Hs as [Hc1 [Hc2 _]]. lia. }
      assert (H1 : for_range 0 n (store_seq_n (count ts + 1) ts) [] = Ok pre).
      { unfold for_range. rewrite Z.sub_0_r, <- En, Nat2Z.id.
        pose proof (store_seq_n_loop (count ts + 1) ts pre [] [] (seq :: post)) as Hl.
        cbn [length Z.of_nat app] in Hl. apply Hl; [exact Es | lia]. }
      rewrite H1. cbn [bind].
      assert (H2 : match temporalseq_minus_timestamp seq t with
                   | Some m => for_range 0 (count m) (store_seq_n (count ts + 1) m) pre
                   | None => Ok pre
                   end = Ok (pre ++ frags)).
      { subst frags. destruct (temporalseq_minus_timestamp seq t) as [m|];
          [|rewrite app_nil_r; reflexivity].
        destruct Hs as [Hc1 [Hc2 _]].
        unfold for_range. rewrite Z.sub_0_r, Hc1, Nat2Z.id.
        pose proof (store_seq_n_loop (count ts + 1) m (sequences m) [] pre []) as Hl.
        cbn [length Z.of_nat app] in Hl. apply Hl; [rewrite app_nil_r; reflexivity|].
        lia. }
      rewrite H2. cbn [bind].
      assert (H3 : for_range (n + 1) (count ts) (store_seq_n (count ts + 1) ts)
                     (pre ++ frags) = Ok ((pre ++ frags) ++ post)).
      { unfold for_range.
        replace (Z.to_nat (count ts - (n + 1))) with (length post) by lia.
        replace (n + 1) with (Z.of_nat (length (pre ++ [seq])))
          by (rewrite length_app; cbn [length]; lia).
        apply (store_seq_n_loop (count ts + 1) ts post (pre ++ [seq]) (pre ++ frags) []).
        - rewrite app_nil_r, <- app_assoc. exact Es.
        - rewrite length_app. lia. }
      rewrite H3. cbn [bind].
      set (l' := (pre ++ frags) ++ post).
      (* order *)
      pose proof (ordered_left_sorted _ Hval Hord) as Hsorted.
      rewrite Es in Hsorted.
      apply left_sorted_app in Hsorted. destruct Hsorted as [Hspre [Hsrest Hpre_rest]].
      cbn [left_sorted] in Hsrest. destruct Hsrest as [Hseq_post Hspost].
      rewrite Forall_forall in Hseq_post.
      assert (Hvp : period_valid (period seq) = true).
      { rewrite forallb_forall in Hval. apply Hval. exact Hin. }
      assert (Hfrag : left_sorted frags /\
                Forall (fun f => period_valid (period f) = true /\
                   contains_period_period_internal (period seq) (period f) = true /\
                   same_geo tpoint_srid_internal seq f) frags /\
                (forall u, seqs_extent frags u <-> in_period (period seq) u /\ u <> t)).
      { subst frags. destruct (temporalseq_minus_timestamp seq t) as [m|].
        - destruct Hs as [_ [_ [Hmo [Hmf Hme]]]]. split; [|split; assumption].
          apply ordered_left_sorted; [|exact Hmo].
          apply forallb_forall. intros f Hf. rewrite Forall_forall in Hmf.
          apply (Hmf f Hf).
        - split; [exact I|]. split; [constructor|].
          intros u. split; [intros H; destruct (seqs_extent_nil _ H)|].
          intros [Hu Hne]. destruct (Hne (Hs u Hu)). }
      destruct Hfrag as [Hsf [Hff Hfe]]. rewrite Forall_forall in Hff.
      assert (Hsorted' : left_sorted l').
      { subst l'. apply left_sorted_app. split; [|split; [exact Hspost|]].
        - apply left_sorted_app. split; [exact Hspre|]. split; [exact Hsf|].
          intros x f Hx Hf. destruct (Hff f Hf) as [_ [Hcf _]].
          eapply period_left_within;
            [apply (Hpre_rest x seq Hx (or_introl eq_refl))
            |apply contains_period_refl | exact Hcf].
        - intros x y Hx Hy. apply in_app_or in Hx. destruct Hx as [Hx|Hx].
          + apply Hpre_rest; [exact Hx | right; exact Hy].
          + destruct (Hff x Hx) as [_ [Hcf _]].
            eapply period_left_within;
              [apply (Hseq_post y Hy) | exact Hcf | apply contains_period_refl]. }
      assert (Hne : l' <> []).
      { subst l'. intros E. apply (f_equal (@length _)) in E.
        rewrite !length_app in E. cbn [length] in E.
        assert (length pre = 0%nat /\ length post = 0%nat) as [Ep Eq] by lia.
        rewrite Ep, Eq in Hlen. cbn in Hlen. lia. }
      assert (Hgeo' : forall a b, In a l' -> In b l' ->
                same_geo tpoint_srid_internal a b).
      { apply (uniform_geo_kept tpoint_srid_internal (sequences ts) l' Hgeo).
        apply Forall_forall. intros k Hk. subst l'.
        apply in_app_or in Hk. destruct Hk as [Hk|Hk];
          [apply in_app_or in Hk; destruct Hk as [Hk|Hk]|].
        - exists k. split; [rewrite Es; apply in_or_app; left; exact Hk|].
          split; [apply contains_period_refl | split; reflexivity].
        - exists seq. split; [exact Hin|]. destruct (Hff k Hk) as [_ [Hcf Hg]].
          split; assumption.
        - exists k. split; [rewrite Es; apply in_or_app; right; right; exact Hk|].
          split; [apply contains_period_refl | split; reflexivity]. }
      destruct (temporals_from_temporalseqarr_ok with_postgis geometry_oid
                  geography_oid tpoint_srid_internal temporalseqarr_normalize
                  temporal_bbox_size temporals_make_bbox l' false Hne
                  (left_sorted_ordered _ Hsorted') Hgeo'
                  ltac:(discriminate)) as [r [Hr Hrs]].
      rewrite Hr. cbn [bind andb] in *. eexists. split; [reflexivity|]. split.
      * intros ts' [= <-]. rewrite Hrs. apply left_sorted_ordered. exact Hsorted'.
      * intros u. cbn [temporals_extent]. rewrite Hrs. subst l'.
        rewrite !seqs_extent_app, Es, seqs_extent_app, seqs_extent_cons, Hfe.
        assert (Hpre_t : forall x, In x pre -> in_period (period x) u -> u <> t).
        { intros x Hx Hu ->.
          eapply period_left_disjoint;
            [apply (Hpre_rest x seq Hx (or_introl eq_refl)) | exact Hu | exact Hc]. }
        assert (Hpost_t : forall y, In y post -> in_period (period y) u -> u <> t).
        { intros y Hy Hu ->.
          eapply period_left_disjoint; [apply (Hseq_post y Hy) | exact Hc | exact Hu]. }
        split.
        -- intros [[[x [Hx Hu]]|[Hu Hne']]|[y [Hy Hu]]].
           ++ split; [left; exists x; auto | eapply Hpre_t; eauto].
           ++ split; [right; left; exact Hu | exact Hne'].
           ++ split; [right; right; exists y; auto | eapply Hpost_t; eauto].
        -- intros [[Hp|[Hu|Hp]] Hne']; auto.
    + (* [t] is in no sequence: a copy *)
      eexists. split; [reflexivity|]. split.
      * intros ts' [= <-]. exact Hord.
      * intros u. cbn [temporals_extent temporals_copy]. unfold temporals_copy.
        split; [|tauto]. intros Hu. split; [exact Hu|].
        intros ->. apply Hext in Hu. discriminate Hu.
Qed.

End MinusTimestampProps.

Lemma in_period_instant (t u : TimestampTz) :
  in_period (mkPeriod t t true true) u <-> u = t.
Proof.
  rewrite in_period_iff. cbn [lower upper lower_inc upper_inc]. lia.
Qed.

(** The model of [temporalseq_minus_timestamp] keeps the contract. *)
Lemma temporalseq_minus_timestamp_model_spec (seq : TemporalSeq) (t : TimestampTz) :
  period_valid (period seq) = true ->
  minus_timestamp_spec example_srid temporalseq_minus_timestamp_model seq t.
Proof.
  intros Hv. unfold minus_timestamp_spec, temporalseq_minus_timestamp_model,
    temporalseq_minus_period_model.
  assert (Hp : period_valid (mkPeriod t t true true) = true).
  { unfold period_valid. cbn [lower upper lower_inc upper_inc].
    rewrite Z.eqb_refl, orb_true_r. reflexivity. }
  destruct (minus_period_period_model_spec (period seq) _ Hv Hp) as [Hall [Hord Hext]].
  assert (Hlen : (length (minus_period_period_model (period seq)
                            (mkPeriod t t true true)) <= 2)%nat).
  { unfold minus_period_period_model.
    destruct (negb _); [cbn; lia|].
    destruct (_ || _); destruct (_ || _); cbn; lia. }
  set (pieces := minus_period_period_model (period seq) (mkPeriod t t true true)) in *.
  assert (Hextent : forall u,
            seqs_extent (map (seq_with_period seq) pieces) u <->
            in_period (period seq) u /\ u <> t).
  { intros u. rewrite <- in_period_instant, <- Hext. unfold seqs_extent. split.
    - intros [f [Hf Hu]]. apply in_map_iff in Hf. destruct Hf as [r [<- Hr]].
      exists r. auto.
    - intros [r [Hr Hu]]. exists (seq_with_period seq r).
      split; [apply in_map; exact Hr | exact Hu]. }
  destruct pieces as [|r0 rest] eqn:Ep.
  - cbn [map seqs_as_set]. intros u Hu.
    destruct (Z.eq_dec u t) as [E|E]; [exact E|].
    destruct (seqs_extent_nil u). apply (Hextent u). auto.
  - rewrite <- Ep in *. unfold seqs_as_set.
    assert (Hm : map (seq_with_period seq) pieces <> [])
      by (rewrite Ep; discriminate).
    destruct (map (seq_with_period seq) pieces) as [|f0 fs] eqn:Em; [contradiction|].
    rewrite <- Em in *. cbn [count sequences].
    split; [reflexivity|]. rewrite length_map.
    split; [rewrite Ep in *; cbn [length] in *; lia|].
    split.
    { rewrite <- periodarr_ordered_map, map_map. cbn [seq_with_period period].
      rewrite map_id. exact Hord. }
    split; [|exact Hextent].
    apply Forall_forall. intros f Hf. apply in_map_iff in Hf.
    destruct Hf as [r [<- Hr]]. rewrite Forall_forall in Hall.
    destruct (Hall r Hr) as [H1 H2].
    split; [exact H1|]. split; [exact H2|]. split; reflexivity.
Qed.

(** Without the timestamp 5 the set on [0,10], [20,30], [40,50] is over
    [0,5), (5,10], [20,30] and [40,50]. *)
Lemma temporals_minus_timestamp_extent_witness :
  exists r,
    temporals_minus_timestamp false 0 0 example_srid normalize_none (fun _ => 0)
      time_box temporalseq_minus_timestamp_model example_ts 5 = Ok (Some r) /\
    map period (sequences r) =
      [mkPeriod 0 5 true false; mkPeriod 5 10 false true;
       mkPeriod 20 30 true true; mkPeriod 40 50 true true] /\
    (forall u, seqs_extent (sequences r) u <->
               seqs_extent (sequences example_ts) u /\ u <> 5).
Proof.
  destruct (temporals_minus_timestamp_extent false 0 0 example_srid normalize_none
              (fun _ => 0) time_box temporalseq_minus_timestamp_model example_ts 5)
    as [r [Hr [_ Hext]]].
  - unfold valid_temporals. simpl. repeat split; try reflexivity; lia.
  - simpl. lia.
  - intros a b [<-|[<-|[<-|[]]]] [<-|[<-|[<-|[]]]]; split; reflexivity.
  - intros seq Hin. apply temporalseq_minus_timestamp_model_spec.
    destruct Hin as [<-|[<-|[<-|[]]]]; reflexivity.
  - assert (Hc : temporals_minus_timestamp false 0 0 example_srid normalize_none
                   (fun _ => 0) time_box temporalseq_minus_timestamp_model
                   example_ts 5
                 = Ok (Some (mkTS 4 23 (mkFlags false false false)
                         [seq_with_period (closed_seq 0 10) (mkPeriod 0 5 true false);
                          seq_with_period (closed_seq 0 10) (mkPeriod 5 10 false true);
                          closed_seq 20 30; closed_seq 40 50] None)))
      by reflexivity.
    rewrite Hc in Hr. injection Hr as <-.
    eexists. split; [reflexivity|]. split; [reflexivity|]. exact Hext.
Defined.

(** ** Intersection with timestamps *)

Lemma intersects_times_loop_spec (ts : TemporalS) (time_n : Z -> option TimestampTz)
    (times : list TimestampTz) :
  valid_temporals ts -> count ts <= 2 ^ 30 ->
  (forall i, 0 <= i -> time_n i = array_get times i) ->
  forall (rest pre : list TimestampTz),
    times = pre ++ rest ->
    exists b,
      intersects_times_loop (length rest) ts time_n (Z.of_nat (length pre)) = Some b /\
      (b = true <-> exists t, In t rest /\ ~ seqs_extent (sequences ts) t).
Proof.
  intros Hvalid Hsz Htime. induction rest as [|t rest IH]; intros pre E.
  - exists false. split; [reflexivity|]. split; [discriminate|].
    intros [t [[] _]].
  - cbn [length intersects_times_loop].
    rewrite Htime by lia. rewrite E, array_get_middle.
    unfold temporals_intersects_timestamp.
    destruct (temporals_find_timestamp_defined ts t Hvalid Hsz)
      as [found [pos [Hrun [Hpost _]]]].
    rewrite Hrun.
    pose proof (find_timestamp_extent ts t found pos Hvalid Hpost) as Hext.
    destruct found.
    + replace (Z.of_nat (length pre) + 1) with (Z.of_nat (length (pre ++ [t])))
        by (rewrite length_app; cbn [length]; lia).
      destruct (IH (pre ++ [t])) as [b [Hb Hiff]].
      { rewrite <- app_assoc. exact E. }
      exists b. split; [exact Hb|]. rewrite Hiff. split.
      * intros [u [Hu Hn]]. exists u. split; [right; exact Hu | exact Hn].
      * intros [u [[<-|Hu] Hn]]; [|exists u; auto].
        exfalso. apply Hn, Hext. reflexivity.
    + exists true. split; [reflexivity|]. split; [|reflexivity].
      intros _. exists t. split; [left; reflexivity|].
      intros Hin. apply Hext in Hin. discriminate Hin.
Qed.

(** X17.  Intersection with a timestamp set, an instant and an instant
    set.  On a valid sequence set each of the three functions returns
    [true] exactly when some timestamp of its argument is in no sequence:
    [false] for an argument that lies within the time of the sequence set,
    [true] as soon as one of its timestamps is outside. *)
Theorem temporals_intersects_timestampset_outside (ts : TemporalS) :
  valid_temporals ts -> count ts <= 2 ^ 30 ->
  (forall ts1, tss_count ts1 = Z.of_nat (length (tss_times ts1)) ->
     exists b,
       temporals_intersects_timestampset ts ts1 = Some b /\
       (b = true <->
        exists t, In t (tss_times ts1) /\ ~ seqs_extent (sequences ts) t)) /\
  (forall inst,
     exists b,
       temporals_intersects_temporalinst ts inst = Some b /\
       (b = true <-> ~ seqs_extent (sequences ts) (inst_t inst))) /\
  (forall ti, ti_count ti = Z.of_nat (length (ti_instants ti)) ->
     exists b,
       temporals_intersects_temporali ts ti = Some b /\
       (b = true <->
        exists inst, In inst (ti_instants ti) /\
                     ~ seqs_extent (sequences ts) (inst_t inst))).
Proof.
  intros Hvalid Hsz. split; [|split].
  - intros ts1 Hcnt. unfold temporals_intersects_timestampset.
    rewrite Hcnt, Nat2Z.id.
    exact (intersects_times_loop_spec ts _ (tss_times ts1) Hvalid Hsz
             (fun i _ => eq_refl) (tss_times ts1) [] eq_refl).
  - intros inst. unfold temporals_intersects_temporalinst,
      temporals_intersects_timestamp.
    destruct (temporals_find_timestamp_defined ts (inst_t inst) Hvalid Hsz)
      as [found [pos [Hrun [Hpost _]]]].
    rewrite Hrun.
    pose proof (find_timestamp_extent ts _ found pos Hvalid Hpost) as Hext.
    destruct found; eexists; (split; [reflexivity|]).
    + split; [discriminate|]. intros Hn. exfalso. apply Hn, Hext. reflexivity.
    + split; [|reflexivity]. intros _ Hin. apply Hext in Hin. discriminate Hin.
  - intros ti Hcnt. unfold temporals_intersects_temporali.
    rewrite Hcnt, Nat2Z.id.
    destruct (intersects_times_loop_spec ts
                (fun i => option_map inst_t (temporali_inst_n ti i))
                (map inst_t (ti_instants ti)) Hvalid Hsz) with
      (rest := map inst_t (ti_instants ti)) (pre := @nil TimestampTz)
      as [b [Hb Hiff]].
    + intros i Hi. unfold temporali_inst_n. rewrite !array_get_nat by lia.
      rewrite nth_error_map. reflexivity.
    + reflexivity.
    + rewrite length_map in Hb. exists b. split; [exact Hb|]. rewrite Hiff. split.
      * intros [t [Ht Hn]]. apply in_map_iff in Ht. destruct Ht as [inst [<- Hi]].
        exists inst. auto.
      * intros [inst [Hi Hn]]. exists (inst_t inst). split; [|exact Hn].
        apply in_map. exact Hi.
Qed.

(** Both 5 and 25 are instants of the set on [0,10], [20,30], [40,50], and
    the answer is [false]; with 15, in a gap, it is [true]. *)
Lemma temporals_intersects_timestampset_outside_witness :
  temporals_intersects_timestampset example_ts (mkTSS 2 [5; 25]) = Some false /\
  temporals_intersects_timestampset example_ts (mkTSS 2 [5; 15]) = Some true /\
  exists b,
    temporals_intersects_timestampset example_ts (mkTSS 2 [5; 25]) = Some b /\
    (b = true <-> exists t, In t [5; 25] /\ ~ seqs_extent (sequences example_ts) t).
Proof.
  split; [reflexivity|]. split; [reflexivity|].
  refine (proj1 (temporals_intersects_timestampset_outside example_ts _ _)
            (mkTSS 2 [5; 25]) eq_refl).
  - unfold valid_temporals. simpl. repeat split; try reflexivity; lia.
  - simpl. lia.
Defined.

(** ** Synchronisation with a sequence *)

Section SynchronizeSeqProps.

Variable with_postgis : bool.
Variable geometry_oid geography_oid : Oid.
Variable tpoint_srid_internal : TemporalSeq -> Z.
Variable temporalseqarr_normalize : list TemporalSeq -> list TemporalSeq.
Variable temporal_bbox_size : Oid -> Z.
Variable temporals_make_bbox : list TemporalSeq -> BOX.
Variable synchronize_temporalseq_temporalseq :
  TemporalSeq -> TemporalSeq -> bool -> option (TemporalSeq * TemporalSeq).

(** On an array that holds its [count >= 1] sequences the constructor
    reads nothing outside it. *)
Lemma from_seqarr_no_fault (seqs : list TemporalSeq) :
  seqs <> [] ->
  temporals_from_temporalseqarr with_postgis geometry_oid geography_oid
    tpoint_srid_internal temporalseqarr_normalize temporal_bbox_size
    temporals_make_bbox seqs (Z.of_nat (length seqs)) false <> Fault.
Proof.
  intros Hne. unfold temporals_from_temporalseqarr.
  destruct seqs as [|seq0 rest] eqn:Eseqs; [contradiction|]. rewrite <- Eseqs in *.
  assert (H0 : array_get seqs 0 = Some seq0) by (rewrite Eseqs; reflexivity).
  rewrite H0.
  assert (Hlen : 1 <= Z.of_nat (length seqs)) by (rewrite Eseqs; cbn [length]; lia).
  replace (Z.of_nat (length seqs) <? 1) with false
    by (symmetry; apply Z.ltb_ge; lia).
  unfold for_range.
  destruct (from_seqarr_loop tpoint_srid_internal seqs
              (is_geo with_postgis geometry_oid geography_oid (seq_valuetypid seq0))
              (tpoint_srid_internal seq0) (hasz (seq_flags seq0))
              (Z.to_nat (Z.of_nat (length seqs) - 1)) 1 true
              ltac:(lia) ltac:(lia))
    as [[_ [tc ->]]|[j [e [Hj [He ->]]]]]; cbn [bind]; [|discriminate].
  unfold array_prefix. rewrite Z.ltb_irrefl. cbn [bind andb].
  rewrite Nat2Z.id, firstn_all, H0. discriminate.
Qed.

Lemma synchronize_seq_loop_origin {T : Type} (tag : TemporalSeq -> T)
    (seq : TemporalSeq) (crossings : bool) :
  (forall a b a' b',
     synchronize_temporalseq_temporalseq a b crossings = Some (a', b') ->
     tag a' = tag a /\ tag b' = tag b) ->
  forall seqs,
    let collected := synchronize_seq_loop synchronize_temporalseq_temporalseq
                       seq crossings seqs in
    length (fst collected) = length (snd collected) /\
    Forall (fun s => tag s = tag seq) (fst collected) /\
    Forall (fun s => exists s1, In s1 seqs /\ tag s = tag s1) (snd collected).
Proof.
  intros Htag. induction seqs as [|seq1 rest IH]; cbn [synchronize_seq_loop].
  { repeat split; constructor. }
  cbv zeta in *. destruct IH as [IHl [IH1 IH2]].
  assert (Hkept :
    let kept := match synchronize_temporalseq_temporalseq seq seq1 crossings with
                | Some (syncseq1, syncseq2) => ([syncseq1], [syncseq2])
                | None => ([], [])
                end in
    length (fst kept) = length (snd kept) /\
    Forall (fun s => tag s = tag seq) (fst kept) /\
    Forall (fun s => exists s1, In s1 (seq1 :: rest) /\ tag s = tag s1) (snd kept)).
  { destruct (synchronize_temporalseq_temporalseq seq seq1 crossings)
      as [[a' b']|] eqn:E; cbn [fst snd].
    - destruct (Htag _ _ _ _ E) as [Ha Hb]. repeat split.
      + constructor; [exact Ha | constructor].
      + constructor; [|constructor]. exists seq1. split; [left; reflexivity|exact Hb].
    - repeat split; constructor. }
  cbv zeta in Hkept. destruct Hkept as [Hkl [Hk1 Hk2]].
  destruct (_ || _); [repeat split; assumption|].
  cbn [fst snd]. rewrite !length_app. repeat split.
  - lia.
  - apply Forall_app. split; assumption.
  - apply Forall_app. split; [exact Hk2|].
    eapply Forall_impl; [|exact IH2]. cbn.
    intros s [s1 [Hs1 Hs]]. exists s1. split; [right; exact Hs1 | exact Hs].
Qed.

(** X18.  Synchronisation of a sequence set [ts] with a sequence [seq].
    The sequence-level synchronisation is called with [seq] first, and its
    first output goes to [sync1]: whatever the sequence-level
    synchronisation hands from an input to the output made from it (its
    value type, for one) reaches [sync1] from [seq] and [sync2] from the
    sequences of [ts].  The function with the arguments in the other order
    returns them the other way round.  On a valid sequence set both
    return, with [false], two sets or an error of the constructor. *)
Theorem synchronize_temporals_temporalseq_origin {T : Type} (tag : TemporalSeq -> T)
    (ts : TemporalS) (seq : TemporalSeq) (crossings : bool) :
  (forall a b a' b',
     synchronize_temporalseq_temporalseq a b crossings = Some (a', b') ->
     tag a' = tag a /\ tag b' = tag b) ->
  valid_temporals ts -> count ts <= 2 ^ 30 ->
  let from_seq := fun sync : TemporalS =>
    Forall (fun s => tag s = tag seq) (sequences sync) in
  let from_ts := fun sync : TemporalS =>
    Forall (fun s => exists s1, In s1 (sequences ts) /\ tag s = tag s1)
           (sequences sync) in
  let r := synchronize_temporals_temporalseq with_postgis geometry_oid geography_oid
             tpoint_srid_internal temporalseqarr_normalize temporal_bbox_size
             temporals_make_bbox synchronize_temporalseq_temporalseq
             ts seq crossings in
  let r' := synchronize_temporalseq_temporals with_postgis geometry_oid geography_oid
              tpoint_srid_internal temporalseqarr_normalize temporal_bbox_size
              temporals_make_bbox synchronize_temporalseq_temporalseq
              seq ts crossings in
  r <> Fault /\ r' <> Fault /\
  (forall sync1 sync2, r = Ok (Some (sync1, sync2)) ->
     count sync1 = count sync2 /\ from_seq sync1 /\ from_ts sync2) /\
  (forall sync1 sync2, r' = Ok (Some (sync1, sync2)) ->
     count sync1 = count sync2 /\ from_ts sync1 /\ from_seq sync2).
Proof.
  intros Htag Hvalid Hsz from_seq from_ts r r'.
  pose proof Hvalid as [Hcnt [Hpos [Hval Hord]]].
  assert (Hr : r <> Fault /\
               forall sync1 sync2, r = Ok (Some (sync1, sync2)) ->
                 count sync1 = count sync2 /\ from_seq sync1 /\ from_ts sync2).
  { subst r. unfold synchronize_temporals_temporalseq.
    destruct (timespan_defined ts Hvalid) as [p ->].
    destruct (negb _); [split; [discriminate|intros ? ? H; discriminate H]|].
    destruct (temporals_find_timestamp_defined ts (lower (period seq)) Hvalid Hsz)
      as [found [n [-> [_ Hn]]]].
    replace (n <? 0) with false by (symmetry; apply Z.ltb_ge; lia).
    unfold array_prefix. rewrite Hcnt, Z.ltb_irrefl, Nat2Z.id, firstn_all.
    cbn [bind]. cbv zeta.
    destruct (synchronize_seq_loop_origin tag seq crossings Htag
                (skipn (Z.to_nat n) (sequences ts))) as [Hl [H1 H2]].
    set (collected := synchronize_seq_loop synchronize_temporalseq_temporalseq
                        seq crossings (skipn (Z.to_nat n) (sequences ts))) in *.
    destruct (Z.of_nat (length (fst collected)) =? 0) eqn:Hk;
      [split; [discriminate|intros ? ? H; discriminate H]|].
    apply Z.eqb_neq in Hk.
    destruct (temporals_from_temporalseqarr _ _ _ _ _ _ _ (fst collected) _ false)
      as [s1| |] eqn:E1; cbn [bind].
    2:{ split; [discriminate|intros ? ? H; discriminate H]. }
    2:{ exfalso. apply (from_seqarr_no_fault (fst collected)); [|exact E1].
        intros E. rewrite E in Hk. cbn [length] in Hk. lia. }
    rewrite Hl in *.
    destruct (temporals_from_temporalseqarr _ _ _ _ _ _ _ (snd collected) _ false)
      as [s2| |] eqn:E2; cbn [bind].
    2:{ split; [discriminate|intros ? ? H; discriminate H]. }
    2:{ exfalso. apply (from_seqarr_no_fault (snd collected)); [|exact E2].
        intros E. rewrite E in Hk. cbn [length] in Hk. lia. }
    split; [discriminate|]. intros sync1 sync2 [= <- <-].
    rewrite <- Hl in E1.
    destruct (temporals_from_temporalseqarr_keeps _ _ _ _ _ _ _ _ _ E1) as [Hs1 Hc1].
    destruct (temporals_from_temporalseqarr_keeps _ _ _ _ _ _ _ _ _ E2) as [Hs2 Hc2].
    split; [lia|]. subst from_seq from_ts. cbv beta. rewrite Hs1, Hs2.
    split; [exact H1|].
    eapply Forall_impl; [|exact H2]. cbn. intros s [s' [Hin Hs]].
    exists s'. split; [|exact Hs].
    eapply In_skipn. exact Hin. }
  destruct Hr as [Hnf Hres].
  split; [exact Hnf|]. split; [|split; [exact Hres|]].
  - subst r'. unfold synchronize_temporalseq_temporals. fold r.
    destruct r as [[[a b]|]| |]; cbn; try discriminate. contradiction.
  - intros sync1 sync2. subst r'. unfold synchronize_temporalseq_temporals. fold r.
    destruct r as [[[a b]|]| |] eqn:Er; cbn; try discriminate.
    intros [= <- <-]. destruct (Hres a b eq_refl) as [H1 [H2 H3]].
    split; [lia|]. split; assumption.
Qed.

End SynchronizeSeqProps.

(** An integer set on [0,10], [20,30] and a float sequence on [5,25]: the
    first output holds the float pieces. *)
Lemma synchronize_temporals_temporalseq_origin_witness :
  exists sync1 sync2,
    synchronize_temporals_temporalseq false 0 0 example_srid normalize_none
      (fun _ => 0) time_box sync_example sync_left (float_seq 5 25) false
    = Ok (Some (sync1, sync2)) /\
    valuetypid sync_left = 23 /\ valuetypid sync1 = 701 /\ valuetypid sync2 = 23 /\
    Forall (fun s => seq_valuetypid s = 701) (sequences sync1).
Proof.
  assert (Hrun : exists sync1 sync2,
            synchronize_temporals_temporalseq false 0 0 example_srid normalize_none
              (fun _ => 0) time_box sync_example sync_left (float_seq 5 25) false
            = Ok (Some (sync1, sync2)) /\
            valuetypid sync1 = 701 /\ valuetypid sync2 = 23).
  { eexists. eexists. split; [reflexivity|]. split; reflexivity. }
  destruct Hrun as [sync1 [sync2 [Hr [Hv1 Hv2]]]].
  exists sync1, sync2. split; [exact Hr|]. split; [reflexivity|].
  split; [exact Hv1|]. split; [exact Hv2|].
  refine (proj1 (proj2 (proj1 (proj2 (proj2
            (synchronize_temporals_temporalseq_origin false 0 0 example_srid
               normalize_none (fun _ => 0) time_box sync_example seq_valuetypid
               sync_left (float_seq 5 25) false _ _ _))) sync1 sync2 Hr))).
  - intros a b a' b'. unfold sync_example.
    destruct (intersection_period_period_internal (period a) (period b));
      [|discriminate].
    intros [= <- <-]. split; reflexivity.
  - unfold valid_temporals. simpl. repeat split; try reflexivity; lia.
  - simpl. lia.
Defined.

(** The search finds the sequence that contains the timestamp, at its
    index. *)
Lemma find_timestamp_at (ts : TemporalS) (t : TimestampTz)
    (pre : list TemporalSeq) (s : TemporalSeq) (post : list TemporalSeq) :
  valid_temporals ts -> count ts <= 2 ^ 30 ->
  sequences ts = pre ++ s :: post ->
  in_period (period s) t ->
  temporals_find_timestamp ts t = Some (true, Z.of_nat (length pre)).
Proof.
  intros Hvalid Hsz Es Hin. pose proof Hvalid as [Hcnt [Hpos [Hval Hord]]].
  destruct (temporals_find_timestamp_defined ts t Hvalid Hsz)
    as [found [pos [Hrun [Hpost _]]]].
  pose proof (find_timestamp_extent ts t found pos Hvalid Hpost) as Hext.
  assert (Hs : temporals_seq_n ts (Z.of_nat (length pre)) = Some s).
  { unfold temporals_seq_n. rewrite Es. apply array_get_middle. }
  assert (Hf : found = true).
  { apply Hext. exists s. split; [|exact Hin].
    rewrite Es. apply in_or_app. right. left. reflexivity. }
  subst found. rewrite Hrun. f_equal. f_equal.
  destruct Hpost as [s' [Hs' Hc]].
  destruct (Z.lt_trichotomy pos (Z.of_nat (length pre))) as [Hlt|[E|Hgt]];
    [exfalso|exact E|exfalso].
  - eapply (period_left_disjoint (period s') (period s) t); eauto.
    eapply (seqarr_ordered_pairs _ Hval Hord pos (Z.of_nat (length pre))); eauto.
  - eapply (period_left_disjoint (period s) (period s') t); eauto.
    eapply (seqarr_ordered_pairs _ Hval Hord (Z.of_nat (length pre)) pos); eauto.
Qed.

Lemma skipn_length_app {A : Type} (pre rest : list A) :
  skipn (length pre) (pre ++ rest) = rest.
Proof.
  induction pre as [|a pre IH]; [reflexivity|]. exact IH.
Qed.

Section SynchronizeSeqBreak.

Variable with_postgis : bool.
Variable geometry_oid geography_oid : Oid.
Variable tpoint_srid_internal : TemporalSeq -> Z.
Variable temporalseqarr_normalize : list TemporalSeq -> list TemporalSeq.
Variable temporal_bbox_size : Oid -> Z.
Variable temporals_make_bbox : list TemporalSeq -> BOX.
Variable synchronize_temporalseq_temporalseq :
  TemporalSeq -> TemporalSeq -> bool -> option (TemporalSeq * TemporalSeq).

(** X19.  Synchronisation with a sequence stops too early.  Let [seq],
    with both bounds inclusive, start in the sequence [s1] of a valid set
    and end at the upper bound of [s1], which [s1] excludes and the next
    sequence [s2] includes.  The end of [seq] is then an instant of [seq]
    and of the set, but the loop breaks after [s1]: the function returns
    [false], or two sets of one sequence that, made from [seq] and [s1],
    do not hold that instant. *)
Theorem synchronize_temporals_temporalseq_break
    (ts : TemporalS) (seq : TemporalSeq) (crossings : bool)
    (pre : list TemporalSeq) (s1 s2 : TemporalSeq) (post : list TemporalSeq) :
  valid_temporals ts -> count ts <= 2 ^ 30 ->
  sequences ts = pre ++ s1 :: s2 :: post ->
  period_valid (period seq) = true ->
  lower_inc (period seq) = true -> upper_inc (period seq) = true ->
  in_period (period s1) (lower (period seq)) ->
  upper (period seq) = upper (period s1) ->
  in_period (period s2) (upper (period seq)) ->
  (forall a b a' b' u,
     synchronize_temporalseq_temporalseq a b crossings = Some (a', b') ->
     in_period (period a') u \/ in_period (period b') u ->
     in_period (period a) u /\ in_period (period b) u) ->
  let r := synchronize_temporals_temporalseq with_postgis geometry_oid geography_oid
             tpoint_srid_internal temporalseqarr_normalize temporal_bbox_size
             temporals_make_bbox synchronize_temporalseq_temporalseq
             ts seq crossings in
  in_period (period seq) (upper (period seq)) /\
  seqs_extent (sequences ts) (upper (period seq)) /\
  (r = Ok None \/
   exists sync1 sync2,
     r = Ok (Some (sync1, sync2)) /\ count sync1 = 1 /\ count sync2 = 1 /\
     ~ seqs_extent (sequences sync1) (upper (period seq)) /\
     ~ seqs_extent (sequences sync2) (upper (period seq))).
Proof.
  intros Hvalid Hsz Es Hv Hli Hui Hlow Hup Hnext Hsync r.
  pose proof Hvalid as [Hcnt [Hpos [Hval Hord]]].
  assert (Hend : in_period (period seq) (upper (period seq))).
  { apply in_period_iff. pose proof (period_valid_le _ Hv). split.
    - destruct (Z.eq_dec (lower (period seq)) (upper (period seq)));
        [right; auto | left; lia].
    - right. auto. }
  split; [exact Hend|]. split.
  { exists s2. split; [|exact Hnext].
    rewrite Es. apply in_or_app. right. right. left. reflexivity. }
  (* [s1] does not hold the end of [seq] *)
  assert (Hnot : ~ in_period (period s1) (upper (period seq))).
  { intros H1.
    eapply (period_left_disjoint (period s1) (period s2)); [|exact H1|exact Hnext].
    eapply (seqarr_ordered_pairs _ Hval Hord (Z.of_nat (length pre))
              (Z.of_nat (length pre) + 1)); [| |lia].
    - rewrite Es. apply array_get_middle.
    - rewrite Es.
      replace (pre ++ s1 :: s2 :: post) with ((pre ++ [s1]) ++ s2 :: post)
        by (rewrite <- app_assoc; reflexivity).
      replace (Z.of_nat (length pre) + 1) with (Z.of_nat (length (pre ++ [s1])))
        by (rewrite length_app; cbn [length]; lia).
      apply array_get_middle. }
  subst r. unfold synchronize_temporals_temporalseq.
  destruct (timespan_defined ts Hvalid) as [p ->].
  destruct (negb _); [left; reflexivity|].
  rewrite (find_timestamp_at ts _ pre s1 (s2 :: post) Hvalid Hsz Es Hlow).
  replace (Z.of_nat (length pre) <? 0) with false by (symmetry; apply Z.ltb_ge; lia).
  unfold array_prefix. rewrite Hcnt, Z.ltb_irrefl, Nat2Z.id, firstn_all.
  cbn [bind]. rewrite Nat2Z.id, Es, skipn_length_app.
  cbn [synchronize_seq_loop].
  rewrite timestamp_cmp_lt, timestamp_cmp_eq, Hup, Z.ltb_irrefl, Z.eqb_refl.
  rewrite Hli, Hui. cbn [orb andb Bool.eqb]. cbv zeta.
  destruct (synchronize_temporalseq_temporalseq seq s1 crossings)
    as [[a' b']|] eqn:E; cbn [fst snd length Z.of_nat Z.eqb Pos.of_succ_nat];
    [|left; reflexivity].
  right.
  assert (Hone : forall x,
            exists sync,
              temporals_from_temporalseqarr with_postgis geometry_oid geography_oid
                tpoint_srid_internal temporalseqarr_normalize temporal_bbox_size
                temporals_make_bbox [x] 1 false = Ok sync /\
              sequences sync = [x] /\ count sync = 1).
  { intros x. unfold temporals_from_temporalseqarr. cbn.
    destruct (temporal_bbox_size _ =? 0);
      eexists; (split; [reflexivity|split; reflexivity]). }
  destruct (Hone a') as [sync1 [-> [Hs1 Hc1]]].
  destruct (Hone b') as [sync2 [-> [Hs2 Hc2]]].
  cbn [bind]. exists sync1, sync2. split; [reflexivity|].
  split; [exact Hc1|]. split; [exact Hc2|].
  rewrite Hs1, Hs2. rewrite Hup in Hnot.
  split; intros [x [[<-|[]] Hx]]; apply Hnot.
  - exact (proj2 (Hsync _ _ _ _ _ E (or_introl Hx))).
  - exact (proj2 (Hsync _ _ _ _ _ E (or_intror Hx))).
Qed.

End SynchronizeSeqBreak.

(** The set on [0,10), [10,20] and the sequence on [5,10]: the instant 10
    is in both, and in neither output. *)
Lemma synchronize_temporals_temporalseq_break_witness :
  in_period (period (closed_seq 5 10)) 10 /\
  seqs_extent (sequences walk_left_example) 10 /\
  exists sync1 sync2,
    synchronize_temporals_temporalseq false 0 0 example_srid normalize_none
      (fun _ => 0) time_box sync_example walk_left_example (closed_seq 5 10) false
    = Ok (Some (sync1, sync2)) /\
    map period (sequences sync1) = [mkPeriod 5 10 true false] /\
    ~ seqs_extent (sequences sync1) 10 /\ ~ seqs_extent (sequences sync2) 10.
Proof.
  destruct (synchronize_temporals_temporalseq_break false 0 0 example_srid
              normalize_none (fun _ => 0) time_box sync_example
              walk_left_example (closed_seq 5 10) false
              [] (flagged_seq 0 10 true false) (closed_seq 10 20) [])
    as [Hin [Hext Hr]].
  - unfold valid_temporals. simpl. repeat split; try reflexivity; lia.
  - simpl. lia.
  - reflexivity.
  - reflexivity.
  - reflexivity.
  - reflexivity.
  - reflexivity.
  - reflexivity.
  - reflexivity.
  - intros a b a' b' u. unfold sync_example.
    destruct (intersection_period_period_internal (period a) (period b))
      as [q|] eqn:E; [|discriminate].
    intros [= <- <-]. cbn [period].
    destruct (intersection_spec _ _ _ E) as [_ [_ Hq]].
    intros [H|H]; apply Hq; exact H.
  - split; [exact Hin|]. split; [exact Hext|].
    destruct Hr as [Hr|[sync1 [sync2 [Hr [_ [_ [H1 H2]]]]]]]; [discriminate Hr|].
    exists sync1, sync2. split; [exact Hr|]. split; [|split; assumption].
    assert (Hc : synchronize_temporals_temporalseq false 0 0 example_srid
                   normalize_none (fun _ => 0) time_box sync_example
                   walk_left_example (closed_seq 5 10) false
                 = Ok (Some
                     (mkTS 1 23 (mkFlags false true false)
                        [mkSeq 2 23 (mkFlags false false false)
                           (mkPeriod 5 10 true false)
                           [mkInst 1 5 23; mkInst 1 10 23]] None,
                      mkTS 1 23 (mkFlags false true false)
                        [mkSeq 2 23 (mkFlags false false false)
                           (mkPeriod 5 10 true false)
                           [mkInst 1 5 23; mkInst 1 10 23]] None)))
      by reflexivity.
    rewrite Hc in Hr. injection Hr as <- _. reflexivity.
Defined.

(** ** Synchronisation with an instant set *)

Section SynchronizeInstantsProps.

Variable temporalseq_at_timestamp : TemporalSeq -> TimestampTz -> option TemporalInst.
Variable temporali_timespan : TemporalI -> Period.
Variable temporali_from_temporalinstarr : list TemporalInst -> Z -> TemporalI.

Lemma synchronize_instants_walk_sound (ts : TemporalS) (ti : TemporalI) :
  forall fuel i j instants1 instants2 r1 r2,
    Forall2 (synchronized_pair temporalseq_at_timestamp ts ti) instants1 instants2 ->
    synchronize_instants_walk temporalseq_at_timestamp fuel ts ti i j
      instants1 instants2 = Some (r1, r2) ->
    Forall2 (synchronized_pair temporalseq_at_timestamp ts ti) r1 r2.
Proof.
  induction fuel as [|fuel IH]; intros i j instants1 instants2 r1 r2 Hinv Hrun;
    cbn [synchronize_instants_walk] in Hrun;
    destruct ((i <? count ts) && (j <? ti_count ti));
    try discriminate; try (injection Hrun as <- <-; exact Hinv).
  destruct (temporals_seq_n ts i) as [seq|] eqn:Hseq; [|discriminate].
  destruct (temporali_inst_n ti j) as [inst|] eqn:Hinst; [|discriminate].
  cbv zeta in Hrun.
  assert (Hnext : Forall2 (synchronized_pair temporalseq_at_timestamp ts ti)
            (if contains_period_timestamp_internal (period seq) (inst_t inst)
             then instants1 ++ [temporalseq_at_timestamp seq (inst_t inst)]
             else instants1)
            (if contains_period_timestamp_internal (period seq) (inst_t inst)
             then instants2 ++ [inst] else instants2)).
  { destruct (contains_period_timestamp_internal (period seq) (inst_t inst)) eqn:Hc;
      [|exact Hinv].
    apply Forall2_app; [exact Hinv|]. constructor; [|constructor].
    exists seq. repeat split; auto.
    - eapply array_get_In. exact Hseq.
    - eapply array_get_In. exact Hinst. }
  destruct (timestamp_cmp_internal (upper (period seq)) (inst_t inst) =? 0);
    [eapply IH; eauto|].
  destruct (timestamp_cmp_internal (upper (period seq)) (inst_t inst) <? 0);
    eapply IH; eauto.
Qed.

(** The walk passes the sequences that end before [t] and then, at a
    sequence that ends at [t] exclusive, the instant at [t]. *)
Lemma synchronize_instants_walk_skips (ts : TemporalS) (inst : TemporalInst)
    (s1 : TemporalSeq) (rest : list TemporalSeq) :
  upper (period s1) = inst_t inst -> upper_inc (period s1) = false ->
  forall (pre done : list TemporalSeq) (fuel : nat),
    sequences ts = done ++ pre ++ s1 :: rest ->
    count ts = Z.of_nat (length (sequences ts)) ->
    (forall s, In s pre -> upper (period s) < inst_t inst) ->
    (length pre < fuel)%nat ->
    synchronize_instants_walk temporalseq_at_timestamp fuel ts (mkTI 1 [inst])
      (Z.of_nat (length done)) 0 [] [] = Some ([], []).
Proof.
  intros Hup Hui. induction pre as [|s pre IH]; intros done fuel Es Hcnt Hbefore Hfuel.
  - destruct fuel as [|fuel]; [cbn in Hfuel; lia|].
    cbn [synchronize_instants_walk ti_count].
    replace (Z.of_nat (length done) <? count ts) with true
      by (symmetry; apply Z.ltb_lt; rewrite Hcnt, Es, !length_app; cbn [length]; lia).
    cbn [andb Z.ltb Z.compare].
    unfold temporals_seq_n. rewrite Es. cbn [app]. rewrite array_get_middle.
    change (temporali_inst_n (mkTI 1 [inst]) 0) with (Some inst). cbv iota beta zeta.
    assert (Hc : contains_period_timestamp_internal (period s1) (inst_t inst) = false).
    { unfold contains_period_timestamp_internal.
      rewrite <- Hup, Hui, Z.ltb_irrefl, andb_false_r. cbn [orb].
      apply andb_false_r. }
    rewrite Hc, timestamp_cmp_eq, Hup, Z.eqb_refl.
    destruct fuel; cbn [synchronize_instants_walk ti_count];
      change (0 + 1 <? 1) with false; rewrite andb_false_r; reflexivity.
  - destruct fuel as [|fuel]; [cbn in Hfuel; lia|].
    cbn [synchronize_instants_walk ti_count].
    replace (Z.of_nat (length done) <? count ts) with true
      by (symmetry; apply Z.ltb_lt; rewrite Hcnt, Es, !length_app; cbn [length]; lia).
    cbn [andb Z.ltb Z.compare].
    unfold temporals_seq_n at 1. rewrite Es at 1. cbn [app]. rewrite array_get_middle.
    change (temporali_inst_n (mkTI 1 [inst]) 0) with (Some inst). cbv iota beta zeta.
    pose proof (Hbefore s (or_introl eq_refl)) as Hs.
    assert (Hc : contains_period_timestamp_internal (period s) (inst_t inst) = false).
    { unfold contains_period_timestamp_internal.
      replace (inst_t inst <? upper (period s)) with false
        by (symmetry; apply Z.ltb_ge; lia).
      replace (inst_t inst =? upper (period s)) with false
        by (symmetry; apply Z.eqb_neq; lia).
      cbn [orb andb]. apply andb_false_r. }
    rewrite Hc, timestamp_cmp_eq, timestamp_cmp_lt.
    replace (upper (period s) =? inst_t inst) with false
      by (symmetry; apply Z.eqb_neq; lia).
    replace (upper (period s) <? inst_t inst) with true
      by (symmetry; apply Z.ltb_lt; lia).
    replace (Z.of_nat (length done) + 1) with (Z.of_nat (length (done ++ [s])))
      by (rewrite length_app; cbn [length]; lia).
    apply IH.
    + rewrite <- app_assoc. exact Es.
    + exact Hcnt.
    + intros s' Hs'. apply Hbefore. right. exact Hs'.
    + cbn [length] in Hfuel. lia.
Qed.

(** X20.  Synchronisation of a sequence set with an instant set.  Every
    pair of instants kept is the restriction of a sequence of the set to
    the timestamp of an instant of the instant set that the sequence
    contains.  Not every such instant is kept: when a sequence ends at [t]
    exclusive and the next one starts at [t] inclusive, the walk leaves
    both that sequence and the instant at [t] behind, and for the instant
    set of that one instant the function returns [false], although the
    set is defined at [t]. *)
Theorem synchronize_temporals_temporali_skips
    (ts : TemporalS) (inst : TemporalInst)
    (pre : list TemporalSeq) (s1 s2 : TemporalSeq) (post : list TemporalSeq) :
  valid_temporals ts ->
  sequences ts = pre ++ s1 :: s2 :: post ->
  upper (period s1) = inst_t inst -> upper_inc (period s1) = false ->
  in_period (period s2) (inst_t inst) ->
  (forall ti fuel r1 r2,
     synchronize_instants_walk temporalseq_at_timestamp fuel ts ti 0 0 [] []
       = Some (r1, r2) ->
     Forall2 (synchronized_pair temporalseq_at_timestamp ts ti) r1 r2) /\
  seqs_extent (sequences ts) (inst_t inst) /\
  synchronize_temporals_temporali temporalseq_at_timestamp temporali_timespan
    temporali_from_temporalinstarr ts (mkTI 1 [inst]) = Ok None /\
  synchronize_temporali_temporals temporalseq_at_timestamp temporali_timespan
    temporali_from_temporalinstarr (mkTI 1 [inst]) ts = Ok None.
Proof.
  intros Hvalid Es Hup Hui Hnext.
  pose proof Hvalid as [Hcnt [Hpos [Hval Hord]]].
  split.
  { intros ti fuel r1 r2 Hrun.
    eapply synchronize_instants_walk_sound; [|exact Hrun]. constructor. }
  split.
  { exists s2. split; [|exact Hnext].
    rewrite Es. apply in_or_app. right. right. left. reflexivity. }
  assert (Hrun : synchronize_temporals_temporali temporalseq_at_timestamp
                   temporali_timespan temporali_from_temporalinstarr ts
                   (mkTI 1 [inst]) = Ok None).
  { unfold synchronize_temporals_temporali.
    destruct (timespan_defined ts Hvalid) as [p ->].
    destruct (negb _); [reflexivity|].
    pose proof (synchronize_instants_walk_skips ts inst s1 (s2 :: post) Hup Hui pre []
                  (Z.to_nat (count ts + ti_count (mkTI 1 [inst])))) as Hwalk.
    cbn [length Z.of_nat app] in Hwalk. rewrite Hwalk; [reflexivity| | | |].
    - exact Es.
    - exact Hcnt.
    - intros s Hs.
      assert (Hv1 : period_valid (period s1) = true).
      { rewrite forallb_forall in Hval. apply Hval. rewrite Es.
        apply in_or_app. right. left. reflexivity. }
      pose proof (period_valid_le _ Hv1) as Hle.
      assert (Hlt : lower (period s1) < upper (period s1)).
      { destruct (Z.eq_dec (lower (period s1)) (upper (period s1))) as [E|E]; [|lia].
        destruct (period_valid_degenerate _ Hv1 E) as [_ Hu]. congruence. }
      pose proof (ordered_left_sorted _ Hval Hord) as Hsorted.
      rewrite Es in Hsorted. apply left_sorted_app in Hsorted.
      destruct Hsorted as [_ [_ Hcross]].
      pose proof (Hcross s s1 Hs (or_introl eq_refl)) as Hleft.
      unfold period_left in Hleft. destruct Hleft as [?|[? _]]; lia.
    - cbn [ti_count]. rewrite Hcnt, Es, !length_app. cbn [length]. lia. }
  split; [exact Hrun|].
  unfold synchronize_temporali_temporals. rewrite Hrun. reflexivity.
Qed.

End SynchronizeInstantsProps.

(** The set on [0,10), [10,20] is defined at 10, and its synchronisation
    with the instant at 10 returns [false]. *)
Lemma synchronize_temporals_temporali_skips_witness :
  seqs_extent (sequences walk_left_example) 10 /\
  synchronize_temporals_temporali at_timestamp_example
    (fun ti => mkPeriod 10 10 true true) (fun l n => mkTI n l)
    walk_left_example (mkTI 1 [mkInst 1 10 23]) = Ok None.
Proof.
  destruct (synchronize_temporals_temporali_skips at_timestamp_example
              (fun ti => mkPeriod 10 10 true true) (fun l n => mkTI n l)
              walk_left_example (mkInst 1 10 23)
              [] (flagged_seq 0 10 true false) (closed_seq 10 20) [])
    as [_ [Hext [Hr _]]].
  - unfold valid_temporals. simpl. repeat split; try reflexivity; lia.
  - reflexivity.
  - reflexivity.
  - reflexivity.
  - reflexivity.
  - split; [exact Hext | exact Hr].
Defined.

(** ** Restriction to a value and to its complement *)

Section AtValueProps.

Variable with_postgis : bool.
Variable geometry_oid geography_oid : Oid.
Variable tpoint_srid_internal : TemporalSeq -> Z.
Variable temporalseqarr_normalize : list TemporalSeq -> list TemporalSeq.
Variable temporal_bbox_size : Oid -> Z.
Variable temporals_make_bbox : list TemporalSeq -> BOX.
Variable temporalseq_at_value temporalseq_minus_value :
  TemporalSeq -> Datum -> Oid -> option TemporalS.
Variable temporalseq_at_value2 temporalseq_minus_value2 :
  TemporalSeq -> Datum -> Oid -> list TemporalSeq.

Lemma collected_fragments (fragments : TemporalSeq -> list TemporalSeq) :
  forall l,
    forallb (fun s => period_valid (period s)) l = true ->
    seqarr_ordered l = true ->
    (forall seq, In seq l -> fragments_of tpoint_srid_internal seq (fragments seq)) ->
    let allseqs := concat (map fragments l) in
    seqarr_ordered allseqs = true /\
    Forall (fun f => exists s, In s l /\
              contains_period_period_internal (period s) (period f) = true /\
              same_geo tpoint_srid_internal s f) allseqs /\
    (forall t, seqs_extent allseqs t <->
               exists seq, In seq l /\ seqs_extent (fragments seq) t).
Proof.
  induction l as [|seq rest IH]; intros Hv Ho Hfrag allseqs; subst allseqs.
  { cbn. split; [reflexivity|]. split; [constructor|]. intros t. split.
    - intros H. destruct (seqs_extent_nil _ H).
    - intros [s [[] _]]. }
  cbn [forallb] in Hv. apply andb_true_iff in Hv. destruct Hv as [Hs Hv].
  pose proof (seqarr_ordered_head seq rest Hv Ho) as Hleft.
  rewrite Forall_forall in Hleft.
  destruct (IH Hv (seqarr_ordered_tail _ _ Ho)) as [Hmo [Hmw Hme]].
  { intros s Hin. apply Hfrag. right. exact Hin. }
  destruct (Hfrag seq (or_introl eq_refl)) as [Hfo Hfw].
  cbn [map concat]. split; [|split].
  - apply seqarr_ordered_concat; auto.
    intros x y Hx Hy. rewrite Forall_forall in Hfw, Hmw.
    destruct (Hfw x Hx) as [Hcx _].
    destruct (Hmw y Hy) as [s' [Hs' [Hcy _]]].
    eapply period_left_within; [apply (Hleft s' Hs') | exact Hcx | exact Hcy].
  - apply Forall_app. split.
    + eapply Forall_impl; [|exact Hfw]. cbn. intros f Hf.
      exists seq. split; [left; reflexivity | exact Hf].
    + eapply Forall_impl; [|exact Hmw]. cbn.
      intros f [s' [Hs' H]]. exists s'. split; [right; exact Hs' | exact H].
  - intros t. rewrite seqs_extent_app, Hme. split.
    + intros [H|[s [Hin H]]]; [exists seq; split; [left; reflexivity|exact H]|].
      exists s. split; [right; exact Hin | exact H].
    + intros [s [[<-|Hin] H]]; [left; exact H | right; exists s; auto].
Qed.

(** Normalisation returns at least one sequence and keeps the instants
    covered. *)
Hypothesis normalize_extent : forall l,
  l <> [] -> seqarr_ordered l = true ->
  temporalseqarr_normalize l <> [] /\
  forall t, seqs_extent (temporalseqarr_normalize l) t <-> seqs_extent l t.

Lemma restrict_collect_extent (fragments : TemporalSeq -> list TemporalSeq)
    (ts : TemporalS) :
  valid_temporals ts ->
  uniform_geo tpoint_srid_internal (sequences ts) ->
  (forall seq, In seq (sequences ts) ->
     fragments_of tpoint_srid_internal seq (fragments seq)) ->
  exists M,
    restrict_collect with_postgis geometry_oid geography_oid tpoint_srid_internal
      temporalseqarr_normalize temporal_bbox_size temporals_make_bbox
      fragments ts = Ok M /\
    (forall t, temporals_extent M t <->
               exists seq, In seq (sequences ts) /\ seqs_extent (fragments seq) t).
Proof.
  intros [Hcnt [Hpos [Hval Hord]]] Hgeo Hfrag.
  unfold restrict_collect, array_prefix.
  rewrite Hcnt, Z.ltb_irrefl, Nat2Z.id, firstn_all. cbn [bind].
  destruct (collected_fragments fragments (sequences ts) Hval Hord Hfrag)
    as [Hao [Haw Hae]].
  set (allseqs := concat (map fragments (sequences ts))) in *.
  destruct allseqs as [|a0 rest] eqn:Ea.
  - cbn. eexists. split; [reflexivity|]. intros t. cbn [temporals_extent].
    rewrite <- Hae. split; [contradiction | apply seqs_extent_nil].
  - rewrite <- Ea in *.
    assert (Hne : allseqs <> []) by (rewrite Ea; discriminate).
    replace (Z.of_nat (length allseqs) =? 0) with false
      by (symmetry; apply Z.eqb_neq; rewrite Ea; cbn [length]; lia).
    destruct (normalize_extent allseqs Hne Hao) as [Hnn Hne'].
    destruct (temporals_from_temporalseqarr_ok with_postgis geometry_oid
                geography_oid tpoint_srid_internal temporalseqarr_normalize
                temporal_bbox_size temporals_make_bbox allseqs true Hne Hao)
      as [r [Hr Hseqs]].
    + eapply uniform_geo_kept; eauto.
    + intros _. exact Hnn.
    + rewrite Hr. cbn [bind]. eexists. split; [reflexivity|].
      intros t. cbn [temporals_extent andb] in *. rewrite Hseqs.
      destruct (1 <? Z.of_nat (length allseqs)); [rewrite Hne'|]; apply Hae.
Qed.

(** X21.  Restriction to a value and to its complement.  Let the
    sequence-level restrictions return, for each sequence of a valid set
    with one SRID and Z flag, fragments in order within the period of the
    sequence, and let the fragments at the value and those at its
    complement share no instant and cover the sequence; let normalisation
    keep the instants.  Then [temporals_at_value] and
    [temporals_minus_value] return without an error, their results share
    no instant, and together they cover the instants of the set.  A NULL
    result counts as empty. *)
Theorem temporals_at_minus_value_partition
    (ts : TemporalS) (value : Datum) (vt : Oid) :
  valid_temporals ts ->
  uniform_geo tpoint_srid_internal (sequences ts) ->
  (forall seq, In seq (sequences ts) ->
     fragments_of tpoint_srid_internal seq (temporalseq_at_value2 seq value vt) /\
     fragments_of tpoint_srid_internal seq (temporalseq_minus_value2 seq value vt) /\
     (forall t, temporals_extent (temporalseq_at_value seq value vt) t <->
                seqs_extent (temporalseq_at_value2 seq value vt) t) /\
     (forall t, temporals_extent (temporalseq_minus_value seq value vt) t <->
                seqs_extent (temporalseq_minus_value2 seq value vt) t) /\
     (forall t, ~ (seqs_extent (temporalseq_at_value2 seq value vt) t /\
                   seqs_extent (temporalseq_minus_value2 seq value vt) t)) /\
     (forall t, seqs_extent (temporalseq_at_value2 seq value vt) t \/
                seqs_extent (temporalseq_minus_value2 seq value vt) t <->
                in_period (period seq) t)) ->
  exists A M,
    temporals_at_value with_postgis geometry_oid geography_oid tpoint_srid_internal
      temporalseqarr_normalize temporal_bbox_size temporals_make_bbox
      temporalseq_at_value temporalseq_at_value2 ts value vt = Ok A /\
    temporals_minus_value with_postgis geometry_oid geography_oid tpoint_srid_internal
      temporalseqarr_normalize temporal_bbox_size temporals_make_bbox
      temporalseq_minus_value temporalseq_minus_value2 ts value vt = Ok M /\
    (forall t, ~ (temporals_extent A t /\ temporals_extent M t)) /\
    (forall t, temporals_extent A t \/ temporals_extent M t <->
               seqs_extent (sequences ts) t).
Proof.
  intros Hvalid Hgeo Hspec.
  pose proof Hvalid as [Hcnt [Hpos [Hval Hord]]].
  assert (Hres : exists A M,
    temporals_at_value with_postgis geometry_oid geography_oid tpoint_srid_internal
      temporalseqarr_normalize temporal_bbox_size temporals_make_bbox
      temporalseq_at_value temporalseq_at_value2 ts value vt = Ok A /\
    temporals_minus_value with_postgis geometry_oid geography_oid tpoint_srid_internal
      temporalseqarr_normalize temporal_bbox_size temporals_make_bbox
      temporalseq_minus_value temporalseq_minus_value2 ts value vt = Ok M /\
    (forall t, temporals_extent A t <->
       exists seq, In seq (sequences ts) /\
                   seqs_extent (temporalseq_at_value2 seq value vt) t) /\
    (forall t, temporals_extent M t <->
       exists seq, In seq (sequences ts) /\
                   seqs_extent (temporalseq_minus_value2 seq value vt) t)).
  { unfold temporals_at_value, temporals_minus_value.
    destruct (Z.eqb_spec (count ts) 1) as [E1|E1].
    - destruct (sequences ts) as [|s0 [|s1 rest]] eqn:Es;
        try (cbn [length] in Hcnt; lia).
      unfold temporals_seq_n. rewrite Es.
      change (array_get [s0] 0) with (Some s0). cbv iota.
      destruct (Hspec s0 (or_introl eq_refl)) as [_ [_ [Ha [Hm _]]]].
      do 2 eexists. split; [reflexivity|]. split; [reflexivity|]. split.
      + intros t. rewrite Ha. split.
        * intros H. exists s0. split; [left; reflexivity | exact H].
        * intros [s [[<-|[]] H]]. exact H.
      + intros t. rewrite Hm. split.
        * intros H. exists s0. split; [left; reflexivity | exact H].
        * intros [s [[<-|[]] H]]. exact H.
    - destruct (restrict_collect_extent
                  (fun seq => temporalseq_at_value2 seq value vt) ts Hvalid Hgeo)
        as [A [HA HAe]].
      { intros seq Hin. apply (Hspec seq Hin). }
      destruct (restrict_collect_extent
                  (fun seq => temporalseq_minus_value2 seq value vt) ts Hvalid Hgeo)
        as [M [HM HMe]].
      { intros seq Hin. apply (Hspec seq Hin). }
      exists A, M. repeat split; try assumption; try apply HAe; try apply HMe. }
  destruct Hres as [A [M [HA [HM [HAe HMe]]]]].
  exists A, M. split; [exact HA|]. split; [exact HM|]. split.
  - intros t [Ht1 Ht2]. apply HAe in Ht1. apply HMe in Ht2.
    destruct Ht1 as [s [Hs Hin1]]. destruct Ht2 as [s' [Hs' Hin2]].
    destruct (Hspec s Hs) as [[_ Hw] [_ [_ [_ [Hdis Hcov]]]]].
    destruct (Hspec s' Hs') as [_ [_ [_ [_ [_ Hcov']]]]].
    assert (H1 : in_period (period s) t) by (apply Hcov; left; exact Hin1).
    assert (H2 : in_period (period s') t) by (apply Hcov'; right; exact Hin2).
    assert (E : s' = s).
    { destruct (In_nth_error _ _ Hs) as [k Hk].
      rewrite <- array_get_nth in Hk.
      exact (found_unique ts t (Z.of_nat k) s s' Hvalid Hk H1 Hs' H2). }
    subst s'. apply (Hdis t). split; assumption.
  - intros t. rewrite HAe, HMe. split.
    + intros [[s [Hs Hin]]|[s [Hs Hin]]]; exists s; (split; [exact Hs|]);
        destruct (Hspec s Hs) as [_ [_ [_ [_ [_ Hcov]]]]]; apply Hcov; auto.
    + intros [s [Hs Hin]].
      destruct (Hspec s Hs) as [_ [_ [_ [_ [_ Hcov]]]]].
      apply Hcov in Hin. destruct Hin as [Hin|Hin]; [left|right]; exists s; auto.
Qed.

End AtValueProps.

(** With the values 1 on [0,10] and 2 on [20,30], the restriction to 1 is
    the first sequence and its complement the second. *)
Lemma temporals_at_minus_value_partition_witness :
  exists A M,
    temporals_at_value false 0 0 (fun _ => 0) normalize_none (fun _ => 0) time_box
      (fun seq v vt => seqs_as_set seq (at_value2_constant seq v vt))
      at_value2_constant two_values_example 1 23 = Ok (Some A) /\
    temporals_minus_value false 0 0 (fun _ => 0) normalize_none (fun _ => 0) time_box
      (fun seq v vt => seqs_as_set seq (minus_value2_constant seq v vt))
      minus_value2_constant two_values_example 1 23 = Ok (Some M) /\
    map period (sequences A) = [mkPeriod 0 10 true true] /\
    map period (sequences M) = [mkPeriod 20 30 true true] /\
    (forall t, seqs_extent (sequences A) t \/ seqs_extent (sequences M) t <->
               seqs_extent (sequences two_values_example) t).
Proof.
  destruct (temporals_at_minus_value_partition false 0 0 (fun _ => 0) normalize_none
              (fun _ => 0) time_box
              (fun seq v vt => seqs_as_set seq (at_value2_constant seq v vt))
              (fun seq v vt => seqs_as_set seq (minus_value2_constant seq v vt))
              at_value2_constant minus_value2_constant
              (fun l Hne _ => conj Hne (fun t => conj (fun H => H) (fun H => H)))
              two_values_example 1 23)
    as [A [M [HA [HM [_ Hcov]]]]].
  - unfold valid_temporals. simpl. repeat split; try reflexivity; lia.
  - intros a b [<-|[<-|[]]] [<-|[<-|[]]]; split; reflexivity.
  - intros seq _. unfold at_value2_constant, minus_value2_constant, fragments_of.
    assert (Hself : forall t, seqs_extent [seq] t <-> in_period (period seq) t).
    { intros t. rewrite seqs_extent_cons. split; [|tauto].
      intros [H|H]; [exact H | destruct (seqs_extent_nil _ H)]. }
    assert (Hfull : fragments_of (fun _ => 0) seq [seq]).
    { split; [reflexivity|]. constructor; [|constructor].
      split; [apply contains_period_refl | split; reflexivity]. }
    assert (Hnone : fragments_of (fun _ => 0) seq []).
    { split; [reflexivity | constructor]. }
    unfold fragments_of in Hfull, Hnone.
    destruct (forallb (fun i => inst_value i =? 1) (instants seq)).
    + split; [exact Hfull|]. split; [exact Hnone|].
      split; [intros t; apply seqs_as_set_extent|].
      split; [intros t; apply seqs_as_set_extent|].
      split.
      * intros t [_ H]. destruct (seqs_extent_nil _ H).
      * intros t. split.
        -- intros [H|H]; [apply Hself; exact H | destruct (seqs_extent_nil _ H)].
        -- intros H. left. apply Hself. exact H.
    + split; [exact Hnone|]. split; [exact Hfull|].
      split; [intros t; apply seqs_as_set_extent|].
      split; [intros t; apply seqs_as_set_extent|].
      split.
      * intros t [H _]. destruct (seqs_extent_nil _ H).
      * intros t. split.
        -- intros [H|H]; [destruct (seqs_extent_nil _ H) | apply Hself; exact H].
        -- intros H. right. apply Hself. exact H.
  - assert (HA' : temporals_at_value false 0 0 (fun _ => 0) normalize_none
                    (fun _ => 0) time_box
                    (fun seq v vt => seqs_as_set seq (at_value2_constant seq v vt))
                    at_value2_constant two_values_example 1 23
                  = Ok (Some (mkTS 1 23 (mkFlags false true false)
                          [mkSeq 2 23 (mkFlags false false false)
                             (mkPeriod 0 10 true true)
                             [mkInst 1 0 23; mkInst 1 10 23]] None)))
      by reflexivity.
    assert (HM' : temporals_minus_value false 0 0 (fun _ => 0) normalize_none
                    (fun _ => 0) time_box
                    (fun seq v vt => seqs_as_set seq (minus_value2_constant seq v vt))
                    minus_value2_constant two_values_example 1 23
                  = Ok (Some (mkTS 1 23 (mkFlags false true false)
                          [mkSeq 2 23 (mkFlags false false false)
                             (mkPeriod 20 30 true true)
                             [mkInst 2 20 23; mkInst 2 30 23]] None)))
      by reflexivity.
    rewrite HA' in HA. rewrite HM' in HM.
    injection HA as <-. injection HM as <-.
    do 2 eexists. split; [reflexivity|]. split; [reflexivity|].
    split; [reflexivity|]. split; [reflexivity|]. exact Hcov.
Defined.

(** ** Restriction to a period set and to its complement *)

Lemma periodset_extent_dec (ps : PeriodSet) (t : TimestampTz) :
  periodset_extent ps t \/ ~ periodset_extent ps t.
Proof.
  unfold periodset_extent. induction (ps_periods ps) as [|p l IH].
  - right. intros [p [[] _]].
  - destruct (contains_period_timestamp_internal p t) eqn:E.
    + left. exists p. split; [left; reflexivity | exact E].
    + destruct IH as [[q [Hq Ht]]|Hn].
      * left. exists q. split; [right; exact Hq | exact Ht].
      * right. intros [q [[<-|Hq] Ht]]; [unfold in_period in Ht; congruence|].
        apply Hn. exists q. auto.
Qed.

Section MinusPeriodSetProps.

Variable with_postgis : bool.
Variable geometry_oid geography_oid : Oid.
Variable tpoint_srid_internal : TemporalSeq -> Z.
Variable temporalseqarr_normalize : list TemporalSeq -> list TemporalSeq.
Variable temporal_bbox_size : Oid -> Z.
Variable temporals_make_bbox : list TemporalSeq -> BOX.
Variable temporalseq_at_periodset : TemporalSeq -> PeriodSet -> option TemporalS.
Variable temporalseq_at_periodset1 : TemporalSeq -> PeriodSet -> list TemporalSeq.
Variable periodset_from_periodarr_internal : list Period -> Z -> bool -> PeriodSet.
Variable temporalseq_minus_periodset : TemporalSeq -> PeriodSet -> option TemporalS.
Variable minus_periodset_periodset_internal : PeriodSet -> PeriodSet -> option PeriodSet.

(** The restrictions of one sequence cover its instants in the set, and
    those outside it. *)
Hypothesis at_periodset_extent : forall seq ps t,
  period_valid (period seq) = true -> periodset_valid ps ->
  (temporals_extent (temporalseq_at_periodset seq ps) t <->
   in_period (period seq) t /\ periodset_extent ps t).
Hypothesis minus_periodset_extent : forall seq ps t,
  period_valid (period seq) = true -> periodset_valid ps ->
  (temporals_extent (temporalseq_minus_periodset seq ps) t <->
   in_period (period seq) t /\ ~ periodset_extent ps t).
(** The fragments of a sequence at a valid period set are in order, lie
    within the period of the sequence, keep its SRID and Z flag, and cover
    the instants of the sequence that are in the set. *)
Hypothesis at_periodset1_spec : forall seq ps,
  period_valid (period seq) = true -> periodset_valid ps ->
  seqarr_ordered (temporalseq_at_periodset1 seq ps) = true /\
  Forall (fun f => contains_period_period_internal (period seq) (period f) = true /\
                   same_geo tpoint_srid_internal seq f)
         (temporalseq_at_periodset1 seq ps) /\
  forall t, seqs_extent (temporalseq_at_periodset1 seq ps) t <->
            in_period (period seq) t /\ periodset_extent ps t.
(** Normalisation returns at least one sequence and keeps the instants
    covered. *)
Hypothesis normalize_extent : forall l,
  l <> [] -> seqarr_ordered l = true ->
  temporalseqarr_normalize l <> [] /\
  forall t, seqs_extent (temporalseqarr_normalize l) t <-> seqs_extent l t.
(** A period set built without normalisation holds the periods given. *)
Hypothesis from_periodarr_periods : forall periods n,
  ps_periods (periodset_from_periodarr_internal periods n false)
  = firstn (Z.to_nat n) periods.
(** Subtracting a valid period set from a valid period set gives a valid
    period set over the instants left, NULL when none is left. *)
Hypothesis minus_periodset_periodset_spec : forall ps1 ps,
  periodset_valid ps1 -> periodset_valid ps ->
  match minus_periodset_periodset_internal ps1 ps with
  | Some r => periodset_valid r /\
              forall t, periodset_extent r t <->
                        periodset_extent ps1 t /\ ~ periodset_extent ps t
  | None => forall t, periodset_extent ps1 t -> periodset_extent ps t
  end.

(** Subtracting from a valid period set, not empty, a valid period set
    that has for each of its periods one that contains it leaves nothing:
    the result is NULL. *)
Hypothesis minus_periodset_periodset_null : forall ps1 ps,
  periodset_valid ps1 -> periodset_valid ps -> ps_periods ps1 <> [] ->
  (forall q, In q (ps_periods ps1) ->
     exists p, In p (ps_periods ps) /\ contains_period_period_internal p q = true) ->
  minus_periodset_periodset_internal ps1 ps = None.

(** X22.  Restriction to a period set and to its complement.  On a valid
    sequence set with one SRID and Z flag and a valid period set, the
    collaborators keeping their contracts, [temporals_at_periodset]
    returns the instants of the set that are in the period set.  Where
    the set has a single sequence, or an instant outside the period set,
    [temporals_minus_periodset] returns as well: no instant is in both
    results, and an instant is in one of them exactly when it is an
    instant of the set, a NULL result counting as empty.  Where the set
    has two sequences or more and each of their periods lies within a
    period of the period set, [temporals_minus_periodset] does not
    return: the subtraction gives it NULL, and it releases that
    pointer. *)
Theorem temporals_at_minus_periodset_partition (ts : TemporalS) (ps : PeriodSet) :
  valid_temporals ts ->
  uniform_geo tpoint_srid_internal (sequences ts) ->
  periodset_valid ps ->
  let minus :=
    temporals_minus_periodset with_postgis geometry_oid geography_oid
      tpoint_srid_internal temporalseqarr_normalize temporal_bbox_size
      temporals_make_bbox temporalseq_at_periodset temporalseq_at_periodset1
      periodset_from_periodarr_internal temporalseq_minus_periodset
      minus_periodset_periodset_internal ts ps in
  exists A,
    temporals_at_periodset with_postgis geometry_oid geography_oid
      tpoint_srid_internal temporalseqarr_normalize temporal_bbox_size
      temporals_make_bbox temporalseq_at_periodset temporalseq_at_periodset1
      ts ps = Ok A /\
    (forall t, temporals_extent A t <->
               seqs_extent (sequences ts) t /\ periodset_extent ps t) /\
    ((count ts = 1 \/
      exists t, seqs_extent (sequences ts) t /\ ~ periodset_extent ps t) ->
     exists M,
       minus = Ok M /\
       (forall t, ~ (temporals_extent A t /\ temporals_extent M t)) /\
       (forall t, temporals_extent A t \/ temporals_extent M t <->
                  seqs_extent (sequences ts) t)) /\
    (count ts <> 1 ->
     (forall s, In s (sequences ts) ->
        exists p, In p (ps_periods ps) /\
                  contains_period_period_internal p (period s) = true) ->
     minus = Fault).
Proof.
  intros Hvalid Hgeo Hps minus. subst minus.
  pose proof Hvalid as [Hcnt [Hpos [Hval Hord]]].
  (* the restriction *)
  assert (Hat : exists A,
    temporals_at_periodset with_postgis geometry_oid geography_oid
      tpoint_srid_internal temporalseqarr_normalize temporal_bbox_size
      temporals_make_bbox temporalseq_at_periodset temporalseq_at_periodset1
      ts ps = Ok A /\
    (forall t, temporals_extent A t <->
               seqs_extent (sequences ts) t /\ periodset_extent ps t)).
  { destruct (Z.eqb_spec (count ts) 1) as [E1|E1].
    - unfold temporals_at_periodset. rewrite E1. cbn [Z.eqb Pos.eqb].
      destruct (sequences ts) as [|s0 [|s1 rest]] eqn:Es;
        try (cbn [length] in Hcnt; lia).
      unfold temporals_seq_n. rewrite Es.
      change (array_get [s0] 0) with (Some s0). cbv iota.
      cbn [forallb] in Hval. rewrite andb_true_r in Hval.
      eexists. split; [reflexivity|]. intros t.
      rewrite (at_periodset_extent s0 ps t Hval Hps), seqs_extent_cons.
      split; [tauto|].
      intros [[H|H] Hn]; [tauto | destruct (seqs_extent_nil _ H)].
    - apply (temporals_at_periodset_extent with_postgis geometry_oid
               geography_oid tpoint_srid_internal temporalseqarr_normalize
               temporal_bbox_size temporals_make_bbox temporalseq_at_periodset
               temporalseq_at_periodset1 at_periodset1_spec normalize_extent
               ts ps Hvalid E1 Hgeo Hps). }
  destruct Hat as [A [HA HAe]].
  exists A. split; [exact HA|]. split; [exact HAe|].
  (* the time of [ts] *)
  set (ps1 := periodset_from_periodarr_internal (map period (sequences ts))
                (count ts) false).
  assert (Hget : temporals_get_time periodset_from_periodarr_internal ts = Ok ps1).
  { unfold temporals_get_time, array_prefix.
    rewrite Hcnt, Z.ltb_irrefl, Nat2Z.id, firstn_all. cbn [bind].
    subst ps1. rewrite Hcnt. reflexivity. }
  assert (Hper : ps_periods ps1 = map period (sequences ts)).
  { subst ps1. rewrite from_periodarr_periods, Hcnt, Nat2Z.id.
    rewrite <- (length_map period). apply firstn_all. }
  assert (Hpsv : periodset_valid ps1).
  { unfold periodset_valid.
    rewrite Hper, forallb_map_period, periodarr_ordered_map. auto. }
  assert (Hpse : forall t, periodset_extent ps1 t <-> seqs_extent (sequences ts) t).
  { intros t. apply periodset_extent_map. exact Hper. }
  split.
  - (* the complement returns *)
    intros Hdom.
    assert (HM : exists M,
      temporals_minus_periodset with_postgis geometry_oid geography_oid
        tpoint_srid_internal temporalseqarr_normalize temporal_bbox_size
        temporals_make_bbox temporalseq_at_periodset temporalseq_at_periodset1
        periodset_from_periodarr_internal temporalseq_minus_periodset
        minus_periodset_periodset_internal ts ps = Ok M /\
      (forall t, temporals_extent M t <->
                 seqs_extent (sequences ts) t /\ ~ periodset_extent ps t)).
    { unfold temporals_minus_periodset.
      destruct (Z.eqb_spec (count ts) 1) as [E1|E1].
      - destruct (sequences ts) as [|s0 [|s1 rest]] eqn:Es;
          try (cbn [length] in Hcnt; lia).
        unfold temporals_seq_n. rewrite Es.
        change (array_get [s0] 0) with (Some s0). cbv iota.
        cbn [forallb] in Hval. rewrite andb_true_r in Hval.
        eexists. split; [reflexivity|]. intros t.
        rewrite (minus_periodset_extent s0 ps t Hval Hps), seqs_extent_cons.
        split; [tauto|].
        intros [[H|H] Hn]; [tauto | destruct (seqs_extent_nil _ H)].
      - destruct Hdom as [Hone|[t0 [Hs0 Hn0]]]; [contradiction|].
        rewrite Hget. cbn [bind].
        pose proof (minus_periodset_periodset_spec ps1 ps Hpsv Hps) as Hminus.
        destruct (minus_periodset_periodset_internal ps1 ps) as [r|].
        + destruct Hminus as [Hrv Hre].
          destruct (temporals_at_periodset_extent with_postgis geometry_oid
                      geography_oid tpoint_srid_internal temporalseqarr_normalize
                      temporal_bbox_size temporals_make_bbox temporalseq_at_periodset
                      temporalseq_at_periodset1 at_periodset1_spec normalize_extent
                      ts r Hvalid E1 Hgeo Hrv) as [M [HM HMe]].
          exists M. split; [exact HM|].
          intros t. rewrite HMe, Hre, Hpse. tauto.
        + exfalso. apply Hn0, Hminus, Hpse, Hs0. }
    destruct HM as [M [HM HMe]].
    exists M. split; [exact HM|]. split.
    + intros t [Ha Hm]. apply HAe in Ha. apply HMe in Hm. tauto.
    + intros t. rewrite HAe, HMe.
      destruct (periodset_extent_dec ps t); tauto.
  - (* the complement releases NULL *)
    intros Hmany Hcover.
    unfold temporals_minus_periodset.
    replace (count ts =? 1) with false by (symmetry; apply Z.eqb_neq; exact Hmany).
    rewrite Hget. cbn [bind].
    rewrite minus_periodset_periodset_null; [reflexivity | exact Hpsv | exact Hps | |].
    + rewrite Hper. destruct (sequences ts); [cbn [length] in Hcnt; lia | discriminate].
    + intros q Hq. rewrite Hper in Hq. apply in_map_iff in Hq.
      destruct Hq as [s [<- Hs]]. apply Hcover. exact Hs.
Qed.

End MinusPeriodSetProps.

(** ** The models keep the contracts *)

Lemma minus_periods_model_spec :
  forall (l : list Period) (acc : option PeriodSet),
    forallb period_valid l = true ->
    match acc with Some a => periodset_valid a | None => True end ->
    match fold_left (fun acc p => match acc with
                                  | Some r => minus_periodset_period_model r p
                                  | None => None
                                  end) l acc with
    | Some r =>
        periodset_valid r /\
        exists a, acc = Some a /\
          forall t, periodset_extent r t <->
                    periodset_extent a t /\ ~ (exists p, In p l /\ in_period p t)
    | None =>
        match acc with
        | Some a => forall t, periodset_extent a t -> exists p, In p l /\ in_period p t
        | None => True
        end
    end.
Proof.
  induction l as [|p l IH]; intros acc Hl Hacc.
  - cbn [fold_left]. destruct acc as [a|]; [|exact I].
    split; [exact Hacc|]. exists a. split; [reflexivity|].
    intros t. split; [|tauto]. intros H. split; [exact H|]. intros [q [[] _]].
  - cbn [forallb] in Hl. apply andb_true_iff in Hl. destruct Hl as [Hp Hl].
    cbn [fold_left]. destruct acc as [a|].
    + pose proof (minus_periodset_period_model_spec a p Hacc Hp) as Hstep.
      destruct (minus_periodset_period_model a p) as [r1|].
      * destruct Hstep as [Hv1 He1].
        specialize (IH (Some r1) Hl Hv1).
        destruct (fold_left _ l (Some r1)) as [r|].
        -- destruct IH as [Hvr [a' [[= <-] Her]]].
           split; [exact Hvr|]. exists a. split; [reflexivity|].
           intros t. rewrite Her, He1. split.
           ++ intros [[Ha Hnp] Hnl]. split; [exact Ha|].
              intros [q [[<-|Hq] Hqt]]; [exact (Hnp Hqt)|].
              apply Hnl. exists q. auto.
           ++ intros [Ha Hn]. split; [split; [exact Ha|]|].
              ** intros Hpt. apply Hn. exists p. split; [left; reflexivity|exact Hpt].
              ** intros [q [Hq Hqt]]. apply Hn. exists q. split; [right; exact Hq|exact Hqt].
        -- intros t Ha. unfold in_period.
           destruct (contains_period_timestamp_internal p t) eqn:E.
           ++ exists p. split; [left; reflexivity | exact E].
           ++ destruct (IH t) as [q [Hq Hqt]].
              { apply He1. split; [exact Ha|]. unfold in_period. congruence. }
              exists q. split; [right; exact Hq | exact Hqt].
      * specialize (IH None Hl I).
        destruct (fold_left _ l None) as [r|].
        -- destruct IH as [_ [a' [H _]]]. discriminate H.
        -- intros t Ha. exists p. split; [left; reflexivity | apply Hstep; exact Ha].
    + specialize (IH None Hl I).
      destruct (fold_left _ l None) as [r|]; [|exact I].
      destruct IH as [_ [a' [H _]]]. discriminate H.
Qed.

Lemma minus_periodset_periodset_model_spec (ps1 ps : PeriodSet) :
  periodset_valid ps1 -> periodset_valid ps ->
  match minus_periodset_periodset_model ps1 ps with
  | Some r => periodset_valid r /\
              forall t, periodset_extent r t <->
                        periodset_extent ps1 t /\ ~ periodset_extent ps t
  | None => forall t, periodset_extent ps1 t -> periodset_extent ps t
  end.
Proof.
  intros H1 [Hv _].
  pose proof (minus_periods_model_spec (ps_periods ps) (Some ps1) Hv H1) as H.
  unfold minus_periodset_periodset_model.
  destruct (fold_left _ (ps_periods ps) (Some ps1)) as [r|].
  - destruct H as [Hr [a [[= <-] He]]]. split; [exact Hr | exact He].
  - exact H.
Qed.

Lemma temporalseq_minus_periodset_model_spec (seq : TemporalSeq) (ps : PeriodSet)
    (t : TimestampTz) :
  period_valid (period seq) = true -> periodset_valid ps ->
  (temporals_extent (temporalseq_minus_periodset_model seq ps) t <->
   in_period (period seq) t /\ ~ periodset_extent ps t).
Proof.
  intros Hs Hps. unfold temporalseq_minus_periodset_model.
  assert (H1 : periodset_valid (mkPeriodSet 1 [period seq])).
  { split; cbn [ps_periods forallb periodarr_ordered]; [|reflexivity].
    rewrite Hs. reflexivity. }
  assert (Hone : periodset_extent (mkPeriodSet 1 [period seq]) t <->
                 in_period (period seq) t).
  { unfold periodset_extent. cbn [ps_periods]. split.
    - intros [p [[<-|[]] H]]. exact H.
    - intros H. exists (period seq). split; [left; reflexivity | exact H]. }
  pose proof (minus_periodset_periodset_model_spec _ ps H1 Hps) as Hm.
  destruct (minus_periodset_periodset_model (mkPeriodSet 1 [period seq]) ps) as [r|].
  - destruct Hm as [_ He]. rewrite seqs_as_set_extent, <- Hone, <- He.
    unfold seqs_extent, periodset_extent. split.
    + intros [f [Hf Ht]]. apply in_map_iff in Hf. destruct Hf as [q [<- Hq]].
      exists q. auto.
    + intros [q [Hq Ht]]. exists (seq_with_period seq q).
      split; [apply in_map; exact Hq | exact Ht].
  - cbn [temporals_extent]. split; [contradiction|].
    intros [Hin Hn]. apply Hn, Hm, Hone, Hin.
Qed.

Lemma contains_period_trans (p q r : Period) :
  contains_period_period_internal p q = true ->
  contains_period_period_internal q r = true ->
  contains_period_period_internal p r = true.
Proof.
  rewrite !contains_period_iff. intros [Hl1 Hu1] [Hl2 Hu2]. split.
  - destruct (Z.eq_dec (lower p) (lower r)) as [E|E]; [right|left].
    + split; [exact E|].
      destruct Hl1 as [?|[? [?|?]]], Hl2 as [?|[? [?|?]]]; try lia; auto.
      destruct (lower_inc p); [auto|]. right. congruence.
    + destruct Hl1 as [?|[? _]], Hl2 as [?|[? _]]; lia.
  - destruct (Z.eq_dec (upper r) (upper p)) as [E|E]; [right|left].
    + split; [exact E|].
      destruct Hu1 as [?|[? [?|?]]], Hu2 as [?|[? [?|?]]]; try lia; auto.
      destruct (upper_inc p); [auto|]. right. congruence.
    + destruct Hu1 as [?|[? _]], Hu2 as [?|[? _]]; lia.
Qed.

Lemma minus_periods_model_none (l : list Period) :
  fold_left (fun acc p => match acc with
                          | Some r => minus_periodset_period_model r p
                          | None => None
                          end) l None = None.
Proof. induction l as [|p l IH]; [reflexivity | exact IH]. Qed.

(** Once every period left lies within one of the periods still to be
    taken away, nothing is left in the end. *)
Lemma minus_periods_model_null :
  forall (l : list Period) (a : PeriodSet),
    forallb period_valid l = true ->
    periodset_valid a -> ps_periods a <> [] ->
    (forall q, In q (ps_periods a) ->
       exists p, In p l /\ contains_period_period_internal p q = true) ->
    fold_left (fun acc p => match acc with
                            | Some r => minus_periodset_period_model r p
                            | None => None
                            end) l (Some a) = None.
Proof.
  induction l as [|p l IH]; intros a Hl Ha Hne Hc.
  - destruct (ps_periods a) as [|q rest]; [congruence|].
    destruct (Hc q (or_introl eq_refl)) as [p [[] _]].
  - cbn [forallb] in Hl. apply andb_true_iff in Hl. destruct Hl as [Hp Hl].
    cbn [fold_left].
    pose proof (minus_periodset_period_model_spec a p Ha Hp) as Hstep.
    destruct (minus_periodset_period_model a p) as [r|] eqn:Er;
      [|apply minus_periods_model_none].
    destruct Hstep as [Hrv _].
    apply IH; [exact Hl | exact Hrv | |].
    + unfold minus_periodset_period_model in Er.
      destruct (flat_map _ (ps_periods a)); [discriminate|].
      injection Er as <-. discriminate.
    + intros q' Hq'.
      assert (Hin : In q' (flat_map (fun q => minus_period_period_model q p)
                                    (ps_periods a))).
      { unfold minus_periodset_period_model in Er.
        destruct (flat_map _ (ps_periods a)) as [|x xs]; [discriminate|].
        injection Er as <-. exact Hq'. }
      apply in_flat_map in Hin. destruct Hin as [q [Hq Hpiece]].
      assert (Hqv : period_valid q = true).
      { destruct Ha as [Hv _]. rewrite forallb_forall in Hv. auto. }
      destruct (Hc q Hq) as [p0 [[<-|Hp0] Hcont]].
      * rewrite (minus_period_period_model_contained q p Hqv Hcont) in Hpiece.
        destruct Hpiece.
      * exists p0. split; [exact Hp0|].
        apply (contains_period_trans p0 q q' Hcont).
        destruct (minus_period_period_model_spec q p Hqv Hp) as [Hw _].
        rewrite Forall_forall in Hw. apply (Hw q' Hpiece).
Qed.

Lemma minus_periodset_periodset_model_null (ps1 ps : PeriodSet) :
  periodset_valid ps1 -> periodset_valid ps -> ps_periods ps1 <> [] ->
  (forall q, In q (ps_periods ps1) ->
     exists p, In p (ps_periods ps) /\ contains_period_period_internal p q = true) ->
  minus_periodset_periodset_model ps1 ps = None.
Proof.
  intros H1 [Hv _] Hne Hc. unfold minus_periodset_periodset_model.
  apply minus_periods_model_null; assumption.
Qed.

(** On the periods [0,10], [20,30].  With the period set of [5,25] the
    restriction is over [5,10], [20,25] and the complement over [0,5),
    (25,30].  With the period set of [0,30] the restriction is the whole
    set and the complement does not return. *)
Lemma temporals_at_minus_periodset_partition_witness :
  (exists A M,
     temporals_at_periodset false 0 0 example_srid normalize_none (fun _ => 0)
       time_box temporalseq_at_periodset_model temporalseq_at_periodset1_model
       sync_left (mkPeriodSet 1 [mkPeriod 5 25 true true]) = Ok (Some A) /\
     temporals_minus_periodset false 0 0 example_srid normalize_none (fun _ => 0)
       time_box temporalseq_at_periodset_model temporalseq_at_periodset1_model
       periodset_from_periodarr_model temporalseq_minus_periodset_model
       minus_periodset_periodset_model
       sync_left (mkPeriodSet 1 [mkPeriod 5 25 true true]) = Ok (Some M) /\
     map period (sequences A) = [mkPeriod 5 10 true true; mkPeriod 20 25 true true] /\
     map period (sequences M) = [mkPeriod 0 5 true false; mkPeriod 25 30 false true] /\
     (forall t, seqs_extent (sequences A) t \/ seqs_extent (sequences M) t <->
                seqs_extent (sequences sync_left) t)) /\
  (exists A,
     temporals_at_periodset false 0 0 example_srid normalize_none (fun _ => 0)
       time_box temporalseq_at_periodset_model temporalseq_at_periodset1_model
       sync_left (mkPeriodSet 1 [mkPeriod 0 30 true true]) = Ok (Some A) /\
     map period (sequences A) = [mkPeriod 0 10 true true; mkPeriod 20 30 true true]) /\
  temporals_minus_periodset false 0 0 example_srid normalize_none (fun _ => 0)
    time_box temporalseq_at_periodset_model temporalseq_at_periodset1_model
    periodset_from_periodarr_model temporalseq_minus_periodset_model
    minus_periodset_periodset_model
    sync_left (mkPeriodSet 1 [mkPeriod 0 30 true true]) = Fault.
Proof.
  pose proof (temporals_at_minus_periodset_partition false 0 0 example_srid
                normalize_none (fun _ => 0) time_box
                temporalseq_at_periodset_model temporalseq_at_periodset1_model
                periodset_from_periodarr_model temporalseq_minus_periodset_model
                minus_periodset_periodset_model) as Hthm.
  assert (Hsets : forall ps, periodset_valid ps ->
    exists A,
      temporals_at_periodset false 0 0 example_srid normalize_none (fun _ => 0)
        time_box temporalseq_at_periodset_model temporalseq_at_periodset1_model
        sync_left ps = Ok A /\
      (forall t, temporals_extent A t <->
                 seqs_extent (sequences sync_left) t /\ periodset_extent ps t) /\
      ((count sync_left = 1 \/
        exists t, seqs_extent (sequences sync_left) t /\ ~ periodset_extent ps t) ->
       exists M,
         temporals_minus_periodset false 0 0 example_srid normalize_none
           (fun _ => 0) time_box temporalseq_at_periodset_model
           temporalseq_at_periodset1_model periodset_from_periodarr_model
           temporalseq_minus_periodset_model minus_periodset_periodset_model
           sync_left ps = Ok M /\
         (forall t, ~ (temporals_extent A t /\ temporals_extent M t)) /\
         (forall t, temporals_extent A t \/ temporals_extent M t <->
                    seqs_extent (sequences sync_left) t)) /\
      (count sync_left <> 1 ->
       (forall s, In s (sequences sync_left) ->
          exists p, In p (ps_periods ps) /\
                    contains_period_period_internal p (period s) = true) ->
       temporals_minus_periodset false 0 0 example_srid normalize_none
         (fun _ => 0) time_box temporalseq_at_periodset_model
         temporalseq_at_periodset1_model periodset_from_periodarr_model
         temporalseq_minus_periodset_model minus_periodset_periodset_model
         sync_left ps = Fault)).
  { intros ps Hps. apply Hthm.
    - intros seq ps' t Hs Hps'. unfold temporalseq_at_periodset_model.
      rewrite seqs_as_set_extent.
      apply (temporalseq_at_periodset1_model_spec seq ps' Hs Hps').
    - exact temporalseq_minus_periodset_model_spec.
    - exact temporalseq_at_periodset1_model_spec.
    - intros l Hne _. split; [exact Hne|]. intros t. reflexivity.
    - intros periods n. reflexivity.
    - exact minus_periodset_periodset_model_spec.
    - exact minus_periodset_periodset_model_null.
    - unfold valid_temporals. simpl. repeat split; try reflexivity; lia.
    - intros a b [<-|[<-|[]]] [<-|[<-|[]]]; split; reflexivity.
    - exact Hps. }
  split; [|split].
  - destruct (Hsets (mkPeriodSet 1 [mkPeriod 5 25 true true]))
      as [A [HA [_ [Hpart _]]]]; [split; reflexivity|].
    destruct Hpart as [M [HM [_ Hcov]]].
    { right. exists 0. split.
      - exists (closed_seq 0 10). split; [left; reflexivity | reflexivity].
      - intros [q [[<-|[]] Hq]]. unfold in_period in Hq. cbn in Hq. discriminate. }
    assert (HA' : temporals_at_periodset false 0 0 example_srid normalize_none
                    (fun _ => 0) time_box temporalseq_at_periodset_model
                    temporalseq_at_periodset1_model
                    sync_left (mkPeriodSet 1 [mkPeriod 5 25 true true])
                  = Ok (Some (mkTS 2 23 (mkFlags false false false)
                          [seq_with_period (closed_seq 0 10) (mkPeriod 5 10 true true);
                           seq_with_period (closed_seq 20 30) (mkPeriod 20 25 true true)]
                          None)))
      by reflexivity.
    assert (HM' : temporals_minus_periodset false 0 0 example_srid normalize_none
                    (fun _ => 0) time_box temporalseq_at_periodset_model
                    temporalseq_at_periodset1_model periodset_from_periodarr_model
                    temporalseq_minus_periodset_model minus_periodset_periodset_model
                    sync_left (mkPeriodSet 1 [mkPeriod 5 25 true true])
                  = Ok (Some (mkTS 2 23 (mkFlags false false false)
                          [seq_with_period (closed_seq 0 10) (mkPeriod 0 5 true false);
                           seq_with_period (closed_seq 20 30) (mkPeriod 25 30 false true)]
                          None)))
      by reflexivity.
    rewrite HA' in HA. rewrite HM' in HM.
    injection HA as <-. injection HM as <-.
    do 2 eexists. split; [reflexivity|]. split; [reflexivity|].
    split; [reflexivity|]. split; [reflexivity|]. exact Hcov.
  - eexists. split; reflexivity.
  - destruct (Hsets (mkPeriodSet 1 [mkPeriod 0 30 true true]))
      as [A [_ [_ [_ Hfault]]]]; [split; reflexivity|].
    apply Hfault; [simpl; discriminate|].
    intros s [<-|[<-|[]]]; exists (mkPeriod 0 30 true true);
      (split; [left; reflexivity | reflexivity]).
Defined.

(** ** Intersection with a period set and with a sequence *)

Lemma intersects_periodset_loop_spec (ts : TemporalS) (ps : PeriodSet) :
  valid_temporals ts -> count ts <= 2 ^ 30 ->
  forall (rest pre : list Period),
    ps_periods ps = pre ++ rest ->
    forallb period_valid rest = true ->
    exists b,
      intersects_periodset_loop (length rest) ts ps (Z.of_nat (length pre)) = Some b /\
      ((exists s p, In s (sequences ts) /\ In p rest /\
                    overlaps_period_period_internal (period s) p = true) ->
       b = true) /\
      ((forall p, In p rest -> lower_inc p = true /\ upper_inc p = true) ->
       b = true ->
       exists s p, In s (sequences ts) /\ In p rest /\
                   overlaps_period_period_internal (period s) p = true).
Proof.
  intros Hvalid Hsz. induction rest as [|p rest IH]; intros pre E Hv.
  - exists false. split; [reflexivity|]. split.
    + intros [s [p [_ [[] _]]]].
    + intros _ H. discriminate H.
  - cbn [forallb] in Hv. apply andb_true_iff in Hv. destruct Hv as [Hp Hv].
    cbn [length intersects_periodset_loop]. unfold periodset_per_n.
    rewrite E, array_get_middle.
    destruct (intersects_period_answer ts p Hvalid Hsz Hp) as [b [Hb [Hc Hs]]].
    rewrite Hb. destruct b.
    + exists true. split; [reflexivity|]. split; [reflexivity|].
      intros Hinc _. destruct (Hinc p (or_introl eq_refl)) as [Hl Hu].
      destruct (Hs Hl Hu eq_refl) as [s [Hin Ho]].
      exists s, p. split; [exact Hin|]. split; [left; reflexivity | exact Ho].
    + replace (Z.of_nat (length pre) + 1) with (Z.of_nat (length (pre ++ [p])))
        by (rewrite length_app; cbn [length]; lia).
      destruct (IH (pre ++ [p])) as [b [Hrun [Hc' Hs']]]; [|exact Hv|].
      { rewrite <- app_assoc. exact E. }
      exists b. split; [exact Hrun|]. split.
      * intros [s [q [Hin [[<-|Hq] Ho]]]].
        -- assert (H : false = true) by (apply Hc; exists s; auto). discriminate H.
        -- apply Hc'. exists s, q. auto.
      * intros Hinc Hbt.
        destruct (Hs' (fun q Hq => Hinc q (or_intror Hq)) Hbt) as [s [q [Hin [Hq Ho]]]].
        exists s, q. split; [exact Hin|]. split; [right; exact Hq | exact Ho].
Qed.

(** X23.  Intersection with a period set and with a sequence.  On a
    valid sequence set, [temporals_intersects_periodset] for a set of
    valid periods and [temporals_intersects_temporalseq] for a sequence
    with a valid period return, and return [true] whenever the period of
    some sequence of the set overlaps a period given: they have no false
    negative.  When all the bounds of the periods given are inclusive,
    [true] means that some such overlap exists. *)
Theorem temporals_intersects_periodset_complete (ts : TemporalS) :
  valid_temporals ts -> count ts <= 2 ^ 30 ->
  (forall ps,
     ps_count ps = Z.of_nat (length (ps_periods ps)) ->
     forallb period_valid (ps_periods ps) = true ->
     exists b,
       temporals_intersects_periodset ts ps = Some b /\
       ((exists s p, In s (sequences ts) /\ In p (ps_periods ps) /\
                     overlaps_period_period_internal (period s) p = true) ->
        b = true) /\
       ((forall p, In p (ps_periods ps) -> lower_inc p = true /\ upper_inc p = true) ->
        b = true ->
        exists s p, In s (sequences ts) /\ In p (ps_periods ps) /\
                    overlaps_period_period_internal (period s) p = true)) /\
  (forall seq,
     period_valid (period seq) = true ->
     exists b,
       temporals_intersects_temporalseq ts seq = Some b /\
       ((exists s, In s (sequences ts) /\
                   overlaps_period_period_internal (period s) (period seq) = true) ->
        b = true) /\
       (lower_inc (period seq) = true -> upper_inc (period seq) = true -> b = true ->
        exists s, In s (sequences ts) /\
                  overlaps_period_period_internal (period s) (period seq) = true)).
Proof.
  intros Hvalid Hsz. split.
  - intros ps Hcnt Hv. unfold temporals_intersects_periodset.
    rewrite Hcnt, Nat2Z.id.
    exact (intersects_periodset_loop_spec ts ps Hvalid Hsz (ps_periods ps) []
             eq_refl Hv).
  - intros seq Hv. unfold temporals_intersects_temporalseq.
    exact (intersects_period_answer ts (period seq) Hvalid Hsz Hv).
Qed.

(** The set on [0,10], [20,30], [40,50] and the period set of [12,15],
    [25,35]: the second period overlaps the second sequence. *)
Lemma temporals_intersects_periodset_complete_witness :
  temporals_intersects_periodset example_ts
    (mkPeriodSet 2 [mkPeriod 12 15 true true; mkPeriod 25 35 true true]) = Some true /\
  exists b,
    temporals_intersects_periodset example_ts
      (mkPeriodSet 2 [mkPeriod 12 15 true true; mkPeriod 25 35 true true]) = Some b /\
    ((exists s p, In s (sequences example_ts) /\
                  In p [mkPeriod 12 15 true true; mkPeriod 25 35 true true] /\
                  overlaps_period_period_internal (period s) p = true) ->
     b = true).
Proof.
  split; [reflexivity|].
  destruct (temporals_intersects_periodset_complete example_ts) as [Hps _].
  - unfold valid_temporals. simpl. repeat split; try reflexivity; lia.
  - simpl. lia.
  - destruct (Hps (mkPeriodSet 2 [mkPeriod 12 15 true true; mkPeriod 25 35 true true])
                eq_refl eq_refl) as [b [Hb [Hc _]]].
    exists b. split; [exact Hb | exact Hc].
Defined.

(** * Properties of the GiST support functions *)

Lemma array_set_at {A : Type} (pre : list A) (x y : A) (rest : list A) (p : Z) :
  p = Z.of_nat (length pre) ->
  array_set (pre ++ x :: rest) p y = pre ++ y :: rest.
Proof.
  intros ->. unfold array_set.
  replace (Z.of_nat (length pre) <? 0) with false by (symmetry; apply Z.ltb_ge; lia).
  rewrite Nat2Z.id. apply list_set_app.
Qed.

Lemma cvttsd2si_defined (range : Z -> bool) (least : Z) :
  conversion_defined range (cvttsd2si range least).
Proof.
  intros d z Hd Hr. unfold cvttsd2si. rewrite Hd, Hr. reflexivity.
Qed.

Section GistProps.

Variable Temporal : Type.
Variable temporal_bbox : Temporal -> Geo.BOX.
Variable double_to_int : PrimFloat.float -> Z.
Variable double_to_timestamp : PrimFloat.float -> TimestampTz.
Variable Int32GetDatum : Z -> Datum.
Variable Float8GetDatum : PrimFloat.float -> Datum.

(** The platform converts as C says wherever C says anything. *)
Hypothesis double_to_int_defined : conversion_defined int_range double_to_int.
Hypothesis double_to_timestamp_defined :
  conversion_defined int64_range double_to_timestamp.

Lemma heap_load_at (pre : heap Temporal) (c : option (object Temporal))
    (rest : heap Temporal) (p : Z) :
  p = Z.of_nat (length pre) ->
  heap_load Temporal (pre ++ c :: rest) p = c.
Proof.
  intros ->. unfold heap_load. rewrite array_get_middle. destruct c; reflexivity.
Qed.

(** A live chunk stays where it is when the heap grows. *)
Lemma heap_load_grow (h more : heap Temporal) (p : Z) (o : object Temporal) :
  heap_load Temporal h p = Some o -> heap_load Temporal (h ++ more) p = Some o.
Proof.
  unfold heap_load. destruct (array_get h p) as [c|] eqn:E; [|discriminate].
  intros Hc. pose proof (array_get_bounds _ _ _ E) as Hb.
  rewrite array_get_nat in E |- * by lia.
  rewrite nth_error_app1 by lia. rewrite E. exact Hc.
Qed.

(** The entry is written into the chunk allocated for it, which comes
    before the chunk of its key. *)
Lemma gistentryinit_new (h : heap Temporal) (o : object Temporal) (e : GISTENTRY) :
  gistentryinit Temporal ((h ++ [Some (ORaw Temporal)]) ++ [Some o])
    (Z.of_nat (length h)) (key e) (rel e) (page e) (offset e) (leafkey e)
  = Ok (h ++ [Some (OEntry Temporal e); Some o]).
Proof.
  unfold gistentryinit, heap_store. rewrite <- app_assoc. cbn [app].
  rewrite heap_load_at by reflexivity.
  rewrite array_set_at by reflexivity. destruct e. reflexivity.
Qed.

Lemma new_entry_key (h : heap Temporal) (entry : GISTENTRY) (c : option (object Temporal)) :
  key (new_entry Temporal h entry) = Z.of_nat (length (h ++ [c])).
Proof.
  unfold new_entry. cbn [key]. rewrite length_app. cbn [length]. lia.
Qed.

(** The key of a new entry is the chunk after the entry. *)
Lemma heap_load_key (h : heap Temporal) (entry : GISTENTRY) (o : object Temporal) :
  heap_load Temporal
    (h ++ [Some (OEntry Temporal (new_entry Temporal h entry)); Some o])
    (key (new_entry Temporal h entry)) = Some o.
Proof.
  replace (h ++ [Some (OEntry Temporal (new_entry Temporal h entry)); Some o])
    with ((h ++ [Some (OEntry Temporal (new_entry Temporal h entry))]) ++ [Some o])
    by (rewrite <- app_assoc; reflexivity).
  apply heap_load_at. apply new_entry_key.
Qed.

Lemma gist_tintinst_fetch_run (h : heap Temporal) (entry_ptr : Z)
    (entry : GISTENTRY) (box : Geo.BOX) :
  heap_load Temporal h entry_ptr = Some (OEntry Temporal entry) ->
  heap_load Temporal h (key entry) = Some (OBox Temporal box) ->
  gist_tintinst_fetch Temporal double_to_int double_to_timestamp Int32GetDatum
    h entry_ptr =
  Ok (h ++ [Some (OEntry Temporal (new_entry Temporal h entry));
            Some (OInst Temporal
                    (mkInst (Int32GetDatum (double_to_int (Geo.x (Geo.high box))))
                            (double_to_timestamp (Geo.y (Geo.high box))) INT4OID))],
      Z.of_nat (length h)).
Proof.
  intros He Hb.
  unfold gist_tintinst_fetch, temporalinst_make, heap_alloc. rewrite He, Hb.
  pose proof (gistentryinit_new h
                (OInst Temporal
                   (mkInst (Int32GetDatum (double_to_int (Geo.x (Geo.high box))))
                           (double_to_timestamp (Geo.y (Geo.high box))) INT4OID))
                (new_entry Temporal h entry)) as Hinit.
  unfold new_entry in Hinit at 1 2 3 4 5. cbn [key rel page offset leafkey] in Hinit.
  replace (Z.of_nat (length (h ++ [Some (ORaw Temporal)])))
    with (Z.of_nat (length h) + 1) by (rewrite length_app; cbn [length]; lia).
  rewrite Hinit. reflexivity.
Qed.

Lemma gist_tfloatinst_fetch_run (h : heap Temporal) (entry_ptr : Z)
    (entry : GISTENTRY) (box : Geo.BOX) :
  heap_load Temporal h entry_ptr = Some (OEntry Temporal entry) ->
  heap_load Temporal h (key entry) = Some (OBox Temporal box) ->
  gist_tfloatinst_fetch Temporal double_to_timestamp Float8GetDatum h entry_ptr =
  Ok (h ++ [Some (OEntry Temporal (new_entry Temporal h entry)); None],
      Z.of_nat (length h)).
Proof.
  intros He Hb.
  unfold gist_tfloatinst_fetch, temporalinst_make, heap_alloc. rewrite He, Hb.
  set (o := OInst Temporal
              (mkInst (Float8GetDatum (Geo.x (Geo.high box)))
                      (double_to_timestamp (Geo.y (Geo.high box))) FLOAT8OID)).
  pose proof (gistentryinit_new h o (new_entry Temporal h entry)) as Hinit.
  unfold new_entry in Hinit at 1 2 3 4 5. cbn [key rel page offset leafkey] in Hinit.
  replace (Z.of_nat (length (h ++ [Some (ORaw Temporal)])))
    with (Z.of_nat (length h) + 1) by (rewrite length_app; cbn [length]; lia).
  rewrite Hinit. cbn [bind].
  change (Z.of_nat (length h) + 1) with (key (new_entry Temporal h entry)).
  unfold heap_free. rewrite heap_load_key.
  replace (h ++ [Some (OEntry Temporal (new_entry Temporal h entry)); Some o])
    with ((h ++ [Some (OEntry Temporal (new_entry Temporal h entry))]) ++ [Some o])
    by (rewrite <- app_assoc; reflexivity).
  rewrite array_set_at by apply new_entry_key.
  rewrite <- app_assoc. reflexivity.
Qed.

Lemma gist_tnumber_compress_run (h : heap Temporal) (entry_ptr : Z)
    (entry : GISTENTRY) (temp : Temporal) :
  heap_load Temporal h entry_ptr = Some (OEntry Temporal entry) ->
  leafkey entry = true ->
  heap_load Temporal h (key entry) = Some (OTemporal Temporal temp) ->
  gist_tnumber_compress Temporal temporal_bbox h entry_ptr =
  Ok (h ++ [Some (OEntry Temporal (new_entry Temporal h entry));
            Some (OBox Temporal (temporal_bbox temp))],
      Z.of_nat (length h)).
Proof.
  intros He Hleaf Ht.
  unfold gist_tnumber_compress, heap_alloc. rewrite He, Hleaf.
  rewrite (heap_load_grow h [Some (ORaw Temporal)] _ _ Ht).
  unfold heap_store at 1.
  rewrite (heap_load_at (h ++ [Some (ORaw Temporal)]) (Some (ORaw Temporal)) [])
    by reflexivity.
  rewrite array_set_at by reflexivity. cbn [bind].
  pose proof (gistentryinit_new h (OBox Temporal (temporal_bbox temp))
                (new_entry Temporal h entry)) as Hinit.
  unfold new_entry in Hinit at 1 2 3 4 5. cbn [key rel page offset leafkey] in Hinit.
  replace (Z.of_nat (length (h ++ [Some (ORaw Temporal)])))
    with (Z.of_nat (length h) + 1) by (rewrite length_app; cbn [length]; lia).
  rewrite Hinit. reflexivity.
Qed.

(** X24.  The fetch methods.  From an entry whose key is a box, each
    returns a new entry, not a leaf key and with the relation, page and
    offset of the entry given, and leaves the memory it found as it was.
    The key of the entry that [gist_tintinst_fetch] returns is a live
    integer instant: where the upper corner of the box, its fraction
    dropped, is an [int] in [x], that is the value of the instant, and
    where it is a 64-bit integer in [y], that is its timestamp; outside
    those ranges C leaves the conversions undefined and nothing is said.
    The key of the entry that [gist_tfloatinst_fetch] returns is the
    instant it has just freed: a read through it is a read of freed
    memory. *)
Theorem gist_fetch_key (h : heap Temporal) (entry_ptr : Z) (entry : GISTENTRY)
    (box : Geo.BOX) :
  heap_load Temporal h entry_ptr = Some (OEntry Temporal entry) ->
  heap_load Temporal h (key entry) = Some (OBox Temporal box) ->
  let fetched := fun (h' : heap Temporal) (retval : Z) (e : GISTENTRY) =>
    heap_load Temporal h' retval = Some (OEntry Temporal e) /\
    leafkey e = false /\ rel e = rel entry /\ page e = page entry /\
    offset e = offset entry /\
    (forall p o, heap_load Temporal h p = Some o -> heap_load Temporal h' p = Some o) in
  (exists h' retval e inst,
     gist_tintinst_fetch Temporal double_to_int double_to_timestamp Int32GetDatum
       h entry_ptr = Ok (h', retval) /\
     fetched h' retval e /\
     heap_load Temporal h' (key e) = Some (OInst Temporal inst) /\
     inst_valuetypid inst = INT4OID /\
     (forall v, double_trunc (Geo.x (Geo.high box)) = Some v ->
                int_range v = true -> inst_value inst = Int32GetDatum v) /\
     (forall t, double_trunc (Geo.y (Geo.high box)) = Some t ->
                int64_range t = true -> inst_t inst = t)) /\
  (exists h' retval e,
     gist_tfloatinst_fetch Temporal double_to_timestamp Float8GetDatum
       h entry_ptr = Ok (h', retval) /\
     fetched h' retval e /\
     heap_load Temporal h' (key e) = None /\
     heap_free Temporal h' (key e) = Fault).
Proof.
  intros He Hb fetched.
  assert (Hfetched : forall c, fetched (h ++ [Some (OEntry Temporal
                                                       (new_entry Temporal h entry)); c])
                                 (Z.of_nat (length h)) (new_entry Temporal h entry)).
  { intros c. unfold fetched. split; [apply heap_load_at; reflexivity|].
    cbn [new_entry leafkey rel page offset]. repeat split; auto.
    intros p o Hp. apply heap_load_grow. exact Hp. }
  split.
  - rewrite (gist_tintinst_fetch_run h entry_ptr entry box He Hb).
    do 4 eexists. split; [reflexivity|]. split; [apply Hfetched|].
    split; [apply heap_load_key|]. cbn [inst_valuetypid inst_value inst_t].
    split; [reflexivity|]. split.
    + intros v Hv Hr. rewrite (double_to_int_defined _ _ Hv Hr). reflexivity.
    + intros t Ht Hr. apply (double_to_timestamp_defined _ _ Ht Hr).
  - rewrite (gist_tfloatinst_fetch_run h entry_ptr entry box He Hb).
    do 3 eexists. split; [reflexivity|]. split; [apply Hfetched|].
    assert (Hnone : heap_load Temporal
                      (h ++ [Some (OEntry Temporal (new_entry Temporal h entry)); None])
                      (key (new_entry Temporal h entry)) = None).
    { replace (h ++ [Some (OEntry Temporal (new_entry Temporal h entry)); None])
        with ((h ++ [Some (OEntry Temporal (new_entry Temporal h entry))]) ++ [None])
        by (rewrite <- app_assoc; reflexivity).
      apply heap_load_at. apply new_entry_key. }
    split; [exact Hnone|]. unfold heap_free. rewrite Hnone. reflexivity.
Qed.

(** X25.  Compress, then fetch.  From a leaf key whose key is a temporal
    value, [gist_tnumber_compress] returns a new entry whose key is the
    bounding box of the value; the memory it found is as it was.  That
    entry is not a leaf key, and compressing it again returns it as it is.
    [gist_tintinst_fetch] makes of it an entry whose key is a live integer
    instant, with for value and timestamp the upper corner of that box,
    its fractions dropped, where those are an [int] and a 64-bit
    integer. *)
Theorem gist_compress_fetch (h : heap Temporal) (entry_ptr : Z)
    (entry : GISTENTRY) (temp : Temporal) :
  heap_load Temporal h entry_ptr = Some (OEntry Temporal entry) ->
  leafkey entry = true ->
  heap_load Temporal h (key entry) = Some (OTemporal Temporal temp) ->
  exists h1 p1 e1,
    gist_tnumber_compress Temporal temporal_bbox h entry_ptr = Ok (h1, p1) /\
    heap_load Temporal h1 p1 = Some (OEntry Temporal e1) /\
    leafkey e1 = false /\
    heap_load Temporal h1 (key e1) = Some (OBox Temporal (temporal_bbox temp)) /\
    (forall p o, heap_load Temporal h p = Some o -> heap_load Temporal h1 p = Some o) /\
    gist_tnumber_compress Temporal temporal_bbox h1 p1 = Ok (h1, p1) /\
    exists h2 p2 e2 inst,
      gist_tintinst_fetch Temporal double_to_int double_to_timestamp Int32GetDatum
        h1 p1 = Ok (h2, p2) /\
      heap_load Temporal h2 p2 = Some (OEntry Temporal e2) /\
      heap_load Temporal h2 (key e2) = Some (OInst Temporal inst) /\
      inst_valuetypid inst = INT4OID /\
      (forall v, double_trunc (Geo.x (Geo.high (temporal_bbox temp))) = Some v ->
                 int_range v = true -> inst_value inst = Int32GetDatum v) /\
      (forall t, double_trunc (Geo.y (Geo.high (temporal_bbox temp))) = Some t ->
                 int64_range t = true -> inst_t inst = t).
Proof.
  intros He Hleaf Ht.
  set (h1 := h ++ [Some (OEntry Temporal (new_entry Temporal h entry));
                   Some (OBox Temporal (temporal_bbox temp))]).
  assert (Hp1 : heap_load Temporal h1 (Z.of_nat (length h))
                = Some (OEntry Temporal (new_entry Temporal h entry)))
    by (apply heap_load_at; reflexivity).
  assert (Hk1 : heap_load Temporal h1 (key (new_entry Temporal h entry))
                = Some (OBox Temporal (temporal_bbox temp)))
    by apply heap_load_key.
  exists h1, (Z.of_nat (length h)), (new_entry Temporal h entry).
  split; [apply gist_tnumber_compress_run; assumption|].
  split; [exact Hp1|]. split; [reflexivity|]. split; [exact Hk1|].
  split; [intros p o Hp; apply heap_load_grow; exact Hp|].
  split.
  { unfold gist_tnumber_compress. rewrite Hp1. reflexivity. }
  rewrite (gist_tintinst_fetch_run h1 _ _ _ Hp1 Hk1).
  do 4 eexists. split; [reflexivity|]. split.
  - apply heap_load_at. reflexivity.
  - split; [apply heap_load_key|]. cbn [inst_valuetypid inst_value inst_t].
    split; [reflexivity|]. split.
    + intros v Hv Hr. rewrite (double_to_int_defined _ _ Hv Hr). reflexivity.
    + intros t Ht' Hr. apply (double_to_timestamp_defined _ _ Ht' Hr).
Qed.

End GistProps.

(** An entry at address 0 whose key is the box at address 1, with the
    upper corner (5.75, 10): the integer fetch gives the instant 5 at 10,
    the float fetch an entry whose key is freed. *)
Lemma gist_fetch_key_witness :
  (exists h' retval e,
     gist_tintinst_fetch unit (cvttsd2si int_range (- 2 ^ 31))
       (cvttsd2si int64_range (- 2 ^ 63)) (fun v => v)
       [Some (OEntry unit (mkEntry 1 7 3 2 true));
        Some (OBox unit fetch_box_example)] 0
     = Ok (h', retval) /\
     heap_load unit h' retval = Some (OEntry unit e) /\
     heap_load unit h' (key e) = Some (OInst unit (mkInst 5 10 INT4OID))) /\
  (exists h' retval e,
     gist_tfloatinst_fetch unit (cvttsd2si int64_range (- 2 ^ 63)) (fun _ => 0)
       [Some (OEntry unit (mkEntry 1 7 3 2 true));
        Some (OBox unit fetch_box_example)] 0
     = Ok (h', retval) /\
     heap_load unit h' retval = Some (OEntry unit e) /\
     heap_load unit h' (key e) = None).
Proof.
  destruct (gist_fetch_key unit (cvttsd2si int_range (- 2 ^ 31))
              (cvttsd2si int64_range (- 2 ^ 63)) (fun v => v) (fun _ => 0)
              (cvttsd2si_defined _ _) (cvttsd2si_defined _ _)
              [Some (OEntry unit (mkEntry 1 7 3 2 true));
               Some (OBox unit fetch_box_example)]
              0 (mkEntry 1 7 3 2 true) fetch_box_example eq_refl eq_refl)
    as [[h1 [r1 [e1 [inst [Hrun1 [[Hload1 _] [Hkey1 [Htyp [Hval Htime]]]]]]]]]
        [h2 [r2 [e2 [Hrun2 [[Hload2 _] [Hkey2 _]]]]]]].
  split.
  - exists h1, r1, e1. split; [exact Hrun1|]. split; [exact Hload1|].
    rewrite Hkey1. destruct inst as [v t o].
    cbn [inst_valuetypid inst_value inst_t] in Htyp, Hval, Htime.
    rewrite Htyp, (Hval 5 eq_refl eq_refl), (Htime 10 eq_refl eq_refl).
    reflexivity.
  - exists h2, r2, e2. repeat split; assumption.
Defined.

(** A leaf key at address 0 for the value at address 1, an instant with
    the value 5 at the timestamp 10: compressed and fetched, it is that
    instant again. *)
Lemma gist_compress_fetch_witness :
  exists h1 p1 h2 p2 e2,
    gist_tnumber_compress TemporalInst instant_box
      [Some (OEntry TemporalInst (mkEntry 1 7 3 2 true));
       Some (OTemporal TemporalInst (mkInst 5 10 INT4OID))] 0 = Ok (h1, p1) /\
    gist_tintinst_fetch TemporalInst (cvttsd2si int_range (- 2 ^ 31))
      (cvttsd2si int64_range (- 2 ^ 63)) (fun v => v) h1 p1 = Ok (h2, p2) /\
    heap_load TemporalInst h2 p2 = Some (OEntry TemporalInst e2) /\
    heap_load TemporalInst h2 (key e2)
    = Some (OInst TemporalInst (mkInst 5 10 INT4OID)).
Proof.
  destruct (gist_compress_fetch TemporalInst instant_box
              (cvttsd2si int_range (- 2 ^ 31)) (cvttsd2si int64_range (- 2 ^ 63))
              (fun v => v) (cvttsd2si_defined _ _) (cvttsd2si_defined _ _)
              [Some (OEntry TemporalInst (mkEntry 1 7 3 2 true));
               Some (OTemporal TemporalInst (mkInst 5 10 INT4OID))]
              0 (mkEntry 1 7 3 2 true) (mkInst 5 10 INT4OID) eq_refl eq_refl eq_refl)
    as [h1 [p1 [e1 [H1 [_ [_ [_ [_ [_ [h2 [p2 [e2 [inst
         [H2 [H3 [H4 [Htyp [Hval Htime]]]]]]]]]]]]]]]]]].
  exists h1, p1, h2, p2, e2. split; [exact H1|]. split; [exact H2|].
  split; [exact H3|]. rewrite H4. destruct inst as [v t o].
  cbn [inst_valuetypid inst_value inst_t] in Htyp, Hval, Htime.
  rewrite Htyp, (Hval 5 eq_refl eq_refl), (Htime 10 eq_refl eq_refl).
  reflexivity.
Defined.
